(* ===== verification/_CoqProject ===== *)
-Q . S2P
Prelude.v
JsMonad.v
JsArray.v
Promise.v
Channel.v
Invariant.v
Trace.v
Adoption.v
Jobs.v
History.v
Properties.v
Tasks.v
World.v
Pipeline.v
Delivery.v
Limits.v
Handle.v
Types.v
Loop.v
Sched.v
Program.v
Faults.v
Spec.v
Scenarios.v
