(* ===== verification/Prelude.v ===== *)
(** * barebones-channel: a verified model of the promise-based channel

    The program ([src/index.js]) is one closure, [createChannel], around three
    variables ([isClosed], [messageQueue], [resolveQueue]) and three operations
    ([put], [take], [close]) that a frozen handle exposes, together with the
    exported sentinel [CLOSED].  The operations call into the JavaScript
    runtime: [Array.prototype.push/shift/map], the truthiness of [.length],
    [Promise.resolve], [new Promise(executor)] and the resolving function the
    runtime hands to the executor.  The tests ([src/__tests__/tests.js]) are
    functions, some of them [async], that call a new channel, [await] the
    promises it returns and state expectations.

    ** Files, from the runtime up

    - [Prelude] (this file): the tactics, the hint database [chan], the rewrite
      databases [js] and [queue], the scope [js_scope], and the lemmas on
      lists used as queues that the components share.
    - [JsMonad]: the effects of a JavaScript call, as a state monad in which a
      call either returns or throws and the state survives a throw
      ([js S A := S -> outcome A * S]); its laws; lenses ([lens], [LensLaws])
      and [zoom], which runs a computation on a part of the state.
    - [JsArray]: Class [Engine], the greatest length the engine lets an array
      have ([ideal]: none, [ecma]: [2^32 - 1], [limited n]), and Module
      [Arr], the array operations the source calls: [push], which throws a
      [RangeError] on an array that cannot grow, [shift] (with [undefined] on
      an empty array as [None]), [length] and its truthiness, and [map] as
      the index loop of the language over the live array.  Theorems: a
      [push] at the tail does not disturb the head ([shift_push]); [map]
      with a callback that leaves the array alone is the traversal of a
      snapshot ([map_snapshot]).
    - [Promise]: the promise heap, a list of cells ([Pending], [Following q],
      [Fulfilled], [Rejected]) indexed by promise identity; a resolving
      function is the identity of its promise.  Class [Thenable] says which
      values are promises ([inert]: none).  [settle] is the effect of calling
      a resolving function and [resolution] what the call makes of the
      promise: fulfilled with a value, following a promise, rejected when
      resolved with itself.  [invoke] and [invoke_opt] are the call (the
      latter of what [shift] returned, a [TypeError] when that is
      [undefined]), [resolve] is [Promise.resolve], which returns a promise
      as it is, and [new] is [new Promise(executor)], which rejects the
      promise when the executor throws.  They are written over any state
      that has a heap (Class [HasHeap]); the channel state is the instance.
      Theorems: a resolving function works once ([settle_idempotent]), the
      heap only grows and resolved cells never change ([heap_le], a
      preorder).
    - [Channel], Module [Chan]: the closure state as a Record ([isClosed],
      [messageQueue], [resolveQueue], and the heap as [promises]) and
      [createChannel], [put], [take], [close] written call by call as in
      [src/index.js], with the source's conditions and early returns, on any
      engine and for any values.  Theorems, on the engine without a limit:
      each operation in one equation whatever the value is ([put_any],
      [take_any], [close_any]); for values that are not promises, what each
      operation returns and the state it leaves, on every branch
      ([put_spec], [take_spec], [close_spec] and the lemma per branch that
      all later files rewrite with); [close] is idempotent and a closed,
      drained channel is inert (P3, P4).
    - [Invariant]: invariant I1 ([exclusive]: no value is buffered while a
      consumer waits) and [wf], which adds that [resolveQueue] has no
      duplicates and holds pending promises while the channel is open and
      settled ones once it is closed; both are boolean functions.  Theorems:
      [createChannel] establishes [wf], every operation preserves it
      whatever is put, a [put] that finds a consumer waiting delivers to the
      oldest one.
    - [Trace]: a [call] on the handle ([Put v], [Take], [Close]), [exec] and
      [run] for one call and a sequence, [step] as a relation with one rule
      per branch of the source, [reachable], and the pure [answer], [answers]
      and [final].  Theorems, whatever is put: [step] is the graph of
      [exec]; no call throws; every reachable state is well formed; closing
      is permanent; a resolved promise keeps its state for ever; a call
      changes only pending promises of its own [resolveQueue]
      ([exec_changes]).  The tactic [step_cases] gives the cases of a call,
      one per rule.
    - [Adoption]: values that are promises ([item], with the runtime
      [native]).  [fate] is what a promise comes to once the promises it
      follows have settled, found by a chase with fuel; [adopt] is the job
      that settles a follower.  Theorems: the length of the heap is fuel
      enough ([fate_fuel]); the job changes no fate ([fate_adopt]); a
      program that puts no promise runs as with values that are never
      promises ([run_conservative]); a consumer that is handed a promise
      gets what that promise comes to, its rejection included
      ([handoff_follows], [rejection_handed_over]); handed its own promise
      it gets a [TypeError] ([own_promise_rejected]); two consumers handed
      each other's promise are never released
      ([crossed_takes_never_settle]); a buffered promise is returned by
      [take] as it is ([take_returns_put_promise]).
    - [Jobs], Module [Micro]: the job queue of the runtime for followers.
      A resolving function called with a promise queues the job that calls
      [then] on it ([announce]); [then] registers a reaction or queues the
      job of one; that job settles the follower ([run_job], with [adopt])
      and queues the jobs of the reactions registered on it ([notify]).
      The machine is written over any state that has a heap ([HasHeap]) and
      any [Client], the component whose calls make and resolve promises;
      Class [ClientLaws] is what it relies on.  [perform] is a call of the
      client with what the runtime queues for it, [tick] the turn of one
      job, [play] a program of calls and turns.  Theorems, for every
      client that keeps to the laws: every follower is on its way at every
      point of a program ([ok], [play_ok]); the queue empties within
      [budget] turns ([settle_down_done]); the client does not see the
      jobs ([play_body]); the jobs bring about what [fate] computes,
      whenever they run ([jobs_realise_fate], by a simulation of the
      client on which no job runs, [sim]); a consumer handed a promise gets
      what that promise is settled with ([follower_settles]).  The
      channel is a client ([chan_client], [chan_laws]); a program on a new
      channel keeps the invariant ([program_ok]), and one that puts no
      promise never has a job ([quiet]).
    - [History]: the contract of the channel on histories ([hist]: whether
      closed, the values accepted, the number of takes).  A [ledger] says
      when a state of the code represents a history, through the list of the
      promises that the takes returned; [repr] is the ledger of a channel
      that is alone, whose promises are consecutive cells.  Theorems: every
      call keeps the ledger ([exec_ledger]); every call keeps [repr] and
      answers as the contract says ([exec_repr], [run_contract]); promises
      older than the channel are never touched.
    - [Properties]: what a user relies on, for every sequence of calls: the
      [i]-th take holds the [i]-th accepted value, else [CLOSED] if the
      channel was closed, else is pending ([heap_after_run]); properties P1,
      P5 and P6 of the specification ([ordering], [drain_then_closed],
      [close_flushes_waiting]); P4, no value put after [close] reaches a
      take ([put_after_close_unseen]); P3, the first [close] returns [true]
      and from then on [close] and [put] return [false] and change nothing,
      whatever is put ([close_once]); waiting consumers are served in the
      order they came ([waiters_fifo]); every consumer is answered once
      [close] was called.
    - [Tasks]: several tasks on one channel, as sequences of calls.  The
      calls of the tasks are interleaved call by call ([merge], enumerated by
      [interleavings]; [interleaving] for any number of tasks, decided
      by [interleaved]); the
      guarantees hold under every interleaving, for one producer and one
      consumer ([schedule_independent]) and for many of each
      ([many_to_many]), also when a task closes the channel at any moment
      ([close_any_time], [close_among_many]).
    - [World], Module [World]: several channels.  Every call of
      [createChannel] makes a [closure] of its own; all promises live in one
      heap; a handle is the index of its closure and [on c m] runs an
      operation of [Channel] on the closure [c] and the shared heap, for
      any values; the theorems are for values that are not promises.
      Theorems: the channels stay well formed and wait on disjoint promises
      ([wfinal_wwf]); a call on one channel changes nothing of another
      ([isolation]); each channel's flag, buffer and number of waiting
      consumers evolve as if it were alone ([projection]).
    - [Pipeline]: the world as a client of the job queue ([world_client],
      [world_laws]: each law comes from the same fact of one channel).
      Theorems: a consumer of one channel that is handed the promise of a
      [take] on another gets what that channel delivers
      ([pipeline_delivers]); a datum put on the second channel of a
      pipeline reaches the consumer of the first ([pipeline_put]).
    - [Delivery]: what each channel of a world delivers.  The promises
      that the takes on a channel returned ([taken_on]) are no longer
      consecutive cells of the heap; the [ledger] of the channel is kept by
      every call in the world, on that channel or on another
      ([wexec_ledger]).  Theorem [world_delivers]: the
      [i]-th [take] on a channel of a world gets what [delivered] says of
      the calls made on that channel, whatever is done to the others.
    - [Limits]: the channel on an engine that bounds arrays.  Below the limit
      every run is the run without a limit ([run_below], [run_ecma]); at the
      limit [put] throws and [take] returns a rejected promise
      ([put_on_engine], [take_on_engine]); the state stays well formed.
    - [Handle]: Module [Obj] is the object model that [Object.freeze] needs
      (data properties with their attributes, the extensible flag, property
      read, assignment, [delete], [defineProperty], in strict and sloppy
      code); [createHandle] is the frozen object literal the source returns.
      Theorem: whatever a program does with the handle, the handle stays as
      it was and the channel sees exactly the calls of [put], [take] and
      [close] that the program made ([handle_tamper_proof]).  The sequence
      goes on after an operation that threw, as a program that catches
      does; a program that does not catch performs a prefix, which is a
      sequence too.
    - [Types]: the output types of the interface ([put] and [close] a
      Boolean, [take] a promise that is pending or holds a value) as
      predicates on a result and the heap.  On the engine without a limit
      and for values that are not promises no operation makes a rejected
      promise, so the typing is an invariant ([exec_typed]); [Program] uses
      it as the well-formedness of what a task holds.  [Limits] and
      [Adoption] show the rejected promises outside that scope.
    - [Loop]: tasks that [await].  A [task] is the straight-line body of an
      [async] function: calls on the channel, [await]s of values it holds,
      expectations.  [run_code] runs a task until it awaits, fails or ends;
      an [await] of a pending promise registers a reaction ([suspend]); the
      call that settles promises turns their reactions into jobs, in the
      order of settlement ([wake]); [resume] is the job that completes an
      [await]; [drain] runs the job queue, first in first out; [run_tasks]
      starts the tasks of a program one after the other and drains the
      queue.  Theorems: the channel of a program is the end of the run of the
      calls logged ([log_is_run]), each task calls in the order of its code
      ([program_order]), an [await] receives what the promise holds.
    - [Sched]: the scheduling invariant [sched_ok] (one job or one reaction
      per waiting task, reactions on pending promises, jobs for settled
      ones), kept by every step on every engine ([sched_always]);
      termination within [budget] jobs ([terminates]); no lost wake-up
      ([progress]).  The promises whose reactions a call turns into jobs
      are exactly those the call settled ([settled_by_spec]).
    - [Program]: the channel, the types and the loop together.  What a task
      receives is what the channel delivers in the sequence of the calls made
      ([await_delivers]); a closed channel leaves no task hanging
      ([close_releases]); a well-scoped task fails only on an expectation
      ([only_expectations_fail]); the calls of the tasks reach the channel
      interleaved, each in its order ([tasks_interleave]), so that the
      theorems of [Tasks] apply to programs ([producer_consumer]); any
      number of consumers that take and of producers that put at least as
      many values all finish, and the consumers get the values of one
      interleaving of what the producers put ([handoff_completes]).
    - [Faults]: programs on an engine that bounds arrays: below the limit
      they run as without one ([tasks_below]); a producer that floods the
      buffer fails at the [put] that does not fit ([flood_overflows]); a
      consumer that awaits the promise rejected at the limit fails with the
      [RangeError] ([starve_rejected]).
    - [Spec]: Module [Spec] is the three-attribute machine the specification
      describes, in which [close] empties the queue of waiting consumers.
      The code leaves them in [resolveQueue]; [abs] forgets them, the code
      simulates the machine through [abs] ([run_refines]) and the states that
      [abs] identifies are equivalent for every observer ([Proper] instances,
      [leftover_unobservable]).
    - [Scenarios]: each test of the suite as the task of its statements, run
      as the harness runs it ([run_test]); the end-to-end scenario of the
      specification; a consumer and a producer started in either order.

    ** What is modelled and how

    Values are [value V]: the sentinel [CLOSED], [undefined], or a payload of an
    arbitrary type [V].  Which payloads are promises is a parameter (Class
    [Thenable]): with [inert] none is, and a value is delivered as it is;
    with [native] of [Adoption] the payloads [Ref p] are the promises of the
    heap, which a resolving function follows instead of delivering.  The
    definitions of [Promise], [Channel] and [Trace] and the invariant are for
    any values; the contract of the channel and the tasks of [Loop] are for
    values that are not promises, which is what [Adoption.run_conservative]
    shows to be what a program that puts no promise sees, and such a
    program never has a job of a follower ([Jobs.Micro.quiet]).
    A promise that was resolved with a promise is settled later, by jobs
    that run between the calls.  [Adoption.fate] reads the outcome from the
    heap the calls leave; [Jobs] runs the jobs, at any points between the
    calls, and shows that they reach that outcome and that the variables of
    the channel are those of the calls alone.  The job queue and the
    channels meet at an interface: [Jobs] proves its theorems for any
    [Client] that keeps to [ClientLaws], and [Jobs] (one channel) and
    [Pipeline] (the channels of a world) discharge the laws.
    A promise is its index in the heap; a resolving function is the index of
    the promise it settles, so that calling a function taken from
    [resolveQueue] acts on the shared heap and not on a copy.  The three
    operations are atomic: JavaScript runs each to completion, and settling a
    promise runs no user code synchronously, so what several tasks do to a
    channel is a sequence of calls and a sequence of calls is a sequence of
    state transformers.  [Loop] adds what happens between the calls: a task
    runs until it awaits, and is resumed by a job when the promise it awaits
    is settled.

    The heap a channel is created in is a parameter ([createChannel h0]): the
    theorems hold whatever promises exist already, and those are left alone.

    The code of the repository is lines 1, 10-13, 22-28, 40-48, 56-62 and
    64-69 of [src/index.js]; the rest is comments.  [Channel] translates
    those lines.  Arrays, promises, the jobs of a promise resolved with a
    promise and [await] are the language's: their definitions ([JsArray],
    [Promise], [Adoption], [Jobs], [Loop]) model the semantics of the
    language for the calls the code makes, and are tied to the lines that
    make the calls.  The theorems of [Jobs], [Loop] and [Sched] are
    theorems about that model of the runtime, with the code of the channel
    as the calls in it.  [limited n] goes beyond the language: it stands
    for an engine that cannot allocate a longer array and reports it as a
    [RangeError]; at the limit of the language, [push] also stores the
    value under a key that is no index, which nothing in the channel
    reads and the model leaves out.

    The engine is a parameter too.  The definitions of [JsArray], [Channel],
    [Trace] and [Loop] are written for any [Engine]; each file whose theorems
    are about the engine without a limit declares [ideal] as a local
    instance, and [Limits], [Sched] and [Faults] state their theorems for
    every engine or for [limited n].

    ** Bounds and fuel

    The only loop of the program is [resolveQueue.map].  Its model
    [Arr.map_loop] recurses on the number of indices left to visit, which the
    language fixes when [map] is called.  The job queue of [Loop] is run by
    [drain] with fuel; [run_tasks] gives it [budget]: twice the instructions
    left in the tasks, plus the jobs and the reactions in place.  Every job
    uses at least one unit of it ([Sched.budget_resume]), so the queue is
    empty when [drain] returns and more fuel changes nothing
    ([Sched.terminates]).  The chain of promises that a promise follows is
    walked by [Adoption.chase] with fuel; [fate] gives it the length of the
    heap, and a chain that is longer than the heap goes round in a circle,
    so more fuel finds nothing else ([Adoption.chase_enough]).  The jobs
    of followers are run by [Jobs.Micro.drain] with fuel;
    [settle_down] gives it [Jobs.Micro.budget]: two for each job that calls
    [then], one for each job that settles a follower and for each
    reaction.  Every turn uses some of it, so the queue is empty at the end
    and more fuel changes nothing ([Jobs.Micro.settle_down_done]).  Array
    lengths and promise identities are natural numbers; the limit of an engine is a binary number ([N]), compared with
    the length before every [push].

    ** Findings

    [close] calls the resolving functions of [resolveQueue] and leaves them in
    the array, where the specification says the queue is emptied
    ([Spec.close_keeps_resolveQueue]); this cannot be observed through the
    handle.  [CLOSED] is a symbol, so no value equals it by accident, but it
    is exported and [put] refuses no value: a producer that puts it on
    purpose is served like any other ([Properties.ordering] with [CLOSED]
    among the values), which the specification does not cover.  The buffer
    is not unbounded: on an array
    that cannot grow [put] throws ([Limits.put_on_engine]) and [take] returns
    a promise that is rejected and never served ([Limits.take_on_engine]),
    where the specification says that no operation throws and that every
    [take] gets a value or the sentinel.  A value that is a promise is not
    delivered as it is, where the specification calls values opaque: the
    consumer gets what the promise comes to, a rejection included
    ([Adoption.handoff_follows]); handed its own promise it gets a
    [TypeError] ([Adoption.own_promise_rejected]); two consumers handed each
    other's promise wait for ever, [close] or not
    ([Adoption.crossed_takes_never_settle]); and [take] returns a buffered
    promise itself, not a new promise
    ([Adoption.take_returns_put_promise]).  A consumer that was handed
    the promise of another channel is settled neither by a [put] nor by a
    [close] on its own channel, as the specification has it, but by jobs
    that run after the other channel has delivered
    ([Pipeline.pipeline_put]).

    ** Not modelled

    Thenables that are not promises: an object with a [then] of its own
    runs user code when it is adopted, which can do anything.  Tasks that
    await a promise which follows another: the tasks of [Loop] put no
    promises, and the jobs of followers are run in [Jobs] and [Pipeline]
    for programs of calls.  Promises that a program makes with
    [new Promise] of its own while it runs: the promises a program can put
    are those of the heap the channel was created in and those that
    [take] returned ([scoped]).  [then] and [catch] called by
    user code, the extra turns an engine takes for an [await], and the
    promise that [Promise.all] makes, which is awaited here element by
    element; control flow inside a task (a task is a straight line); tasks
    that use several channels (the tasks of [Loop] share one channel;
    several channels are covered for sequences of calls, in [World] and
    [Delivery]);
    accessor properties, prototypes and symbol keys of objects, which the
    handle does not have; functions other than [put], [take] and [close]
    stored in an object are opaque and do not touch the channel; the
    registration of the tests with the Jasmine harness. *)

From stdpp Require Export base tactics option list.

Declare Scope js_scope.
Delimit Scope js_scope with js.

(** Hint databases: [chan] holds the lemmas about the heap and the channel's
    invariants; the rewrite database [js] holds the monad laws and [queue]
    normalises lists used as queues and sequences of calls. *)
Create HintDb chan discriminated.
Create Rewrite HintDb js.
Create Rewrite HintDb queue.

(** ** Tactics *)

(** [invert H]: inversion that cleans up after itself. *)
Ltac invert H := inversion H; subst; clear H.

(** [case_bool b]: case analysis on a boolean, keeping the equation. *)
Ltac case_bool b := let E := fresh "E" in destruct b eqn:E.

(** [split_all]: split a conjunction of any width. *)
Ltac split_all := repeat match goal with |- _ ∧ _ => split end.

(** ** Lists as first-in first-out queues *)

Section lists.
Context {A : Type}.
Implicit Types (l k : list A) (x y : A) (n i : nat).

(** What is left of a queue after [n] removals from its head, when one more
    element is appended at its tail. *)
Lemma drop_snoc_le l x n : n ≤ length l → drop n (l ++ [x]) = drop n l ++ [x].
Proof. intros Hn. by rewrite drop_app_le. Qed.

(** The head of what is left after [n] removals is the [n]-th element. *)
Lemma drop_cons_lookup l x k n : drop n l = x :: k → l !! n = Some x ∧ drop (S n) l = k.
Proof.
  revert n; induction l as [|y l IH]; intros [|n] H; simplify_eq/=; auto.
Qed.

Lemma drop_nil_length l n : drop n l = [] → length l ≤ n.
Proof.
  intros H. apply (f_equal length) in H. rewrite length_drop in H. simpl in H. lia.
Qed.

Lemma lookup_snoc_length l x : (l ++ [x]) !! length l = Some x.
Proof. by rewrite lookup_app_r, Nat.sub_diag. Qed.

Lemma lookup_snoc_lt l x i : i < length l → (l ++ [x]) !! i = l !! i.
Proof. intros. by rewrite lookup_app_l. Qed.

Lemma insert_snoc_length l x y : <[length l := y]> (l ++ [x]) = l ++ [y].
Proof. induction l as [|z l IH]; simpl; by f_equal. Qed.

(** A boolean test holds of a whole list when it holds of each element. *)
Lemma forallb_elem_of (f : A → bool) l : forallb f l = true ↔ ∀ x, x ∈ l → f x = true.
Proof.
  rewrite forallb_forall. by setoid_rewrite list_elem_of_In.
Qed.

(** It holds of some element when it holds of one. *)
Lemma existsb_elem_of (f : A → bool) l : existsb f l = true ↔ ∃ x, x ∈ l ∧ f x = true.
Proof.
  rewrite existsb_exists. by setoid_rewrite list_elem_of_In.
Qed.

Lemma nonempty_length l : l ≠ [] ↔ 0 < length l.
Proof. destruct l; simpl; split; intros; try done; lia. Qed.

(** A filter that every element passes keeps the list. *)
Lemma filter_all (P : A → Prop) `{!∀ x, Decision (P x)} l :
  (∀ x, P x) → filter P l = l.
Proof.
  intros HP. induction l as [|x l IH]; [done|]. by rewrite filter_cons_True, IH.
Qed.

(** A filter that no element passes leaves nothing. *)
Lemma filter_none (P : A → Prop) `{!∀ x, Decision (P x)} l :
  (∀ x, x ∈ l → ¬ P x) → filter P l = [].
Proof.
  induction l as [|x l IH]; intros HP; [done|].
  rewrite filter_cons_False by (apply HP; by left). apply IH. intros y Hy. apply HP. by right.
Qed.

(** A sum over a list when one element is replaced. *)
Lemma sum_list_with_insert (f : A → nat) l i x y :
  l !! i = Some x →
  sum_list_with f (<[i := y]> l) + f x = sum_list_with f l + f y.
Proof.
  revert i; induction l as [|z l IH]; intros [|i] Hi; simplify_eq/=; [lia|].
  specialize (IH _ Hi). lia.
Qed.

(** Writing back what was at an index undoes a change there. *)
Lemma list_insert_undo l i x y : l !! i = Some x → <[i := x]> (<[i := y]> l) = l.
Proof. intros Hi. by rewrite list_insert_insert_eq, list_insert_id. Qed.

(** A sum over a list is bounded term by term. *)
Lemma sum_list_with_Forall2 {B} (f : A → nat) (g : B → nat) l (k : list B) :
  Forall2 (λ (x : A) (y : B), f x ≤ g y) l k → sum_list_with f l ≤ sum_list_with g k.
Proof. induction 1; simpl; lia. Qed.

(** A sum of terms that are all zero. *)
Lemma sum_list_with_0 (f : A → nat) l : Forall (λ x, f x = 0) l → sum_list_with f l = 0.
Proof. induction 1; simpl; lia. Qed.

End lists.

#[export] Hint Resolve lookup_snoc_length : chan.
#[export] Hint Rewrite @length_app @length_insert @length_drop : queue.
