(* ===== verification/JsMonad.v ===== *)
(** * JsMonad: the effects of a JavaScript call

    A call in JavaScript reads and writes the variables it closes over and the
    heap, and it either returns a value or throws.  A throw does not undo the
    writes made before it.  [js S A] is the state monad with that behaviour:
    a computation maps a state to an [outcome] and the state it leaves.

    [lens] and [zoom] run a computation that knows only a part of the state
    (an array, the promise heap) inside a computation on the whole state.
    Computations are compared pointwise ([≡]); the monad laws and the [Proper]
    instances make [≡] usable with [rewrite]. *)

From S2P Require Import Prelude.

(** The exceptions the modelled runtime can raise: calling a value that is
    not a function (for instance the [undefined] that [shift] returns on an
    empty array) is a [TypeError]; growing an array beyond the length the
    engine allows is a [RangeError]. *)
Inductive error : Type :=
| TypeError
| RangeError.

Inductive outcome (A : Type) : Type :=
| Ret (a : A)
| Throw (e : error).
Arguments Ret {A} a.
Arguments Throw {A} e.

Definition js (S A : Type) : Type := S → outcome A * S.

#[export] Instance error_eq_dec : EqDecision error.
Proof. solve_decision. Defined.

#[export] Instance outcome_eq_dec `{EqDecision A} : EqDecision (outcome A).
Proof. solve_decision. Defined.

#[export] Instance js_ret {S} : MRet (js S) := λ A a s, (Ret a, s).

#[export] Instance js_bind {S} : MBind (js S) := λ A B k m s,
  match m s with
  | (Ret a, s') => k a s'
  | (Throw e, s') => (Throw e, s')
  end.

#[export] Instance js_throw {S} : MThrow error (js S) := λ A e s, (Throw e, s).

(** Sequencing with the first computation written first, so that the type of
    the bound variable is known when the continuation is read.  The notations
    of [js_scope] are those of a [let] in the source: [x ← m; k] runs [m],
    names its value [x] and goes on with [k]; [m;; k] drops the value. *)
Definition andthen {S A B} (m : js S A) (k : A → js S B) : js S B := m ≫= k.
Arguments andthen {S A B} m k /.

Notation "x ← m ; k" := (andthen m (λ x, k))
  (at level 20, m at level 100, k at level 200, only parsing) : js_scope.
Notation "m ;; k" := (andthen m (λ _, k))
  (at level 100, k at level 200, only parsing, right associativity) : js_scope.

(** Pointwise equality of computations. *)
#[export] Instance js_equiv {S A} : Equiv (js S A) := λ m1 m2, ∀ s, m1 s = m2 s.

(** Reading and writing the state. *)
Definition gets {S A} (f : S → A) : js S A := λ s, (Ret (f s), s).

Definition modify {S} (f : S → S) : js S unit := λ s, (Ret tt, f s).

(** [attempt m] runs [m] and returns its outcome as a value: the [try] block
    of a [try { m } catch (e) { ... }]. *)
Definition attempt {S A} (m : js S A) : js S (outcome A) := λ s,
  let '(r, s') := m s in (Ret r, s').

(** The two halves of a run. *)
Definition result {S A} (m : js S A) (s : S) : outcome A := (m s).1.

Definition after {S A} (m : js S A) (s : S) : S := (m s).2.

(** [returns m s]: [m] does not throw from [s]. *)
Definition returns {S A} (m : js S A) (s : S) : bool :=
  match result m s with
  | Ret _ => true
  | Throw _ => false
  end.

(** A lens: how a part [T] sits inside a state [S]. *)
Record lens (S T : Type) : Type := Lens {
  view : S → T;
  update : T → S → S
}.
Arguments Lens {S T} view update.
Arguments view {S T} l s.
Arguments update {S T} l t s.

Class LensLaws {S T} (l : lens S T) : Prop := {
  view_update t s : view l (update l t s) = t;
  update_view s : update l (view l s) s = s;
  update_update t t' s : update l t (update l t' s) = update l t s
}.

(** Run a computation on a part of the state. *)
Definition zoom {S T A} (l : lens S T) (m : js T A) : js S A := λ s,
  let '(r, t) := m (view l s) in (r, update l t s).

(** The identity lens. *)
Definition lens_id {S} : lens S S := Lens id (λ t _, t).

(** [js_unfold] exposes the state-passing behind the monad's operations. *)
Ltac js_unfold :=
  unfold andthen, mbind, js_bind, mret, js_ret, mthrow, js_throw,
         gets, modify, attempt, zoom in *.

(** ** Laws *)

Section laws.
Context {S : Type}.
Implicit Types (s : S).

#[global] Instance js_equiv_equivalence {A} : Equivalence (≡@{js S A}).
Proof.
  split; [by intros m s | by intros m1 m2 H s | intros m1 m2 m3 H1 H2 s].
  by rewrite H1.
Qed.

#[global] Instance js_bind_proper {A B} :
  Proper (pointwise_relation A (≡) ==> (≡) ==> (≡@{js S B})) mbind.
Proof.
  intros k1 k2 Hk m1 m2 Hm s. unfold mbind, js_bind. rewrite Hm.
  destruct (m2 s) as [[a|e] s']; [apply Hk | done].
Qed.

#[global] Instance attempt_proper {A} : Proper ((≡) ==> (≡@{js S (outcome A)})) attempt.
Proof. intros m1 m2 Hm s. unfold attempt. by rewrite Hm. Qed.

Lemma js_bind_ret_l {A B} (a : A) (k : A → js S B) : (mret a ≫= k) ≡ k a.
Proof. by intros s. Qed.

Lemma js_bind_ret_r {A} (m : js S A) : (m ≫= mret) ≡ m.
Proof. intros s. unfold mbind, js_bind. by destruct (m s) as [[a|e] s']. Qed.

Lemma js_bind_assoc {A B C} (m : js S A) (k : A → js S B) (h : B → js S C) :
  ((m ≫= k) ≫= h) ≡ (m ≫= λ a, k a ≫= h).
Proof. intros s. unfold mbind, js_bind. by destruct (m s) as [[a|e] s']. Qed.

Lemma js_bind_throw {A B} (e : error) (k : A → js S B) : (mthrow e ≫= k) ≡ mthrow e.
Proof. by intros s. Qed.

(** Running a bind: the two cases of the first computation. *)
Lemma js_bind_run_ret {A B} (m : js S A) (k : A → js S B) s a s' :
  m s = (Ret a, s') → (m ≫= k) s = k a s'.
Proof. intros H. unfold mbind, js_bind. by rewrite H. Qed.

Lemma js_bind_run_throw {A B} (m : js S A) (k : A → js S B) s e s' :
  m s = (Throw e, s') → (m ≫= k) s = (Throw e, s').
Proof. intros H. unfold mbind, js_bind. by rewrite H. Qed.

(** A bind returns exactly when both halves do. *)
Lemma js_bind_returns {A B} (m : js S A) (k : A → js S B) s :
  returns (m ≫= k) s = true ↔
  ∃ a s', m s = (Ret a, s') ∧ returns (k a) s' = true.
Proof.
  unfold returns, result, mbind, js_bind.
  destruct (m s) as [[a|e] s1]; simpl; split.
  - intros H. by exists a, s1.
  - by intros (? & ? & [= <- <-] & H).
  - done.
  - by intros (? & ? & [=] & _).
Qed.

(** Renaming the value of a computation changes neither the state it leaves
    nor whether it returns. *)
Lemma after_andthen_ret {A B} (m : js S A) (f : A → B) s :
  after (andthen m (λ a, mret (f a))) s = after m s.
Proof. unfold after. js_unfold. by destruct (m s) as [[a|e] s']. Qed.

Lemma result_andthen_ret {A B} (m : js S A) (f : A → B) s a :
  result m s = Ret a → result (andthen m (λ a, mret (f a))) s = Ret (f a).
Proof. unfold result. js_unfold. by destruct (m s) as [[a'|e] s']; intros [= ->]. Qed.

(** A computation is its result and the state it leaves. *)
Lemma run_result_after {A} (m : js S A) s : m s = (result m s, after m s).
Proof. unfold result, after. by destruct (m s). Qed.

Lemma attempt_returns {A} (m : js S A) s : returns (attempt m) s = true.
Proof. unfold returns, result, attempt. by destruct (m s). Qed.

End laws.

Section zoom.
Context {S T : Type} (l : lens S T) `{!LensLaws l}.

#[global] Instance zoom_proper {A} : Proper ((≡) ==> (≡@{js S A})) (zoom l).
Proof. intros m1 m2 Hm s. unfold zoom. by rewrite Hm. Qed.

Lemma zoom_ret {A} (a : A) : zoom l (mret a) ≡ mret a.
Proof. intros s. unfold zoom, mret, js_ret. by rewrite update_view. Qed.

Lemma zoom_throw {A} (e : error) : zoom l (mthrow (A:=A) e) ≡ mthrow e.
Proof. intros s. unfold zoom, mthrow, js_throw. by rewrite update_view. Qed.

(** [zoom] is a monad morphism; this is where [view_update] is needed: the
    second computation must see what the first one wrote. *)
Lemma zoom_bind {A B} (m : js T A) (k : A → js T B) :
  zoom l (m ≫= k) ≡ (zoom l m ≫= λ a, zoom l (k a)).
Proof.
  intros s. unfold zoom, mbind, js_bind.
  destruct (m (view l s)) as [[a|e] t]; [|done].
  rewrite view_update. destruct (k a t) as [r t']. by rewrite update_update.
Qed.

Lemma zoom_gets {A} (f : T → A) : zoom l (gets f) ≡ gets (f ∘ view l).
Proof. intros s. unfold zoom, gets. by rewrite update_view. Qed.

Lemma zoom_modify (f : T → T) :
  zoom l (modify f) ≡ modify (λ s, update l (f (view l s)) s).
Proof. by intros s. Qed.

(** What [zoom] leaves outside its part is what [update] leaves. *)
Lemma zoom_view {A} (m : js T A) s : view l (after (zoom l m) s) = after m (view l s).
Proof.
  unfold after, zoom. destruct (m (view l s)) as [r t]; simpl. apply view_update.
Qed.

Lemma zoom_result {A} (m : js T A) s : result (zoom l m) s = result m (view l s).
Proof. unfold result, zoom. by destruct (m (view l s)). Qed.

End zoom.

#[export] Instance lens_id_laws {S} : LensLaws (@lens_id S).
Proof. by split. Qed.

#[export] Hint Rewrite @js_bind_ret_l @js_bind_ret_r @js_bind_assoc : js.
