(* ===== verification/JsArray.v ===== *)
(** * JsArray: the array operations [src/index.js] calls

    [messageQueue] and [resolveQueue] are JavaScript arrays used as queues:
    [push] appends at the tail, [shift] removes at the head and returns
    [undefined] (here [None]) on an empty array, [.length] is tested for
    truthiness, and [close] walks [resolveQueue] with [map].

    [Arr.map] is the index loop of [Array.prototype.map]: the length is read
    once, then each index is read from the live array before the callback is
    called, so a callback that changed the array would be seen.  [map_snapshot]
    shows that for a callback that leaves the array alone (the only kind the
    channel passes) the loop is a plain left-to-right traversal. *)

From S2P Require Import Prelude JsMonad.

#[local] Open Scope js_scope.

(** What the engine lets an array grow to.  The language sets the greatest
    length of an array at [2^32 - 1] ([ecma]); an engine may stop earlier
    ([limited n]); [ideal] is an engine with no limit, in which arrays are
    the unbounded queues the specification describes.  The length is compared as a
    binary number, so the limit is never built in unary. *)
Class Engine : Type := { max_length : option N }.

Definition ideal : Engine := {| max_length := None |}.
Definition ecma : Engine := {| max_length := Some (2 ^ 32 - 1)%N |}.
Definition limited (n : N) : Engine := {| max_length := Some n |}.

Module Arr.

Abbreviation len := Datatypes.length (only parsing).

(** Whether an array of length [n] can grow: [n] is below the greatest length
    the engine allows. *)
Definition fits {E : Engine} (n : nat) : bool :=
  match max_length with
  | Some m => (N.of_nat n <? m)%N
  | None => true
  end.

(** [a.push(x)]: append [x]; the call returns the new length.  On an array
    that cannot grow the new length cannot be set: the call throws a
    [RangeError] and the elements and the length are as before.  (At the
    limit of the language the call first stores [x] under the key
    [2^32 - 1], which is no index: the property is no element of the array,
    and neither [shift], [length] nor [map] reads it, so it is left out.
    Below that limit, [limited n] stands for an engine that cannot allocate
    a longer array and reports it as a [RangeError] that can be caught.) *)
Definition push {E : Engine} {A} (x : A) : js (list A) nat := λ a,
  if fits (len a) then (Ret (len (a ++ [x])), a ++ [x])
  else (Throw RangeError, a).

(** [a.shift()]: remove and return the first element; [undefined] when the
    array is empty, which it then stays. *)
Definition shift {A} : js (list A) (option A) := λ a,
  match a with
  | [] => (Ret None, [])
  | x :: a' => (Ret (Some x), a')
  end.

(** ToBoolean on a number that is a length: only [0] is falsy. *)
Definition truthy (n : nat) : bool := negb (n =? 0).

(** The loop of [a.map(f)] from index [k], with [n] indices still to visit.
    An index that is no longer in the array leaves a hole in the result. *)
Fixpoint map_loop {St A B} (l : lens St (list A)) (f : A → js St B) (n k : nat)
    : js St (list (option B)) :=
  match n with
  | 0 => mret []
  | S n' =>
      x ← gets (λ s, view l s !! k);
      y ← match x with
           | Some x => b ← f x; mret (Some b)
           | None => mret None
           end;
      ys ← map_loop l f n' (S k);
      mret (y :: ys)
  end.

(** Left-to-right traversal of a list that is not re-read. *)
Fixpoint traverse {St A B} (f : A → js St B) (a : list A) : js St (list (option B)) :=
  match a with
  | [] => mret []
  | x :: a' => y ← f x; ys ← traverse f a'; mret (Some y :: ys)
  end.

(** [a.map(f)] for the array under lens [l]. *)
Definition map {St A B} (l : lens St (list A)) (f : A → js St B) : js St (list (option B)) :=
  n ← gets (λ s, len (view l s));
  map_loop l f n 0.

Arguments map : simpl never.

(** [a.length] *)
Definition length {A} : js (list A) nat := gets len.

(** The lemmas of this file are about the engine without a limit. *)
#[local] Existing Instance ideal.

(** ** Push, shift and truthiness *)

Section queue.
Context {A : Type}.
Implicit Types (a xs : list A) (x : A).

Lemma truthy_length a : truthy (len a) = true ↔ a ≠ [].
Proof. by destruct a. Qed.

Lemma truthy_length_false a : truthy (len a) = false ↔ a = [].
Proof. by destruct a. Qed.

(** [shift] returns [undefined] exactly on the empty array. *)
Lemma shift_None a : result shift a = Ret None ↔ a = [].
Proof. by destruct a. Qed.

(** A [shift] that follows the truthiness test of [.length] finds an element. *)
Lemma shift_truthy a :
  truthy (len a) = true → ∃ x a', a = x :: a' ∧ shift a = (Ret (Some x), a').
Proof. destruct a as [|x a']; [done | by exists x, a']. Qed.

(** Pushing at the tail does not disturb the head. *)
Lemma shift_push a x y :
  a ≠ [] → result shift (after (push y) a) = result shift a.
Proof. by destruct a. Qed.

(** Without a limit [push] always appends. *)
Lemma push_run x a : push x a = (Ret (len (a ++ [x])), a ++ [x]).
Proof. done. Qed.

End queue.

(** ** [map] *)

Section map.
Context {St A B : Type} (l : lens St (list A)) (f : A → js St B).
Implicit Types (s : St) (a : list A).

(** The callback leaves the array alone. *)
Hypothesis f_frame : ∀ x s, view l (after (f x) s) = view l s.

Lemma map_loop_traverse n k s :
  n + k = len (view l s) →
  map_loop l f n k s = traverse f (drop k (view l s)) s.
Proof.
  revert k s; induction n as [|n IH]; intros k s Hn; simpl in *.
  - by rewrite drop_ge by lia.
  - destruct (lookup_lt_is_Some_2 (view l s) k) as [x Hx]; [lia|].
    rewrite (drop_S _ _ _ Hx). simpl.
    unfold andthen, mbind, js_bind, gets at 1. rewrite Hx.
    pose proof (f_frame x s) as Hfr. unfold after in Hfr.
    destruct (f x s) as [[b|e] s']; simpl in *; [|done].
    rewrite IH by (rewrite Hfr; lia). by rewrite Hfr.
Qed.

(** For such a callback [a.map(f)] is the traversal of the array as it was
    when the call started. *)
Theorem map_snapshot s : map l f s = traverse f (view l s) s.
Proof.
  unfold map, andthen, mbind, js_bind, gets. by rewrite map_loop_traverse by lia.
Qed.

End map.

Section traverse.
Context {St A B : Type} (f : A → js St B).

(** A traversal whose callback never throws never throws, and it visits
    every element. *)
Lemma traverse_returns a s :
  (∀ x s', returns (f x) s' = true) → returns (traverse f a) s = true.
Proof.
  intros Hf. revert s; induction a as [|x a IH]; intros s; [done|].
  simpl. apply js_bind_returns.
  specialize (Hf x s). unfold returns, result in Hf.
  destruct (f x s) as [[b|e] s'] eqn:E; [|done].
  exists b, s'. split; [done|]. apply js_bind_returns.
  specialize (IH s'). unfold returns, result in IH.
  destruct (traverse f a s') as [[ys|e] s''] eqn:E'; [|done].
  by exists ys, s''.
Qed.

(** Folding the state through the callbacks, for callbacks that return. *)
Lemma traverse_after a s :
  (∀ x s', returns (f x) s' = true) →
  after (traverse f a) s = foldl (λ s' x, after (f x) s') s a.
Proof.
  intros Hf. revert s; induction a as [|x a IH]; intros s; [done|].
  simpl. rewrite <- IH. unfold after at 1 3. simpl. unfold andthen, mbind, js_bind.
  specialize (Hf x s). unfold returns, result in Hf.
  destruct (f x s) as [[b|e] s'] eqn:E; [|done]. simpl.
  unfold after. by destruct (traverse f a s') as [[ys|e] s''].
Qed.

End traverse.

(** ** The theorems at a concrete array *)

Lemma map_snapshot_witness :
  let l : lens (list nat * nat) (list nat) := Lens fst (λ a s, (a, s.2)) in
  let f : nat → js (list nat * nat) unit := λ x, modify (λ s, (s.1, s.2 + x)) in
  (∀ x s, view l (after (f x) s) = view l s)
  ∧ map l f ([1; 2], 0) = (Ret [Some (); Some ()], ([1; 2], 3)).
Proof.
  intros l f.
  assert (∀ x s, view l (after (f x) s) = view l s) as Hframe by reflexivity.
  split; [exact Hframe|]. exact (map_snapshot l f Hframe ([1; 2], 0)).
Defined.

End Arr.
