(* ===== verification/Promise.v ===== *)
(** * Promise: the promise heap

    [take] returns promises made by [Promise.resolve] and by [new Promise], and
    [put] and [close] call the resolving functions that [new Promise] handed to
    its executor.  A promise is a cell of the heap, [Pending] or settled for
    good; its identity is its index.  A resolving function is modelled by the
    index of the promise it settles: calling it a second time does nothing,
    as in the runtime.

    The operations work on any state that contains a heap (Class [HasHeap]),
    so that the channel, whose state also holds its queues, can use them.
    [heap_le] is the order in which the calls of resolving functions make a
    heap evolve: it grows at its end and a resolved cell never changes.

    Class [Thenable] says which values are promises.  Resolving a promise
    with a value that is none fulfils it; resolving it with a promise makes
    it follow that promise ([Following]: resolved, and pending until the
    other settles), and resolving it with itself rejects it.
    [Promise.resolve] of a promise is that promise.  With [inert] no value is
    a promise: the lemmas of this file are about that runtime, and
    [Adoption] is about the other. *)

From S2P Require Import Prelude JsMonad JsArray.

#[local] Open Scope js_scope.

Inductive pstate (X : Type) : Type :=
| Pending
| Following (q : nat)
| Fulfilled (v : X)
| Rejected (e : error).
Arguments Pending {X}.
Arguments Following {X} q.
Arguments Fulfilled {X} v.
Arguments Rejected {X} e.

Abbreviation heap X := (list (pstate X)).
Abbreviation promise := nat (only parsing).
Abbreviation resolver := nat (only parsing).

#[export] Instance pstate_eq_dec `{EqDecision X} : EqDecision (pstate X).
Proof. solve_decision. Defined.

(** [settled st]: the cell is no longer pending.  A promise that follows
    another is pending until that one settles. *)
Definition settled {X} (st : pstate X) : bool :=
  match st with
  | Pending | Following _ => false
  | Fulfilled _ | Rejected _ => true
  end.

(** [resolved st]: the resolving function of the promise has been called. *)
Definition resolved {X} (st : pstate X) : bool :=
  match st with
  | Pending => false
  | Following _ | Fulfilled _ | Rejected _ => true
  end.

(** Which values are promises: [as_promise v] is the promise that [v] is.
    With [inert] no value is one. *)
Class Thenable (X : Type) : Type := { as_promise : X → option promise }.

Definition inert {X} : Thenable X := {| as_promise := λ _, None |}.

(** A new promise object in state [st]; its identity is the next index. *)
Definition alloc {X} (st : pstate X) : js (heap X) promise := λ h,
  (Ret (length h), h ++ [st]).

(** Settling promise [p] with [st]: only a pending promise changes. *)
Definition settle {X} (p : promise) (st : pstate X) (h : heap X) : heap X :=
  match h !! p with
  | Some Pending => <[p := st]> h
  | _ => h
  end.

(** What calling the resolving function of [p] with [v] makes of [p]: a
    value that is no promise fulfils it, a promise is followed, and [p]
    itself is a [TypeError]. *)
Definition resolution {X} {T : Thenable X} (p : promise) (v : X) : pstate X :=
  match as_promise v with
  | Some q => if decide (q = p) then Rejected TypeError else Following q
  | None => Fulfilled v
  end.

(** The resolving functions of promise [p], called with a value and with a
    reason. *)
Definition fulfil {X} {T : Thenable X} (p : promise) (v : X) : js (heap X) unit :=
  modify (settle p (resolution p v)).

Definition reject {X} (p : promise) (e : error) : js (heap X) unit :=
  modify (settle p (Rejected e)).

(** A state that contains the promise heap. *)
Class HasHeap (St X : Type) : Type := {
  heap_lens : lens St (heap X);
  heap_lens_laws :: LensLaws heap_lens
}.

(** The heap of a state. *)
Definition heap_of `{HasHeap St X} (s : St) : heap X := view heap_lens s.

(** [resolve(v)] where [resolve] is the resolving function [r]. *)
Definition invoke `{HasHeap St X} {T : Thenable X} (r : resolver) (v : X) : js St unit :=
  zoom heap_lens (fulfil r v).

(** Calling what may be [undefined]: [f(v)] where [f] came out of a [shift]. *)
Definition invoke_opt `{HasHeap St X} {T : Thenable X} (f : option resolver) (v : X)
    : js St unit :=
  match f with
  | Some r => invoke r v
  | None => mthrow TypeError
  end.

(** [Promise.resolve(v)]: [v] itself when it is a promise, and otherwise a
    new promise, resolved with [v] at once. *)
Definition resolve `{HasHeap St X} {T : Thenable X} (v : X) : js St promise :=
  match as_promise v with
  | Some q => mret q
  | None => zoom heap_lens (p ← alloc Pending; fulfil p v;; mret p)
  end.

(** [new Promise(executor)]: a pending promise is made, the executor runs
    with its resolving function, and an executor that throws rejects it. *)
Definition new `{HasHeap St X} (executor : resolver → js St unit) : js St promise :=
  p ← zoom heap_lens (alloc Pending);
  r ← attempt (executor p);
  match r with
  | Ret _ => mret tt
  | Throw e => zoom heap_lens (reject p e)
  end;;
  mret p.

(** Settling each promise of a list in turn, first to last. *)
Definition settle_all {X} (ps : list promise) (st : pstate X) (h : heap X) : heap X :=
  foldl (λ h' p, settle p st h') h ps.

Arguments resolve : simpl never.
Arguments new : simpl never.

(** How a heap evolves: it keeps its cells, and resolved cells keep their
    state. *)
Definition heap_le {X} (h h' : heap X) : Prop :=
  length h ≤ length h' ∧
  ∀ p st, h !! p = Some st → resolved st = true → h' !! p = Some st.

(** ** The heap *)

Section heap.
Context {X : Type}.
Implicit Types (h : heap X) (p q : promise) (st : pstate X) (v : X).

Lemma length_settle p st h : length (settle p st h) = length h.
Proof. unfold settle. destruct (h !! p) as [[]|]; by rewrite ?length_insert. Qed.

(** Settling a pending promise gives it its state. *)
Lemma settle_pending p st h :
  h !! p = Some Pending → settle p st h !! p = Some st.
Proof.
  intros Hp. unfold settle. rewrite Hp.
  apply list_lookup_insert_eq. by eapply lookup_lt_Some.
Qed.

(** Settling a promise that was resolved does nothing: a resolving function
    works once. *)
Lemma settle_resolved p st st' h :
  h !! p = Some st' → st' ≠ Pending → settle p st h = h.
Proof. intros Hp Hs. unfold settle. rewrite Hp. by destruct st'. Qed.

(** Settling a settled promise does nothing: a promise is settled once. *)
Lemma settle_settled p st st' h :
  h !! p = Some st' → settled st' = true → settle p st h = h.
Proof. intros Hp Hs. eapply settle_resolved; [done|]. by intros ->. Qed.

(** Settling a promise that does not exist does nothing. *)
Lemma settle_None p st h : h !! p = None → settle p st h = h.
Proof. intros Hp. unfold settle. by rewrite Hp. Qed.

(** A second call of a resolving function has no effect, whatever it is
    called with. *)
Theorem settle_idempotent p st st' h :
  settled st = true → settle p st' (settle p st h) = settle p st h.
Proof.
  intros Hst. destruct (h !! p) as [st0|] eqn:Hp; [|by rewrite !(settle_None p _ h)].
  destruct st0; [|by erewrite !(settle_resolved p _ _ h)..].
  eapply settle_settled; [by apply settle_pending|done].
Qed.

(** Settling [p] leaves every other promise as it is. *)
Lemma settle_other p q st h : p ≠ q → settle p st h !! q = h !! q.
Proof.
  intros Hne. unfold settle.
  destruct (h !! p) as [[]|]; by rewrite ?list_lookup_insert_ne.
Qed.

(** The state of any promise after a [settle], in one equation. *)
Lemma lookup_settle p q st h :
  settle p st h !! q =
  match h !! p with
  | Some Pending => if decide (p = q) then Some st else h !! q
  | _ => h !! q
  end.
Proof.
  destruct (decide (p = q)) as [<-|Hne].
  - destruct (h !! p) as [st0|] eqn:E; [|by rewrite settle_None].
    destruct st0; [by apply settle_pending|by erewrite settle_resolved..].
  - rewrite settle_other by done. by destruct (h !! p) as [[]|].
Qed.

(** Settling a promise that was allocated after the heap [h]. *)
Lemma settle_app_r h l p st :
  length h ≤ p → settle p st (h ++ l) = h ++ settle (p - length h) st l.
Proof.
  intros Hle. unfold settle. rewrite lookup_app_r by lia.
  destruct (l !! (p - length h)) as [[]|]; try done.
  replace p with (length h + (p - length h)) at 1 by lia. by rewrite insert_app_r.
Qed.

Lemma alloc_run st h : alloc st h = (Ret (length h), h ++ [st]).
Proof. done. Qed.

#[global] Instance heap_le_preorder : PreOrder (@heap_le X).
Proof.
  split.
  - by intros h.
  - intros h1 h2 h3 [Hl1 H1] [Hl2 H2]. split; [lia|]. eauto.
Qed.

Lemma heap_le_snoc h st : heap_le h (h ++ [st]).
Proof.
  split; [rewrite length_app; lia|].
  intros p st' Hp _. rewrite lookup_app_l; [done|]. by eapply lookup_lt_Some.
Qed.

Lemma heap_le_settle p st h : heap_le h (settle p st h).
Proof.
  split; [by rewrite length_settle|].
  intros q st' Hq Hs. rewrite lookup_settle.
  destruct (h !! p) as [[]|] eqn:Hp; try done.
  case_decide as Hd; [|done]. subst q. rewrite Hp in Hq. by simplify_eq.
Qed.

Lemma settled_resolved st : settled st = true → resolved st = true.
Proof. by destruct st. Qed.

(** A promise that was resolved keeps its state. *)
Lemma heap_le_resolved h h' p st :
  heap_le h h' → h !! p = Some st → resolved st = true → h' !! p = Some st.
Proof. intros [_ H]. apply H. Qed.

(** A promise that was settled stays settled with the same state. *)
Lemma heap_le_settled h h' p st :
  heap_le h h' → h !! p = Some st → settled st = true → h' !! p = Some st.
Proof. eauto using heap_le_resolved, settled_resolved. Qed.

(** A promise that exists keeps existing. *)
Lemma heap_le_is_Some h h' p : heap_le h h' → is_Some (h !! p) → is_Some (h' !! p).
Proof.
  intros [Hl _] Hp. apply lookup_lt_is_Some. apply lookup_lt_is_Some in Hp. lia.
Qed.

Lemma length_settle_all ps st h : length (settle_all ps st h) = length h.
Proof.
  revert h; induction ps as [|p ps IH]; intros h; simpl; [done|].
  by rewrite IH, length_settle.
Qed.

Lemma heap_le_settle_all ps st h : heap_le h (settle_all ps st h).
Proof.
  revert h; induction ps as [|p ps IH]; intros h; simpl; [done|].
  etrans; [apply (heap_le_settle p st)|apply IH].
Qed.

(** A promise outside the list is not touched. *)
Lemma settle_all_other ps q st h : q ∉ ps → settle_all ps st h !! q = h !! q.
Proof.
  revert h; induction ps as [|p ps IH]; intros h Hq; simpl; [done|].
  apply not_elem_of_cons in Hq as [Hne Hq]. by rewrite IH, settle_other.
Qed.

(** A pending promise of the list gets the state. *)
Lemma settle_all_pending ps q st h :
  settled st = true → q ∈ ps → h !! q = Some Pending → settle_all ps st h !! q = Some st.
Proof.
  intros Hst. revert h; induction ps as [|p ps IH]; intros h Hq Hp; simpl.
  - by apply elem_of_nil in Hq.
  - destruct (decide (p = q)) as [->|Hne].
    + eapply heap_le_settled; [apply heap_le_settle_all| |done].
      by apply settle_pending.
    + apply IH; [|by rewrite settle_other].
      apply elem_of_cons in Hq as [->|]; done.
Qed.

End heap.

#[export] Hint Resolve heap_le_snoc heap_le_settle heap_le_settle_all : chan.
#[export] Hint Rewrite @length_settle @length_settle_all : queue.

(** ** Promises in a state with a heap *)

(** With any values: what the calls do when the value may be a promise. *)
Section values.
Context `{HasHeap St X} {T : Thenable X}.
Implicit Types (s : St) (p : promise) (r : resolver) (v : X).

Lemma resolution_datum p v : as_promise v = None → resolution p v = Fulfilled v.
Proof. unfold resolution. by intros ->. Qed.

Lemma resolution_resolved p v : resolved (resolution p v) = true.
Proof. unfold resolution. destruct (as_promise v); [case_decide|]; done. Qed.

Lemma invoke_any r v s :
  invoke r v s = (Ret tt, update heap_lens (settle r (resolution r v) (heap_of s)) s).
Proof. done. Qed.

(** [Promise.resolve(v)] is [v] when [v] is a promise, and otherwise a new
    promise that is already fulfilled with [v]. *)
Lemma resolve_any v s :
  resolve v s =
  match as_promise v with
  | Some q => (Ret q, s)
  | None => (Ret (length (heap_of s)), update heap_lens (heap_of s ++ [Fulfilled v]) s)
  end.
Proof.
  unfold resolve. destruct (as_promise v) as [q|] eqn:Hv; [done|].
  unfold zoom, heap_of. simpl. unfold settle.
  by rewrite lookup_snoc_length, insert_snoc_length, resolution_datum.
Qed.

Lemma invoke_returns r v s : returns (invoke r v) s = true.
Proof. done. Qed.

(** Calling [undefined] is the one way to throw. *)
Lemma invoke_opt_returns f v s : returns (invoke_opt f v) s = true ↔ is_Some f.
Proof.
  destruct f as [r|]; simpl; split; by eauto using is_Some_None.
Qed.

(** Calling every resolving function of a list with the same value, which
    is no promise. *)
Lemma traverse_invoke (rs : list resolver) v s :
  as_promise v = None →
  Arr.traverse (λ r, invoke r v) rs s =
  (Ret (replicate (length rs) (Some tt)),
   update heap_lens (settle_all rs (Fulfilled v) (heap_of s)) s).
Proof.
  intros Hv. revert s; induction rs as [|r rs IH]; intros s; simpl.
  - unfold heap_of. by rewrite update_view.
  - unfold andthen, mbind, js_bind. rewrite invoke_any, IH, resolution_datum by done.
    unfold heap_of. by rewrite view_update, update_update.
Qed.

End values.

(** The other lemmas are about the runtime in which no value is a promise. *)
#[local] Existing Instance inert.

Section state.
Context `{HasHeap St X}.
Implicit Types (s : St) (p : promise) (r : resolver) (v : X).

Lemma invoke_run r v s :
  invoke r v s = (Ret tt, update heap_lens (settle r (Fulfilled v) (heap_of s)) s).
Proof. done. Qed.

(** [Promise.resolve(v)] returns a new promise that is already fulfilled
    with [v]. *)
Lemma resolve_run v s :
  resolve v s =
  (Ret (length (heap_of s)), update heap_lens (heap_of s ++ [Fulfilled v]) s).
Proof. by rewrite resolve_any. Qed.

(** [new Promise(executor)] with an executor that returns: the promise is the
    next index, and the state is what the executor leaves when it starts from
    the heap extended with the pending promise. *)
Lemma new_run_ret executor s s' :
  executor (length (heap_of s)) (update heap_lens (heap_of s ++ [Pending]) s)
    = (Ret tt, s') →
  new executor s = (Ret (length (heap_of s)), s').
Proof.
  intros He. unfold heap_of in *. unfold new, zoom, attempt, andthen, mbind, js_bind.
  simpl. by rewrite He.
Qed.

(** An executor that throws rejects the promise; [new] itself returns. *)
Lemma new_run_throw executor s s' e :
  executor (length (heap_of s)) (update heap_lens (heap_of s ++ [Pending]) s)
    = (Throw e, s') →
  new executor s =
  (Ret (length (heap_of s)),
   update heap_lens (settle (length (heap_of s)) (Rejected e) (heap_of s')) s').
Proof.
  intros He. unfold heap_of in *. unfold new, zoom, attempt, andthen, mbind, js_bind.
  simpl. by rewrite He.
Qed.

(** [new Promise] never throws, whatever the executor does. *)
Lemma new_returns executor s : returns (new executor) s = true.
Proof.
  destruct (executor (length (heap_of s))
              (update heap_lens (heap_of s ++ [Pending]) s)) as [[[]|e] s'] eqn:He.
  - unfold returns, result. by rewrite (new_run_ret _ _ _ He).
  - unfold returns, result. by rewrite (new_run_throw _ _ _ _ He).
Qed.

(** The heap after a call of a resolving function, and after
    [Promise.resolve]. *)
Lemma heap_of_invoke r v s :
  heap_of (after (invoke r v) s) = settle r (Fulfilled v) (heap_of s).
Proof. unfold after. rewrite invoke_run. simpl. apply view_update. Qed.

Lemma heap_of_resolve v s :
  heap_of (after (resolve v) s) = heap_of s ++ [Fulfilled v].
Proof. unfold after. rewrite resolve_run. simpl. apply view_update. Qed.

End state.

Section map_invoke.
Context `{HasHeap St X} {T : Thenable X} (l : lens St (list resolver)).

(** Writing the heap does not change the array under [l]. *)
Hypothesis l_frame : ∀ (h : heap X) (s : St), view l (update heap_lens h s) = view l s.

(** [a.map(resolve => resolve(v))] with a value that is no promise: every
    promise of the array that is still pending is fulfilled with [v]; the
    array itself is left as it was. *)
Lemma map_invoke_run (v : X) (s : St) :
  as_promise v = None →
  Arr.map l (λ r, invoke r v) s =
  (Ret (replicate (length (view l s)) (Some tt)),
   update heap_lens (settle_all (view l s) (Fulfilled v) (heap_of s)) s).
Proof.
  intros Hv. unfold Arr.map, andthen, mbind, js_bind, gets.
  rewrite Arr.map_loop_traverse; [by apply traverse_invoke| |lia].
  intros r s'. unfold after. rewrite invoke_any. apply l_frame.
Qed.

End map_invoke.

(** ** The theorems at concrete heaps *)

Lemma settle_idempotent_witness :
  settled (Fulfilled 1) = true
  ∧ settle 0 (Fulfilled 2) (settle 0 (Fulfilled 1) [Pending]) = [Fulfilled 1].
Proof.
  split; [reflexivity|].
  exact (settle_idempotent 0 (Fulfilled 1) (Fulfilled 2) [Pending] eq_refl).
Defined.
