(* ===== verification/Channel.v ===== *)
(** * Channel: [createChannel] and its three operations

    [value V] is what travels through a channel: the sentinel [CLOSED]
    ([src/index.js] line 1), [undefined], or a payload.  Module [Chan] is the
    closure that [createChannel] builds: the Record [state] holds the three
    variables the closure captures together with the promise heap the
    operations write to, and [put], [take] and [close] are written call by
    call as in the source, in the monad of [JsMonad].

    The operations are written for any engine and for any values (Class
    [Thenable] of [Promise]).  Section [values] gives each operation in one
    equation, whatever the value is ([put_any], [take_any], [close_any]):
    a value that is a promise is followed by the consumer it is handed to,
    and comes out of the buffer as it went in.  The other theorems are about
    values that are not promises: they give the result and the state change
    of each operation on each of its branches, show that no operation throws
    (the [shift] whose result is called is guarded by the length test), and
    relate the state before and after. *)

From S2P Require Import Prelude JsMonad JsArray Promise.

#[local] Open Scope js_scope.

Inductive value (V : Type) : Type :=
| CLOSED
| undefined
| payload (v : V).
Arguments CLOSED {V}.
Arguments undefined {V}.
Arguments payload {V} v.

#[export] Instance value_eq_dec `{EqDecision V} : EqDecision (value V).
Proof. solve_decision. Defined.

(** What an expression that may be [undefined] evaluates to. *)
Definition or_undefined {V} (x : option (value V)) : value V :=
  from_option id undefined x.

Module Chan.

(** The variables of the closure, and the heap. *)
Record state (V : Type) : Type := State {
  isClosed : bool;
  messageQueue : list (value V);
  resolveQueue : list resolver;
  promises : heap (value V)
}.
Arguments State {V} isClosed messageQueue resolveQueue promises.
Arguments isClosed {V} s.
Arguments messageQueue {V} s.
Arguments resolveQueue {V} s.
Arguments promises {V} s.

Section ops.
Context {V : Type} {E : Engine} {T : Thenable (value V)}.
Implicit Types (s : state V) (v : value V).

Definition set_isClosed (b : bool) s : state V :=
  State b (messageQueue s) (resolveQueue s) (promises s).

Definition messageQueue_ : lens (state V) (list (value V)) :=
  Lens messageQueue (λ q s, State (isClosed s) q (resolveQueue s) (promises s)).

Definition resolveQueue_ : lens (state V) (list resolver) :=
  Lens resolveQueue (λ q s, State (isClosed s) (messageQueue s) q (promises s)).

Definition promises_ : lens (state V) (heap (value V)) :=
  Lens promises (λ h s, State (isClosed s) (messageQueue s) (resolveQueue s) h).

#[global] Instance messageQueue_laws : LensLaws messageQueue_.
Proof. by split; [| intros [] |]. Qed.

#[global] Instance resolveQueue_laws : LensLaws resolveQueue_.
Proof. by split; [| intros [] |]. Qed.

#[global] Instance promises_laws : LensLaws promises_.
Proof. by split; [| intros [] |]. Qed.

#[global] Instance state_has_heap : HasHeap (state V) (value V) :=
  {| heap_lens := promises_ |}.

(** [createChannel()], called when the heap is [h]: the closure starts open
    with both queues empty. *)
Definition createChannel (h : heap (value V)) : state V :=
  State false [] [] h.

(** [put(value)] *)
Definition put (value : value V) : js (state V) bool :=
  closed ← gets isClosed;
  if closed then mret false else
  n ← zoom resolveQueue_ Arr.length;
  (if Arr.truthy n
   then resolve ← zoom resolveQueue_ Arr.shift; Promise.invoke_opt resolve value
   else zoom messageQueue_ (Arr.push value);; mret tt);;
  mret true.

(** [take()] *)
Definition take : js (state V) promise :=
  closed ← gets isClosed;
  drained ← (if closed
             then n ← zoom messageQueue_ Arr.length; mret (negb (Arr.truthy n))
             else mret false);
  if drained then Promise.resolve CLOSED else
  n ← zoom messageQueue_ Arr.length;
  if Arr.truthy n
  then x ← zoom messageQueue_ Arr.shift; Promise.resolve (or_undefined x)
  else Promise.new (λ resolve, zoom resolveQueue_ (Arr.push resolve);; mret tt).

(** [close()] *)
Definition close : js (state V) bool :=
  closed ← gets isClosed;
  if closed then mret false else
  modify (set_isClosed true);;
  n ← zoom resolveQueue_ Arr.length;
  (if Arr.truthy n
   then Arr.map resolveQueue_ (λ resolve, Promise.invoke resolve CLOSED);; mret tt
   else mret tt);;
  mret true.

End ops.

(** [CLOSED] is a symbol and [undefined] is [undefined]: a runtime takes
    neither for a promise. *)
Class Lawful {V} (T : Thenable (value V)) : Prop := {
  closed_datum : as_promise CLOSED = None;
  undefined_datum : as_promise undefined = None
}.

#[export] Instance inert_lawful {V} : Lawful (inert (X:=value V)).
Proof. by split. Qed.

(** The theorems of this file are about the engine without a limit on the
    length of arrays; [Limits] relates it to the engines that have one. *)
#[local] Existing Instance ideal.

(** ** The operations on any values *)

Section values.
Context {V : Type} {T : Thenable (value V)} {L : Lawful T}.
Implicit Types (s : state V) (v : value V) (r : resolver).

(** [put] in one equation: the consumer's promise is resolved with the
    value, which it follows when the value is a promise. *)
Lemma put_any v s :
  put v s =
  (Ret (negb (isClosed s)),
   if isClosed s then s
   else match resolveQueue s with
        | r :: rq =>
            State false (messageQueue s) rq (settle r (resolution r v) (promises s))
        | [] => State false (messageQueue s ++ [v]) [] (promises s)
        end).
Proof. destruct s as [[] mq [|r rq] h]; reflexivity. Qed.

(** [take] in one equation: a buffered value that is a promise is returned
    as it is, and no promise is made. *)
Lemma take_any s :
  take s =
  match messageQueue s with
  | v :: mq =>
      match as_promise v with
      | Some q => (Ret q, State (isClosed s) mq (resolveQueue s) (promises s))
      | None => (Ret (length (promises s)),
                 State (isClosed s) mq (resolveQueue s) (promises s ++ [Fulfilled v]))
      end
  | [] =>
      (Ret (length (promises s)),
       if isClosed s
       then State true [] (resolveQueue s) (promises s ++ [Fulfilled CLOSED])
       else State false [] (resolveQueue s ++ [length (promises s)])
              (promises s ++ [Pending]))
  end.
Proof.
  destruct s as [[] [|v mq] rq h]; unfold take; js_unfold; cbn;
    rewrite ?resolve_any, ?closed_datum; try done; by destruct (as_promise v).
Qed.

(** [close] in one equation: [CLOSED] is no promise, so every waiting
    consumer is fulfilled with it. *)
Lemma close_any s :
  close s =
  (Ret (negb (isClosed s)),
   if isClosed s then s
   else State true (messageQueue s) (resolveQueue s)
          (settle_all (resolveQueue s) (Fulfilled CLOSED) (promises s))).
Proof.
  destruct s as [[] mq [|r rq] h]; try reflexivity.
  unfold close. js_unfold. cbn.
  by rewrite (map_invoke_run resolveQueue_) by (done || apply closed_datum).
Qed.

(** [put] never throws, and it returns [false] exactly on a closed channel. *)
Lemma put_result v s : result (put v) s = Ret (negb (isClosed s)).
Proof. unfold result. by rewrite put_any. Qed.

Lemma isClosed_put v s : isClosed (after (put v) s) = isClosed s.
Proof.
  unfold after. rewrite put_any. by destruct s as [[] mq [|r rq] h].
Qed.

(** [put] resolves at most one promise and changes no resolved one. *)
Lemma put_heap_le v s : heap_le (promises s) (promises (after (put v) s)).
Proof.
  unfold after. rewrite put_any.
  destruct s as [[] mq [|r rq] h]; simpl; auto with chan; reflexivity.
Qed.

(** [take] adds at most one promise and changes no other. *)
Lemma take_heap_le s : heap_le (promises s) (promises (after take s)).
Proof.
  unfold after. rewrite take_any.
  destruct s as [[] [|v mq] rq h]; simpl; try destruct (as_promise v);
    simpl; auto with chan; reflexivity.
Qed.

Lemma isClosed_take s : isClosed (after take s) = isClosed s.
Proof.
  unfold after. rewrite take_any.
  destruct s as [[] [|v mq] rq h]; simpl; try destruct (as_promise v); done.
Qed.

(** [close] never throws, and it returns [true] exactly on an open channel. *)
Lemma close_result s : result close s = Ret (negb (isClosed s)).
Proof. unfold result. by rewrite close_any. Qed.

(** [close] changes no resolved promise. *)
Lemma close_heap_le s : heap_le (promises s) (promises (after close s)).
Proof.
  unfold after. rewrite close_any. destruct (isClosed s); simpl; auto with chan; reflexivity.
Qed.

Lemma isClosed_close s : isClosed (after close s) = true.
Proof. unfold after. rewrite close_any. by destruct (isClosed s) eqn:Hc. Qed.

End values.

(** The other theorems of this file are about values that are not promises;
    [Adoption] is about those that are. *)
#[local] Existing Instance inert.

(** [chan_run] runs an operation on a state whose fields are known, up to
    the calls into the promise runtime, which [resolve_run] and [new_run_ret]
    then perform. *)
Ltac chan_run :=
  repeat match goal with
         | s : state _ |- _ => destruct s
         end;
  simpl in *; subst;
  try reflexivity;
  unfold put, take, close; js_unfold; cbn;
  rewrite ?resolve_run; try (erewrite new_run_ret by reflexivity);
  try reflexivity.

(** ** [put] *)

Section put.
Context {V : Type}.
Implicit Types (s : state V) (v : value V) (r : resolver).

(** On a closed channel [put] returns [false] and changes nothing. *)
Lemma put_closed v s : isClosed s = true → put v s = (Ret false, s).
Proof. intros. chan_run. Qed.

(** On an open channel with no waiting consumer the value is appended to
    [messageQueue]. *)
Lemma put_buffer v s :
  isClosed s = false → resolveQueue s = [] →
  put v s = (Ret true, State false (messageQueue s ++ [v]) [] (promises s)).
Proof. intros. chan_run. Qed.

(** On an open channel with a waiting consumer the oldest resolving function
    is removed from [resolveQueue] and called with the value. *)
Lemma put_handoff v s r rq :
  isClosed s = false → resolveQueue s = r :: rq →
  put v s =
  (Ret true, State false (messageQueue s) rq (settle r (Fulfilled v) (promises s))).
Proof. intros. chan_run. Qed.

(** C1: [put] in one equation: it never throws; on a closed channel it returns
    [false] and changes nothing; on an open one it returns [true] and either
    calls the oldest resolving function with the value or appends the value
    to [messageQueue]. *)
Theorem put_spec v s :
  put v s =
  (Ret (negb (isClosed s)),
   if isClosed s then s
   else match resolveQueue s with
        | r :: rq =>
            State false (messageQueue s) rq (settle r (Fulfilled v) (promises s))
        | [] => State false (messageQueue s ++ [v]) [] (promises s)
        end).
Proof. destruct s as [[] mq [|r rq] h]; reflexivity. Qed.

End put.

(** ** [take] *)

Section take.
Context {V : Type}.
Implicit Types (s : state V) (v : value V) (r : resolver).

(** Closed and drained: the promise returned is already resolved with
    [CLOSED]. *)
Lemma take_closed_drained s :
  isClosed s = true → messageQueue s = [] →
  take s =
  (Ret (length (promises s)),
   State true [] (resolveQueue s) (promises s ++ [Fulfilled CLOSED])).
Proof. intros. chan_run. Qed.

(** A buffered value is removed from the head of [messageQueue] and returned
    in a promise that is already resolved, whether the channel is closed or
    not. *)
Lemma take_buffered s v mq :
  messageQueue s = v :: mq →
  take s =
  (Ret (length (promises s)),
   State (isClosed s) mq (resolveQueue s) (promises s ++ [Fulfilled v])).
Proof. intros. destruct s as [[] ? ? ?]; chan_run. Qed.

(** Open and empty: the promise returned is pending and its resolving
    function is appended to [resolveQueue]. *)
Lemma take_pending s :
  isClosed s = false → messageQueue s = [] →
  take s =
  (Ret (length (promises s)),
   State false [] (resolveQueue s ++ [length (promises s)]) (promises s ++ [Pending])).
Proof. intros. chan_run. Qed.

(** C2: [take] in one equation: it never throws and returns a new promise, which
    is resolved with [CLOSED] when the channel is closed and drained, resolved
    with the oldest buffered value when there is one, and pending, with its
    resolving function appended to [resolveQueue], otherwise. *)
Theorem take_spec s :
  take s =
  (Ret (length (promises s)),
   match messageQueue s with
   | v :: mq =>
       State (isClosed s) mq (resolveQueue s) (promises s ++ [Fulfilled v])
   | [] =>
       if isClosed s
       then State true [] (resolveQueue s) (promises s ++ [Fulfilled CLOSED])
       else State false [] (resolveQueue s ++ [length (promises s)])
              (promises s ++ [Pending])
   end).
Proof.
  destruct (messageQueue s) as [|v mq] eqn:Hmq; [destruct (isClosed s) eqn:Hc|].
  - by apply take_closed_drained.
  - by apply take_pending.
  - by apply take_buffered.
Qed.

(** [take] never throws, and the promise it returns is a new one. *)
Lemma take_result s : result take s = Ret (length (promises s)).
Proof.
  unfold result. destruct s as [[] [|v mq] rq h].
  - by rewrite take_closed_drained.
  - by erewrite take_buffered.
  - by rewrite take_pending.
  - by erewrite take_buffered.
Qed.

End take.

(** ** [close] *)

Section close.
Context {V : Type}.
Implicit Types (s : state V) (v : value V) (r : resolver).

(** Closing a closed channel returns [false] and changes nothing. *)
Lemma close_closed s : isClosed s = true → close s = (Ret false, s).
Proof. intros. chan_run. Qed.

(** Closing an open channel sets [isClosed] and calls every resolving
    function of [resolveQueue] with [CLOSED], first to last.  Neither queue
    is changed: [resolveQueue] keeps the functions it has called. *)
Lemma close_open s :
  isClosed s = false →
  close s =
  (Ret true,
   State true (messageQueue s) (resolveQueue s)
     (settle_all (resolveQueue s) (Fulfilled CLOSED) (promises s))).
Proof.
  intros. destruct s as [c mq [|r rq] h]; simpl in *; subst; [done|].
  unfold close. js_unfold. cbn. by rewrite (map_invoke_run resolveQueue_).
Qed.

(** C3: [close] in one equation: it never throws; on a closed channel it returns
    [false] and changes nothing; on an open one it returns [true], sets
    [isClosed] and fulfils with [CLOSED] every promise whose resolving
    function is in [resolveQueue]. *)
Theorem close_spec s :
  close s =
  (Ret (negb (isClosed s)),
   if isClosed s then s
   else State true (messageQueue s) (resolveQueue s)
          (settle_all (resolveQueue s) (Fulfilled CLOSED) (promises s))).
Proof.
  destruct (isClosed s) eqn:Hc.
  - by apply close_closed.
  - by apply close_open.
Qed.

End close.

(** ** [close] is idempotent, a closed channel is inert *)

Section inert.
Context {V : Type}.
Implicit Types (s : state V) (v : value V).

(** The first [close()] on a new channel returns [true]. *)
Lemma close_fresh (h0 : heap (value V)) : result close (createChannel h0) = Ret true.
Proof. done. Qed.

(** Every [close()] after a [close()] returns [false] and changes nothing. *)
Theorem close_idempotent s : close (after close s) = (Ret false, after close s).
Proof. apply close_closed, isClosed_close. Qed.

(** Every [put] after a [close()] returns [false] and changes nothing. *)
Theorem put_after_close v s : put v (after close s) = (Ret false, after close s).
Proof. apply put_closed, isClosed_close. Qed.

(** On a closed and drained channel [take] only adds a promise resolved with
    [CLOSED]: the channel is inert. *)
Theorem take_inert s :
  isClosed s = true → messageQueue s = [] →
  promises (after take s) = promises s ++ [Fulfilled CLOSED]
  ∧ isClosed (after take s) = true ∧ messageQueue (after take s) = []
  ∧ resolveQueue (after take s) = resolveQueue s.
Proof. intros Hc Hm. unfold after. by rewrite take_closed_drained. Qed.

End inert.

(** [take_inert] at a concrete state. *)
Lemma take_inert_witness :
  isClosed (State (V:=nat) true [] [0] [Fulfilled CLOSED]) = true
  ∧ promises (after take (State (V:=nat) true [] [0] [Fulfilled CLOSED]))
    = [Fulfilled CLOSED; Fulfilled CLOSED].
Proof.
  split; [reflexivity|].
  exact (proj1 (take_inert (State true [] [0] [Fulfilled CLOSED]) eq_refl eq_refl)).
Defined.

End Chan.
