(* ===== verification/Invariant.v ===== *)
(** * Invariant: what every state of a channel satisfies

    [exclusive] is the mutual exclusion of the two queues: a value is buffered
    only when no consumer waits, and a consumer waits only when nothing is
    buffered.  [wf] adds what ties [resolveQueue] to the heap: its entries are
    distinct; while the channel is open each is the resolving function of a
    promise that is still pending; once the channel is closed each has been
    settled.  Both are boolean functions, so they can be evaluated on a
    concrete state.

    [createChannel] establishes [wf] and each operation preserves it, from any
    state, not only from the reachable ones, and whatever is put, a promise
    included.  Under [wf] a hand-off really delivers: the promise of the
    oldest waiting consumer was pending, so the call of its resolving
    function fulfils it with the value that was put, when that is no
    promise. *)

From S2P Require Import Prelude JsMonad JsArray Promise Channel.
Import Chan.

#[local] Existing Instance ideal.

(** The two queues are not both non-empty. *)
Definition exclusive {V} (s : state V) : bool :=
  match messageQueue s, resolveQueue s with
  | _ :: _, _ :: _ => false
  | _, _ => true
  end.

(** The promise at [p] is pending, and is settled. *)
Definition pending_in {X} (h : heap X) (p : promise) : bool :=
  match h !! p with
  | Some Pending => true
  | _ => false
  end.

Definition settled_in {X} (h : heap X) (p : promise) : bool :=
  match h !! p with
  | Some st => settled st
  | None => false
  end.

(** The promise exists and is not settled: it is pending, or follows a
    promise that is not settled. *)
Definition unsettled_in {X} (h : heap X) (p : promise) : bool :=
  match h !! p with
  | Some st => negb (settled st)
  | None => false
  end.

Definition wf {V} (s : state V) : bool :=
  exclusive s
  && forallb (if isClosed s then settled_in (promises s) else pending_in (promises s))
       (resolveQueue s)
  && bool_decide (NoDup (resolveQueue s)).

(** ** Reading the boolean predicates *)

Section reflect.
Context {X : Type}.
Implicit Types (h : heap X) (p : promise) (st : pstate X).

Lemma pending_in_spec h p : pending_in h p = true ↔ h !! p = Some Pending.
Proof.
  unfold pending_in. destruct (h !! p) as [[]|]; split; by intros; simplify_eq.
Qed.

Lemma settled_in_spec h p :
  settled_in h p = true ↔ ∃ st, h !! p = Some st ∧ settled st = true.
Proof.
  unfold settled_in. destruct (h !! p) as [st|]; split.
  - by exists st.
  - by intros (? & [= <-] & ?).
  - done.
  - by intros (? & [=] & _).
Qed.

Lemma unsettled_in_spec h p :
  unsettled_in h p = true ↔ ∃ st, h !! p = Some st ∧ settled st = false.
Proof.
  unfold unsettled_in. destruct (h !! p) as [st|]; rewrite ?negb_true_iff; split.
  - by exists st.
  - by intros (? & [= <-] & ?).
  - done.
  - by intros (? & [=] & _).
Qed.

(** A pending promise is not settled. *)
Lemma pending_unsettled h p : pending_in h p = true → unsettled_in h p = true.
Proof. intros Hp%pending_in_spec. unfold unsettled_in. by rewrite Hp. Qed.

Lemma unsettled_not_settled h p : unsettled_in h p = true → settled_in h p = false.
Proof.
  intros (st & Hp & Hs)%unsettled_in_spec. unfold settled_in. by rewrite Hp.
Qed.

Lemma unsettled_in_lt h p : unsettled_in h p = true → p < length h.
Proof. intros (st & Hp & _)%unsettled_in_spec. by eapply lookup_lt_Some. Qed.

Lemma pending_in_lt h p : pending_in h p = true → p < length h.
Proof. intros Hp%pending_in_spec. by eapply lookup_lt_Some. Qed.

Lemma settled_in_lt h p : settled_in h p = true → p < length h.
Proof. intros (st & Hp & _)%settled_in_spec. by eapply lookup_lt_Some. Qed.

(** A settled promise stays settled as the heap evolves. *)
Lemma settled_in_le h h' p : heap_le h h' → settled_in h p = true → settled_in h' p = true.
Proof.
  intros Hle (st & Hp & Hs)%settled_in_spec. apply settled_in_spec.
  exists st. eauto using heap_le_settled.
Qed.

(** A pending promise stays pending when a cell is added. *)
Lemma pending_in_snoc h p st : pending_in h p = true → pending_in (h ++ [st]) p = true.
Proof.
  intros Hp. pose proof (pending_in_lt _ _ Hp). unfold pending_in in *.
  by rewrite lookup_snoc_lt.
Qed.

Lemma pending_in_settle_other h p q st :
  p ≠ q → pending_in (settle p st h) q = pending_in h q.
Proof. intros. unfold pending_in. by rewrite settle_other. Qed.

Lemma pending_in_new h : pending_in (h ++ [Pending]) (length h) = true.
Proof. unfold pending_in. by rewrite lookup_snoc_length. Qed.

(** Settling leaves a pending promise pending or settles it. *)
Lemma pending_settle h p q st :
  settled st = true → pending_in h q = true →
  pending_in (settle p st h) q || settled_in (settle p st h) q = true.
Proof.
  intros Hst Hq%pending_in_spec. unfold pending_in, settled_in. rewrite lookup_settle.
  destruct (h !! p) as [[]|]; try case_decide; rewrite ?Hq; simpl; try done.
  rewrite Hst. apply orb_true_r.
Qed.

Lemma pending_settle_all (ps : list promise) h q st :
  settled st = true → pending_in h q = true →
  pending_in (settle_all ps st h) q || settled_in (settle_all ps st h) q = true.
Proof.
  intros Hst. revert h; induction ps as [|p ps IH]; intros h Hq; simpl.
  { by rewrite Hq. }
  pose proof (pending_settle h p q st Hst Hq) as [H|H]%orb_true_iff; [by apply IH|].
  apply orb_true_iff. right. eapply settled_in_le; [apply heap_le_settle_all|done].
Qed.

(** Settling all the pending promises of a list settles them all. *)
Lemma settled_in_settle_all (ps : list promise) st h p :
  settled st = true → (∀ q, q ∈ ps → pending_in h q = true) → p ∈ ps →
  settled_in (settle_all ps st h) p = true.
Proof.
  intros Hst Hps Hp. apply settled_in_spec. exists st. split; [|done].
  apply settle_all_pending; [done..|]. by apply pending_in_spec, Hps.
Qed.

End reflect.

Section wf.
Context {V : Type} {T : Thenable (value V)} {L : Lawful T}.
Implicit Types (s : state V) (v : value V) (r : resolver).

Lemma exclusive_spec s : exclusive s = true ↔ messageQueue s = [] ∨ resolveQueue s = [].
Proof.
  unfold exclusive. destruct (messageQueue s), (resolveQueue s); intuition congruence.
Qed.

(** [wf] as three facts about the fields. *)
Lemma wf_spec s :
  wf s = true ↔
  (messageQueue s = [] ∨ resolveQueue s = [])
  ∧ (∀ r, r ∈ resolveQueue s →
       (if isClosed s then settled_in (promises s) else pending_in (promises s)) r = true)
  ∧ NoDup (resolveQueue s).
Proof.
  unfold wf.
  rewrite !andb_true_iff, bool_decide_eq_true, exclusive_spec, forallb_elem_of.
  tauto.
Qed.

Lemma wf_exclusive s : wf s = true → exclusive s = true.
Proof. intros (? & _)%wf_spec. by apply exclusive_spec. Qed.

(** While the channel is open, every resolving function in [resolveQueue]
    belongs to a pending promise. *)
Lemma wf_waiting s r :
  wf s = true → isClosed s = false → r ∈ resolveQueue s →
  promises s !! r = Some Pending.
Proof.
  intros (_ & Hall & _)%wf_spec Ho Hr. rewrite Ho in Hall.
  by apply pending_in_spec, Hall.
Qed.

(** ** Establishing and preserving [wf] *)

Lemma createChannel_wf (h : heap (value V)) : wf (createChannel h) = true.
Proof. done. Qed.

Lemma put_wf v s : wf s = true → wf (after (put v) s) = true.
Proof.
  intros Hwf. unfold after. rewrite put_any. destruct (isClosed s) eqn:Hc; [done|].
  destruct (resolveQueue s) as [|r rq] eqn:Hrq; simpl.
  { apply wf_spec; simpl.
    split_all; [by right | by intros ? ?%elem_of_nil | constructor]. }
  apply wf_spec in Hwf as (Hex & Hall & Hnd). rewrite Hc, Hrq in *.
  destruct Hex as [Hm|[=]]. apply NoDup_cons in Hnd as [Hr Hnd].
  apply wf_spec; simpl. split_all; [by left| |done].
  intros q Hq. rewrite pending_in_settle_other by (by intros ->).
  apply Hall. by right.
Qed.

Lemma take_wf s : wf s = true → wf (after take s) = true.
Proof.
  intros Hwf. pose proof Hwf as (Hex & Hall & Hnd)%wf_spec. unfold after. rewrite take_any.
  destruct (messageQueue s) as [|v mq] eqn:Hmq; [destruct (isClosed s) eqn:Hc|]; simpl.
  - apply wf_spec; simpl. split_all; [by left| |done].
    intros q Hq. eapply settled_in_le; [apply heap_le_snoc|by apply Hall].
  - apply wf_spec; simpl. split_all; [by left|..].
    + intros q [Hq| ->%list_elem_of_singleton]%elem_of_app.
      * by apply pending_in_snoc, Hall.
      * apply pending_in_new.
    + apply NoDup_app. split_all; [done| |apply NoDup_singleton].
      intros q Hq ->%list_elem_of_singleton.
      apply Hall, pending_in_lt in Hq. lia.
  - destruct Hex as [?|Hrq]; [done|].
    destruct (as_promise v); simpl; rewrite Hrq; apply wf_spec; simpl;
      (split_all; [by right | by intros ? ?%elem_of_nil | constructor]).
Qed.

Lemma close_wf s : wf s = true → wf (after close s) = true.
Proof.
  intros Hwf. unfold after. rewrite close_any. destruct (isClosed s) eqn:Hc; [done|].
  apply wf_spec in Hwf as (Hex & Hall & Hnd). rewrite Hc in Hall.
  apply wf_spec; simpl. split_all; [done| |done].
  intros q Hq. by apply settled_in_settle_all.
Qed.

End wf.

(** ** What [wf] gives, with values that are not promises *)

#[local] Existing Instance inert.

Section delivers.
Context {V : Type}.
Implicit Types (s : state V) (v : value V) (r : resolver).

(** C8: A hand-off delivers: after [put(v)] on an open channel with a waiting
    consumer, the promise of the oldest one is fulfilled with [v]. *)
Lemma put_delivers v s r rq :
  wf s = true → isClosed s = false → resolveQueue s = r :: rq →
  promises (after (put v) s) !! r = Some (Fulfilled v).
Proof.
  intros Hwf Hc Hrq. unfold after. rewrite (put_handoff _ _ r rq) by done. simpl.
  apply settle_pending, wf_waiting; [done..|]. rewrite Hrq. by left.
Qed.

(** [close] settles every waiting consumer with [CLOSED]. *)
Lemma close_flushes s r :
  wf s = true → isClosed s = false → r ∈ resolveQueue s →
  promises (after close s) !! r = Some (Fulfilled CLOSED).
Proof.
  intros Hwf Hc Hr. unfold after. rewrite close_open by done. simpl.
  apply settle_all_pending; [done..|]. by apply wf_waiting.
Qed.

End delivers.

(** ** The theorems at concrete states *)

Lemma put_delivers_witness :
  wf (State (V:=nat) false [] [0; 1] [Pending; Pending]) = true
  ∧ promises (after (put (payload 7)) (State false [] [0; 1] [Pending; Pending])) !! 0
    = Some (Fulfilled (payload 7)).
Proof.
  split; [reflexivity|].
  exact (put_delivers (payload 7) (State false [] [0; 1] [Pending; Pending]) 0 [1]
           eq_refl eq_refl eq_refl).
Defined.

Lemma close_flushes_witness :
  wf (State (V:=nat) false [] [0; 1] [Pending; Pending]) = true
  ∧ promises (after close (State (V:=nat) false [] [0; 1] [Pending; Pending])) !! 1
    = Some (Fulfilled CLOSED).
Proof.
  split; [reflexivity|].
  apply (close_flushes (State false [] [0; 1] [Pending; Pending]) 1 eq_refl eq_refl).
  simpl. apply list_elem_of_further, list_elem_of_here.
Defined.
