(* ===== verification/Trace.v ===== *)
(** * Trace: sequences of calls on a channel

    The handle that [createChannel] returns is frozen and has three methods,
    so all a program can do with a channel is a sequence of [call]s: [Put v],
    [Take], [Close].  [exec] performs one call and [run] a sequence, collecting
    what each call returned.  [step] is the same behaviour as a relation, one
    rule per branch of the source, and [reachable] is the set of states a
    channel can be in.

    Whatever is put, a promise included: [step] is the graph of [exec], no
    call throws, every reachable state satisfies [wf], hence [exclusive],
    closing is permanent, and a promise that was resolved is never changed
    by a later call; a call changes only pending promises of its own
    [resolveQueue], and the promise it makes follows no other.  With values
    that are not promises, [answer] is what a call returns, as a pure
    function of the state before it. *)

From S2P Require Import Prelude JsMonad JsArray Promise Channel Invariant.
Import Chan.

#[local] Open Scope js_scope.

(** A method call on the handle, and what a call returns. *)
Inductive call (V : Type) : Type :=
| Put (v : value V)
| Take
| Close.
Arguments Put {V} v.
Arguments Take {V}.
Arguments Close {V}.

Inductive ret : Type :=
| RBool (b : bool)
| RPromise (p : promise).

#[export] Instance call_eq_dec `{EqDecision V} : EqDecision (call V).
Proof. solve_decision. Defined.

#[export] Instance ret_eq_dec : EqDecision ret.
Proof. solve_decision. Defined.

Definition exec {V} {E : Engine} {T : Thenable (value V)} (c : call V) : js (state V) ret :=
  match c with
  | Put v => b ← put v; mret (RBool b)
  | Take => p ← take; mret (RPromise p)
  | Close => b ← close; mret (RBool b)
  end.

Fixpoint run {V} {E : Engine} {T : Thenable (value V)} (cs : list (call V))
    : js (state V) (list ret) :=
  match cs with
  | [] => mret []
  | c :: cs' => r ← exec c; rs ← run cs'; mret (r :: rs)
  end.

(** One rule per branch of [put], [take] and [close]; the rule of a buffered
    value is two, for [Promise.resolve] returns a value that is a promise as
    it is. *)
Inductive step {V} {T : Thenable (value V)} : state V → call V → ret → state V → Prop :=
| step_put_closed s v :
    isClosed s = true →
    step s (Put v) (RBool false) s
| step_put_handoff s v r rq :
    isClosed s = false → resolveQueue s = r :: rq →
    step s (Put v) (RBool true)
      (State false (messageQueue s) rq (settle r (resolution r v) (promises s)))
| step_put_buffer s v :
    isClosed s = false → resolveQueue s = [] →
    step s (Put v) (RBool true)
      (State false (messageQueue s ++ [v]) [] (promises s))
| step_take_closed s :
    isClosed s = true → messageQueue s = [] →
    step s Take (RPromise (length (promises s)))
      (State true [] (resolveQueue s) (promises s ++ [Fulfilled CLOSED]))
| step_take_promise s v q mq :
    messageQueue s = v :: mq → as_promise v = Some q →
    step s Take (RPromise q)
      (State (isClosed s) mq (resolveQueue s) (promises s))
| step_take_buffered s v mq :
    messageQueue s = v :: mq → as_promise v = None →
    step s Take (RPromise (length (promises s)))
      (State (isClosed s) mq (resolveQueue s) (promises s ++ [Fulfilled v]))
| step_take_pending s :
    isClosed s = false → messageQueue s = [] →
    step s Take (RPromise (length (promises s)))
      (State false [] (resolveQueue s ++ [length (promises s)])
         (promises s ++ [Pending]))
| step_close_closed s :
    isClosed s = true →
    step s Close (RBool false) s
| step_close_open s :
    isClosed s = false →
    step s Close (RBool true)
      (State true (messageQueue s) (resolveQueue s)
         (settle_all (resolveQueue s) (Fulfilled CLOSED) (promises s))).

(** The states of a channel created when the heap was [h0]. *)
Inductive reachable {V} {T : Thenable (value V)} (h0 : heap (value V)) : state V → Prop :=
| reachable_init : reachable h0 (createChannel h0)
| reachable_step s c r s' : reachable h0 s → step s c r s' → reachable h0 s'.

(** The result of a call, as a pure function of the state before it, when
    no value is a promise: [take] then returns a new promise. *)
Definition answer {V} (c : call V) (s : state V) : ret :=
  match c with
  | Put _ | Close => RBool (negb (isClosed s))
  | Take => RPromise (length (promises s))
  end.

(** The answers of a sequence of calls and the state it leaves. *)
Fixpoint answers {V} {E : Engine} (cs : list (call V)) (s : state V) : list ret :=
  match cs with
  | [] => []
  | c :: cs' => answer c s :: answers cs' (after (exec (T:=inert) c) s)
  end.

Definition final {V} {E : Engine} {T : Thenable (value V)} (cs : list (call V)) (s : state V)
    : state V :=
  foldl (λ s' c, after (exec c) s') s cs.

(** ** Sequences of calls, on any engine and with any values *)

Section engines.
Context {V : Type} {E : Engine} {T : Thenable (value V)}.
Implicit Types (s : state V) (c : call V) (cs : list (call V)).

Lemma final_app cs1 cs2 s : final (cs1 ++ cs2) s = final cs2 (final cs1 s).
Proof. apply foldl_app. Qed.

Lemma answers_app cs1 cs2 s :
  answers (cs1 ++ cs2) s = answers cs1 s ++ answers cs2 (final (T:=inert) cs1 s).
Proof.
  revert s; induction cs1 as [|c cs1 IH]; intros s; simpl; [done|]. by rewrite IH.
Qed.

Lemma length_answers cs s : length (answers cs s) = length cs.
Proof. revert s; induction cs as [|c cs IH]; intros s; simpl; by rewrite ?IH. Qed.

(** What holds of a state and is kept by every call holds at the end of
    every run. *)
Lemma final_ind (P : state V → Prop) cs s :
  (∀ c s', P s' → P (after (exec c) s')) → P s → P (final cs s).
Proof.
  intros Hstep. revert s; induction cs as [|c cs IH]; intros s Hs; simpl; auto.
Qed.

End engines.

(** The other theorems of this file are about the engine without a limit on
    the length of arrays. *)
#[local] Existing Instance ideal.

(** ** Calls with any values *)

Section values.
Context {V : Type} {T : Thenable (value V)} {L : Lawful T}.
Implicit Types (s : state V) (c : call V) (cs : list (call V)) (r : ret).

(** The state a call leaves is the state its operation leaves. *)
Lemma after_exec c s :
  after (exec c) s =
  match c with
  | Put v => after (put v) s
  | Take => after take s
  | Close => after close s
  end.
Proof. destruct c; apply after_andthen_ret. Qed.

(** [step] is the graph of [exec]. *)
Lemma step_exec s c r s' : step s c r s' → exec c s = (Ret r, s').
Proof.
  intros Hstep.
  destruct Hstep as [s v Hc|s v r rq Hc Hrq|s v Hc Hrq|s Hc Hm|s v q mq Hm Hv|s v mq Hm Hv
                    |s Hc Hm|s Hc|s Hc];
    unfold exec; js_unfold;
    rewrite ?put_any, ?take_any, ?close_any, ?Hc, ?Hrq, ?Hm, ?Hv; done.
Qed.

(** Every call can be made in every state, with one result. *)
Lemma step_total s c : ∃ r s', step s c r s'.
Proof.
  destruct c as [v| |]; destruct (isClosed s) eqn:Hc.
  - eauto using step_put_closed.
  - destruct (resolveQueue s) eqn:Hrq; eauto using step_put_buffer, step_put_handoff.
  - destruct (messageQueue s) as [|v mq] eqn:Hm; [eauto using step_take_closed|].
    destruct (as_promise v) eqn:Hv; eauto using step_take_promise, step_take_buffered.
  - destruct (messageQueue s) as [|v mq] eqn:Hm; [eauto using step_take_pending|].
    destruct (as_promise v) eqn:Hv; eauto using step_take_promise, step_take_buffered.
  - eauto using step_close_closed.
  - eauto using step_close_open.
Qed.

Lemma step_iff_exec s c r s' : step s c r s' ↔ exec c s = (Ret r, s').
Proof.
  split; [apply step_exec|]. intros He.
  destruct (step_total s c) as (r0 & s0 & Hs). pose proof (step_exec _ _ _ _ Hs) as He'.
  rewrite He in He'. by simplify_eq.
Qed.

(** A call has one result and leads to one state. *)
Lemma step_deterministic s c r1 s1 r2 s2 :
  step s c r1 s1 → step s c r2 s2 → r1 = r2 ∧ s1 = s2.
Proof. intros H1%step_exec H2%step_exec. rewrite H1 in H2. by simplify_eq. Qed.

Lemma after_step s c r s' : step s c r s' → result (exec c) s = Ret r ∧ after (exec c) s = s'.
Proof. intros H%step_exec. unfold result, after. by rewrite H. Qed.

(** No call throws, whatever is put. *)
Lemma exec_returns c s : returns (exec c) s = true.
Proof.
  destruct (step_total s c) as (r & s' & Hs%step_exec). unfold returns, result.
  by rewrite Hs.
Qed.

Lemma exec_wf c s : wf s = true → wf (after (exec c) s) = true.
Proof.
  rewrite after_exec. destruct c; [apply put_wf|apply take_wf|apply close_wf].
Qed.

(** Closing is permanent. *)
Lemma exec_closed c s : isClosed s = true → isClosed (after (exec c) s) = true.
Proof.
  rewrite after_exec. destruct c.
  - by rewrite isClosed_put.
  - by rewrite isClosed_take.
  - by rewrite isClosed_close.
Qed.

(** A call changes no resolved promise. *)
Lemma exec_heap_le c s : heap_le (promises s) (promises (after (exec c) s)).
Proof.
  rewrite after_exec.
  destruct c; [apply put_heap_le|apply take_heap_le|apply close_heap_le].
Qed.

(** C7: Well-formedness is kept by every sequence of calls. *)
Lemma final_wf cs s : wf s = true → wf (final cs s) = true.
Proof. apply (final_ind (λ s', wf s' = true)). intros c s'. apply exec_wf. Qed.

(** Closing is permanent: no sequence of calls reopens a closed channel. *)
Lemma final_closed cs s : isClosed s = true → isClosed (final cs s) = true.
Proof.
  apply (final_ind (λ s', isClosed s' = true)). intros c s'. apply exec_closed.
Qed.

Lemma final_heap_le cs s : heap_le (promises s) (promises (final cs s)).
Proof.
  revert s; induction cs as [|c cs IH]; intros s; simpl; [done|].
  etrans; [apply (exec_heap_le c)|apply IH].
Qed.

(** No promise is settled twice: a promise that is settled keeps its state
    through every later call. *)
Lemma settled_forever cs s p st :
  promises s !! p = Some st → settled st = true →
  promises (final cs s) !! p = Some st.
Proof. apply heap_le_settled, final_heap_le. Qed.

(** A promise that follows another follows it through every later call: no
    [put] and no [close] reaches it. *)
Lemma resolved_forever cs s p st :
  promises s !! p = Some st → resolved st = true →
  promises (final cs s) !! p = Some st.
Proof. apply heap_le_resolved, final_heap_le. Qed.

(** ** Reachable states *)

(** The reachable states are the final states of the runs from
    [createChannel]. *)
Lemma reachable_final (h0 : heap (value V)) s :
  reachable h0 s ↔ ∃ cs, final cs (createChannel h0) = s.
Proof.
  split.
  - induction 1 as [|s c r s' _ [cs <-] Hstep].
    + by exists [].
    + exists (cs ++ [c]). rewrite final_app. simpl.
      apply step_exec in Hstep. unfold after. by rewrite Hstep.
  - intros [cs <-]. induction cs as [|c cs IH] using rev_ind; [constructor|].
    rewrite final_app. simpl.
    destruct (step_total (final cs (createChannel h0)) c) as (r & s' & Hs).
    pose proof (step_exec _ _ _ _ Hs) as He. unfold after. rewrite He.
    by econstructor.
Qed.

(** Every reachable state is well formed. *)
Lemma reachable_wf (h0 : heap (value V)) s : reachable h0 s → wf s = true.
Proof.
  induction 1 as [|s c r s' _ IH Hstep]; [apply createChannel_wf|].
  apply step_exec in Hstep. pose proof (exec_wf c s IH) as Hwf.
  unfold after in Hwf. by rewrite Hstep in Hwf.
Qed.

(** C4: In no reachable state are a value buffered and a consumer waiting,
    whatever was put. *)
Lemma reachable_exclusive (h0 : heap (value V)) s : reachable h0 s → exclusive s = true.
Proof. intros. eapply wf_exclusive, reachable_wf. eassumption. Qed.

End values.

(** [step_cases c s]: the cases of the call [c] in the state [s], one per
    rule of [step], with the state after the call replaced in the goal by
    what the rule says; for any values. *)
Ltac step_cases c s :=
  let H := fresh "Hstep" in
  destruct (step_total s c) as (? & ? & H);
  rewrite (proj2 (after_step _ _ _ _ H)); destruct H; simpl.

(** ** What one call changes, with any values *)

Section changes.
Context {V : Type} {T : Thenable (value V)} {L : Lawful T}.
Implicit Types (s : state V) (c : call V) (p : promise).

(** A call resolves only promises of its own [resolveQueue], and none when
    the channel is closed. *)
Lemma exec_frame_open c s p :
  (isClosed s = false → p ∉ resolveQueue s) → p < length (promises s) →
  promises (after (exec c) s) !! p = promises s !! p.
Proof.
  intros Hp Hlt. step_cases c s; rewrite ?lookup_snoc_lt by done; try done.
  - apply settle_other. intros ->. apply Hp; [done|].
    select (resolveQueue _ = _) (fun H => rewrite H). by left.
  - apply settle_all_other. auto.
Qed.

Lemma exec_frame c s p :
  p ∉ resolveQueue s → p < length (promises s) →
  promises (after (exec c) s) !! p = promises s !! p.
Proof. intros Hp. by apply exec_frame_open. Qed.

(** A promise keeps its state through a call, unless it is pending and
    waits in [resolveQueue]. *)
Lemma exec_changes c s p st :
  promises s !! p = Some st →
  promises (after (exec c) s) !! p = Some st
  ∨ (st = Pending ∧ p ∈ resolveQueue s).
Proof.
  intros Hp. destruct (decide (p ∈ resolveQueue s)) as [Hin|Hin].
  - destruct (resolved st) eqn:Hr; [|destruct st; try done; auto].
    left. eapply heap_le_resolved; [apply exec_heap_le|done..].
  - left. rewrite exec_frame; [done..|by eapply lookup_lt_Some].
Qed.

(** The promise a call makes follows no promise. *)
Lemma exec_new_cell c s p q :
  length (promises s) ≤ p → promises (after (exec c) s) !! p ≠ Some (Following q).
Proof.
  intros Hp. step_cases c s;
    rewrite ?lookup_ge_None_2 by (by rewrite ?length_settle, ?length_settle_all); try done.
  all: destruct (decide (p = length (promises s))) as [->|];
    [by rewrite lookup_snoc_length|by rewrite lookup_ge_None_2 by (rewrite length_app; simpl; lia)].
Qed.

(** The consumers that wait after a call waited before it, or are the one
    the call registered. *)
Lemma exec_resolveQueue c s p :
  p ∈ resolveQueue (after (exec c) s) →
  p ∈ resolveQueue s ∨ p = length (promises s).
Proof.
  step_cases c s; auto; try by intros ?%elem_of_nil.
  - select (resolveQueue _ = _) (fun H => rewrite H). intros ?. left. by right.
  - intros [?| ->%list_elem_of_singleton]%elem_of_app; auto.
Qed.

End changes.

(** From here on no value is a promise. *)
#[local] Existing Instance inert.

(** ** One call *)

Section exec.
Context {V : Type}.
Implicit Types (s : state V) (c : call V) (r : ret).

(** [exec] and [step] describe the same behaviour. *)
Lemma exec_step c s : step s c (answer c s) (after (exec c) s) ∧ exec c s = (Ret (answer c s), after (exec c) s).
Proof.
  unfold after. destruct c as [v| |]; simpl; js_unfold.
  - destruct (isClosed s) eqn:Hc; [|destruct (resolveQueue s) as [|r rq] eqn:Hrq].
    + rewrite put_closed by done. split; [by constructor | done].
    + rewrite put_buffer by done. split; [by constructor | done].
    + rewrite (put_handoff _ _ r rq) by done. split; [by constructor | done].
  - destruct (messageQueue s) as [|v mq] eqn:Hmq; [destruct (isClosed s) eqn:Hc|].
    + rewrite take_closed_drained by done. split; [by constructor | done].
    + rewrite take_pending by done. split; [by constructor | done].
    + rewrite (take_buffered _ v mq) by done. split; [by constructor | done].
  - destruct (isClosed s) eqn:Hc.
    + rewrite close_closed by done. split; [by constructor | done].
    + rewrite close_open by done. split; [by constructor | done].
Qed.

End exec.

(** [exec_cases c s]: the cases of the call [c] in the state [s], one per
    rule of [step], with the answer and the state after the call in the
    goal replaced by what the rule says. *)
Ltac exec_cases c s :=
  let H := fresh "Hstep" in
  pose proof (proj1 (exec_step c s)) as H; revert H;
  generalize (answer c s) (after (exec c) s); intros ? ? H;
  destruct H; simpl.

(** ** What one call changes *)

Section frame.
Context {V : Type}.
Implicit Types (s : state V) (c : call V) (p : promise).

(** A call resolves no promise with a promise: a pending promise is pending
    after it, or settled. *)
Lemma exec_settles c s p :
  pending_in (promises s) p = true →
  pending_in (promises (after (exec c) s)) p
  || settled_in (promises (after (exec c) s)) p = true.
Proof.
  intros Hp. exec_cases c s; rewrite ?pending_in_snoc; try done; try by rewrite Hp.
  - by apply pending_settle.
  - by apply pending_settle_all.
Qed.

(** Only [take] makes a promise, and it makes one. *)
Lemma exec_length c s :
  length (promises (after (exec c) s))
  = match c with Take => S (length (promises s)) | _ => length (promises s) end.
Proof.
  exec_cases c s; rewrite ?length_app, ?length_settle, ?length_settle_all; simpl;
    try done; lia.
Qed.

End frame.

(** ** Sequences of calls *)

Section run.
Context {V : Type}.
Implicit Types (s : state V) (c : call V) (cs : list (call V)) (r : ret).

(** A run never throws: it returns the answers of its calls and leaves the
    state that the calls lead to one after the other. *)
Lemma run_spec cs s : run cs s = (Ret (answers cs s), final cs s).
Proof.
  revert s; induction cs as [|c cs IH]; intros s; [done|].
  simpl. js_unfold. by rewrite (proj2 (exec_step c s)), IH.
Qed.

(** A sequence of calls never throws. *)
Lemma run_returns cs s : returns (run cs) s = true.
Proof. unfold returns, result. by rewrite run_spec. Qed.

End run.

(** ** The theorems at concrete states *)

Lemma reachable_exclusive_witness :
  reachable [] (State false [payload 1] [] []) ∧
  exclusive (State false [payload 1] [] []) = true.
Proof.
  assert (reachable [] (State false [payload 1] [] [])) as Hr.
  { eapply reachable_step; [apply reachable_init|].
    exact (step_put_buffer (createChannel []) (payload 1) eq_refl eq_refl). }
  split; [exact Hr | exact (reachable_exclusive [] _ Hr)].
Defined.

Lemma final_wf_witness :
  wf (createChannel (V:=nat) []) = true
  ∧ wf (final [Take; Put (payload 1); Take; Close] (createChannel [])) = true.
Proof.
  split; [reflexivity|].
  exact (final_wf [Take; Put (payload 1); Take; Close] (createChannel []) eq_refl).
Defined.

Lemma final_closed_witness :
  isClosed (State (V:=nat) true [] [] []) = true
  ∧ isClosed (final [Put (payload 1); Take] (State true [] [] [])) = true.
Proof.
  split; [reflexivity|].
  exact (final_closed [Put (payload 1); Take] (State true [] [] []) eq_refl).
Defined.

Lemma settled_forever_witness :
  promises (State false [] [1] [Fulfilled (payload 1); Pending]) !! 0
    = Some (Fulfilled (payload 1))
  ∧ promises (final [Put (payload 2); Close; Take]
                (State false [] [1] [Fulfilled (payload 1); Pending])) !! 0
    = Some (Fulfilled (payload 1)).
Proof.
  split; [reflexivity|].
  exact (settled_forever [Put (payload 2); Close; Take]
           (State false [] [1] [Fulfilled (payload 1); Pending]) 0
           (Fulfilled (payload 1)) eq_refl eq_refl).
Defined.

Lemma step_deterministic_witness :
  step (createChannel (V:=nat) []) Take (RPromise 0) (State false [] [0] [Pending])
  ∧ (RPromise 0 = RPromise 0
     ∧ State (V:=nat) false [] [0] [Pending] = State false [] [0] [Pending]).
Proof.
  assert (step (createChannel (V:=nat) []) Take (RPromise 0)
            (State false [] [0] [Pending])) as Hs.
  { exact (step_take_pending (createChannel []) eq_refl eq_refl). }
  split; [exact Hs | exact (step_deterministic _ _ _ _ _ _ Hs Hs)].
Defined.
