(* ===== verification/Adoption.v ===== *)
(** * Adoption: values that are promises

    [put] takes any value ([src/index.js] lines 16-17), and the value goes to
    a resolving function (line 25) or to [Promise.resolve] (line 45).  When
    the value is a promise the runtime does not hand it over as it is: a
    promise resolved with a promise follows it and settles as it does, a
    promise resolved with itself is rejected with a [TypeError], and
    [Promise.resolve] of a promise is that promise.

    [item] is a value that may be a promise of the heap and [native] the
    runtime that knows it.  [fate] is the state a promise comes to once the
    promises it follows have settled and the jobs that pass their state on
    have run ([adopt] is one such job): it is found by following the chain
    with fuel, and the length of the heap is fuel enough.  [Jobs] runs the
    jobs and shows that they bring about what [fate] says.

    The theorems give [put] and [take] on such values, show that the
    invariant of the channel is kept and that a program that puts no promise
    runs as in the rest of the development, and then what a program that
    does put one gets: the value the promise settles with in place of the
    promise, a rejection where the documentation promises a value, a
    [take] that returns a promise that is not new, and consumers that no
    [put] and no [close] will ever release. *)

From stdpp Require Import finite.
From S2P Require Import Prelude JsMonad JsArray Promise Channel Invariant Trace.
Import Chan.

#[local] Open Scope js_scope.
#[local] Existing Instance ideal.

(** What a program puts on a channel: a datum, or a promise of the heap. *)
Inductive item (V : Type) : Type :=
| Datum (v : V)
| Ref (p : promise).
Arguments Datum {V} v.
Arguments Ref {V} p.

#[export] Instance item_eq_dec `{EqDecision V} : EqDecision (item V).
Proof. solve_decision. Defined.

(** The runtime: a value is a promise when it is a [Ref]; [CLOSED] and
    [undefined] are none. *)
Definition native {V} : Thenable (value (item V)) :=
  {| as_promise x := match x with payload (Ref p) => Some p | _ => None end |}.

(** A value that is no promise, and a call that puts none. *)
Definition datum {V} (v : value (item V)) : bool :=
  match v with
  | payload (Ref _) => false
  | _ => true
  end.

Definition datum_call {V} (c : call (item V)) : bool :=
  match c with
  | Put v => datum v
  | _ => true
  end.

(** The promise that [p] follows, if it follows one. *)
Definition link {X} (h : heap X) (p : promise) : option promise :=
  match h !! p with
  | Some (Following q) => Some q
  | _ => None
  end.

(** The promise [k] links after [p]. *)
Fixpoint hops {X} (h : heap X) (k : nat) (p : promise) : option promise :=
  match k with
  | 0 => Some p
  | S k' => link h p ≫= hops h k'
  end.

(** The state at the end of the chain that starts at [p], followed for at
    most [n] links; [None] when the chain is longer.  A promise that does
    not exist is never settled. *)
Fixpoint chase {X} (n : nat) (h : heap X) (p : promise) : option (pstate X) :=
  match h !! p with
  | Some (Following q) =>
      match n with
      | 0 => None
      | S n' => chase n' h q
      end
  | Some st => Some st
  | None => Some Pending
  end.

(** What [p] comes to: the state at the end of its chain, and [Pending] when
    the chain has no end. *)
Definition fate {X} (h : heap X) (p : promise) : pstate X :=
  default Pending (chase (length h) h p).

(** The job that passes on to [p] the state of the promise it follows, once
    that one is settled. *)
Definition adopt {X} (p : promise) (h : heap X) : heap X :=
  match link h p ≫= (h !!.) with
  | Some st => if settled st then <[p := st]> h else h
  | None => h
  end.

(** ** Chains *)

Section chains.
Context {X : Type}.
Implicit Types (h : heap X) (p q : promise) (st : pstate X) (n k : nat).

Lemma link_Some h p q : link h p = Some q ↔ h !! p = Some (Following q).
Proof. unfold link. destruct (h !! p) as [[]|]; naive_solver. Qed.

Lemma link_lt h p q : link h p = Some q → p < length h.
Proof. intros Hl%link_Some. by eapply lookup_lt_Some. Qed.

Lemma hops_add h j k p : hops h (j + k) p = hops h j p ≫= hops h k.
Proof.
  revert p; induction j as [|j IH]; intros p; simpl; [done|].
  destruct (link h p) as [q|]; simpl; auto.
Qed.

(** A chain that reaches its [k]-th promise reaches the ones before. *)
Lemma hops_le h j k p : j ≤ k → is_Some (hops h k p) → is_Some (hops h j p).
Proof.
  intros Hle. replace k with (j + (k - j)) by lia. rewrite hops_add.
  destruct (hops h j p); simpl; [eauto|by intros [? [=]]].
Qed.

(** Every promise of a chain but the last follows one, so it is a promise of
    the heap. *)
Lemma hops_lt h j k p q :
  j < k → is_Some (hops h k p) → hops h j p = Some q → q < length h.
Proof.
  intros Hlt Hk Hj. apply (hops_le h (S j)) in Hk; [|lia].
  replace (S j) with (j + 1) in Hk by lia. rewrite hops_add, Hj in Hk. simpl in Hk.
  destruct (link h q) as [q'|] eqn:Hl; [by eapply link_lt|by destruct Hk].
Qed.

(** The chase runs out of fuel exactly when the chain is longer than the
    fuel. *)
Lemma chase_None n h p : chase n h p = None ↔ is_Some (hops h (S n) p).
Proof.
  revert p; induction n as [|n IH]; intros p; simpl in *; unfold link;
    destruct (h !! p) as [[]|]; simpl; rewrite ?IH;
    split; try done; try (by intros [? [=]]); eauto.
Qed.

(** More fuel does not change what the chase found. *)
Lemma chase_le n m h p st : n ≤ m → chase n h p = Some st → chase m h p = Some st.
Proof.
  revert m p; induction n as [|n IH]; intros m p Hle; destruct m as [|m]; simpl;
    destruct (h !! p) as [[]|]; try done; try lia. apply IH. lia.
Qed.

(** A chain that comes back to a promise it has visited goes on for ever. *)
Lemma hops_cycle h i j p q :
  i < j → hops h i p = Some q → hops h j p = Some q → ∀ k, is_Some (hops h k p).
Proof.
  intros Hlt Hi Hj k. induction (lt_wf k) as [k _ IH].
  destruct (decide (k ≤ j)) as [Hle|Hgt]; [by eapply hops_le; [|rewrite Hj]|].
  replace k with (j + (k - j)) by lia. rewrite hops_add, Hj. simpl.
  destruct (IH (i + (k - j))) as [x Hx]; [lia|].
  rewrite hops_add, Hi in Hx. simpl in Hx. eauto.
Qed.

(** A chain longer than the heap visits a promise twice. *)
Lemma hops_long h p :
  is_Some (hops h (S (length h)) p) → ∀ k, is_Some (hops h k p).
Proof.
  intros Hk.
  destruct (nat_pigeonhole (λ i, default 0 (hops h i p)) (S (length h)) (length h))
    as (i & j & [Hij Hj] & Heq); [lia| |].
  { intros i Hi. destruct (hops_le h i (S (length h)) p ltac:(lia) Hk) as [q Hq].
    rewrite Hq. simpl. by eapply hops_lt. }
  destruct (hops_le h i (S (length h)) p ltac:(lia) Hk) as [q Hq].
  destruct (hops_le h j (S (length h)) p ltac:(lia) Hk) as [q' Hq'].
  rewrite Hq, Hq' in Heq. simpl in Heq. subst q'. by apply (hops_cycle h i j p q).
Qed.

(** The length of the heap is fuel enough: with more the chase finds what it
    finds with that much, and a chain with no end has none with any fuel. *)
Lemma chase_enough n h p : length h ≤ n → chase n h p = chase (length h) h p.
Proof.
  intros Hle. destruct (chase (length h) h p) as [st|] eqn:Hc.
  - by eapply chase_le.
  - apply chase_None, hops_long. by apply chase_None.
Qed.

Lemma chase_following n h p q :
  h !! p = Some (Following q) → chase (S n) h p = chase n h q.
Proof. intros Hp. simpl. by rewrite Hp. Qed.

(** The chase ends at a state that follows nothing. *)
Lemma chase_resolved n h p st q : chase n h p = Some st → st ≠ Following q.
Proof.
  revert p; induction n as [|n IH]; intros p; simpl;
    destruct (h !! p) as [[]|]; intros; simplify_eq; eauto.
Qed.

(** ** The fate of a promise *)

(** The fate of a promise that follows another is the fate of that one; the
    fate of any other is its state. *)
Lemma fate_unfold h p :
  fate h p = match h !! p with
             | Some (Following q) => fate h q
             | Some st => st
             | None => Pending
             end.
Proof.
  unfold fate. destruct (h !! p) as [[|q| |]|] eqn:Hp;
    try (destruct (length h); simpl; by rewrite Hp).
  by rewrite <- (chase_enough (S (length h)) h p), (chase_following _ _ _ q) by (done || lia).
Qed.

(** The fate of a promise is pending, fulfilled or rejected. *)
Lemma fate_resolved h p q : fate h p ≠ Following q.
Proof.
  unfold fate. destruct (chase (length h) h p) as [st|] eqn:Hc; [|done].
  by eapply chase_resolved.
Qed.

(** A promise on a chain that comes back to it is never settled. *)
Lemma fate_cycle h k p : 0 < k → hops h k p = Some p → fate h p = Pending.
Proof.
  intros Hk Hp. unfold fate.
  assert (chase (length h) h p = None) as ->; [|done].
  apply chase_None. by apply (hops_cycle h 0 k p p).
Qed.

(** Two promises that follow each other are never settled. *)
Lemma fate_crossed h p q :
  h !! p = Some (Following q) → h !! q = Some (Following p) → fate h p = Pending.
Proof.
  intros Hp Hq. apply (fate_cycle h 2); [lia|]. simpl. unfold link.
  rewrite Hp. simpl. by rewrite Hq.
Qed.

(** A settled promise has come to its fate. *)
Lemma fate_settled h p st : h !! p = Some st → settled st = true → fate h p = st.
Proof. intros Hp Hs. rewrite fate_unfold, Hp. by destruct st. Qed.

Lemma chase_settled n h p st :
  h !! p = Some st → settled st = true → chase n h p = Some st.
Proof. intros Hp Hs. destruct n, st; simpl; by rewrite Hp. Qed.

(** A chain that ends in a settled promise is there for good: the calls of
    a channel change neither its links nor its end. *)
Lemma chase_heap_le n h h' p st :
  heap_le h h' → chase n h p = Some st → settled st = true → chase n h' p = Some st.
Proof.
  intros Hle. revert p; induction n as [|n IH]; intros p; simpl;
    destruct (h !! p) as [[|q|v|e]|] eqn:Hp; try done; intros Hc Hst; simplify_eq/=;
    rewrite (heap_le_resolved _ _ _ _ Hle Hp) by done; auto.
Qed.

Lemma fate_heap_le h h' p : heap_le h h' → settled (fate h p) = true → fate h' p = fate h p.
Proof.
  intros Hle Hs. unfold fate in *. destruct (chase (length h) h p) as [st|] eqn:Hc; [|done].
  simpl in *. erewrite (chase_le (length h)); [done|apply Hle|]. by eapply chase_heap_le.
Qed.

(** The promises of a chain share their fate. *)
Lemma hops_fate h k p q : hops h k p = Some q → fate h p = fate h q.
Proof.
  revert p; induction k as [|k IH]; intros p; simpl; [by intros [= ->]|].
  unfold link. destruct (h !! p) as [[|x| |]|] eqn:Hp; try done. simpl.
  intros Hq%IH. by rewrite fate_unfold, Hp.
Qed.

(** What a chase finds is the fate. *)
Lemma chase_fate n h p st : chase n h p = Some st → fate h p = st.
Proof.
  intros Hc. unfold fate. destruct (decide (n ≤ length h)).
  - by rewrite (chase_le n (length h) h p st).
  - by rewrite <- (chase_enough n), Hc by lia.
Qed.

End chains.

(** ** The job that settles a follower *)

Section adopt.
Context {X : Type} (h : heap X) (p q : promise) (st : pstate X).
Hypothesis follows : h !! p = Some (Following q).
Hypothesis target : h !! q = Some st.
Hypothesis target_settled : settled st = true.

Lemma adopt_run : adopt p h = <[p := st]> h.
Proof. unfold adopt, link. by rewrite follows; simpl; rewrite target, target_settled. Qed.

Lemma adopt_lookup : adopt p h !! p = Some st.
Proof. rewrite adopt_run. apply list_lookup_insert_eq. by eapply lookup_lt_Some. Qed.

(** What a chase found it finds after the job, and what it finds after the
    job it found before, with one link more to follow. *)
Lemma chase_adopt n x s : chase n h x = Some s → chase n (adopt p h) x = Some s.
Proof.
  revert x; induction n as [|n IH]; intros x; (destruct (decide (x = p)) as [->|Hne];
    [rewrite (chase_settled _ _ _ st adopt_lookup target_settled)
    |simpl; rewrite adopt_run, list_lookup_insert_ne by done]).
  - simpl. by rewrite follows.
  - by destruct (h !! x) as [[]|].
  - rewrite (chase_following _ _ _ _ follows).
    by rewrite (chase_settled _ _ _ st target target_settled).
  - destruct (h !! x) as [[]|]; try done. rewrite <- adopt_run. apply IH.
Qed.

Lemma adopt_chase n x s : chase n (adopt p h) x = Some s → chase (S n) h x = Some s.
Proof.
  revert x; induction n as [|n IH]; intros x; (destruct (decide (x = p)) as [->|Hne];
    [rewrite (chase_settled _ _ _ st adopt_lookup target_settled),
       (chase_following _ _ _ _ follows), (chase_settled _ _ _ st target target_settled)
    |simpl; rewrite adopt_run, list_lookup_insert_ne by done]); try done.
  - by destruct (h !! x) as [[]|].
  - destruct (h !! x) as [[|x'| |]|] eqn:Hx; try done.
    rewrite <- adopt_run. apply IH.
Qed.

End adopt.

Section jobs.
Context {X : Type}.
Implicit Types (h : heap X) (p q : promise) (st : pstate X).

(** The job does nothing, or settles a follower as the promise it follows. *)
Lemma adopt_cases p h :
  adopt p h = h
  ∨ ∃ q st, h !! p = Some (Following q) ∧ h !! q = Some st ∧ settled st = true.
Proof.
  unfold adopt, link. destruct (h !! p) as [[|q| |]|] eqn:Hp; simpl; auto.
  destruct (h !! q) as [st|] eqn:Hq; auto. destruct (settled st) eqn:Hs; eauto 10.
Qed.

Lemma length_adopt p h : length (adopt p h) = length h.
Proof.
  destruct (adopt_cases p h) as [->|(q & st & Hp & Hq & Hs)]; [done|].
  by rewrite (adopt_run h p q st), length_insert.
Qed.

(** The job changes no settled promise. *)
Lemma adopt_settled p h x st :
  h !! x = Some st → settled st = true → adopt p h !! x = Some st.
Proof.
  intros Hx Hst. destruct (adopt_cases p h) as [->|(q & st' & Hp & Hq & Hs)]; [done|].
  rewrite (adopt_run h p q st') by done. rewrite list_lookup_insert_ne; [done|].
  intros ->. rewrite Hp in Hx. by simplify_eq.
Qed.

(** The job changes the fate of no promise. *)
Lemma fate_adopt p h x : fate (adopt p h) x = fate h x.
Proof.
  destruct (adopt_cases p h) as [->|(q & st & Hp & Hq & Hs)]; [done|].
  unfold fate. rewrite length_adopt.
  destruct (chase (length h) h x) as [s|] eqn:Hc.
  - by rewrite (chase_adopt h p q st Hp Hq Hs _ _ _ Hc).
  - destruct (chase (length h) (adopt p h) x) as [s|] eqn:Hc'; [|done].
    apply (adopt_chase h p q st Hp Hq Hs) in Hc'.
    rewrite chase_enough in Hc' by lia. congruence.
Qed.

(** The fate of a promise does not depend on the fuel, once there is as much
    as the heap is long. *)
Theorem fate_fuel n h p : length h ≤ n → default Pending (chase n h p) = fate h p.
Proof. intros Hn. unfold fate. by rewrite chase_enough. Qed.

End jobs.

(** ** The channel when values may be promises *)

#[export] Instance native_lawful {V} : Lawful (native (V:=V)).
Proof. by split. Qed.

Section conservative.
Context {V : Type}.
Implicit Types (s : state (item V)) (v : value (item V)) (c : call (item V))
  (cs : list (call (item V))).

Lemma datum_spec v : datum v = true ↔ as_promise (Thenable:=native) v = None.
Proof. destruct v as [| |[]]; simpl; naive_solver. Qed.

(** A call that puts no promise, on a channel that buffers none, is the
    call of the runtime that knows no promise, and buffers none. *)
Lemma exec_datum c s :
  datum_call c = true → forallb datum (messageQueue s) = true →
  exec (T:=native) c s = exec (T:=inert) c s
  ∧ forallb datum (messageQueue (after (exec (T:=inert) c) s)) = true.
Proof.
  intros Hc Hs. unfold after. destruct c as [v| |]; unfold exec; js_unfold;
    rewrite ?(put_any (T:=native)), ?(put_any (T:=inert)), ?(take_any (T:=native)),
      ?(take_any (T:=inert)), ?(close_any (T:=native)), ?(close_any (T:=inert)).
  - simpl in Hc. apply datum_spec in Hc as Hv.
    destruct (isClosed s), (resolveQueue s); simpl;
      rewrite ?resolution_datum, ?forallb_app by done; simpl; by rewrite ?Hs, ?Hc.
  - destruct (messageQueue s) as [|v mq]; [by destruct (isClosed s)|]. simpl in *.
    apply andb_true_iff in Hs as [Hv Hmq]. by destruct v as [| |[]].
  - by destruct (isClosed s).
Qed.

(** C23: A program that puts no promise does not notice the runtime: it runs,
    answers and ends as with values that are never promises, so what the
    development shows for those holds of it. *)
Theorem run_conservative cs s :
  forallb datum_call cs = true → forallb datum (messageQueue s) = true →
  run (T:=native) cs s = run (T:=inert) cs s
  ∧ final (T:=native) cs s = final (T:=inert) cs s.
Proof.
  revert s; induction cs as [|c cs IH]; intros s Hcs Hs; [done|].
  simpl in Hcs. apply andb_true_iff in Hcs as [Hc Hcs].
  destruct (exec_datum c s Hc Hs) as [He Hq]. destruct (IH _ Hcs Hq) as [IHr IHf].
  simpl. js_unfold. unfold after in *. rewrite He.
  by destruct (exec (T:=inert) c s) as [[r|e] s']; simpl in *; rewrite ?IHr, ?IHf.
Qed.

End conservative.

Section findings.
Context {V : Type}.
Implicit Types (s : state (item V)) (v : value (item V)) (c : call (item V))
  (cs : list (call (item V))) (r q : promise).

#[local] Existing Instance native.

(** Two consumers wait and each is handed the promise of the other. *)
Lemma crossed_state (h0 : heap (value (item V))) :
  final [Take; Take; Put (payload (Ref (S (length h0)))); Put (payload (Ref (length h0)))]
    (createChannel h0)
  = State false [] [] (h0 ++ [Following (S (length h0)); Following (length h0)]).
Proof.
  unfold final. cbn [foldl]. rewrite !after_exec. unfold after.
  rewrite take_any. cbn. rewrite take_any. cbn. rewrite put_any. cbn.
  rewrite put_any. cbn. rewrite length_app. simpl.
  rewrite !decide_False, <- app_assoc by lia. simpl.
  rewrite settle_app_r, Nat.sub_diag by lia. simpl.
  by rewrite settle_app_r, Nat.add_sub' by lia.
Qed.

(** C25: A consumer that is handed its own promise gets a [TypeError]: [put]
    returns [true], and the promise is rejected for good. *)
Theorem own_promise_rejected s r rq cs :
  wf s = true → isClosed s = false → resolveQueue s = r :: rq →
  result (put (T:=native) (payload (Ref r))) s = Ret true
  ∧ promises (final cs (after (put (T:=native) (payload (Ref r))) s)) !! r
    = Some (Rejected TypeError).
Proof.
  intros Hwf Hc Hrq. rewrite put_result, Hc. split; [done|].
  apply settled_forever; [|done]. unfold after. rewrite put_any, Hc, Hrq. simpl.
  unfold resolution. simpl. rewrite decide_True by done.
  apply settle_pending, wf_waiting; [done..|]. rewrite Hrq. by left.
Qed.

(** C27: A promise that was buffered comes out as it went in: [take] returns it
    and makes no promise of its own. *)
Theorem take_returns_put_promise s q mq :
  messageQueue s = payload (Ref q) :: mq →
  take (T:=native) s = (Ret q, State (isClosed s) mq (resolveQueue s) (promises s)).
Proof. intros Hm. by rewrite take_any, Hm. Qed.

(** A consumer that is handed a promise follows it from then on, whatever
    is called. *)
Lemma handoff_linked s r rq q cs :
  wf s = true → isClosed s = false → resolveQueue s = r :: rq → q ≠ r →
  promises (final cs (after (put (payload (Ref q))) s)) !! r = Some (Following q).
Proof.
  intros Hwf Hc Hrq Hne. apply resolved_forever; [|done].
  unfold after. rewrite put_any, Hc, Hrq. simpl.
  unfold resolution. simpl. rewrite decide_False by done.
  apply settle_pending, wf_waiting; [done..|]. rewrite Hrq. by left.
Qed.

(** C24: A consumer that is handed a promise does not get the promise: from then
    on, whatever is called, its own promise comes to what that one comes
    to. *)
Theorem handoff_follows s r rq q cs :
  wf s = true → isClosed s = false → resolveQueue s = r :: rq → q ≠ r →
  fate (promises (final cs (after (put (payload (Ref q))) s))) r
  = fate (promises (final cs (after (put (payload (Ref q))) s))) q.
Proof.
  intros Hwf Hc Hrq Hne. by rewrite (fate_unfold _ r), (handoff_linked s r rq q cs).
Qed.

(** The consumer gets the rejection of a promise that was put: its [await]
    throws, where the documentation of [take] promises a value or
    [CLOSED]. *)
Theorem rejection_handed_over s r rq q e cs :
  wf s = true → isClosed s = false → resolveQueue s = r :: rq →
  promises s !! q = Some (Rejected e) →
  fate (promises (final cs (after (put (payload (Ref q))) s))) r = Rejected e.
Proof.
  intros Hwf Hc Hrq Hq.
  assert (promises s !! r = Some Pending) as Hr.
  { apply wf_waiting; [done..|]. rewrite Hrq. by left. }
  rewrite (fate_unfold _ r), (handoff_linked s r rq q cs) by (done || congruence).
  apply fate_settled; [|done]. apply settled_forever; [|done].
  eapply heap_le_settled; [apply put_heap_le|done..].
Qed.

(** C26: Two consumers that are handed each other's promise are lost: whatever
    is called afterwards, no [put] reaches them and [close] does not
    release them. *)
Theorem crossed_takes_never_settle (h0 : heap (value (item V))) cs :
  fate (promises (final cs
    (final [Take; Take; Put (payload (Ref (S (length h0)))); Put (payload (Ref (length h0)))]
       (createChannel h0)))) (length h0) = Pending
  ∧ fate (promises (final cs
    (final [Take; Take; Put (payload (Ref (S (length h0)))); Put (payload (Ref (length h0)))]
       (createChannel h0)))) (S (length h0)) = Pending.
Proof.
  rewrite crossed_state.
  assert (∀ i st, [Following (S (length h0)); Following (length h0)] !! i = Some st →
    promises (final cs (State false [] []
      (h0 ++ [Following (S (length h0)); Following (length h0)]))) !! (length h0 + i)
    = Some st) as Hk.
  { intros i st Hi. apply resolved_forever; simpl.
    - by rewrite lookup_app_r, Nat.add_sub' by lia.
    - by destruct i as [|[|]]; simplify_eq/=. }
  pose proof (Hk 0 _ eq_refl) as Ha. pose proof (Hk 1 _ eq_refl) as Hb.
  rewrite Nat.add_0_r in Ha. rewrite Nat.add_1_r in Hb.
  split; by eapply fate_crossed.
Qed.

End findings.

(** ** The theorems at concrete states *)

Lemma fate_fuel_witness :
  length [Following 1; Following 2; Fulfilled 7] ≤ 5
  ∧ default Pending (chase 5 [Following 1; Following 2; Fulfilled 7] 0) = Fulfilled 7.
Proof.
  split; [simpl; lia|].
  exact (fate_fuel 5 [Following 1; Following 2; Fulfilled 7] 0 ltac:(simpl; lia)).
Defined.

Lemma run_conservative_witness :
  run (T:=native) [Take; Put (payload (Datum 7)); Close] (createChannel [])
  = (Ret [RPromise 0; RBool true; RBool true],
     State true [] [] [Fulfilled (payload (Datum 7))]).
Proof.
  exact (proj1 (run_conservative [Take; Put (payload (Datum 7)); Close] (createChannel [])
                  eq_refl eq_refl)).
Defined.

Lemma own_promise_rejected_witness :
  promises (final (T:=native) [Close]
    (after (put (T:=native) (payload (Ref 0))) (State (V:=item nat) false [] [0] [Pending]))) !! 0
  = Some (Rejected TypeError).
Proof.
  exact (proj2 (own_promise_rejected (State false [] [0] [Pending]) 0 [] [Close]
                  eq_refl eq_refl eq_refl)).
Defined.

Lemma take_returns_put_promise_witness :
  take (T:=native) (State (V:=item nat) false [payload (Ref 0)] [] [Pending])
  = (Ret 0, State false [] [] [Pending]).
Proof.
  exact (take_returns_put_promise (State false [payload (Ref 0)] [] [Pending]) 0 []
           eq_refl).
Defined.

Lemma handoff_follows_witness :
  fate (promises (final (T:=native) [Close]
    (after (put (T:=native) (payload (Ref 0)))
       (State (V:=item nat) false [] [1] [Fulfilled (payload (Datum 7)); Pending])))) 1
  = Fulfilled (payload (Datum 7)).
Proof.
  exact (handoff_follows (State false [] [1] [Fulfilled (payload (Datum 7)); Pending])
           1 [] 0 [Close] eq_refl eq_refl eq_refl ltac:(done)).
Defined.

Lemma rejection_handed_over_witness :
  fate (promises (final (T:=native) []
    (after (put (T:=native) (payload (Ref 0)))
       (State (V:=item nat) false [] [1] [Rejected RangeError; Pending])))) 1
  = Rejected RangeError.
Proof.
  exact (rejection_handed_over (State false [] [1] [Rejected RangeError; Pending])
           1 [] 0 RangeError [] eq_refl eq_refl eq_refl eq_refl).
Defined.
