(* ===== verification/Jobs.v ===== *)
(** * Jobs: the jobs that settle followers

    A resolving function called with a promise ([src/index.js] line 25) does
    not settle its promise at once.  The runtime queues a job that calls
    [then] on the promise that was put ([Then]); [then] registers a
    reaction on a promise that is not settled and queues a job for one that
    is; that job ([Pass]) settles the follower as the promise it follows,
    which in turn queues the jobs of the reactions registered on the
    follower.  Jobs run first in first out, each to completion, between the
    calls of the program.

    Module [Micro] is that machine.  It knows the heap of promises and
    nothing else of the program: a [host] is any state that has a heap
    (Class [HasHeap]), with the job queue and the reactions of followers;
    Class [Client] is what the machine needs of the component whose calls
    make and resolve promises ([run], the promises that [waiting] resolving
    functions can resolve, and which calls are [known] to put promises
    that exist), and Class [ClientLaws] what that component must keep to.
    [perform] is a call of the client followed by what the runtime does
    for each promise the call resolved ([announce]); [tick] runs one job,
    [drain] the queue, and [play] a program of calls with turns of jobs at
    any points between them.  The channel is a client ([chan_client]); the
    channels of a world are one in [Pipeline].

    Theorems, for every client.  The invariant [ok] (every follower is on
    its way: its [Then] job or its [Pass] job is queued, or its reaction is
    registered on a promise that is not settled) is kept by every call and
    every job ([play_ok]).  The queue empties within [budget] jobs
    ([settle_down_done]).  No job changes the [fate] of a promise, and when
    the queue is empty every promise whose fate is settled has come to it
    ([drained_fate], [settle_down_spec]), along a chain of followers of
    any length ([chain_settles]).  The machine simulates the client
    on which no job runs ([sim]): the variables of the client are the same
    ([play_body]) and its heap is [ahead], with some followers settled
    already, so that every promise has the same fate in both
    ([play_fate]); hence [fate], which [Adoption] computes from the heap of
    the calls alone, is what the jobs bring about whenever they run
    ([jobs_realise_fate]).  A consumer that was handed a promise holds,
    once the jobs have run, what that promise was settled with
    ([follower_settles]).

    Theorems, for the channel: the laws of a client; the states of a
    program that starts with a new channel keep the invariant
    ([program_ok]); with values that are not promises the machine never
    has a job ([quiet]), which is why the rest of the development can do
    without it. *)

From S2P Require Import Prelude JsMonad JsArray Promise Channel Invariant Trace Adoption.
Import Chan.

#[local] Open Scope js_scope.
#[local] Existing Instance ideal.

Module Micro.

(** The jobs of followers.  [Then p q]: call [then] on [q] with the
    resolving functions of [p].  [Pass p q]: [q] is settled, settle [p] as
    [q]. *)
Inductive job : Type :=
| Then (p q : promise)
| Pass (p q : promise).

#[export] Instance job_eq_dec : EqDecision job.
Proof. solve_decision. Defined.

(** The program state with its heap, the job queue, and the reactions
    registered by [then]: [(q, p)] is there when [p] is to be settled as
    [q] once [q] is settled. *)
Record host (St : Type) : Type := Host {
  body : St;
  jobs : list job;
  subs : list (promise * promise);
}.
Arguments Host {St} _ _ _.
Arguments body {St} _.
Arguments jobs {St} _.
Arguments subs {St} _.

(** What happens in a program: a call of the client, or the turn of one
    job. *)
Inductive event (C : Type) : Type :=
| Call (c : C)
| Tick.
Arguments Call {C} c.
Arguments Tick {C}.

(** The component whose calls make and resolve the promises: what a call
    does to the state, the promises whose resolving functions the
    component holds, and whether a call puts only promises that exist. *)
Class Client (St C X : Type) `{HasHeap St X} : Type := {
  run : C → St → St;
  waiting : St → list promise;
  known : C → St → bool
}.
#[global] Hint Mode Client ! - - - : typeclass_instances.

Section ops.
Context `{HasHeap St X}.
Implicit Types (m : host St) (s : St) (h : heap X) (p q r : promise) (j : job).

Definition heap_of_host m : heap X := heap_of (body m).

Definition set_heap h s : St := update heap_lens h s.

(** The jobs of the reactions registered on [q], in the order they were
    registered. *)
Definition passes q (rs : list (promise * promise)) : list job :=
  (λ e, Pass e.2 q) <$> filter (λ e, e.1 = q) rs.

(** [q] has been settled: its reactions become jobs. *)
Definition notify q m : host St :=
  Host (body m) (jobs m ++ passes q (subs m)) (filter (λ e, e.1 ≠ q) (subs m)).

(** What the runtime does when [r] has been resolved: for a promise that
    now follows another it queues the job that calls [then]; for a settled
    promise it queues the jobs of its reactions. *)
Definition announce r m : host St :=
  match heap_of_host m !! r with
  | Some (Following q) => Host (body m) (jobs m ++ [Then r q]) (subs m)
  | Some (Fulfilled _) | Some (Rejected _) => notify r m
  | Some Pending | None => m
  end.

(** One job.  [then] on a settled promise queues the job of the reaction,
    on another it registers the reaction.  The job of a reaction settles
    the follower as the promise it follows, with what follows from that. *)
Definition run_job j m : host St :=
  match j with
  | Then p q =>
      if settled_in (heap_of_host m) q then Host (body m) (jobs m ++ [Pass p q]) (subs m)
      else Host (body m) (jobs m) (subs m ++ [(q, p)])
  | Pass p q =>
      if bool_decide (link (heap_of_host m) p = Some q) && settled_in (heap_of_host m) q
      then announce p (Host (set_heap (adopt p (heap_of_host m)) (body m)) (jobs m) (subs m))
      else m
  end.

(** The turn of the first job of the queue. *)
Definition tick m : host St :=
  match jobs m with
  | j :: js => run_job j (Host (body m) js (subs m))
  | [] => m
  end.

(** The job queue, run for at most [fuel] jobs. *)
Fixpoint drain (fuel : nat) m : host St :=
  match fuel with
  | 0 => m
  | S fuel' => drain fuel' (tick m)
  end.

(** A bound on the jobs that can still run: a [Then] job may queue a [Pass]
    job, at once or through a reaction; a [Pass] job and a reaction stand
    for themselves. *)
Definition cost j : nat :=
  match j with
  | Then _ _ => 2
  | Pass _ _ => 1
  end.

Definition budget m : nat := sum_list_with cost (jobs m) + length (subs m).

Definition settle_down m : host St := drain (budget m) m.

(** Every follower is on its way, but for those of [U], which the runtime
    has yet to be told about: the promise it follows exists, and its [Then]
    job or its [Pass] job is queued or its reaction is registered; reactions
    are registered on promises that are not settled and [Pass] jobs are
    queued for promises that are. *)
Record ok (U : list promise) m : Prop := Ok {
  ok_linked p q : heap_of_host m !! p = Some (Following q) → q < length (heap_of_host m);
  ok_follow p q :
    heap_of_host m !! p = Some (Following q) →
    p ∈ U ∨ Then p q ∈ jobs m ∨ Pass p q ∈ jobs m ∨ (q, p) ∈ subs m;
  ok_subs q p :
    (q, p) ∈ subs m →
    q < length (heap_of_host m) ∧ (q ∈ U ∨ settled_in (heap_of_host m) q = false);
  ok_pass p q : Pass p q ∈ jobs m → settled_in (heap_of_host m) q = true;
  ok_then p q : Then p q ∈ jobs m → q < length (heap_of_host m)
}.

(** [p] follows [q], or has been settled as [q]. *)
Definition follower p q m : Prop :=
  heap_of_host m !! p = Some (Following q)
  ∨ ∃ st, heap_of_host m !! q = Some st ∧ settled st = true ∧ heap_of_host m !! p = Some st.

(** The heap [h'] is ahead of [h]: it is [h] but for some followers, which
    it holds settled with their fate in [h]. *)
Definition ahead h h' : Prop :=
  length h = length h'
  ∧ ∀ p, h !! p = h' !! p
         ∨ ∃ q st, h !! p = Some (Following q) ∧ h' !! p = Some st
                   ∧ settled st = true ∧ fate h q = st.

(** The machine [m] simulates the state [s], on which no job runs: the
    variables of the program are the same, and the heap of [m] is ahead. *)
Definition sim s m : Prop :=
  body m = set_heap (heap_of_host m) s ∧ ahead (heap_of s) (heap_of_host m).

End ops.

(** ** Programs of a client *)

Section client.
Context `{Client St C X}.
Implicit Types (m : host St) (s : St) (c : C) (es : list (event C)).

(** The promises a call can resolve: the pending ones among those whose
    resolving functions the client holds. *)
Definition resolvable s : list promise :=
  filter (λ r, pending_in (heap_of s) r = true) (waiting s).

(** A call of the client, and what the runtime does for the promises it
    resolved, in the order of [waiting]; [announce] passes over a promise
    that the call left pending. *)
Definition perform c m : host St :=
  foldl (λ m' r, announce r m') (Host (run c (body m)) (jobs m) (subs m))
    (resolvable (body m)).

Definition play1 (e : event C) m : host St :=
  match e with
  | Call c => perform c m
  | Tick => tick m
  end.

Definition play es m : host St := foldl (λ m' e, play1 e m') m es.

(** A program puts only promises that exist. *)
Fixpoint scoped es m : bool :=
  match es with
  | [] => true
  | e :: es' =>
      match e with Call c => known c (body m) | Tick => true end && scoped es' (play1 e m)
  end.

(** The calls of a program, without the turns of the jobs, and the state
    they lead to. *)
Definition calls_of es : list C :=
  omap (λ e, match e with Call c => Some c | Tick => None end) es.

Definition runs (cs : list C) s : St := foldl (λ s' c, run c s') s cs.

End client.

(** What the job queue relies on: a call keeps the cells of the heap and the
    state of every resolved promise; it resolves only pending promises
    among [waiting]; a promise that follows another after a call did so
    before, or was resolved by the call with a promise that exists; and a
    call does not look at the state of followers. *)
Class ClientLaws `{Client St C X} : Prop := {
  run_heap_le c s : heap_le (heap_of s) (heap_of (run c s));
  run_changes c s p st :
    heap_of s !! p = Some st →
    heap_of (run c s) !! p = Some st ∨ (st = Pending ∧ p ∈ waiting s);
  run_follows c s p q :
    known c s = true → heap_of (run c s) !! p = Some (Following q) →
    heap_of s !! p = Some (Following q)
    ∨ (heap_of s !! p = Some Pending ∧ p ∈ waiting s ∧ q < length (heap_of s));
  run_ahead c s h :
    ahead (heap_of s) h →
    ∃ h', run c (set_heap h s) = set_heap h' (run c s) ∧ ahead (heap_of (run c s)) h'
}.

(** The channel is a client: its calls are those of the handle, and it holds
    the resolving functions of [resolveQueue]. *)
#[export] Instance chan_client {V} {T : Thenable (value V)} :
    Client (state V) (call V) (value V) := {
  run c s := after (exec c) s;
  waiting s := resolveQueue s;
  known c s :=
    match c with
    | Put v =>
        match as_promise v with
        | Some q => bool_decide (q < length (promises s))
        | None => true
        end
    | _ => true
    end
}.

(** A call that puts no promise. *)
Definition plain {V} {T : Thenable (value V)} (c : call V) : bool :=
  match c with
  | Put v => bool_decide (as_promise v = None)
  | _ => true
  end.

(** ** The queue empties *)

Section termination.
Context `{HasHeap St X}.
Implicit Types (m : host St) (s : St) (h : heap X) (p q r : promise) (j : job).

Lemma heap_set_heap h s js rs : heap_of_host (Host (set_heap h s) js rs) = h.
Proof. apply view_update. Qed.

Lemma cost_passes q (rs : list (promise * promise)) :
  sum_list_with cost (passes q rs) + length (filter (λ e, e.1 ≠ q) rs) = length rs.
Proof.
  unfold passes. induction rs as [|[q' p] rs IH]; simpl; [done|].
  rewrite !filter_cons. repeat case_decide; simplify_eq/=; try done; simpl in *; lia.
Qed.

Lemma budget_notify q m : budget (notify q m) = budget m.
Proof.
  unfold budget, notify. simpl. rewrite sum_list_with_app.
  pose proof (cost_passes q (subs m)). lia.
Qed.

Lemma budget_announce r m : budget (announce r m) ≤ budget m + 2.
Proof.
  unfold announce. destruct (heap_of_host m !! r) as [[]|]; rewrite ?budget_notify;
    unfold budget; simpl; rewrite ?sum_list_with_app; simpl; lia.
Qed.

(** A job that follows nothing up: the budget after it. *)
Lemma budget_settled r m :
  settled_in (heap_of_host m) r = true → budget (announce r m) = budget m.
Proof.
  intros (st & Hr & Hs)%settled_in_spec. unfold announce. rewrite Hr.
  destruct st; try done; apply budget_notify.
Qed.

Lemma body_announce r m : body (announce r m) = body m.
Proof. unfold announce. by destruct (heap_of_host m !! r) as [[]|]. Qed.

Lemma heap_announce r m : heap_of_host (announce r m) = heap_of_host m.
Proof. unfold heap_of_host. by rewrite body_announce. Qed.

(** The job of a reaction, when it runs, leaves its follower settled. *)
Lemma pass_settles p q m :
  link (heap_of_host m) p = Some q → settled_in (heap_of_host m) q = true →
  settled_in (adopt p (heap_of_host m)) p = true.
Proof.
  intros Hl%link_Some (st & Hq & Hs)%settled_in_spec. apply settled_in_spec.
  exists st. split; [|done]. by eapply adopt_lookup.
Qed.

Lemma heap_run_job j m :
  heap_of_host (run_job j m) = heap_of_host m
  ∨ ∃ p, heap_of_host (run_job j m) = adopt p (heap_of_host m)
         ∧ settled_in (adopt p (heap_of_host m)) p = true.
Proof.
  destruct j as [p q|p q]; simpl.
  - left. by destruct (settled_in _ q).
  - destruct (bool_decide _ && _) eqn:Hg; [|by left]. right. exists p.
    apply andb_true_iff in Hg as [Hl%bool_decide_eq_true Hq].
    rewrite heap_announce, heap_set_heap. eauto using pass_settles.
Qed.

(** Every job uses up some of the budget. *)
Lemma budget_run_job j m : budget (run_job j m) < budget m + cost j.
Proof.
  destruct j as [p q|p q]; simpl.
  - destruct (settled_in _ q); unfold budget; simpl;
      rewrite ?sum_list_with_app, ?length_app; simpl; lia.
  - destruct (bool_decide _ && _) eqn:Hg; [|lia].
    apply andb_true_iff in Hg as [Hl%bool_decide_eq_true Hq].
    rewrite budget_settled; [unfold budget; simpl; lia|].
    rewrite heap_set_heap. eauto using pass_settles.
Qed.

Lemma budget_tick m : jobs m ≠ [] → budget (tick m) < budget m.
Proof.
  unfold tick. destruct (jobs m) as [|j js] eqn:Hj; [done|]. intros _.
  pose proof (budget_run_job j (Host (body m) js (subs m))) as Hlt.
  unfold budget in *. rewrite Hj. simpl in *. lia.
Qed.

Lemma tick_idle m : jobs m = [] → tick m = m.
Proof. unfold tick. by intros ->. Qed.

Lemma drain_rest n m : jobs m = [] → drain n m = m.
Proof. intros Hj. induction n as [|n IH]; simpl; [done|]. by rewrite tick_idle. Qed.

(** The queue is empty after as many jobs as the budget says. *)
Lemma drain_done n m : budget m ≤ n → jobs (drain n m) = [].
Proof.
  revert m; induction n as [|n IH]; intros m Hn; simpl.
  - destruct (jobs m) as [|j js] eqn:Hj; [done|].
    unfold budget in Hn. rewrite Hj in Hn. destruct j; simpl in Hn; lia.
  - destruct (jobs m) as [|j js] eqn:Hj; [by rewrite tick_idle, drain_rest|].
    apply IH. pose proof (budget_tick m) as Hlt. rewrite Hj in Hlt.
    specialize (Hlt ltac:(done)). lia.
Qed.

Lemma drain_add n k m : drain (n + k) m = drain k (drain n m).
Proof. revert m; induction n as [|n IH]; intros m; simpl; [done|]. apply IH. Qed.

(** With more fuel the machine ends in the same state. *)
Lemma drain_enough n m : budget m ≤ n → drain n m = settle_down m.
Proof.
  intros Hn. unfold settle_down. replace n with (budget m + (n - budget m)) by lia.
  rewrite drain_add. apply drain_rest. by apply drain_done.
Qed.

(** C35: The queue is empty when the jobs have run, and it takes no more than
    [budget] turns: with more fuel the machine ends in the same state. *)
Theorem settle_down_done m n :
  jobs (settle_down m) = [] ∧ (budget m ≤ n → drain n m = settle_down m).
Proof. split; [by apply drain_done|apply drain_enough]. Qed.

End termination.

(** ** The invariant *)

Section invariant.
Context `{HasHeap St X}.
Implicit Types (m : host St) (p q r : promise) (j : job) (U : list promise).

Lemma elem_of_passes j q (rs : list (promise * promise)) :
  j ∈ passes q rs ↔ ∃ p, j = Pass p q ∧ (q, p) ∈ rs.
Proof.
  unfold passes. rewrite list_elem_of_fmap. split.
  - intros ([q' p] & -> & [Hq Hin]%list_elem_of_filter). simpl in *. subst. eauto.
  - intros (p & -> & Hin). exists (q, p). split; [done|]. by apply list_elem_of_filter.
Qed.

(** The runtime is told that [r] is settled. *)
Lemma notify_ok r U m :
  ok (r :: U) m → settled_in (heap_of_host m) r = true → ok U (notify r m).
Proof.
  intros [Hl Hf Hs Hp Ht] (st & Hr & Hst)%settled_in_spec.
  split; unfold heap_of_host in *; simpl in *.
  - exact Hl.
  - intros p q Hpq. setoid_rewrite elem_of_app. setoid_rewrite elem_of_passes.
    setoid_rewrite list_elem_of_filter.
    destruct (Hf p q Hpq) as [[->|HU]%elem_of_cons|[Hj|[Hj|Hj]]]; simplify_eq; auto.
    destruct (decide (q = r)) as [->|Hne]; eauto 10.
  - intros q p [Hne Hin]%list_elem_of_filter.
    destruct (Hs q p Hin) as [Hlt [[->|HU]%elem_of_cons|Hns]]; auto; done.
  - intros p q [Hin|(p' & [= <- <-] & _)%elem_of_passes]%elem_of_app; [by eapply Hp|].
    apply settled_in_spec. eauto.
  - intros p q [Hin|(p' & [=] & _)%elem_of_passes]%elem_of_app. by eapply Ht.
Qed.

(** The runtime is told that [r] follows [q]. *)
Lemma then_ok r q U m :
  ok (r :: U) m → heap_of_host m !! r = Some (Following q) →
  ok U (Host (body m) (jobs m ++ [Then r q]) (subs m)).
Proof.
  intros [Hl Hf Hs Hp Ht] Hr. split; unfold heap_of_host in *; simpl in *.
  - exact Hl.
  - intros p q' Hpq. rewrite !elem_of_app, !list_elem_of_singleton.
    destruct (Hf p q' Hpq) as [[->|HU]%elem_of_cons|[Hj|[Hj|Hj]]]; simplify_eq; auto.
  - intros q' p Hin. destruct (Hs q' p Hin) as [Hlt [[->|HU]%elem_of_cons|Hns]]; auto.
    split; [done|]. right. unfold settled_in. by rewrite Hr.
  - intros p q' [Hin|[=]%list_elem_of_singleton]%elem_of_app. by eapply Hp.
  - intros p q' [Hin|[= <- <-]%list_elem_of_singleton]%elem_of_app; eauto.
Qed.

(** There is nothing to tell of a promise that is not resolved. *)
Lemma skip_ok r U m :
  ok (r :: U) m → settled_in (heap_of_host m) r = false →
  (∀ q, heap_of_host m !! r ≠ Some (Following q)) → ok U m.
Proof.
  intros [Hl Hf Hs Hp Ht] Hr Hnf. split; try done.
  - intros p q Hpq. destruct (Hf p q Hpq) as [[->|HU]%elem_of_cons|Hj]; auto.
    by destruct (Hnf q).
  - intros q p Hin. destruct (Hs q p Hin) as [Hlt [[->|HU]%elem_of_cons|Hns]]; auto.
Qed.

(** The runtime is told that [r] has been resolved. *)
Lemma announce_ok r U m : ok (r :: U) m → ok U (announce r m).
Proof.
  intros Hok. unfold announce. destruct (heap_of_host m !! r) as [[|q|v|e]|] eqn:Hr.
  - apply (skip_ok r); [done| |congruence]. unfold settled_in. by rewrite Hr.
  - by apply then_ok.
  - apply notify_ok; [done|]. unfold settled_in. by rewrite Hr.
  - apply notify_ok; [done|]. unfold settled_in. by rewrite Hr.
  - apply (skip_ok r); [done| |congruence]. unfold settled_in. by rewrite Hr.
Qed.

Lemma announces_ok U m : ok U m → ok [] (foldl (λ m' r, announce r m') m U).
Proof. revert m; induction U as [|r U IH]; intros m Hok; simpl; auto using announce_ok. Qed.

(** The job of a reaction, when it finds its follower and the promise
    settled. *)
Lemma pass_ok p q js m :
  jobs m = Pass p q :: js → ok [] m → heap_of_host m !! p = Some (Following q) →
  settled_in (heap_of_host m) q = true →
  ok [p] (Host (set_heap (adopt p (heap_of_host m)) (body m)) js (subs m)).
Proof.
  intros Hj [Hl Hf Hs Hp Ht] Hpq (st & Hq & Hst)%settled_in_spec. rewrite Hj in *.
  split; rewrite ?heap_set_heap, ?(adopt_run _ p q st), ?length_insert by done; simpl.
  - intros x y Hx. destruct (decide (x = p)) as [->|Hne].
    + rewrite list_lookup_insert_eq in Hx by (by eapply lookup_lt_Some).
      by simplify_eq.
    + rewrite list_lookup_insert_ne in Hx by done. eauto.
  - intros x y Hx. destruct (decide (x = p)) as [->|Hne]; [left; by left|].
    rewrite list_lookup_insert_ne in Hx by done.
    destruct (Hf x y Hx) as [[]%elem_of_nil|[Hin|[Hin|Hin]]]; auto.
    + apply elem_of_cons in Hin as [[=]|Hin]; auto.
    + apply elem_of_cons in Hin as [[= -> ->]|Hin]; [done|auto].
  - intros y x Hin. destruct (Hs y x Hin) as [Hlt [[]%elem_of_nil|Hns]].
    split; [done|]. destruct (decide (y = p)) as [->|Hne]; [left; by left|right].
    unfold settled_in in *. by rewrite list_lookup_insert_ne.
  - intros x y Hin. specialize (Hp x y (list_elem_of_further _ _ _ Hin)).
    apply settled_in_spec in Hp as (st' & Hy & Hst'). apply settled_in_spec.
    destruct (decide (y = p)) as [->|Hne]; [simplify_eq|].
    exists st'. by rewrite list_lookup_insert_ne.
  - intros x y Hin. apply (Ht x y). by right.
Qed.

(** What the invariant says of the queue, for the jobs behind the first. *)
Lemma ok_tail j js m :
  jobs m = j :: js → ok [] m →
  (∀ p q, Pass p q ∈ js → settled_in (heap_of_host m) q = true)
  ∧ (∀ p q, Then p q ∈ js → q < length (heap_of_host m))
  ∧ (∀ p q, heap_of_host m !! p = Some (Following q) →
       j = Then p q ∨ j = Pass p q ∨ Then p q ∈ js ∨ Pass p q ∈ js ∨ (q, p) ∈ subs m).
Proof.
  intros Hj [Hl Hf Hs Hp Ht]. rewrite Hj in *. split_all.
  - intros p q Hin. apply (Hp p q). by right.
  - intros p q Hin. apply (Ht p q). by right.
  - intros p q Hpq. destruct (Hf p q Hpq) as [[]%elem_of_nil|[Hin|[Hin|Hin]]]; auto.
    + apply elem_of_cons in Hin as [<-|Hin]; auto.
    + apply elem_of_cons in Hin as [<-|Hin]; auto.
Qed.

(** The job that calls [then]. *)
Lemma then_job_ok p q js m :
  jobs m = Then p q :: js → ok [] m → ok [] (run_job (Then p q) (Host (body m) js (subs m))).
Proof.
  intros Hj Hok. destruct (ok_tail _ _ _ Hj Hok) as (Hp & Ht & Hf).
  destruct Hok as [Hl _ Hs _ Hq]. specialize (Hq p q). rewrite Hj in Hq.
  specialize (Hq ltac:(by left)). simpl. unfold heap_of_host in *. simpl.
  destruct (settled_in (heap_of (body m)) q) eqn:Hsq; split; simpl; try done.
  - intros x y Hx. rewrite !elem_of_app, !list_elem_of_singleton.
    destruct (Hf x y Hx) as [[= -> ->]|[[=]|[Hin|[Hin|Hin]]]]; auto 10.
  - intros x y [Hin|[= -> ->]%list_elem_of_singleton]%elem_of_app; eauto.
  - intros x y [Hin|[=]%list_elem_of_singleton]%elem_of_app. eauto.
  - intros x y Hx. rewrite !elem_of_app, !list_elem_of_singleton.
    destruct (Hf x y Hx) as [[= -> ->]|[[=]|[Hin|[Hin|Hin]]]]; auto 10.
  - intros y x [Hin|[= -> ->]%list_elem_of_singleton]%elem_of_app; [by apply (Hs y x)|auto].
Qed.

(** The job of a reaction. *)
Lemma pass_job_ok p q js m :
  jobs m = Pass p q :: js → ok [] m → ok [] (run_job (Pass p q) (Host (body m) js (subs m))).
Proof.
  intros Hj Hok. simpl. destruct (bool_decide _ && _) eqn:Hg.
  - apply andb_true_iff in Hg as [Hl%bool_decide_eq_true Hq].
    apply link_Some in Hl. apply announce_ok. by apply (pass_ok p q js m).
  - destruct (ok_tail _ _ _ Hj Hok) as (Hp & Ht & Hf). destruct Hok as [Hl _ Hs Hq _].
    specialize (Hq p q). rewrite Hj in Hq. specialize (Hq ltac:(by left)).
    split; try done. intros x y Hx.
    destruct (Hf x y Hx) as [[=]|[[= -> ->]|[Hin|[Hin|Hin]]]]; auto.
    apply andb_false_iff in Hg as [Hg%bool_decide_eq_false|Hg].
    + destruct Hg. by apply link_Some.
    + unfold heap_of_host in *. simpl in *. congruence.
Qed.

(** Every job keeps the invariant. *)
Lemma tick_ok m : ok [] m → ok [] (tick m).
Proof.
  intros Hok. unfold tick. destruct (jobs m) as [|[p q|p q] js] eqn:Hj;
    auto using then_job_ok, pass_job_ok.
Qed.

Lemma drain_ok n m : ok [] m → ok [] (drain n m).
Proof. revert m; induction n as [|n IH]; intros m Hok; simpl; auto using tick_ok. Qed.

End invariant.

(** ** The fate of a promise and the jobs *)

Section fates.
Context `{HasHeap St X}.
Implicit Types (m : host St) (h : heap X) (p q r : promise) (j : job).

(** No job changes the fate of a promise. *)
Lemma run_job_fate j m p : fate (heap_of_host (run_job j m)) p = fate (heap_of_host m) p.
Proof. destruct (heap_run_job j m) as [->|(x & -> & _)]; [done|apply fate_adopt]. Qed.

Lemma tick_fate m p : fate (heap_of_host (tick m)) p = fate (heap_of_host m) p.
Proof. unfold tick. destruct (jobs m); [done|]. by rewrite run_job_fate. Qed.

Lemma drain_fate n m p : fate (heap_of_host (drain n m)) p = fate (heap_of_host m) p.
Proof. revert m; induction n as [|n IH]; intros m; simpl; [done|]. by rewrite IH, tick_fate. Qed.

(** When no job is queued, a chain that ends in a settled promise has no
    link: the follower at its last link would have a reaction registered on
    a settled promise. *)
Lemma drained_chase n m p st :
  ok [] m → jobs m = [] → chase n (heap_of_host m) p = Some st → settled st = true →
  heap_of_host m !! p = Some st.
Proof.
  intros [_ Hf Hs _ _] Hj. rewrite Hj in Hf.
  revert p; induction n as [|n IH]; intros p; simpl;
    destruct (heap_of_host m !! p) as [[|q|v|e]|] eqn:Hp; try done;
    try by intros [= <-].
  intros Hc Hst. pose proof (IH q Hc Hst) as Hq.
  destruct (Hf p q Hp) as [[]%elem_of_nil|[[]%elem_of_nil|[[]%elem_of_nil|Hin]]].
  destruct (Hs q p Hin) as [_ [[]%elem_of_nil|Hns]].
  unfold settled_in in Hns. rewrite Hq in Hns. congruence.
Qed.

(** When no job is queued every promise whose fate is settled has come to
    it. *)
Theorem drained_fate m p :
  ok [] m → jobs m = [] → settled (fate (heap_of_host m) p) = true →
  heap_of_host m !! p = Some (fate (heap_of_host m) p).
Proof.
  intros Hok Hj Hs. unfold fate in *.
  destruct (chase _ _ p) as [st|] eqn:Hc; [|done]. by eapply drained_chase.
Qed.

(** The jobs bring about the fate of every promise: once they have run, a
    promise is settled with [st] exactly when [st] was its fate. *)
Theorem settle_down_spec m p st :
  ok [] m → settled st = true →
  heap_of_host (settle_down m) !! p = Some st ↔ fate (heap_of_host m) p = st.
Proof.
  intros Hok Hs. rewrite <- (drain_fate (budget m) m p). split.
  - intros Hp. by apply fate_settled.
  - intros <-. apply drained_fate; [by apply drain_ok|by apply drain_done|done].
Qed.

(** A chain of followers of any length: when the promise at its end is
    settled, the jobs settle every promise of the chain with the same
    state. *)
Theorem chain_settles m k p q st :
  ok [] m → hops (heap_of_host m) k p = Some q →
  heap_of_host m !! q = Some st → settled st = true →
  heap_of_host (settle_down m) !! p = Some st.
Proof.
  intros Hok Hk Hq Hs. apply settle_down_spec; [done..|].
  rewrite (hops_fate _ k p q) by done. by apply fate_settled.
Qed.

(** ** Followers *)

(** A job settles a follower as the promise it follows, and changes no
    other. *)
Lemma follower_adopt x p q m m' :
  heap_of_host m' = adopt x (heap_of_host m) → follower p q m → follower p q m'.
Proof.
  unfold follower. intros ->.
  destruct (adopt_cases x (heap_of_host m)) as [->|(y & st & Hx & Hy & Hs)]; [done|].
  intros [Hp|(st' & Hq & Hs' & Hp)].
  - rewrite (adopt_run _ x y st) by done. destruct (decide (x = p)) as [->|Hne].
    + assert (y = q) as -> by congruence.
      right. exists st. rewrite list_lookup_insert_eq by (by eapply lookup_lt_Some).
      rewrite list_lookup_insert_ne; [done|]. intros <-. rewrite Hp in Hy. by simplify_eq.
    + left. by rewrite list_lookup_insert_ne.
  - right. exists st'. eauto using adopt_settled.
Qed.

(** A call changes neither a follower nor a settled promise. *)
Lemma follower_heap_le p q m m' :
  heap_le (heap_of_host m) (heap_of_host m') → follower p q m → follower p q m'.
Proof.
  intros Hle [Hp|(st & Hq & Hs & Hp)]; [left; by eapply heap_le_resolved|].
  right. exists st. eauto using heap_le_settled.
Qed.

Lemma tick_follower p q m : follower p q m → follower p q (tick m).
Proof.
  unfold tick. destruct (jobs m) as [|j js]; [done|].
  destruct (heap_run_job j (Host (body m) js (subs m))) as [Hh|(x & Hh & _)].
  - unfold follower. by rewrite Hh.
  - by apply follower_adopt with (x := x).
Qed.

Lemma drain_follower n p q m : follower p q m → follower p q (drain n m).
Proof. revert m; induction n as [|n IH]; intros m Hf; simpl; auto using tick_follower. Qed.

(** A follower gets what the promise it follows is settled with, once no
    job is queued. *)
Lemma drained_follower p q st m :
  ok [] m → jobs m = [] → follower p q m →
  heap_of_host m !! q = Some st → settled st = true → heap_of_host m !! p = Some st.
Proof.
  intros Hok Hj [Hp|(st' & Hq' & _ & Hp)] Hq Hs; [|congruence].
  pose proof (fate_settled _ _ _ Hq Hs) as Hfq.
  assert (fate (heap_of_host m) p = st) as Hfp by (by rewrite fate_unfold, Hp).
  rewrite <- Hfp. apply drained_fate; [done..|by rewrite Hfp].
Qed.

End fates.

(** ** Heaps that are ahead *)

Section ahead.
Context {X : Type}.
Implicit Types (h g : heap X) (p q r : promise) (st : pstate X).

Lemma ahead_refl h : ahead h h.
Proof. split; auto. Qed.

(** Both heaps go on in the same way. *)
Lemma ahead_step h h' g g' :
  ahead h h' → heap_le h g → heap_le h' g' → length g = length g' →
  (∀ p, h !! p = h' !! p → g !! p = g' !! p) → ahead g g'.
Proof.
  intros [_ Ha] Hle Hle' Hlen Hsame. split; [done|]. intros p.
  destruct (Ha p) as [He|(q & st & Hp & Hp' & Hs & Hf)]; [left; auto|right].
  exists q, st. split_and!; [by eapply heap_le_resolved|by eapply heap_le_settled|done|].
  rewrite <- Hf. apply fate_heap_le; [done|by rewrite Hf].
Qed.

Lemma ahead_snoc h h' st : ahead h h' → ahead (h ++ [st]) (h' ++ [st]).
Proof.
  intros Ha. apply (ahead_step h h'); auto using heap_le_snoc.
  - rewrite !length_app. by rewrite (proj1 Ha).
  - intros p He. by rewrite !lookup_app, He, (proj1 Ha).
Qed.

Lemma ahead_settle h h' r st : ahead h h' → ahead (settle r st h) (settle r st h').
Proof.
  intros Ha. apply (ahead_step h h'); auto using heap_le_settle.
  - rewrite !length_settle. apply Ha.
  - intros p He. destruct (decide (r = p)) as [->|Hne]; [|by rewrite !settle_other].
    by rewrite !lookup_settle, He.
Qed.

Lemma ahead_settle_all (rs : list promise) h h' st :
  ahead h h' → ahead (settle_all rs st h) (settle_all rs st h').
Proof.
  revert h h'; induction rs as [|r rs IH]; intros h h' Ha; simpl; auto using ahead_settle.
Qed.

(** The fate of a promise is the same in a heap that is ahead. *)
Lemma ahead_chase_r n h h' p st : ahead h h' → chase n h' p = Some st → fate h p = st.
Proof.
  intros [_ Ha]. revert p; induction n as [|n IH]; intros p Hc;
    (destruct (Ha p) as [He|(q & st' & Hp & Hp' & Hs & Hf)];
     [|rewrite (chase_settled _ _ _ _ Hp' Hs) in Hc; rewrite fate_unfold, Hp; congruence]);
    rewrite fate_unfold, He; simpl in Hc;
    destruct (h' !! p) as [[]|]; simplify_eq; auto.
Qed.

Lemma ahead_chase_l n h h' p st : ahead h h' → chase n h p = Some st → chase n h' p = Some st.
Proof.
  intros [_ Ha]. revert p; induction n as [|n IH]; intros p; simpl;
    (destruct (Ha p) as [<-|(q & st' & -> & Hp' & Hs & Hf)];
     [by destruct (h !! p) as [[]|]; auto|]); [done|].
  intros <-%chase_fate. rewrite Hf. by apply (chase_settled (S n)).
Qed.

Lemma ahead_fate h h' p : ahead h h' → fate h' p = fate h p.
Proof.
  intros Ha. unfold fate at 1. destruct (chase (length h') h' p) as [st|] eqn:Hc; simpl.
  { symmetry. by eapply ahead_chase_r. }
  unfold fate. destruct (chase (length h) h p) as [st|] eqn:Hc'; [|done].
  apply (ahead_chase_l _ _ h') in Hc'; [|done]. rewrite (proj1 Ha) in Hc'. congruence.
Qed.

(** The job of a follower keeps the heap ahead. *)
Lemma ahead_adopt x h h' : ahead h h' → ahead h (adopt x h').
Proof.
  intros Ha. destruct (adopt_cases x h') as [->|(y & st & Hx & Hy & Hs)]; [done|].
  rewrite (adopt_run _ x y st) by done. destruct (Ha) as [Hlen Hc].
  split; [by rewrite length_insert|]. intros p.
  destruct (decide (p = x)) as [->|Hne]; [|by rewrite list_lookup_insert_ne].
  rewrite list_lookup_insert_eq by (by eapply lookup_lt_Some). right. exists y, st.
  split_and!; try done.
  - destruct (Hc x) as [->|(? & ? & _ & ? & ? & _)]; [done|]. by simplify_eq.
  - rewrite <- (ahead_fate h h') by done. by apply fate_settled.
Qed.

End ahead.

(** ** Programs of a client that keeps to the laws *)

Section programs.
Context `{ClientLaws St C X}.
Implicit Types (m : host St) (s : St) (c : C) (h : heap X) (p q r : promise)
  (U : list promise) (es : list (event C)).

(** After a call the runtime has yet to be told of the promises the call
    resolved. *)
Lemma run_ok c m :
  ok [] m → known c (body m) = true →
  ok (resolvable (body m)) (Host (run c (body m)) (jobs m) (subs m)).
Proof.
  intros [Hl Hf Hs Hp Ht] Hk. unfold heap_of_host in *.
  pose proof (run_heap_le c (body m)) as Hle. destruct (Hle) as [Hlen _].
  split; unfold heap_of_host; simpl.
  - intros p q [Hq|(_ & _ & Hq)]%run_follows; [apply Hl in Hq| |done]; lia.
  - intros p q [Hq|(Hq & Hin & _)]%run_follows; [|left|done].
    + destruct (Hf p q Hq) as [[]%elem_of_nil|Hj]; auto.
    + apply list_elem_of_filter. split; [by apply pending_in_spec|done].
  - intros q p Hin. destruct (Hs q p Hin) as [Hlt [[]%elem_of_nil|Hns]].
    split; [lia|]. apply lookup_lt_is_Some in Hlt as [st Hq].
    destruct (run_changes c (body m) q st Hq) as [Hq'|[-> Hr]].
    + right. unfold settled_in in *. by rewrite Hq'; rewrite Hq in Hns.
    + left. apply list_elem_of_filter. split; [by apply pending_in_spec|done].
  - intros p q Hin. eapply settled_in_le; eauto.
  - intros p q Hin. apply Ht in Hin. lia.
Qed.

(** Every call keeps the invariant. *)
Lemma perform_ok c m : ok [] m → known c (body m) = true → ok [] (perform c m).
Proof. intros Hok Hk. by apply announces_ok, run_ok. Qed.

Lemma play_ok es m : ok [] m → scoped es m = true → ok [] (play es m).
Proof.
  revert m; induction es as [|e es IH]; intros m Hok Hsc; [done|].
  simpl in Hsc. apply andb_true_iff in Hsc as [Hk Hsc]. apply IH; [|done].
  destruct e; simpl; auto using perform_ok, tick_ok.
Qed.

(** A state in which no promise follows another, before any job. *)
Lemma start_ok s : (∀ p q, heap_of s !! p ≠ Some (Following q)) → ok [] (Host s [] []).
Proof.
  intros Hh. split; unfold heap_of_host; simpl; try by intros ? ? ?%elem_of_nil.
  all: intros p q Hp; by destruct (Hh p q).
Qed.

(** The runtime leaves the state as the call left it. *)
Lemma body_announces U m : body (foldl (λ m' r, announce r m') m U) = body m.
Proof.
  revert m; induction U as [|r U IH]; intros m; simpl; [done|].
  by rewrite IH, body_announce.
Qed.

Lemma body_perform c m : body (perform c m) = run c (body m).
Proof. apply body_announces. Qed.

Lemma perform_follower c p q m : follower p q m → follower p q (perform c m).
Proof.
  apply follower_heap_le. unfold heap_of_host. rewrite body_perform. apply run_heap_le.
Qed.

Lemma play_follower es p q m : follower p q m → follower p q (play es m).
Proof.
  revert m; induction es as [|[c|] es IH]; intros m Hf; simpl;
    auto using perform_follower, tick_follower.
Qed.

(** A settled promise keeps its state, whatever is called and whatever job
    runs. *)
Lemma tick_settled m p st :
  heap_of_host m !! p = Some st → settled st = true → heap_of_host (tick m) !! p = Some st.
Proof.
  intros Hp Hs. unfold tick. destruct (jobs m) as [|j js]; [done|].
  destruct (heap_run_job j (Host (body m) js (subs m))) as [->|(x & -> & _)]; [done|].
  by apply adopt_settled.
Qed.

Lemma drain_settled n m p st :
  heap_of_host m !! p = Some st → settled st = true → heap_of_host (drain n m) !! p = Some st.
Proof. revert m; induction n as [|n IH]; intros m Hp Hs; simpl; auto using tick_settled. Qed.

Lemma perform_settled c m p st :
  heap_of_host m !! p = Some st → settled st = true →
  heap_of_host (perform c m) !! p = Some st.
Proof.
  unfold heap_of_host. rewrite body_perform. apply heap_le_settled, run_heap_le.
Qed.

Lemma play_settled es m p st :
  heap_of_host m !! p = Some st → settled st = true → heap_of_host (play es m) !! p = Some st.
Proof.
  revert m; induction es as [|[c|] es IH]; intros m Hp Hs; simpl;
    auto using perform_settled, tick_settled.
Qed.

(** A promise that was handed a promise is settled as that one: whatever
    the program does, once the promise that was put is settled and the jobs
    have run, the promise of the consumer holds what that one holds. *)
Theorem follower_settles es m r q st :
  ok [] m → scoped es m = true → follower r q m →
  heap_of_host (settle_down (play es m)) !! q = Some st → settled st = true →
  heap_of_host (settle_down (play es m)) !! r = Some st.
Proof.
  intros Hok Hsc Hf. apply drained_follower.
  - by apply drain_ok, play_ok.
  - by apply drain_done.
  - by apply drain_follower, play_follower.
Qed.

(** *** The client on which no job runs *)

Lemma sim_start m : sim (body m) m.
Proof. split; [symmetry; apply update_view|apply ahead_refl]. Qed.

Lemma perform_sim c s m : sim s m → sim (run c s) (perform c m).
Proof.
  intros [Hb Ha]. destruct (run_ahead c s _ Ha) as (h' & He & Ha').
  unfold sim, heap_of_host. rewrite body_perform, Hb, He.
  unfold set_heap, heap_of. by rewrite view_update.
Qed.

Lemma tick_sim s m : sim s m → sim s (tick m).
Proof.
  intros [Hb Ha]. unfold tick. destruct (jobs m) as [|[p q|p q] js]; [done|..]; simpl.
  - by destruct (settled_in _ q).
  - destruct (bool_decide _ && _); [|done]. split.
    + rewrite heap_announce, body_announce, heap_set_heap. simpl. rewrite Hb.
      apply update_update.
    + rewrite heap_announce, heap_set_heap. by apply ahead_adopt.
Qed.

Lemma play_sim es s m : sim s m → sim (runs (calls_of es) s) (play es m).
Proof.
  revert s m; induction es as [|[c|] es IH]; intros s m Hs; [done|..]; simpl;
    auto using perform_sim, tick_sim.
Qed.

(** The jobs are not seen by the client: its variables are, at every point
    of a program, those of the client on which no job runs. *)
Theorem play_body es m :
  body (play es m) = set_heap (heap_of_host (play es m)) (runs (calls_of es) (body m)).
Proof. apply (play_sim es (body m) m), sim_start. Qed.

(** The fate of every promise is, at every point of a program, what it is
    in the heap of the calls alone. *)
Theorem play_fate es m p :
  fate (heap_of_host (play es m)) p = fate (heap_of (runs (calls_of es) (body m))) p.
Proof. apply ahead_fate, (play_sim es (body m) m), sim_start. Qed.

(** C20: The jobs bring about what [fate] says: after any program, with the
    jobs run at any points of it, and once the queue is empty, a promise is
    settled with [st] exactly when [st] is its fate in the heap that the
    calls alone leave, with no job run. *)
Theorem jobs_realise_fate es m p st :
  ok [] m → scoped es m = true → settled st = true →
  heap_of_host (settle_down (play es m)) !! p = Some st
  ↔ fate (heap_of (runs (calls_of es) (body m))) p = st.
Proof.
  intros Hok Hsc Hs. rewrite settle_down_spec by (done || by apply play_ok).
  by rewrite play_fate.
Qed.

End programs.

(** ** The channel as a client *)

Section channel.
Context {V : Type} {T : Thenable (value V)} {L : Lawful T}.
Implicit Types (m : host (state V)) (s : state V) (c : call V) (h : heap (value V))
  (p q r : promise) (es : list (event (call V))).

(** A promise that follows another after a call did so before it, or was
    resolved by the call, with a promise that exists. *)
Lemma exec_follows c s p q :
  known c s = true → promises (after (exec c) s) !! p = Some (Following q) →
  promises s !! p = Some (Following q)
  ∨ (promises s !! p = Some Pending ∧ p ∈ resolveQueue s ∧ q < length (promises s)).
Proof.
  intros Hk Hp. destruct (promises s !! p) as [st|] eqn:Hst; cycle 1.
  { apply lookup_ge_None in Hst. by destruct (exec_new_cell c s p q Hst). }
  destruct (exec_changes c s p st Hst) as [Hp'|[-> Hin]]; [left; congruence|right].
  split_and!; [done..|]. revert Hk Hp. step_cases c s; intros Hk Hp;
    rewrite ?(lookup_app_l_Some _ _ _ _ Hst),
      ?(settle_all_pending _ _ (Fulfilled CLOSED) _ eq_refl Hin Hst) in Hp; try congruence.
  rewrite lookup_settle in Hp. unfold resolution in Hp.
  destruct (as_promise v) as [q'|]; repeat (case_match || case_decide); simplify_eq.
  by apply bool_decide_eq_true in Hk.
Qed.

(** A call on a channel whose heap is ahead does what it does on the
    channel, on a heap that is ahead. *)
Lemma exec_ahead c s h :
  ahead (promises s) h →
  ∃ h', after (exec c) (set_heap h s) = set_heap h' (after (exec c) s)
        ∧ ahead (promises (after (exec c) s)) h'.
Proof.
  intros Ha. rewrite !after_exec. destruct (Ha) as [Hlen _].
  destruct s as [cl mq rq h0]. simpl in *.
  destruct c as [v| |]; unfold after;
    rewrite ?put_any, ?take_any, ?close_any; unfold set_heap; simpl; rewrite <- ?Hlen.
  - destruct cl; [by exists h|]. destruct rq as [|r rq]; simpl; eauto using ahead_settle.
  - destruct mq as [|v mq]; simpl; [destruct cl|destruct (as_promise v)]; simpl;
      eauto using ahead_snoc.
  - destruct cl; simpl; eauto using ahead_settle_all.
Qed.

#[export] Instance chan_laws : ClientLaws (H0 := chan_client).
Proof.
  split.
  - apply exec_heap_le.
  - apply exec_changes.
  - apply exec_follows.
  - apply exec_ahead.
Qed.

Lemma new_ok h : (∀ p q, h !! p ≠ Some (Following q)) → ok [] (Host (createChannel h) [] []).
Proof. intros Hh. by apply (start_ok (createChannel h)). Qed.

(** C34: The states of a program that starts with a new channel, on a heap where
    no promise follows another, keep the invariant. *)
Theorem program_ok es h :
  (∀ p q, h !! p ≠ Some (Following q)) → scoped es (Host (createChannel h) [] []) = true →
  ok [] (play es (Host (createChannel h) [] [])).
Proof. intros Hh Hsc. by apply play_ok; [apply new_ok|]. Qed.

(** *** Programs that put no promise *)

(** A call that puts no promise makes no follower. *)
Lemma exec_plain c s p q :
  plain c = true → promises (after (exec c) s) !! p = Some (Following q) →
  promises s !! p = Some (Following q).
Proof.
  intros Hc Hp. destruct (promises s !! p) as [st|] eqn:Hst; cycle 1.
  { apply lookup_ge_None in Hst. by destruct (exec_new_cell c s p q Hst). }
  destruct (exec_changes c s p st Hst) as [Hp'|[-> Hin]]; [congruence|].
  revert Hc Hp. step_cases c s; intros Hc Hp;
    rewrite ?(lookup_app_l_Some _ _ _ _ Hst),
      ?(settle_all_pending _ _ (Fulfilled CLOSED) _ eq_refl Hin Hst) in Hp; try congruence.
  apply bool_decide_eq_true in Hc. rewrite lookup_settle, resolution_datum in Hp by done.
  repeat (case_match || case_decide); simplify_eq.
Qed.

(** The runtime has nothing to do for a promise that follows none and has no
    reaction. *)
Lemma announce_idle r m :
  jobs m = [] → subs m = [] → (∀ q, heap_of_host m !! r ≠ Some (Following q)) →
  announce r m = m.
Proof.
  destruct m as [s js rs]. unfold announce, notify, heap_of_host. simpl. intros -> -> Hr.
  destruct (heap_of s !! r) as [[|q| |]|]; try done. by destruct (Hr q).
Qed.

Lemma announces_idle (U : list promise) m :
  jobs m = [] → subs m = [] → (∀ r q, r ∈ U → heap_of_host m !! r ≠ Some (Following q)) →
  foldl (λ m' r, announce r m') m U = m.
Proof.
  intros Hj Hs. induction U as [|r U IH]; intros HU; simpl; [done|].
  rewrite announce_idle by (done || intros q; apply HU; by left).
  apply IH. intros r' q Hin. apply HU. by right.
Qed.

Lemma perform_quiet c m :
  plain c = true → jobs m = [] → subs m = [] →
  perform c m = Host (after (exec c) (body m)) [] [].
Proof.
  intros Hc Hj Hs. unfold perform. rewrite Hj, Hs. apply announces_idle; try done.
  unfold heap_of_host. simpl.
  intros r q [Hr%pending_in_spec _]%list_elem_of_filter Hf%exec_plain; [|done].
  unfold heap_of in Hr. simpl in Hr. congruence.
Qed.

(** A program that puts no promise never has a job: with the jobs or
    without, it is the program of its calls on the channel alone. *)
Theorem quiet es m :
  forallb plain (calls_of es) = true → jobs m = [] → subs m = [] →
  play es m = Host (final (calls_of es) (body m)) [] [].
Proof.
  revert m; induction es as [|[c|] es IH]; intros m Hes Hj Hs; simpl in *.
  - destruct m; simpl in *; by subst.
  - apply andb_true_iff in Hes as [Hc Hes]. rewrite perform_quiet by done. by apply IH.
  - rewrite tick_idle by done. by apply IH.
Qed.

End channel.

End Micro.

(** ** The theorems at a concrete program *)

Import Micro.

#[local] Existing Instance native.

(** Two consumers take; the first is handed the promise of the second, and
    a datum is put for the second.  A job runs in between. *)
Lemma jobs_realise_fate_witness :
  heap_of_host (settle_down (play
    [Call Take; Call Take; Call (Put (payload (Ref 1))); Tick; Call (Put (payload (Datum 5)))]
    (Host (createChannel (V:=item nat) []) [] []))) !! 0 = Some (Fulfilled (payload (Datum 5)))
  ↔ fate (heap_of (runs (calls_of
      [Call Take; Call Take; Call (Put (payload (Ref 1))); Tick; Call (Put (payload (Datum 5)))])
      (createChannel (V:=item nat) []))) 0 = Fulfilled (payload (Datum 5)).
Proof.
  apply (jobs_realise_fate
           [Call Take; Call Take; Call (Put (payload (Ref 1))); Tick;
            Call (Put (payload (Datum 5)))]
           (Host (createChannel (V:=item nat) []) [] []) 0 (Fulfilled (payload (Datum 5))));
    [|reflexivity..].
  apply (new_ok []). intros p q. by rewrite lookup_nil.
Defined.

Lemma follower_settles_witness :
  heap_of_host (settle_down (play [Tick; Call (Put (payload (Datum 5)))]
    (Host (State (V:=item nat) false [] [1] [Following 1; Pending]) [Then 0 1] []))) !! 0
  = Some (Fulfilled (payload (Datum 5))).
Proof.
  apply (follower_settles [Tick; Call (Put (payload (Datum 5)))]
           (Host (State (V:=item nat) false [] [1] [Following 1; Pending]) [Then 0 1] [])
           0 1 (Fulfilled (payload (Datum 5)))); try reflexivity; [|by left].
  assert (ok [] (play [Call Take; Call Take; Call (Put (payload (Ref 1)))]
                   (Host (createChannel (V:=item nat) []) [] []))) as Hok;
    [|exact Hok].
  apply play_ok; [|reflexivity]. apply (new_ok []). intros p q. by rewrite lookup_nil.
Defined.

Lemma program_ok_witness :
  ok [] (play
    [Call Take; Call Take; Call (Put (payload (Ref 1))); Tick; Call (Put (payload (Datum 5)))]
    (Host (createChannel (V:=item nat) []) [] [])).
Proof.
  apply (program_ok
           [Call Take; Call Take; Call (Put (payload (Ref 1))); Tick;
            Call (Put (payload (Datum 5)))] []); [|reflexivity].
  intros p q. by rewrite lookup_nil.
Defined.

Lemma quiet_witness :
  play [Call Take; Tick; Call (Put (payload (Datum 5))); Call Close]
    (Host (createChannel (V:=item nat) []) [] [])
  = Host (final (calls_of [Call Take; Tick; Call (Put (payload (Datum 5))); Call Close])
            (createChannel [])) [] [].
Proof.
  exact (quiet [Call Take; Tick; Call (Put (payload (Datum 5))); Call Close]
           (Host (createChannel (V:=item nat) []) [] []) eq_refl eq_refl eq_refl).
Defined.

Lemma settle_down_spec_witness :
  heap_of_host (settle_down
    (Host (State (V:=item nat) false [] [] [Fulfilled (payload (Datum 5)); Following 0])
       [Then 1 0] [])) !! 1 = Some (Fulfilled (payload (Datum 5)))
  ↔ fate [Fulfilled (payload (Datum 5)); Following 0] 1 = Fulfilled (payload (Datum 5)).
Proof.
  assert (ok [] (play [Call Take; Call (Put (payload (Datum 5))); Call Take;
                       Call (Put (payload (Ref 0)))]
                   (Host (createChannel (V:=item nat) []) [] []))) as Hok.
  { apply play_ok; [|reflexivity]. apply (new_ok []). intros p q. by rewrite lookup_nil. }
  exact (settle_down_spec
           (Host (State (V:=item nat) false [] [] [Fulfilled (payload (Datum 5)); Following 0])
              [Then 1 0] []) 1 (Fulfilled (payload (Datum 5))) Hok eq_refl).
Defined.

(** Three consumers in a row: each was handed the promise of the next, and
    a datum was put for the last. *)
Lemma chain_settles_witness :
  heap_of_host (settle_down (play
    [Call Take; Call Take; Call Take; Call (Put (payload (Ref 1)));
     Call (Put (payload (Ref 2))); Call (Put (payload (Datum 5)))]
    (Host (createChannel (V:=item nat) []) [] []))) !! 0
  = Some (Fulfilled (payload (Datum 5))).
Proof.
  apply (chain_settles _ 2 0 2); try reflexivity.
  apply play_ok; [|reflexivity]. apply (new_ok []). intros p q. by rewrite lookup_nil.
Defined.

Lemma settle_down_done_witness :
  jobs (settle_down
    (Host (State (V:=item nat) false [] [] [Fulfilled (payload (Datum 5)); Following 0])
       [Then 1 0] [])) = []
  ∧ (budget (Host (State (V:=item nat) false [] [] [Fulfilled (payload (Datum 5)); Following 0])
               [Then 1 0] []) ≤ 7 →
     drain 7 (Host (State (V:=item nat) false [] [] [Fulfilled (payload (Datum 5)); Following 0])
                [Then 1 0] [])
     = settle_down
         (Host (State (V:=item nat) false [] [] [Fulfilled (payload (Datum 5)); Following 0])
            [Then 1 0] [])).
Proof.
  exact (settle_down_done
           (Host (State (V:=item nat) false [] [] [Fulfilled (payload (Datum 5)); Following 0])
              [Then 1 0] []) 7).
Defined.
