(* ===== verification/History.v ===== *)
(** * History: what a channel promises, and that the code keeps it

    The contract of a channel can be said without queues.  All that matters
    of the past is the [hist]ory: whether the channel was closed, the values
    that were accepted, in order, and how many times [take] was called.  The
    [i]-th [take] gets the [i]-th accepted value; if there is none it gets
    [CLOSED] once the channel is closed, and until then it waits
    ([outcome]).  [record] is the effect of a call on the history and the
    answer the contract prescribes.

    A [ledger] relates a history [a] to a state [s] of the code through the
    promises that the takes returned, in order ([own]): the [i]-th of them
    is in the state [outcome] gives the [i]-th take, [messageQueue] holds
    the accepted values not yet taken, and while the channel is open
    [resolveQueue] holds the promises of [own] that have no value yet,
    oldest first.  Every call keeps the ledger, with the promise it returned
    added ([exec_ledger]), and so does any change of the heap that leaves
    [resolveQueue] alone ([ledger_heap]); [Delivery] uses that for a channel
    among others.

    [repr h0 a s] is the ledger of a channel that is alone since it was
    created in the heap [h0]: its promises are the cells from [length h0]
    on, and the older cells are as they were.  The refinement theorem
    [exec_repr] says that every call of the code answers as [record]
    prescribes and leads to a state that represents the new history;
    [final_outcome] concludes that after any sequence of calls every promise
    handed out by [take] is in the state [outcome] gives it. *)

From S2P Require Import Prelude JsMonad JsArray Promise Channel Invariant Trace.
Import Chan.

#[local] Existing Instance ideal.
#[local] Existing Instance inert.

Record hist (V : Type) : Type := Hist {
  closed : bool;
  sent : list (value V);
  taken : nat
}.
Arguments Hist {V} closed sent taken.
Arguments closed {V} _.
Arguments sent {V} _.
Arguments taken {V} _.

(** The history of a channel that was just created. *)
Definition hist0 {V} : hist V := Hist false [] 0.

(** The state of the promise that the [i]-th [take] returned. *)
Definition outcome {V} (a : hist V) (i : nat) : pstate (value V) :=
  match sent a !! i with
  | Some v => Fulfilled v
  | None => if closed a then Fulfilled CLOSED else Pending
  end.

(** The answer to a call and the history after it; [base] is the identity of
    the promise of the first [take]. *)
Definition record {V} (base : nat) (c : call V) (a : hist V) : ret * hist V :=
  match c with
  | Put v =>
      if closed a then (RBool false, a)
      else (RBool true, Hist false (sent a ++ [v]) (taken a))
  | Take => (RPromise (base + taken a), Hist (closed a) (sent a) (S (taken a)))
  | Close =>
      if closed a then (RBool false, a)
      else (RBool true, Hist true (sent a) (taken a))
  end.

(** The history of a sequence of calls. *)
Definition history {V} (cs : list (call V)) (a : hist V) : hist V :=
  foldl (λ a' c, (record 0 c a').2) a cs.

(** The answers the contract prescribes to a sequence of calls. *)
Fixpoint replies {V} (base : nat) (cs : list (call V)) (a : hist V) : list ret :=
  match cs with
  | [] => []
  | c :: cs' => (record base c a).1 :: replies base cs' (record base c a).2
  end.

(** The promise in an answer. *)
Definition promise_of (r : ret) : list promise :=
  match r with
  | RPromise p => [p]
  | RBool _ => []
  end.

(** The history [a] of a channel and the promises [own] that its takes
    returned, in order, against the state of the code. *)
Record ledger {V} (own : list promise) (a : hist V) (s : state V) : Prop := Ledger {
  ledger_closed : isClosed s = closed a;
  ledger_messages : messageQueue s = drop (taken a) (sent a);
  ledger_waiters : closed a = false → resolveQueue s = drop (length (sent a)) own;
  ledger_length : length own = taken a;
  ledger_NoDup : NoDup own;
  ledger_takes i p : own !! i = Some p → promises s !! p = Some (outcome a i)
}.

(** The ledger of a channel that is alone since it was created in the heap
    [h0]: its promises are the cells made since, and the cells of [h0] are
    as they were. *)
Record repr {V} (h0 : heap (value V)) (a : hist V) (s : state V) : Prop := Repr {
  repr_ledger : ledger (seq (length h0) (taken a)) a s;
  repr_length : length (promises s) = length h0 + taken a;
  repr_old p : p < length h0 → promises s !! p = h0 !! p
}.

(** ** Outcomes *)

Section outcome.
Context {V : Type}.
Implicit Types (a : hist V) (v : value V) (i : nat).

Lemma outcome_sent a i v : sent a !! i = Some v → outcome a i = Fulfilled v.
Proof. intros H. unfold outcome. by rewrite H. Qed.

Lemma outcome_unsent a i :
  length (sent a) ≤ i →
  outcome a i = if closed a then Fulfilled CLOSED else Pending.
Proof. intros H. unfold outcome. by rewrite lookup_ge_None_2. Qed.

(** Accepting a value settles the outcome of the first take that had none,
    and changes no other. *)
Lemma outcome_put c (vs : list (value V)) t v i :
  outcome (Hist c (vs ++ [v]) t) i =
  if decide (i = length vs) then Fulfilled v else outcome (Hist c vs t) i.
Proof.
  unfold outcome; simpl. case_decide as Hi.
  - subst. by rewrite lookup_snoc_length.
  - destruct (decide (i < length vs)).
    + by rewrite lookup_snoc_lt.
    + by rewrite !lookup_ge_None_2 by (rewrite ?length_app; simpl; lia).
Qed.

(** The outcome of a take does not depend on how many takes there were. *)
Lemma outcome_taken c (vs : list (value V)) t t' i :
  outcome (Hist c vs t) i = outcome (Hist c vs t') i.
Proof. done. Qed.

(** Closing turns waiting into [CLOSED] and changes no settled outcome. *)
Lemma outcome_close (vs : list (value V)) t i :
  outcome (Hist true vs t) i =
  if decide (i < length vs) then outcome (Hist false vs t) i else Fulfilled CLOSED.
Proof.
  unfold outcome; simpl. case_decide as Hi.
  - by destruct (lookup_lt_is_Some_2 vs i Hi) as [v ->].
  - by rewrite lookup_ge_None_2 by lia.
Qed.

(** Once the channel is closed, nobody waits. *)
Lemma outcome_closed_settled a i : closed a = true → settled (outcome a i) = true.
Proof. intros H. unfold outcome. rewrite H. by destruct (sent a !! i). Qed.

End outcome.

(** ** The ledger, operation by operation *)

Section ledger.
Context {V : Type}.
Implicit Types (a : hist V) (s : state V) (v : value V) (c : call V) (p : promise)
  (own : list promise).

Lemma createChannel_ledger (h : heap (value V)) : ledger [] hist0 (createChannel h).
Proof. split; simpl; try done. constructor. Qed.

(** The promises of a ledger exist. *)
Lemma ledger_lt own a s p : ledger own a s → p ∈ own → p < length (promises s).
Proof.
  intros Hl [i Hi]%list_elem_of_lookup_1. eapply lookup_lt_Some, (ledger_takes _ _ _ Hl), Hi.
Qed.

(** Those that are pending wait in [resolveQueue]. *)
Lemma ledger_pending own a s i p :
  ledger own a s → own !! i = Some p → resolved (outcome a i) = false →
  closed a = false ∧ length (sent a) ≤ i ∧ p ∈ resolveQueue s.
Proof.
  intros Hl Hi Hp. unfold outcome in Hp.
  destruct (sent a !! i) eqn:Hs; [done|]. destruct (closed a) eqn:Hc; [done|].
  apply lookup_ge_None_1 in Hs. split_all; [done..|].
  rewrite (ledger_waiters _ _ _ Hl Hc). apply list_elem_of_lookup_2 with (i - length (sent a)).
  rewrite lookup_drop. by replace (length (sent a) + (i - length (sent a))) with i by lia.
Qed.

(** Those that have a value do not. *)
Lemma ledger_served own a s i p :
  ledger own a s → closed a = false → own !! i = Some p → i < length (sent a) →
  p ∉ resolveQueue s.
Proof.
  intros Hl Hc Hi Hlt. rewrite (ledger_waiters _ _ _ Hl Hc).
  intros [j Hj]%list_elem_of_lookup_1. rewrite lookup_drop in Hj.
  pose proof (NoDup_lookup _ _ _ _ (ledger_NoDup _ _ _ Hl) Hi Hj). lia.
Qed.

(** A ledger holds in any later heap that leaves the promises of
    [resolveQueue] alone. *)
Lemma ledger_heap own a s h' :
  ledger own a s → heap_le (promises s) h' →
  (∀ p, p ∈ resolveQueue s → h' !! p = promises s !! p) →
  ledger own a (State (isClosed s) (messageQueue s) (resolveQueue s) h').
Proof.
  intros Hl Hle Hsame. destruct Hl as [Hc Hm Hw Hn Hd Ht]. split; try done.
  intros i p Hi. simpl. destruct (resolved (outcome a i)) eqn:Hr.
  - eapply heap_le_resolved; eauto.
  - destruct (ledger_pending own a s i p) as (_ & _ & Hp); [by split|done..|].
    rewrite Hsame by done. by apply Ht.
Qed.

(** [put] keeps the ledger. *)
Lemma put_ledger own a s v :
  ledger own a s → ledger own (record 0 (Put v) a).2 (after (put v) s).
Proof.
  intros Hl. pose proof Hl as [Hc Hm Hw Hn Hd Ht]. unfold after. simpl.
  destruct (closed a) eqn:Ha; [by rewrite put_closed by congruence|].
  specialize (Hw eq_refl). destruct (resolveQueue s) as [|r rq] eqn:Hrq.
  - rewrite put_buffer by congruence. symmetry in Hw. apply drop_nil_length in Hw.
    split; simpl; try done.
    + rewrite Hm, drop_snoc_le; [done|lia].
    + intros _. rewrite drop_ge; [done|rewrite length_app; simpl; lia].
    + intros i p Hi. rewrite (Ht i p Hi). pose proof (lookup_lt_Some _ _ _ Hi).
      destruct a as [? vs t]; simpl in *; subst. rewrite outcome_put.
      by rewrite decide_False by lia.
  - rewrite (put_handoff _ _ r rq) by congruence. symmetry in Hw.
    apply drop_cons_lookup in Hw as [Hr Hw]. pose proof (lookup_lt_Some _ _ _ Hr).
    split; simpl; try done.
    + rewrite Hm, !drop_ge; [done|rewrite length_app; simpl|]; lia.
    + intros _. rewrite length_app. simpl. by rewrite Nat.add_1_r.
    + intros i p Hi. rewrite lookup_settle, (Ht _ _ Hr), (Ht _ _ Hi).
      destruct a as [? vs t]; simpl in *; subst. rewrite outcome_put.
      rewrite outcome_unsent by done. simpl.
      destruct (decide (i = length vs)) as [->|Hne]; [by simplify_eq; rewrite decide_True|].
      rewrite decide_False; [done|]. intros ->.
      by pose proof (NoDup_lookup _ _ _ _ Hd Hr Hi).
Qed.

(** [take] adds the promise it returns to the ledger. *)
Lemma take_ledger own a s :
  ledger own a s →
  ledger (own ++ [length (promises s)]) (record 0 Take a).2 (after take s).
Proof.
  intros Hl. pose proof Hl as [Hc Hm Hw Hn Hd Ht].
  assert (∀ st, st = outcome a (taken a) → ∀ i p,
    (own ++ [length (promises s)]) !! i = Some p →
    (promises s ++ [st]) !! p = Some (outcome a i)) as Hheap.
  { intros st -> i p [Hi|[Hle [Hi <-]%list_lookup_singleton_Some]]%lookup_app_Some.
    - rewrite lookup_app_l by (eapply ledger_lt; [done|by eapply list_elem_of_lookup_2]).
      by apply Ht.
    - rewrite lookup_snoc_length. do 2 f_equal. lia. }
  assert (NoDup (own ++ [length (promises s)])) as Hd'.
  { apply NoDup_app. split_all; [done| |apply NoDup_singleton].
    intros p Hp ->%list_elem_of_singleton. apply (ledger_lt _ _ _ _ Hl) in Hp. lia. }
  unfold after. simpl.
  destruct (messageQueue s) as [|v mq] eqn:Hmq; [destruct (isClosed s) eqn:Hs|].
  - rewrite take_closed_drained by done. symmetry in Hm. apply drop_nil_length in Hm.
    split; simpl; rewrite ?length_app; simpl; try done; try lia.
    + by rewrite drop_ge by lia.
    + intros Ha. congruence.
    + apply Hheap. by rewrite outcome_unsent, <- Hc.
  - rewrite take_pending by done. symmetry in Hm. apply drop_nil_length in Hm.
    split; simpl; rewrite ?length_app; simpl; try done; try lia.
    + by rewrite drop_ge by lia.
    + intros Ha. rewrite Hw, drop_snoc_le by (done || lia). done.
    + apply Hheap. by rewrite outcome_unsent, <- Hc.
  - rewrite (take_buffered _ v mq) by done. symmetry in Hm.
    apply drop_cons_lookup in Hm as [Hv Hm]. pose proof (lookup_lt_Some _ _ _ Hv).
    split; simpl; rewrite ?length_app; simpl; try done; try lia.
    + intros Ha. rewrite Hw, !drop_ge; [done|rewrite length_app; simpl|..]; (done || lia).
    + apply Hheap. by rewrite (outcome_sent _ _ v).
Qed.

(** [close] keeps the ledger: the takes that waited get [CLOSED]. *)
Lemma close_ledger own a s :
  ledger own a s → ledger own (record 0 Close a).2 (after close s).
Proof.
  intros Hl. pose proof Hl as [Hc Hm Hw Hn Hd Ht]. unfold after. simpl.
  destruct (closed a) eqn:Ha; [by rewrite close_closed by congruence|].
  rewrite close_open by congruence. split; simpl; try done.
  intros i p Hi. destruct a as [cl vs t]; simpl in *; subst cl. rewrite outcome_close.
  case_decide as Hlt.
  - rewrite settle_all_other; [by apply Ht|]. by eapply ledger_served.
  - destruct (ledger_pending own (Hist false vs t) s i p) as (_ & _ & Hp); [done..| |].
    { by rewrite outcome_unsent by (simpl; lia). }
    apply settle_all_pending; [done..|]. rewrite (Ht _ _ Hi).
    by rewrite outcome_unsent by (simpl; lia).
Qed.

(** Every call of a channel keeps its ledger, with the promise the call
    returned added to it. *)
Lemma exec_ledger own a s c :
  ledger own a s →
  ledger (own ++ promise_of (answer c s)) (record 0 c a).2 (after (exec c) s).
Proof.
  intros Hl. rewrite after_exec. destruct c; simpl promise_of; rewrite ?app_nil_r;
    auto using put_ledger, take_ledger, close_ledger.
Qed.

(** The history does not depend on how promises are numbered. *)
Lemma record_base b b' c a : (record b c a).2 = (record b' c a).2.
Proof. destruct c; simpl; by destruct (closed a). Qed.

End ledger.

(** ** The refinement *)

Section refinement.
Context {V : Type} (h0 : heap (value V)).
Implicit Types (a : hist V) (s : state V) (v : value V) (c : call V).

Lemma createChannel_repr : repr h0 hist0 (createChannel h0).
Proof. split; simpl; [apply createChannel_ledger|lia|done]. Qed.

Lemma repr_closed a s : repr h0 a s → isClosed s = closed a.
Proof. intros [Hl _ _]. apply Hl. Qed.

(** The promise of the [i]-th [take] is the cell [length h0 + i]. *)
Lemma repr_takes a s :
  repr h0 a s → ∀ i, i < taken a → promises s !! (length h0 + i) = Some (outcome a i).
Proof. intros [Hl _ _] i Hi. apply (ledger_takes _ _ _ Hl). by apply lookup_seq_lt. Qed.

(** The channel waits on promises of its own only. *)
Lemma repr_waiting a s p :
  repr h0 a s → isClosed s = false → p ∈ resolveQueue s → length h0 ≤ p.
Proof.
  intros [Hl _ _] Hc. rewrite (ledger_waiters _ _ _ Hl) by (by rewrite <- (ledger_closed _ _ _ Hl)).
  intros [i Hi]%list_elem_of_lookup_1. rewrite lookup_drop in Hi.
  apply lookup_seq in Hi as [-> _]. lia.
Qed.

(** Every call of the code answers as the contract prescribes and leads to
    a state that represents the history the contract prescribes. *)
Theorem exec_repr a s c :
  repr h0 a s →
  answer c s = (record (length h0) c a).1
  ∧ repr h0 (record (length h0) c a).2 (after (exec c) s).
Proof.
  intros Hr. pose proof Hr as [Hl Hn Ho]. pose proof (exec_ledger _ _ _ c Hl) as Hl'.
  rewrite (record_base 0 (length h0)) in Hl'.
  assert (answer c s = (record (length h0) c a).1) as Ha.
  { destruct c; simpl; rewrite ?(ledger_closed _ _ _ Hl), ?Hn; by destruct (closed a). }
  split; [done|]. split.
  - replace (seq (length h0) (taken (record (length h0) c a).2))
      with (seq (length h0) (taken a) ++ promise_of (answer c s)); [done|].
    destruct c; simpl; [destruct (closed a)| |destruct (closed a)];
      rewrite ?app_nil_r, ?Hn; try done.
    symmetry. apply (seq_S (taken a) (length h0)).
  - rewrite exec_length. destruct c; simpl; try destruct (closed a); simpl; lia.
  - intros p Hp. rewrite exec_frame_open; [by apply Ho| |lia].
    intros Hc Hin%(repr_waiting a s); [lia|done..].
Qed.

End refinement.

(** ** Sequences of calls *)

Section runs.
Context {V : Type} (h0 : heap (value V)).
Implicit Types (a : hist V) (s : state V) (v : value V) (c : call V) (cs : list (call V)).

Lemma history_cons b c cs a : history (c :: cs) a = history cs (record b c a).2.
Proof. unfold history. simpl. by rewrite (record_base 0 b). Qed.

Lemma history_app cs1 cs2 a : history (cs1 ++ cs2) a = history cs2 (history cs1 a).
Proof. apply foldl_app. Qed.

(** The refinement along a run: the answers are those of the contract and
    the final state represents the history of the run. *)
Theorem run_repr cs a s :
  repr h0 a s →
  answers cs s = replies (length h0) cs a ∧ repr h0 (history cs a) (final cs s).
Proof.
  revert a s; induction cs as [|c cs IH]; intros a s Hr; [done|].
  destruct (exec_repr h0 a s c Hr) as [Ha Hr']. rewrite (history_cons (length h0)). simpl.
  destruct (IH _ _ Hr') as [-> ?]. by rewrite Ha.
Qed.

(** C6: A run on a new channel, in full: it does not throw, it answers as the
    contract prescribes, and it leaves a state that represents its history. *)
Theorem run_contract cs :
  ∃ s, run cs (createChannel h0) = (Ret (replies (length h0) cs hist0), s)
       ∧ repr h0 (history cs hist0) s.
Proof.
  destruct (run_repr cs hist0 _ (createChannel_repr h0)) as [Ha Hr].
  exists (final cs (createChannel h0)). by rewrite run_spec, Ha.
Qed.

(** After any sequence of calls, the promise that the [i]-th [take] returned
    is in the state the contract gives it. *)
Theorem final_outcome cs i :
  i < taken (history cs hist0) →
  promises (final cs (createChannel h0)) !! (length h0 + i)
  = Some (outcome (history cs hist0) i).
Proof.
  intros Hi. destruct (run_repr cs hist0 _ (createChannel_repr h0)) as [_ Hr].
  by apply (repr_takes _ _ _ Hr).
Qed.

(** The answers of a run are those of the contract: [put] and [close] answer
    [true] exactly while the channel is open, and the [i]-th [take] returns
    the promise [length h0 + i]. *)
Theorem answers_contract cs :
  answers cs (createChannel h0) = replies (length h0) cs hist0.
Proof. by destruct (run_repr cs hist0 _ (createChannel_repr h0)). Qed.

(** The promises that existed before the channel are never touched, from
    the new channel or from any state that represents a history. *)
Theorem final_frame cs a s p :
  repr h0 a s → p < length h0 → promises (final cs s) !! p = h0 !! p.
Proof.
  intros Hr Hp. destruct (run_repr cs a s Hr) as [_ Hr'].
  by apply (repr_old _ _ _ Hr').
Qed.

End runs.

(** ** The theorems at concrete states *)

Lemma final_frame_witness :
  0 < length [Pending (X:=value nat)]
  ∧ promises (final [Take; Put (payload 1); Close] (createChannel [Pending])) !! 0
    = [Pending] !! 0.
Proof.
  split; [simpl; lia|].
  apply (final_frame [Pending] [Take; Put (payload 1); Close] hist0 _ 0
           (createChannel_repr [Pending])).
  simpl. lia.
Defined.
