(* ===== verification/Properties.v ===== *)
(** * Properties: the guarantees of the channel, for every program

    The refinement of [History] reduces a question about the code after a run
    to a computation on the history of the run.  This file asks the questions
    a user of the channel asks: are values delivered in the order they were
    put (ordering), is a value that was buffered before [close] still
    delivered (drain before terminate), do the takes that wait at [close] all
    get [CLOSED], is a [put] after [close] refused and never seen, does every
    promise settle once [close] has been called.  The answers are read off
    the heap of the code after the run.  They are for values that are not
    promises; Section [closing] shows for any values that [close] works
    once and that a closed channel refuses every [put]. *)

From S2P Require Import Prelude JsMonad JsArray Promise Channel Invariant Trace History.
Import Chan.

#[local] Existing Instance ideal.
#[local] Existing Instance inert.

(** The calls [put(v1), ..., put(vn)]. *)
Definition puts {V} (vs : list (value V)) : list (call V) := Put <$> vs.

(** [n] calls of [take()]. *)
Definition takes {V} (n : nat) : list (call V) := replicate n Take.

(** How many of the calls are [take()]. *)
Definition ntakes {V} (cs : list (call V)) : nat :=
  sum_list_with (λ c, match c with Take => 1 | _ => 0 end) cs.

(** The values of the [put]s that come before the first [close()], in order:
    those are the ones a channel accepts. *)
Fixpoint accepted {V} (cs : list (call V)) : list (value V) :=
  match cs with
  | [] => []
  | Put v :: cs' => v :: accepted cs'
  | Take :: cs' => accepted cs'
  | Close :: _ => []
  end.

(** Whether [close()] is among the calls. *)
Fixpoint closes {V} (cs : list (call V)) : bool :=
  match cs with
  | [] => false
  | Close :: _ => true
  | _ :: cs' => closes cs'
  end.

(** What the promise of the [i]-th [take] of a sequence of calls holds at the
    end of the sequence. *)
Definition delivered {V} (cs : list (call V)) (i : nat) : pstate (value V) :=
  match accepted cs !! i with
  | Some v => Fulfilled v
  | None => if closes cs then Fulfilled CLOSED else Pending
  end.

(** ** Histories of simple runs *)

Section histories.
Context {V : Type}.
Implicit Types (a : hist V) (v : value V) (vs : list (value V)) (cs : list (call V)).

Lemma history_puts vs a :
  closed a = false → history (puts vs) a = Hist false (sent a ++ vs) (taken a).
Proof.
  revert a; induction vs as [|v vs IH]; intros [c ws t] Ha; simpl in Ha; subst c.
  - simpl. by rewrite app_nil_r.
  - unfold puts. rewrite fmap_cons, (history_cons 0). simpl.
    rewrite IH by done. simpl. by rewrite <- app_assoc.
Qed.

Lemma history_takes n a :
  history (takes n) a = Hist (closed a) (sent a) (taken a + n).
Proof.
  revert a; induction n as [|n IH]; intros [c ws t].
  - simpl. by rewrite Nat.add_0_r.
  - unfold takes. rewrite replicate_S, (history_cons 0). simpl.
    rewrite IH. simpl. f_equal. lia.
Qed.

Lemma history_close a :
  history [Close] a = Hist true (sent a) (taken a).
Proof. destruct a as [[] ws t]; done. Qed.

(** Closing is permanent, and a closed channel accepts nothing more. *)
Lemma history_closed cs a :
  closed a = true →
  closed (history cs a) = true ∧ sent (history cs a) = sent a.
Proof.
  revert a; induction cs as [|c cs IH]; intros a Ha; [done|].
  rewrite (history_cons 0). destruct (IH (record 0 c a).2) as [-> ->].
  - destruct c; simpl; by rewrite ?Ha.
  - split; [done|]. destruct c; simpl; by rewrite ?Ha.
Qed.

(** The number of takes of a run is the number of its [Take] calls. *)
Lemma taken_history cs a : taken (history cs a) = taken a + ntakes cs.
Proof.
  revert a; induction cs as [|c cs IH]; intros a; [simpl; lia|].
  rewrite (history_cons 0), IH. destruct c; simpl; try destruct (closed a); simpl; lia.
Qed.

(** The history of a run, read off the calls. *)
Lemma history_open cs a :
  closed a = false →
  history cs a = Hist (closes cs) (sent a ++ accepted cs) (taken a + ntakes cs).
Proof.
  revert a; induction cs as [|c cs IH]; intros [b ws t] Ha; simpl in Ha; subst b.
  - simpl. by rewrite app_nil_r, Nat.add_0_r.
  - rewrite (history_cons 0). destruct c as [v| |]; simpl.
    + rewrite IH by done. simpl. by rewrite <- app_assoc.
    + rewrite IH by done. simpl. f_equal. lia.
    + destruct (history_closed cs (Hist true ws t) eq_refl) as [Hc Hs].
      pose proof (taken_history cs (Hist true ws t)) as Ht.
      destruct (history cs _) as [b' ws' t']. simpl in *. subst.
      by rewrite app_nil_r.
Qed.

Lemma history_spec cs : history cs hist0 = Hist (closes cs) (accepted cs) (ntakes cs).
Proof. by rewrite history_open. Qed.

Lemma outcome_delivered cs i : outcome (history cs hist0) i = delivered cs i.
Proof. by rewrite history_spec. Qed.

Lemma accepted_app_close cs cs' : accepted (cs ++ Close :: cs') = accepted cs.
Proof. induction cs as [|[v| |] cs IH]; simpl; by rewrite ?IH. Qed.

Lemma closes_app_close cs cs' : closes (cs ++ Close :: cs') = true.
Proof. by induction cs as [|[v| |] cs IH]. Qed.

Lemma accepted_puts vs : accepted (puts vs) = vs.
Proof. induction vs as [|v vs IH]; simpl; by rewrite ?IH. Qed.

Lemma accepted_app_puts vs cs : accepted (puts vs ++ cs) = vs ++ accepted cs.
Proof. induction vs as [|v vs IH]; simpl; by rewrite ?IH. Qed.

Lemma accepted_takes n cs : accepted (takes n ++ cs) = accepted cs.
Proof. by induction n as [|n IH]. Qed.

Lemma accepted_only_takes n : accepted (takes (V:=V) n) = [].
Proof. by induction n as [|n IH]. Qed.

Lemma ntakes_app cs cs' : ntakes (cs ++ cs') = ntakes cs + ntakes cs'.
Proof. apply sum_list_with_app. Qed.

Lemma ntakes_cons c cs :
  ntakes (c :: cs) = match c with Take => 1 | _ => 0 end + ntakes cs.
Proof. done. Qed.

Lemma ntakes_puts vs : ntakes (puts vs) = 0.
Proof. by induction vs. Qed.

Lemma ntakes_takes n : ntakes (takes (V:=V) n) = n.
Proof. induction n as [|n IH]; simpl; [done|]. by f_equal. Qed.

Lemma closes_app cs cs' : closes (cs ++ cs') = closes cs || closes cs'.
Proof. by induction cs as [|[v| |] cs IH]. Qed.

Lemma closes_puts vs : closes (puts vs) = false.
Proof. by induction vs. Qed.

Lemma closes_takes n : closes (takes (V:=V) n) = false.
Proof. by induction n. Qed.

End histories.

#[export] Hint Rewrite @accepted_app_close @closes_app_close @accepted_puts
  @accepted_app_puts @accepted_takes @accepted_only_takes @ntakes_app @ntakes_cons @ntakes_puts @ntakes_takes
  @closes_app @closes_puts @closes_takes : queue.

(** ** The guarantees *)

Section guarantees.
Context {V : Type} (h0 : heap (value V)).
Implicit Types (v : value V) (vs : list (value V)) (cs : list (call V)) (i : nat).

(** After any sequence of calls on a new channel, the promise that the
    [i]-th [take] returned holds the [i]-th accepted value if there is one;
    otherwise it holds [CLOSED] if [close] was called, and is pending if
    not. *)
Lemma take_gets cs i :
  i < ntakes cs →
  promises (final cs (createChannel h0)) !! (length h0 + i) = Some (delivered cs i).
Proof.
  intros Hi. rewrite <- outcome_delivered. apply final_outcome.
  by rewrite history_spec.
Qed.

(** C5: The whole heap after any sequence of calls on a new channel: the promises
    that were there before are untouched, and after them comes one promise
    per [take], in the order of the takes, each holding what [delivered]
    says: the values are matched to the takes first come, first served. *)
Theorem heap_after_run cs :
  promises (final cs (createChannel h0)) = h0 ++ (delivered cs <$> seq 0 (ntakes cs)).
Proof.
  destruct (run_repr h0 cs hist0 _ (createChannel_repr h0)) as [_ Hr].
  pose proof (repr_length _ _ _ Hr) as Hl. rewrite history_spec in Hl. simpl in Hl.
  apply list_eq. intros p. destruct (decide (p < length h0)) as [Hp|Hp].
  { rewrite lookup_app_l by done. by apply (repr_old _ _ _ Hr). }
  rewrite lookup_app_r, list_lookup_fmap by lia.
  destruct (decide (p - length h0 < ntakes cs)) as [Hi|Hi].
  - rewrite lookup_seq_lt by done. simpl.
    replace p with (length h0 + (p - length h0)) at 1 by lia. by apply take_gets.
  - rewrite lookup_seq_ge by lia. apply lookup_ge_None_2. lia.
Qed.

(** C9: Ordering: after [put(v1), ..., put(vn)], the first [n] takes resolve to
    [v1], ..., [vn] in that order. *)
Theorem ordering vs i v :
  vs !! i = Some v →
  promises (final (puts vs ++ takes (length vs)) (createChannel h0)) !! (length h0 + i)
  = Some (Fulfilled v).
Proof.
  intros Hv. rewrite take_gets.
  - unfold delivered. autorewrite with queue. by rewrite app_nil_r, Hv.
  - autorewrite with queue. simpl. by eapply lookup_lt_Some.
Qed.

(** C10: Drain before terminate: values buffered before [close()] are still
    delivered, in order, to the takes that follow; only then do takes resolve
    to [CLOSED]. *)
Theorem drain_then_closed vs n i :
  i < n →
  promises (final (puts vs ++ Close :: takes n) (createChannel h0)) !! (length h0 + i)
  = Some (match vs !! i with Some v => Fulfilled v | None => Fulfilled CLOSED end).
Proof.
  intros Hi. rewrite take_gets.
  - unfold delivered. autorewrite with queue. simpl. by rewrite app_nil_r.
  - autorewrite with queue. simpl. lia.
Qed.

(** C11: Terminate pending waiters: the takes that wait when [close()] is called
    all resolve to [CLOSED], in the state [close()] returns in. *)
Theorem close_flushes_waiting n i :
  i < n →
  promises (final (takes n ++ [Close]) (createChannel h0)) !! (length h0 + i)
  = Some (Fulfilled CLOSED).
Proof.
  intros Hi. rewrite take_gets.
  - unfold delivered. by autorewrite with queue.
  - autorewrite with queue. simpl. lia.
Qed.

(** C33: Waiting consumers are served in the order they called [take]: after [n]
    takes on a new channel, [put(v1), ..., put(vk)] resolve the promises of
    the first [k] takes to [v1], ..., [vk] in that order, and the takes beyond
    them still wait. *)
Theorem waiters_fifo n vs i :
  i < n →
  promises (final (takes n ++ puts vs) (createChannel h0)) !! (length h0 + i)
  = Some (match vs !! i with Some v => Fulfilled v | None => Pending end).
Proof.
  intros Hi. rewrite take_gets.
  - unfold delivered. by autorewrite with queue.
  - autorewrite with queue. simpl. lia.
Qed.

(** C39: A [put] after [close()] is never seen by any take: whatever is called
    after the first [close()], each take of the run gets one of the values
    that were put before it, or [CLOSED]. *)
Theorem put_after_close_unseen cs cs' i :
  i < ntakes (cs ++ Close :: cs') →
  promises (final (cs ++ Close :: cs') (createChannel h0)) !! (length h0 + i)
  = Some (match accepted cs !! i with Some v => Fulfilled v | None => Fulfilled CLOSED end).
Proof.
  intros Hi. rewrite take_gets by done. unfold delivered.
  by rewrite accepted_app_close, closes_app_close.
Qed.

(** Once [close()] has been called, no promise returned by [take] stays
    pending: every consumer is answered. *)
Theorem closed_all_settled cs i :
  closes cs = true → i < ntakes cs →
  ∃ st, promises (final cs (createChannel h0)) !! (length h0 + i) = Some st
        ∧ settled st = true.
Proof.
  intros Hc Hi. exists (delivered cs i). split; [by apply take_gets|].
  unfold delivered. rewrite Hc. by destruct (accepted cs !! i).
Qed.

(** Until [close()] is called, a take beyond the accepted values waits. *)
Theorem open_waits cs i :
  closes cs = false → length (accepted cs) ≤ i < ntakes cs →
  promises (final cs (createChannel h0)) !! (length h0 + i) = Some Pending.
Proof.
  intros Hc [Hi1 Hi2]. rewrite take_gets by done. unfold delivered.
  by rewrite lookup_ge_None_2, Hc.
Qed.

End guarantees.

(** ** Closing, with any values *)

Section closing.
Context {V : Type} {T : Thenable (value V)} {L : Lawful T} (h0 : heap (value V)).
Implicit Types (v : value V) (cs : list (call V)) (s : state V).

(** A channel is closed after a sequence of calls when it was closed before
    it or [close()] is among the calls. *)
Lemma isClosed_final cs s : isClosed (final (T:=T) cs s) = isClosed s || closes cs.
Proof.
  revert s; induction cs as [|c cs IH]; intros s; simpl; [by rewrite orb_false_r|].
  rewrite IH, after_exec. destruct c.
  - by rewrite isClosed_put.
  - by rewrite isClosed_take.
  - by rewrite isClosed_close, orb_true_r.
Qed.

(** C40: Idempotent close: on a new channel the first [close()] returns [true],
    whatever was put and taken before it; after it, whatever else is called,
    [close()] and [put(v)] return [false] and change nothing. *)
Theorem close_once cs cs' v :
  closes cs = false →
  result (exec (T:=T) Close) (final cs (createChannel h0)) = Ret (RBool true)
  ∧ exec (T:=T) Close (final (cs ++ Close :: cs') (createChannel h0))
    = (Ret (RBool false), final (cs ++ Close :: cs') (createChannel h0))
  ∧ exec (T:=T) (Put v) (final (cs ++ Close :: cs') (createChannel h0))
    = (Ret (RBool false), final (cs ++ Close :: cs') (createChannel h0)).
Proof.
  intros Hc. unfold result, exec. js_unfold.
  rewrite !close_any, put_any, !isClosed_final, closes_app_close, Hc. done.
Qed.

End closing.

(** ** The theorems at concrete inputs *)

Lemma ordering_witness :
  [payload 1; payload 2] !! 1 = Some (payload 2)
  ∧ promises (final (puts [payload 1; payload 2] ++ takes 2) (createChannel [])) !! 1
    = Some (Fulfilled (payload 2)).
Proof.
  split; [reflexivity|].
  exact (ordering [] [payload 1; payload 2] 1 (payload 2) eq_refl).
Defined.

Lemma drain_then_closed_witness :
  1 < 2
  ∧ promises (final (puts [payload 5] ++ Close :: takes 2) (createChannel [])) !! 1
    = Some (Fulfilled CLOSED).
Proof.
  split; [lia|]. apply (drain_then_closed [] [payload 5] 2 1). lia.
Defined.

Lemma close_flushes_waiting_witness :
  2 < 3
  ∧ promises (final (takes 3 ++ [Close]) (createChannel (V:=nat) [])) !! 2
    = Some (Fulfilled CLOSED).
Proof.
  split; [lia|]. apply (close_flushes_waiting [] 3 2). lia.
Defined.

Lemma waiters_fifo_witness :
  1 < 3
  ∧ promises (final (takes 3 ++ puts [payload 7; payload 8]) (createChannel [])) !! 1
    = Some (Fulfilled (payload 8)).
Proof.
  split; [lia|]. apply (waiters_fifo [] 3 [payload 7; payload 8] 1). lia.
Defined.

Lemma closed_all_settled_witness :
  closes [Take; Put (payload 1); Take; Close] = true
  ∧ ∃ st, promises (final [Take; Put (payload 1); Take; Close] (createChannel [])) !! 1
          = Some st ∧ settled st = true.
Proof.
  split; [reflexivity|].
  apply (closed_all_settled [] [Take; Put (payload 1); Take; Close] 1 eq_refl).
  simpl. lia.
Defined.

Lemma open_waits_witness :
  closes [Take; Put (payload 1); Take] = false
  ∧ promises (final [Take; Put (payload 1); Take] (createChannel [])) !! 1
    = Some Pending.
Proof.
  split; [reflexivity|].
  apply (open_waits [] [Take; Put (payload 1); Take] 1 eq_refl). simpl. lia.
Defined.

Lemma put_after_close_unseen_witness :
  1 < ntakes [Put (payload 1); Close; Put (payload 2); Take; Take]
  ∧ promises (final [Put (payload 1); Close; Put (payload 2); Take; Take]
                (createChannel [])) !! 1
    = Some (Fulfilled CLOSED).
Proof.
  split; [vm_compute; lia|].
  apply (put_after_close_unseen [] [Put (payload 1)] [Put (payload 2); Take; Take] 1).
  vm_compute. lia.
Defined.

Lemma close_once_witness :
  closes [Take; Put (payload 1)] = false
  ∧ result (exec Close) (final [Take; Put (payload 1)] (createChannel [])) = Ret (RBool true)
  ∧ exec Close (final ([Take; Put (payload 1)] ++ Close :: [Take]) (createChannel []))
    = (Ret (RBool false),
       final ([Take; Put (payload 1)] ++ Close :: [Take]) (createChannel []))
  ∧ exec (Put (payload 2))
      (final ([Take; Put (payload 1)] ++ Close :: [Take]) (createChannel []))
    = (Ret (RBool false),
       final ([Take; Put (payload 1)] ++ Close :: [Take]) (createChannel [])).
Proof.
  split; [reflexivity|].
  exact (close_once (T:=inert) [] [Take; Put (payload 1)] [Take] (payload 2) eq_refl).
Defined.
