(* ===== verification/Tasks.v ===== *)
(** * Tasks: producers and consumers that run concurrently

    JavaScript runs [put], [take] and [close] to completion, one call at a
    time.  When several tasks use one channel, the calls the channel sees are
    therefore an interleaving of the calls of the tasks: a sequence that
    keeps the order of each task and is otherwise arbitrary.  [merge] is that
    relation for two tasks and [interleavings] enumerates it; [interleaving]
    is the relation for any number of tasks and [interleaved] decides it.

    What the consumers get does not depend on the interleaving: the [i]-th
    [take] gets the [i]-th value put, whichever came first.  With two
    producers the consumers see an interleaving of the two sequences of
    values, the order of each producer kept; [many_to_many] is the same for
    any number of producers and of consumers.  With a task that closes the
    channel at any moment, a prefix of the values is delivered and every
    other consumer gets [CLOSED] ([close_any_time]; [close_among_many] for
    any number of producers and consumers). *)

From S2P Require Import Prelude JsMonad JsArray Promise Channel Invariant Trace History Properties.
Import Chan.

#[local] Existing Instance ideal.
#[local] Existing Instance inert.

(** [merge l1 l2 l]: [l] is an interleaving of [l1] and [l2]. *)
Inductive merge {A} : list A → list A → list A → Prop :=
| merge_nil : merge [] [] []
| merge_l x l1 l2 l : merge l1 l2 l → merge (x :: l1) l2 (x :: l)
| merge_r x l1 l2 l : merge l1 l2 l → merge l1 (x :: l2) (x :: l).

(** [interleaving ls l]: [l] is an interleaving of the sequences [ls], any
    number of them: its first element is the first element of one of them,
    and so on. *)
Inductive interleaving {A} : list (list A) → list A → Prop :=
| interleaving_nil ls : Forall (λ l, l = []) ls → interleaving ls []
| interleaving_cons i x l ls k :
    ls !! i = Some (x :: l) → interleaving (<[i := l]> ls) k → interleaving ls (x :: k).

(** All the interleavings of two sequences. *)
Fixpoint interleavings {A} (l1 : list A) : list A → list (list A) :=
  fix inner (l2 : list A) : list (list A) :=
    match l1, l2 with
    | [], _ => [l2]
    | _, [] => [l1]
    | x :: l1', y :: l2' =>
        ((x ::.) <$> interleavings l1' l2) ++ ((y ::.) <$> inner l2')
    end.

(** Whether a sequence is an interleaving of the sequences [ls]: its first
    element is taken from the head of one of them, in every way. *)
Fixpoint interleaved `{EqDecision A} (ls : list (list A)) (l : list A) : bool :=
  match l with
  | [] => forallb (λ k, bool_decide (k = [])) ls
  | x :: l' =>
      existsb (λ i, match ls !! i with
                    | Some (y :: k) => bool_decide (x = y) && interleaved (<[i := k]> ls) l'
                    | _ => false
                    end) (seq 0 (length ls))
  end.

(** What the promise of the [i]-th take holds when the values [vs] have been
    accepted and the channel is still open. *)
Definition served {V} (vs : list (value V)) (i : nat) : pstate (value V) :=
  match vs !! i with
  | Some v => Fulfilled v
  | None => Pending
  end.

(** The same once the channel has been closed. *)
Definition served_closed {V} (vs : list (value V)) (i : nat) : pstate (value V) :=
  match vs !! i with
  | Some v => Fulfilled v
  | None => Fulfilled CLOSED
  end.

(** ** Interleavings *)

Section merge.
Context {A : Type}.
Implicit Types (x : A) (l k : list A).

Lemma merge_nil_l l : merge [] l l.
Proof. induction l; by constructor. Qed.

Lemma merge_nil_r l : merge l [] l.
Proof. induction l; by constructor. Qed.

Lemma merge_sym l1 l2 l : merge l1 l2 l → merge l2 l1 l.
Proof. induction 1; by constructor. Qed.

Lemma merge_app l1 l2 : merge l1 l2 (l1 ++ l2).
Proof. induction l1; simpl; [apply merge_nil_l | by constructor]. Qed.

Lemma merge_inv_nil_l l2 l : merge [] l2 l → l = l2.
Proof.
  revert l; induction l2 as [|y l2 IH]; intros l H; invert H; [done|].
  f_equal. by apply IH.
Qed.

Lemma merge_inv_nil_r l1 l : merge l1 [] l → l = l1.
Proof. intros H%merge_sym. by apply merge_inv_nil_l. Qed.

Lemma merge_length l1 l2 l : merge l1 l2 l → length l = length l1 + length l2.
Proof. induction 1; simpl; lia. Qed.

(** Each task's calls happen in the task's order. *)
Lemma merge_sublist_l l1 l2 l : merge l1 l2 l → sublist l1 l.
Proof. induction 1; by constructor. Qed.

Lemma merge_sublist_r l1 l2 l : merge l1 l2 l → sublist l2 l.
Proof. intros H%merge_sym. by eapply merge_sublist_l. Qed.

Lemma merge_Permutation l1 l2 l : merge l1 l2 l → l ≡ₚ l1 ++ l2.
Proof.
  induction 1 as [|x l1 l2 l _ IH|x l1 l2 l _ IH]; simpl; [done|by f_equiv|].
  rewrite IH. apply Permutation_middle.
Qed.

(** A single call, such as [close()], happens at some point of the other
    task's sequence. *)
Lemma merge_singleton l x k :
  merge l [x] k → ∃ l1 l2, l = l1 ++ l2 ∧ k = l1 ++ x :: l2.
Proof.
  revert k; induction l as [|y l IH]; intros k H; invert H.
  - match goal with H : merge [] [] _ |- _ => invert H end. by exists [], [].
  - match goal with H : merge _ [x] _ |- _ => apply IH in H as (l1 & l2 & -> & ->) end.
    by exists (y :: l1), l2.
  - match goal with H : merge _ [] _ |- _ => apply merge_inv_nil_r in H as -> end.
    by exists [], (y :: l).
Qed.

(** [interleavings] enumerates [merge]. *)
Lemma interleavings_cons x l1 y l2 :
  interleavings (x :: l1) (y :: l2) =
  ((x ::.) <$> interleavings l1 (y :: l2)) ++ ((y ::.) <$> interleavings (x :: l1) l2).
Proof. done. Qed.

Lemma interleavings_nil_l l : interleavings [] l = [l].
Proof. by destruct l. Qed.

Lemma interleavings_nil_r l : interleavings l [] = [l].
Proof. by destruct l. Qed.

Lemma elem_of_interleavings l1 l2 l : l ∈ interleavings l1 l2 ↔ merge l1 l2 l.
Proof.
  revert l2 l; induction l1 as [|x l1 IH1]; intros l2 l.
  { rewrite interleavings_nil_l, list_elem_of_singleton. split.
    - intros ->. apply merge_nil_l.
    - apply merge_inv_nil_l. }
  revert l; induction l2 as [|y l2 IH2]; intros l.
  { rewrite interleavings_nil_r, list_elem_of_singleton. split.
    - intros ->. apply merge_nil_r.
    - apply merge_inv_nil_r. }
  rewrite interleavings_cons, elem_of_app, !list_elem_of_fmap. split.
  - intros [(k & -> & Hk)|(k & -> & Hk)]; constructor; [by apply IH1 | by apply IH2].
  - intros H. invert H; [left | right]; eexists; (split; [done|]); [by apply IH1 | by apply IH2].
Qed.

(** For two sequences [interleaving] is [merge]. *)
Lemma interleaving_merge l1 l2 l : interleaving [l1; l2] l → merge l1 l2 l.
Proof.
  revert l1 l2; induction l as [|x l IH]; intros l1 l2 H; invert H.
  - match goal with H : Forall _ _ |- _ => invert H end.
    match goal with H : Forall _ _ |- _ => invert H end. constructor.
  - match goal with H : _ !! _ = Some _ |- _ => rename H into Hi end.
    destruct i as [|[|i]]; simplify_eq/=; constructor; by apply IH.
Qed.

Lemma merge_interleaving l1 l2 l : merge l1 l2 l → interleaving [l1; l2] l.
Proof.
  induction 1 as [|x l1 l2 l _ IH|x l1 l2 l _ IH].
  - constructor. by repeat constructor.
  - by apply (interleaving_cons 0 x l1).
  - by apply (interleaving_cons 1 x l2).
Qed.

(** Sequences that are empty take no part in an interleaving. *)
Lemma interleaving_app_nil (ls1 ls2 : list (list A)) l :
  Forall (λ k, k = []) ls1 → interleaving (ls1 ++ ls2) l → interleaving ls2 l.
Proof.
  intros Hnil Hi. remember (ls1 ++ ls2) as ls eqn:Hls. revert ls2 Hls.
  induction Hi as [ls Hall|i x k ls l Hi _ IH]; intros ls2 ->.
  - constructor. by apply Forall_app in Hall as [_ ?].
  - destruct (decide (i < length ls1)) as [Hlt|Hge].
    { rewrite lookup_app_l in Hi by done. by pose proof (Forall_lookup_1 _ _ _ _ Hnil Hi). }
    rewrite lookup_app_r in Hi by lia.
    apply (interleaving_cons (i - length ls1) x k); [done|].
    apply IH. by rewrite insert_app_r_alt by lia.
Qed.

Lemma interleaving_length (ls : list (list A)) l :
  interleaving ls l → length l = sum_list_with length ls.
Proof.
  induction 1 as [ls Hall|i x k ls l Hi _ IH]; simpl.
  - induction Hall as [|? ? -> _ IH]; simpl; [done|]. by rewrite <- IH.
  - pose proof (sum_list_with_insert length ls i (x :: k) k Hi). simpl in *. lia.
Qed.

(** Whether a sequence is an interleaving of two others can be computed. *)
#[export] Instance merge_dec `{EqDecision A} l1 l2 l : Decision (merge l1 l2 l).
Proof.
  refine (cast_if (decide (l ∈ interleavings l1 l2))); by rewrite <- elem_of_interleavings.
Defined.

(** [interleaved] decides [interleaving]. *)
Lemma interleaved_spec `{EqDecision A} (ls : list (list A)) l :
  interleaved ls l = true ↔ interleaving ls l.
Proof.
  revert ls; induction l as [|x l IH]; intros ls; simpl.
  { rewrite forallb_elem_of. setoid_rewrite bool_decide_eq_true. split.
    - intros Hall. constructor. by apply Forall_forall.
    - intros H. invert H. by apply Forall_forall. }
  rewrite existsb_elem_of. split.
  - intros (i & _ & Hi). destruct (ls !! i) as [[|y k]|] eqn:Hl; try done.
    apply andb_true_iff in Hi as [->%bool_decide_eq_true Hk%IH].
    by apply (interleaving_cons i y k).
  - intros H. invert H. exists i. split.
    + apply elem_of_seq. split; [lia|]. simpl. by eapply lookup_lt_Some.
    + match goal with Hi : ls !! i = Some _ |- _ => rewrite Hi end.
      rewrite bool_decide_true by done. by apply IH.
Qed.

#[export] Instance interleaving_dec `{EqDecision A} (ls : list (list A)) l :
  Decision (interleaving ls l).
Proof.
  refine (cast_if (decide (interleaved ls l = true))); by rewrite <- interleaved_spec.
Defined.

End merge.

(** ** What a channel accepts from concurrent tasks *)

Section accepted.
Context {V : Type}.
Implicit Types (v : value V) (vs ws : list (value V)) (cs : list (call V)).

Lemma ntakes_merge cs1 cs2 cs : merge cs1 cs2 cs → ntakes cs = ntakes cs1 + ntakes cs2.
Proof.
  induction 1 as [|c cs1 cs2 cs _ IH|c cs1 cs2 cs _ IH]; [done|..];
    rewrite !ntakes_cons, IH; lia.
Qed.

Lemma closes_merge cs1 cs2 cs : merge cs1 cs2 cs → closes cs = closes cs1 || closes cs2.
Proof.
  induction 1 as [|c cs1 cs2 cs _ IH|c cs1 cs2 cs _ IH]; [done|..];
    destruct c; simpl; rewrite ?IH, ?orb_true_r; done.
Qed.

(** While no task closes the channel, it accepts an interleaving of what the
    tasks put. *)
Lemma accepted_merge cs1 cs2 cs :
  closes cs1 = false → closes cs2 = false → merge cs1 cs2 cs →
  merge (accepted cs1) (accepted cs2) (accepted cs).
Proof.
  intros H1 H2 Hm. induction Hm as [|c cs1 cs2 cs _ IH|c cs1 cs2 cs _ IH];
    [constructor|..]; destruct c; simplify_eq/=; try constructor; auto.
Qed.

(** The same for any number of tasks: the channel accepts an interleaving
    of what they put, counts the takes of all, and is closed by none. *)
Lemma accepted_interleaving (css : list (list (call V))) cs :
  Forall (λ cs', closes cs' = false) css → interleaving css cs →
  interleaving (accepted <$> css) (accepted cs).
Proof.
  intros Hcl Hi. induction Hi as [css Hall|i c k css cs Hi _ IH].
  { constructor. apply Forall_fmap. eapply Forall_impl; [exact Hall|]. by intros ? ->. }
  pose proof (Forall_lookup_1 _ _ _ _ Hcl Hi) as Hc.
  assert (closes k = false) as Hk by by destruct c.
  specialize (IH (Forall_insert _ _ _ _ Hcl Hk)). rewrite list_fmap_insert in IH.
  destruct c as [v| |]; simplify_eq/=.
  - apply (interleaving_cons i v (accepted k)); [|done].
    by rewrite list_lookup_fmap, Hi.
  - rewrite list_insert_id in IH; [done|]. by rewrite list_lookup_fmap, Hi.
Qed.

Lemma closes_interleaving (css : list (list (call V))) cs :
  Forall (λ cs', closes cs' = false) css → interleaving css cs → closes cs = false.
Proof.
  intros Hcl Hi. induction Hi as [css Hall|i c k css cs Hi _ IH]; [done|].
  pose proof (Forall_lookup_1 _ _ _ _ Hcl Hi) as Hc.
  assert (closes k = false) as Hk by by destruct c.
  specialize (IH (Forall_insert _ _ _ _ Hcl Hk)). by destruct c.
Qed.

(** A task that closes the channel closes it in every interleaving. *)
Lemma closes_interleaving_elem (css : list (list (call V))) cs cs0 :
  interleaving css cs → cs0 ∈ css → closes cs0 = true → closes cs = true.
Proof.
  intros Hi. revert cs0. induction Hi as [css Hall|i c k css cs Hi _ IH]; intros cs0 Hin Hc.
  { rewrite Forall_forall in Hall. by rewrite (Hall _ Hin) in Hc. }
  destruct (closes [c]) eqn:Hcc; [by destruct c|].
  assert (∀ l, closes (c :: l) = closes l) as Hcl by (intros l; by destruct c).
  rewrite Hcl. apply list_elem_of_lookup_1 in Hin as [j Hj].
  destruct (decide (i = j)) as [->|Hij].
  - apply (IH k); [apply list_elem_of_lookup_2 with j, list_lookup_insert_eq;
      by eapply lookup_lt_Some|].
    simplify_eq. by rewrite Hcl in Hc.
  - apply (IH cs0); [|done]. apply list_elem_of_lookup_2 with j.
    by rewrite list_lookup_insert_ne.
Qed.

(** Whoever closes the channel, and when: what the channel accepts is an
    interleaving of first values of each task. *)
Lemma accepted_prefixes (css : list (list (call V))) cs :
  interleaving css cs →
  ∃ vss, Forall2 (λ vs cs', vs `prefix_of` accepted cs') vss css
         ∧ interleaving vss (accepted cs).
Proof.
  induction 1 as [css Hall|i c k css cs Hi _ (vss & Hpre & Hvs)].
  { exists (replicate (length css) []). split.
    - apply Forall2_replicate_l, Forall_true; [done|]. intros ?. apply prefix_nil.
    - constructor. by apply Forall_replicate. }
  destruct (Forall2_lookup_r _ _ _ i k Hpre) as (vs & Hvsi & Hp);
    [apply list_lookup_insert_eq; by eapply lookup_lt_Some|].
  rewrite <- (list_insert_undo css i (c :: k) k) by done. destruct c as [v| |]; simpl.
  - exists (<[i := v :: vs]> vss). split; [by apply Forall2_insert, prefix_cons|].
    apply (interleaving_cons i v vs); [apply list_lookup_insert_eq; by eapply lookup_lt_Some|].
    by rewrite list_insert_undo.
  - exists vss. split; [|done]. rewrite <- (list_insert_id vss i vs) by done.
    by apply Forall2_insert.
  - exists (replicate (length vss) []). split.
    + apply Forall2_replicate_l, Forall_true; [|intros ?; apply prefix_nil].
      rewrite length_insert. symmetry. by eapply Forall2_length.
    + constructor. by apply Forall_replicate.
Qed.

Lemma ntakes_interleaving (css : list (list (call V))) cs :
  interleaving css cs → ntakes cs = sum_list_with ntakes css.
Proof.
  induction 1 as [css Hall|i c k css cs Hi _ IH].
  - induction Hall as [|? ? -> _ IH]; simpl; [done|]. by rewrite <- IH.
  - pose proof (sum_list_with_insert ntakes css i (c :: k) k Hi) as Hs.
    rewrite !ntakes_cons in *. lia.
Qed.

Lemma ntakes_consumers (ns : list nat) :
  sum_list_with ntakes (takes (V:=V) <$> ns) = sum_list ns.
Proof.
  induction ns as [|n ns IH]; [done|]. rewrite fmap_cons. simpl. by rewrite ntakes_takes, IH.
Qed.

(** Tasks that put nothing and close nothing, beside producers: the channel
    accepts an interleaving of the values of the producers, is not closed,
    and has been asked as many times as these tasks took. *)
Lemma consumers_producers (css : list (list (call V))) (vss : list (list (value V))) cs :
  Forall (λ cs', closes cs' = false ∧ accepted cs' = []) css →
  interleaving (css ++ (puts <$> vss)) cs →
  interleaving vss (accepted cs) ∧ closes cs = false
  ∧ ntakes cs = sum_list_with ntakes css.
Proof.
  intros Hcss Hi.
  assert (Forall (λ cs', closes cs' = false) (css ++ (puts <$> vss))) as Hcl.
  { apply Forall_app. split; [by eapply Forall_impl; [done|intros ? [? _]]|].
    apply Forall_fmap, Forall_true. intros ?. apply closes_puts. }
  pose proof (accepted_interleaving _ _ Hcl Hi) as Ha.
  rewrite fmap_app, <- list_fmap_compose in Ha. apply interleaving_app_nil in Ha; cycle 1.
  { apply Forall_fmap. by eapply Forall_impl; [done|intros ? [_ ?]]. }
  rewrite (list_fmap_ext _ id vss) in Ha by (intros; apply accepted_puts).
  rewrite list_fmap_id in Ha. split_all; [done|by eapply closes_interleaving|].
  rewrite (ntakes_interleaving _ _ Hi), sum_list_with_app.
  rewrite (sum_list_with_0 _ (puts <$> vss)); [lia|].
  apply Forall_fmap, Forall_true. intros ?. apply ntakes_puts.
Qed.

Lemma accepted_app cs cs' :
  closes cs = false → accepted (cs ++ cs') = accepted cs ++ accepted cs'.
Proof.
  induction cs as [|[v| |] cs IH]; intros Hc; simplify_eq/=; by rewrite ?IH.
Qed.

(** Calls that are the first of [n] takes: they close nothing, put nothing,
    and are at most [n]. *)
Lemma takes_prefix (cs : list (call V)) n :
  cs `prefix_of` takes n → closes cs = false ∧ accepted cs = [] ∧ ntakes cs ≤ n.
Proof.
  intros [cs' Hcs]. pose proof (f_equal closes Hcs) as Hcl.
  pose proof (f_equal ntakes Hcs) as Hnt.
  autorewrite with queue in Hcl, Hnt. symmetry in Hcl. apply orb_false_elim in Hcl as [Hcl _].
  pose proof (f_equal accepted Hcs) as Hacc.
  rewrite accepted_app, accepted_only_takes in Hacc by done. symmetry in Hacc.
  apply app_eq_nil in Hacc as [Hacc _]. split_all; [done..|lia].
Qed.

(** Takes put nothing. *)
Lemma accepted_merge_takes cs n cs' :
  closes cs = false → merge cs (takes n) cs' → accepted cs' = accepted cs.
Proof.
  intros Hc Hm. apply (accepted_merge _ _ _ Hc (closes_takes n)) in Hm.
  rewrite accepted_only_takes in Hm. by apply merge_inv_nil_r.
Qed.

Lemma served_delivered cs i : closes cs = false → delivered cs i = served (accepted cs) i.
Proof. intros Hc. unfold delivered, served. by rewrite Hc. Qed.

Lemma served_closed_delivered cs i :
  closes cs = true → delivered cs i = served_closed (accepted cs) i.
Proof. intros Hc. unfold delivered, served_closed. by rewrite Hc. Qed.

End accepted.

(** ** The guarantees under every schedule *)

Section schedules.
Context {V : Type} (h0 : heap (value V)).
Implicit Types (v : value V) (vs ws : list (value V)) (cs : list (call V)) (i n : nat).

(** One producer, one consumer: whatever the interleaving of
    [put(v1), ..., put(vk)] with [n] takes, the [i]-th take gets the [i]-th
    value, and waits if there is none. *)
Theorem schedule_independent vs n cs i :
  merge (puts vs) (takes n) cs → i < n →
  promises (final cs (createChannel h0)) !! (length h0 + i) = Some (served vs i).
Proof.
  intros Hm Hi. pose proof (ntakes_merge _ _ _ Hm) as Hn.
  pose proof (closes_merge _ _ _ Hm) as Hc.
  pose proof (accepted_merge_takes _ _ _ (closes_puts vs) Hm) as Ha.
  autorewrite with queue in Hn, Hc, Ha. simpl in Hc.
  rewrite take_gets by lia. by rewrite served_delivered, Ha.
Qed.

(** Two producers: the consumers see an interleaving of the values of the
    two, the order of each producer kept. *)
Theorem producers_keep_order vs1 vs2 ps n cs :
  merge (puts vs1) (puts vs2) ps → merge ps (takes n) cs →
  ∃ ws, merge vs1 vs2 ws ∧
    ∀ i, i < n →
      promises (final cs (createChannel h0)) !! (length h0 + i) = Some (served ws i).
Proof.
  intros Hp Hm. pose proof (closes_merge _ _ _ Hp) as Hcp.
  rewrite !closes_puts in Hcp. simpl in Hcp.
  pose proof (accepted_merge _ _ _ (closes_puts vs1) (closes_puts vs2) Hp) as Hws.
  rewrite !accepted_puts in Hws. exists (accepted ps). split; [done|]. intros i Hi.
  pose proof (ntakes_merge _ _ _ Hm) as Hn. pose proof (closes_merge _ _ _ Hm) as Hc.
  pose proof (ntakes_merge _ _ _ Hp) as Hnp.
  autorewrite with queue in Hn, Hc, Hnp. rewrite Hcp in Hc. simpl in Hc.
  rewrite take_gets by lia.
  by rewrite served_delivered, (accepted_merge_takes ps n cs).
Qed.

(** Consumers that have made some of their takes, beside producers that
    have put values enough for all the takes: every promise that a [take]
    returned is fulfilled, with the value at its place in an interleaving
    of the values of the producers. *)
Lemma consumers_served (css : list (list (call V))) ns vss cs :
  Forall2 (λ cs' n, cs' `prefix_of` takes n) css ns →
  sum_list ns ≤ sum_list_with length vss →
  interleaving (css ++ (puts <$> vss)) cs →
  interleaving vss (accepted cs)
  ∧ ∀ i, i < ntakes cs →
      ∃ v, accepted cs !! i = Some v
           ∧ promises (final cs (createChannel h0)) !! (length h0 + i) = Some (Fulfilled v).
Proof.
  intros Hpre Hsum Hi.
  assert (Forall (λ cs', closes cs' = false ∧ accepted cs' = []) css) as Hcss.
  { eapply Forall2_Forall_l; [exact Hpre|]. apply Forall_true.
    intros n cs' (? & ? & _)%takes_prefix. by split. }
  destruct (consumers_producers _ _ _ Hcss Hi) as (Hws & Hc & Hn).
  split; [done|]. intros i Hlt.
  assert (ntakes cs ≤ length (accepted cs)) as Hle.
  { rewrite Hn, (interleaving_length _ _ Hws). etrans; [|exact Hsum].
    apply (sum_list_with_Forall2 ntakes id). eapply Forall2_impl; [exact Hpre|].
    by intros cs' n (_ & _ & ?)%takes_prefix. }
  destruct (lookup_lt_is_Some_2 (accepted cs) i) as [v Hv]; [lia|].
  exists v. split; [done|]. rewrite take_gets, served_delivered by done.
  unfold served. by rewrite Hv.
Qed.

(** C12: Any number of consumers and of producers: whatever the interleaving of
    their calls, the consumers are served in the order of their takes, with
    the values of the producers in an order that keeps the order of each. *)
Theorem many_to_many (vss : list (list (value V))) (ns : list nat) cs :
  interleaving ((takes <$> ns) ++ (puts <$> vss)) cs →
  ∃ ws, interleaving vss ws ∧
    ∀ i, i < sum_list ns →
      promises (final cs (createChannel h0)) !! (length h0 + i) = Some (served ws i).
Proof.
  intros Hi. apply consumers_producers in Hi as (Hws & Hc & Hn).
  - exists (accepted cs). split; [done|]. intros i Hlt.
    rewrite take_gets, served_delivered; [done..|]. by rewrite Hn, ntakes_consumers.
  - apply Forall_fmap, Forall_true. intros n. simpl. by rewrite closes_takes, accepted_only_takes.
Qed.

(** A task that closes the channel at any moment: a prefix of the values is
    delivered, in order, and every other take gets [CLOSED]; no take is left
    waiting. *)
Theorem close_any_time vs n cs0 cs :
  merge (puts vs) (takes n) cs0 → merge cs0 [Close] cs →
  ∃ k, k ≤ length vs ∧
    ∀ i, i < n →
      promises (final cs (createChannel h0)) !! (length h0 + i)
      = Some (served_closed (firstn k vs) i).
Proof.
  intros Hm (cs1 & cs2 & -> & ->)%merge_singleton.
  pose proof (closes_merge _ _ _ Hm) as Hc. pose proof (ntakes_merge _ _ _ Hm) as Hn.
  pose proof (accepted_merge_takes _ _ _ (closes_puts vs) Hm) as Ha.
  autorewrite with queue in Hn, Hc, Ha. simpl in Hc.
  apply orb_false_elim in Hc as [Hc1 _]. rewrite accepted_app in Ha by done.
  exists (length (accepted cs1)). split.
  { rewrite <- Ha, length_app. lia. }
  intros i Hi. rewrite take_gets by (autorewrite with queue; simpl; lia).
  rewrite served_closed_delivered, accepted_app_close by apply closes_app_close.
  by rewrite <- Ha, take_app_length.
Qed.

(** C22: Many producers, many consumers and a task that closes the channel at
    any moment: the consumers get, in the order of their takes, an
    interleaving of first values of each producer, and [CLOSED] after them;
    no take is left waiting. *)
Theorem close_among_many (vss : list (list (value V))) (ns : list nat) cs :
  interleaving ([Close] :: (takes <$> ns) ++ (puts <$> vss)) cs →
  ∃ vss' ws, Forall2 prefix vss' vss ∧ interleaving vss' ws ∧
    ∀ i, i < sum_list ns →
      promises (final cs (createChannel h0)) !! (length h0 + i)
      = Some (served_closed ws i).
Proof.
  intros Hi. destruct (accepted_prefixes _ _ Hi) as (wss & Hpre & Hws).
  apply (Forall2_app_inv_r _ _ [_]) in Hpre as (l1 & l & Hl1 & Hl & ->).
  apply Forall2_app_inv_r in Hl as (l2 & l3 & Hl2 & Hl3 & ->).
  rewrite app_assoc in Hws. apply interleaving_app_nil in Hws; cycle 1.
  { apply Forall_app. split; (eapply Forall2_Forall_l; [done|]).
    - repeat constructor. by intros vs ?%prefix_nil_inv.
    - apply Forall_fmap, Forall_true. intros n vs. simpl.
      rewrite accepted_only_takes. apply prefix_nil_inv. }
  exists l3, (accepted cs). split_all; [|done|].
  - eapply Forall2_impl; [exact (proj1 (Forall2_fmap_r _ _ _ _) Hl3)|]. simpl.
    intros vs' vs. by rewrite accepted_puts.
  - intros i Hlt. pose proof (ntakes_interleaving _ _ Hi) as Hn. simpl in Hn.
    rewrite sum_list_with_app, ntakes_consumers in Hn.
    rewrite (sum_list_with_0 _ (puts <$> vss)) in Hn
      by (apply Forall_fmap, Forall_true; intros ?; apply ntakes_puts).
    rewrite take_gets, served_closed_delivered; [done| |lia].
    apply (closes_interleaving_elem _ _ [Close] Hi); [by left|done].
Qed.

End schedules.

(** ** The theorems at concrete inputs *)

Lemma schedule_independent_witness :
  merge (puts [payload 1; payload 2]) (takes 2) [Take; Put (payload 1); Take; Put (payload 2)]
  ∧ promises (final [Take; Put (payload 1); Take; Put (payload 2)] (createChannel [])) !! 1
    = Some (Fulfilled (payload 2)).
Proof.
  assert (merge (puts [payload 1; payload 2]) (takes 2)
            [Take; Put (payload 1); Take; Put (payload 2)]) as Hm.
  { apply (bool_decide_unpack _). by vm_compute. }
  split; [exact Hm|]. apply (schedule_independent [] _ _ _ 1 Hm). lia.
Defined.

Lemma producers_keep_order_witness :
  merge (puts [payload 1; payload 2]) (puts [payload 3]) (puts [payload 1; payload 3; payload 2])
  ∧ ∃ ws, merge [payload 1; payload 2] [payload 3] ws ∧
      ∀ i, i < 1 →
        promises (final (Take :: puts [payload 1; payload 3; payload 2]) (createChannel []))
          !! i = Some (served ws i).
Proof.
  assert (merge (puts [payload 1; payload 2]) (puts [payload 3])
            (puts [payload 1; payload 3; payload 2])) as Hp.
  { repeat constructor. }
  split; [exact Hp|].
  apply (producers_keep_order [] _ _ _ 1 _ Hp). apply merge_r, merge_nil_r.
Defined.

Lemma many_to_many_witness :
  interleaving ((takes <$> [1; 1]) ++ (puts <$> [[payload 1; payload 2]; [payload 3]]))
    [Take; Put (payload 1); Put (payload 3); Take; Put (payload 2)]
  ∧ ∃ ws, interleaving [[payload 1; payload 2]; [payload 3]] ws ∧
      ∀ i, i < 2 →
        promises (final [Take; Put (payload 1); Put (payload 3); Take; Put (payload 2)]
                    (createChannel [])) !! i = Some (served ws i).
Proof.
  assert (interleaving ((takes <$> [1; 1]) ++ (puts <$> [[payload 1; payload 2]; [payload 3]]))
            [Take; Put (payload 1); Put (payload 3); Take; Put (payload 2)]) as Hi.
  { apply (bool_decide_unpack _). by vm_compute. }
  split; [exact Hi|]. apply (many_to_many [] _ _ _ Hi).
Defined.

Lemma close_among_many_witness :
  interleaving ([Close] :: (takes <$> [1; 1]) ++ (puts <$> [[payload 1; payload 2]; [payload 3]]))
    [Put (payload 1); Take; Put (payload 3); Close; Take; Put (payload 2)]
  ∧ ∃ vss' ws, Forall2 prefix vss' [[payload 1; payload 2]; [payload 3]]
      ∧ interleaving vss' ws
      ∧ ∀ i, i < 2 →
          promises (final [Put (payload 1); Take; Put (payload 3); Close; Take; Put (payload 2)]
                      (createChannel [])) !! i = Some (served_closed ws i).
Proof.
  assert (interleaving
            ([Close] :: (takes <$> [1; 1]) ++ (puts <$> [[payload 1; payload 2]; [payload 3]]))
            [Put (payload 1); Take; Put (payload 3); Close; Take; Put (payload 2)]) as Hi.
  { apply (bool_decide_unpack _). by vm_compute. }
  split; [exact Hi|]. apply (close_among_many [] _ _ _ Hi).
Defined.

Lemma close_any_time_witness :
  merge (puts [payload 1; payload 2]) (takes 2) [Put (payload 1); Take; Take; Put (payload 2)]
  ∧ ∃ k, k ≤ 2 ∧
      ∀ i, i < 2 →
        promises (final [Put (payload 1); Take; Take; Close; Put (payload 2)] (createChannel []))
          !! i = Some (served_closed (firstn k [payload 1; payload 2]) i).
Proof.
  assert (merge (puts [payload 1; payload 2]) (takes 2)
            [Put (payload 1); Take; Take; Put (payload 2)]) as Hm.
  { repeat constructor. }
  split; [exact Hm|].
  apply (close_any_time [] _ _ _ _ Hm). repeat constructor.
Defined.
