(* ===== verification/World.v ===== *)
(** * World: several channels in one heap

    Every call of [createChannel] makes a new closure with its own
    [isClosed], [messageQueue] and [resolveQueue]; the handle it returns acts
    on that closure.  The promises of all the channels live in the one heap of
    the program.  A [world] is the list of the closures made so far and the
    heap; a handle is the index of its closure; [on c m] runs an operation of
    the channel [c] on its closure and the shared heap.

    Theorems: the channels of a world stay well formed and never wait on each
    other's promises ([wwf]); a call on one channel leaves the variables and
    the waiting consumers of every other channel as they were; and the flag,
    the buffer and the number of waiting consumers of a channel evolve as if
    the channel were alone, whatever is done to the others. *)

From S2P Require Import Prelude JsMonad JsArray Promise Channel Invariant Trace.
Import Chan.

#[local] Existing Instance ideal.
#[local] Existing Instance inert.

#[local] Open Scope js_scope.

Module World.

(** The variables one call of [createChannel] closes over. *)
Record closure (V : Type) : Type := Closure {
  c_isClosed : bool;
  c_messageQueue : list (value V);
  c_resolveQueue : list resolver;
}.
Arguments Closure {V} _ _ _.
Arguments c_isClosed {V} _.
Arguments c_messageQueue {V} _.
Arguments c_resolveQueue {V} _.

Record world (V : Type) : Type := World {
  closures : list (closure V);
  store : heap (value V);
}.
Arguments World {V} _ _.
Arguments closures {V} _.
Arguments store {V} _.

(** A handle is the index of the closure its methods act on. *)
Abbreviation handle := nat (only parsing).

(** A call in a world: [createChannel()], or a method call on a handle. *)
Inductive wcall (V : Type) : Type :=
| New
| On (c : handle) (k : call V).
Arguments New {V}.
Arguments On {V} c k.

Inductive wret : Type :=
| RHandle (c : handle)
| RCall (r : ret).

Section ops.
Context {V : Type}.

(** The state a method of a closure runs in, and the closure it leaves. *)
Definition enter (x : closure V) (h : heap (value V)) : state V :=
  State (c_isClosed x) (c_messageQueue x) (c_resolveQueue x) h.

Definition leave (s : state V) : closure V :=
  Closure (isClosed s) (messageQueue s) (resolveQueue s).

Definition createChannel : js (world V) handle := λ w,
  (Ret (length (closures w)),
   World (closures w ++ [leave (Chan.createChannel (store w))]) (store w)).

(** A method of the handle [c].  Calling a method of what is not a handle is a
    [TypeError]. *)
Definition on {A} (c : handle) (m : js (state V) A) : js (world V) A := λ w,
  match closures w !! c with
  | Some x =>
      let '(r, s) := m (enter x (store w)) in
      (r, World (<[c := leave s]> (closures w)) (promises s))
  | None => (Throw TypeError, w)
  end.

Definition wexec {T : Thenable (value V)} (k : wcall V) : js (world V) wret :=
  match k with
  | New => c ← createChannel; mret (RHandle c)
  | On c k' => r ← on c (exec (T:=T) k'); mret (RCall r)
  end.

(** The world after a sequence of calls. *)
Definition wfinal {T : Thenable (value V)} (ks : list (wcall V)) (w : world V) : world V :=
  foldl (λ w' k, after (wexec (T:=T) k) w') w ks.

(** The calls of a sequence that are made on the channel [c]. *)
Definition calls_on (c : handle) (ks : list (wcall V)) : list (call V) :=
  omap (λ k, match k with
             | On d k' => if decide (d = c) then Some k' else None
             | New => None
             end) ks.

(** What decides the branch an operation takes: the flag, the buffer and the
    number of waiting consumers. *)
Definition shape (s : state V) : bool * list (value V) * nat :=
  (isClosed s, messageQueue s, length (resolveQueue s)).

(** The same machine on shapes alone: what a call does to the flag, the
    buffer and the number of waiting consumers. *)
Definition shape_step (k : call V) (sh : bool * list (value V) * nat)
    : bool * list (value V) * nat :=
  let '(closed, mq, n) := sh in
  match k with
  | Put v =>
      if closed then sh
      else match n with
           | S n' => (false, mq, n')
           | 0 => (false, mq ++ [v], 0)
           end
  | Take =>
      match mq with
      | _ :: mq' => (closed, mq', n)
      | [] => if closed then sh else (false, [], S n)
      end
  | Close => (true, mq, n)
  end.

(** A world is well formed when each channel is, in the shared heap, and no
    promise waits in the queues of two channels. *)
Record wwf (w : world V) : Prop := Wwf {
  wwf_chan c x : closures w !! c = Some x → wf (enter x (store w)) = true;
  wwf_disj c d x y p :
    c ≠ d → closures w !! c = Some x → closures w !! d = Some y →
    p ∈ c_resolveQueue x → p ∉ c_resolveQueue y;
}.

End ops.

(** ** What a call changes in the heap *)

Section frame.
Context {V : Type}.
Implicit Types (s : state V) (k : call V) (p : promise) (x y : closure V)
  (h : heap (value V)).

Lemma enter_leave s : enter (leave s) (promises s) = s.
Proof. by destruct s. Qed.

Lemma leave_enter x h : leave (enter x h) = x.
Proof. by destruct x. Qed.

(** The promises a channel waits on exist. *)
Lemma wf_resolveQueue_lt s p :
  wf s = true → p ∈ resolveQueue s → p < length (promises s).
Proof.
  intros (_ & Hall & _)%wf_spec Hp. apply Hall in Hp.
  destruct (isClosed s); eauto using settled_in_lt, pending_in_lt.
Qed.

(** A channel stays well formed while the heap evolves, if the promises it
    waits on are left alone. *)
Lemma wf_heap x h h' :
  wf (enter x h) = true → heap_le h h' →
  (∀ p, p ∈ c_resolveQueue x → h' !! p = h !! p) →
  wf (enter x h') = true.
Proof.
  intros (Hex & Hall & Hnd)%wf_spec Hle Hsame. apply wf_spec. simpl in *.
  split_all; [done| |done]. intros p Hp. specialize (Hall p Hp).
  destruct (c_isClosed x).
  - by eapply settled_in_le.
  - unfold pending_in in *. by rewrite Hsame.
Qed.

End frame.

(** ** One call in a world *)

Section any_values.
Context {V : Type} {T : Thenable (value V)}.
Implicit Types (w : world V) (c d : handle) (k : call V) (x y : closure V)
  (p : promise).

Lemma on_run {A} c (m : js (state V) A) w x :
  closures w !! c = Some x →
  on c m w =
  (result m (enter x (store w)),
   World (<[c := leave (after m (enter x (store w)))]> (closures w))
     (promises (after m (enter x (store w))))).
Proof. intros Hc. unfold on, after, result. rewrite Hc. by destruct (m _). Qed.

Lemma on_undefined {A} c (m : js (state V) A) w :
  closures w !! c = None → on c m w = (Throw TypeError, w).
Proof. intros Hc. unfold on. by rewrite Hc. Qed.

Lemma after_wexec_on c k w x :
  closures w !! c = Some x →
  after (wexec (T:=T) (On c k)) w =
  World (<[c := leave (after (exec (T:=T) k) (enter x (store w)))]> (closures w))
    (promises (after (exec (T:=T) k) (enter x (store w)))).
Proof.
  intros Hc. etrans; [apply after_andthen_ret|]. unfold after at 1.
  by rewrite (on_run _ _ _ x).
Qed.

Lemma after_wexec_undefined c k w :
  closures w !! c = None → after (wexec (T:=T) (On c k)) w = w.
Proof.
  intros Hc. etrans; [apply after_andthen_ret|]. unfold after.
  by rewrite on_undefined.
Qed.

Lemma after_wexec_new w :
  after (wexec (T:=T) New) w = World (closures w ++ [Closure false [] []]) (store w).
Proof. done. Qed.

Lemma wfinal_cons (k : wcall V) ks w :
  wfinal (T:=T) (k :: ks) w = wfinal ks (after (wexec k) w).
Proof. done. Qed.

End any_values.

Section call.
Context {V : Type}.
Implicit Types (w : world V) (c d : handle) (k : call V) (x y : closure V)
  (p : promise).

(** A call on a handle that exists does not throw. *)
Lemma wexec_on_returns c k w :
  is_Some (closures w !! c) → returns (wexec (On c k)) w = true.
Proof.
  intros [x Hx]. unfold returns, result. simpl. js_unfold.
  rewrite (on_run _ _ _ x) by done. unfold result.
  by rewrite (proj2 (exec_step k _)).
Qed.

(** The shape of the state after a call is a function of the shape before. *)
Lemma shape_exec k (s : state V) : shape (after (exec k) s) = shape_step k (shape s).
Proof.
  rewrite after_exec. unfold after, shape. destruct k as [v| |]; simpl.
  - destruct (isClosed s) eqn:Hc; [rewrite put_closed by done; simpl; by rewrite Hc|].
    destruct (resolveQueue s) as [|r rq] eqn:Hrq; [by rewrite put_buffer|].
    by rewrite (put_handoff _ _ r rq).
  - destruct (messageQueue s) as [|v mq] eqn:Hmq; [destruct (isClosed s) eqn:Hc|].
    + rewrite take_closed_drained by done. simpl. by rewrite ?Hmq.
    + rewrite take_pending by done. simpl. rewrite length_app. simpl.
      do 2 f_equal. lia.
    + by rewrite (take_buffered _ v mq).
  - destruct (isClosed s) eqn:Hc; [rewrite close_closed by done; simpl; by rewrite Hc|].
    by rewrite close_open.
Qed.

Lemma final_shape (cs : list (call V)) (s1 s2 : state V) :
  shape s1 = shape s2 → shape (final cs s1) = shape (final cs s2).
Proof.
  revert s1 s2; induction cs as [|k cs IH]; intros s1 s2 Hs; [done|].
  simpl. apply IH. by rewrite !shape_exec, Hs.
Qed.

Lemma calls_on_new c (ks : list (wcall V)) : calls_on c (New :: ks) = calls_on c ks.
Proof. done. Qed.

Lemma calls_on_same c k (ks : list (wcall V)) :
  calls_on c (On c k :: ks) = k :: calls_on c ks.
Proof. unfold calls_on. simpl. by rewrite decide_True. Qed.

Lemma calls_on_other c d k (ks : list (wcall V)) :
  d ≠ c → calls_on c (On d k :: ks) = calls_on c ks.
Proof. intros. unfold calls_on. simpl. by rewrite decide_False. Qed.

End call.

(** ** The invariant of a world *)

Section invariant.
Context {V : Type}.
Implicit Types (w : world V) (c d : handle) (k : call V) (x y : closure V)
  (p : promise).

Lemma empty_wwf (h : heap (value V)) : wwf (World [] h).
Proof. split; intros *; simpl; by rewrite ?lookup_nil. Qed.

Lemma createChannel_wwf w : wwf w → wwf (after (wexec New) w).
Proof.
  intros [Hchan Hdisj]. rewrite after_wexec_new. split; simpl.
  - intros c x [Hx|[_ [_ <-]%list_lookup_singleton_Some]]%lookup_app_Some; eauto.
  - intros c d x y p Hne
      [Hx|[_ [_ <-]%list_lookup_singleton_Some]]%lookup_app_Some
      [Hy|[_ [_ <-]%list_lookup_singleton_Some]]%lookup_app_Some;
      simpl; eauto using not_elem_of_nil; by intros ?%elem_of_nil.
Qed.

(** What a call on [c] leaves of a channel [d] other than [c]: its closure,
    and the promises it waits on. *)
Lemma on_other c d k w x y p :
  wwf w → c ≠ d → closures w !! c = Some x → closures w !! d = Some y →
  p ∈ c_resolveQueue y →
  promises (after (exec k) (enter x (store w))) !! p = store w !! p.
Proof.
  intros [Hchan Hdisj] Hne Hx Hy Hp. apply (exec_frame k (enter x (store w))).
  - simpl. intros Hpx. by eapply (Hdisj c d x y p).
  - apply (wf_resolveQueue_lt (enter y (store w))); eauto.
Qed.

(** The promises the channel [c] waits on after a call are not those of
    another channel. *)
Lemma on_disjoint c d k w x y p :
  wwf w → c ≠ d → closures w !! c = Some x → closures w !! d = Some y →
  p ∈ resolveQueue (after (exec k) (enter x (store w))) → p ∉ c_resolveQueue y.
Proof.
  intros [Hchan Hdisj] Hne Hx Hy [Hp| ->]%exec_resolveQueue Hpy.
  - by eapply (Hdisj c d x y p).
  - apply (wf_resolveQueue_lt (enter y (store w))) in Hpy; eauto. simpl in Hpy. lia.
Qed.

Lemma on_wwf c k w : wwf w → wwf (after (wexec (On c k)) w).
Proof.
  intros Hw. destruct (closures w !! c) as [x|] eqn:Hx;
    [|by rewrite after_wexec_undefined].
  rewrite (after_wexec_on _ _ _ x) by done. pose proof Hw as [Hchan Hdisj].
  split; simpl.
  - intros d y [(<- & <- & _)|[Hne Hy]]%list_lookup_insert_Some.
    + rewrite enter_leave. apply exec_wf; eauto.
    + apply (wf_heap y (store w)); eauto using on_other.
      apply (exec_heap_le k (enter x (store w))).
  - intros c1 c2 y1 y2 p Hne
      [(<- & <- & _)|[Hne1 Hy1]]%list_lookup_insert_Some
      [(<- & <- & _)|[Hne2 Hy2]]%list_lookup_insert_Some; simpl; try done.
    + intros Hp. by eapply on_disjoint.
    + intros Hp1 Hp2. by eapply (on_disjoint c c1 k w x y1 p).
    + by apply (Hdisj c1 c2).
Qed.

Lemma wexec_wwf (k : wcall V) w : wwf w → wwf (after (wexec k) w).
Proof. destruct k; [apply createChannel_wwf | apply on_wwf]. Qed.

(** Every world a program can build is well formed. *)
Theorem wfinal_wwf (ks : list (wcall V)) w : wwf w → wwf (wfinal ks w).
Proof.
  revert w; induction ks as [|k ks IH]; intros w Hw; [done|].
  simpl. by apply IH, wexec_wwf.
Qed.

(** C37: Isolation: a call on a channel leaves every other channel as it was: its
    variables, and the state of every promise it waits on. *)
Theorem isolation c d k w y p :
  wwf w → c ≠ d → closures w !! d = Some y →
  closures (after (wexec (On c k)) w) !! d = Some y
  ∧ (p ∈ c_resolveQueue y → store (after (wexec (On c k)) w) !! p = store w !! p).
Proof.
  intros Hw Hne Hy. destruct (closures w !! c) as [x|] eqn:Hx;
    [|by rewrite after_wexec_undefined].
  rewrite (after_wexec_on _ _ _ x) by done. simpl. split.
  - by rewrite list_lookup_insert_ne.
  - intros Hp. by eapply on_other.
Qed.

(** [createChannel] returns a handle that was not in use, on an open and
    empty channel, and leaves the other channels and the heap as they are. *)
Theorem createChannel_fresh w :
  createChannel w = (Ret (length (closures w)), after createChannel w)
  ∧ closures (after createChannel w) !! length (closures w) = Some (Closure false [] [])
  ∧ (∀ d y, closures w !! d = Some y → closures (after createChannel w) !! d = Some y)
  ∧ store (after createChannel w) = store w.
Proof.
  split_all; try done.
  - apply lookup_snoc_length.
  - intros d y Hy. by apply lookup_app_l_Some.
Qed.

(** Each channel evolves as if it were alone: after any sequence of calls in
    a world, the flag, the buffer and the number of waiting consumers of a
    channel are those the calls made on that channel lead to, whatever was
    done to the other channels in between. *)
Theorem projection (ks : list (wcall V)) w c x :
  closures w !! c = Some x →
  ∃ y, closures (wfinal ks w) !! c = Some y
       ∧ shape (enter y (store (wfinal ks w)))
         = shape (final (calls_on c ks) (enter x (store w))).
Proof.
  revert w x; induction ks as [|[|d k] ks IH]; intros w x Hx; [by exists x|..];
    rewrite wfinal_cons.
  - rewrite calls_on_new, after_wexec_new.
    edestruct IH as (y & Hy & Hs); [|exists y; split; [exact Hy|by rewrite Hs]].
    simpl. by apply lookup_app_l_Some.
  - destruct (closures w !! d) as [z|] eqn:Hz.
    2:{ rewrite after_wexec_undefined, calls_on_other by congruence. by apply IH. }
    rewrite (after_wexec_on _ _ _ z) by done. destruct (decide (d = c)) as [->|Hne].
    + rewrite calls_on_same. simplify_eq.
      edestruct IH as (y & Hy & Hs); [|exists y; split; [exact Hy|rewrite Hs]].
      { simpl. apply list_lookup_insert_eq. by eapply lookup_lt_Some. }
      simpl store. by rewrite enter_leave.
    + rewrite calls_on_other by done.
      edestruct IH as (y & Hy & Hs); [|exists y; split; [exact Hy|rewrite Hs]].
      { simpl. rewrite list_lookup_insert_ne by done. exact Hx. }
      by apply final_shape.
Qed.

End invariant.
End World.

(** ** The theorems at concrete worlds *)

Lemma wfinal_wwf_witness :
  World.wwf (World.World (V:=nat) [] [])
  ∧ World.wwf (World.wfinal [World.New; World.On 0 Take; World.New; World.On 1 Take;
                             World.On 0 (Put (payload 1))] (World.World [] [])).
Proof.
  split; [apply World.empty_wwf|]. apply World.wfinal_wwf, World.empty_wwf.
Defined.

Lemma isolation_witness :
  World.wwf (World.World [World.Closure (V:=nat) false [] [0]; World.Closure false [] [1]]
               [Pending; Pending])
  ∧ World.store
      (after (World.wexec (World.On 0 (Put (payload 5))))
         (World.World [World.Closure false [] [0]; World.Closure false [] [1]]
            [Pending; Pending])) !! 1
    = Some Pending.
Proof.
  assert (World.wwf (World.World [World.Closure (V:=nat) false [] [0];
                                  World.Closure false [] [1]] [Pending; Pending])) as Hw.
  { exact (World.wexec_wwf (World.On 1 Take) _
             (World.wexec_wwf World.New _
                (World.wexec_wwf (World.On 0 Take) _
                   (World.wexec_wwf World.New _ (World.empty_wwf []))))). }
  split; [exact Hw|].
  refine (proj2 (World.isolation 0 1 (Put (payload 5)) _ (World.Closure false [] [1]) 1
                   Hw _ eq_refl) _); [lia | apply list_elem_of_here].
Defined.

Lemma projection_witness :
  World.closures (World.World [World.Closure (V:=nat) false [] []] []) !! 0
    = Some (World.Closure false [] [])
  ∧ ∃ y, World.closures
           (World.wfinal [World.On 0 (Put (payload 1)); World.New; World.On 1 Take;
                          World.On 0 Close]
              (World.World [World.Closure false [] []] [])) !! 0 = Some y
         ∧ World.c_isClosed y = true ∧ World.c_messageQueue y = [payload 1].
Proof.
  split; [reflexivity|].
  destruct (World.projection
              [World.On 0 (Put (payload 1)); World.New; World.On 1 Take; World.On 0 Close]
              (World.World [World.Closure (V:=nat) false [] []] []) 0
              (World.Closure false [] []) eq_refl) as (y & Hy & Hs).
  exists y. split; [exact Hy|]. by injection Hs.
Defined.
