(* ===== verification/Pipeline.v ===== *)
(** * Pipeline: promises handed from one channel to another

    A promise that a program puts is most often the promise of a [take] on
    another channel: the consumer of the first channel is to get what the
    second delivers.  This file runs the jobs of [Jobs] in a world of
    several channels ([World]).

    The world is a client of the job queue ([world_client]): its calls are
    [createChannel()] and the method calls on the handles, and the
    resolving functions it holds are those of the [resolveQueue] of every
    closure.  It keeps to the laws of a client ([world_laws]), each of
    which comes from the same fact of one channel, since a call in a world
    is a call of one channel on the shared heap.  The theorems of [Jobs]
    then hold of programs on several channels: [pipeline_delivers] is what
    the consumer at the end of a pipeline gets, and [pipeline_put] follows
    a datum from the [put] on the second channel to the consumer of the
    first. *)

From S2P Require Import Prelude JsMonad JsArray Promise Channel Invariant Trace Adoption.
From S2P Require Import Jobs World.
Import Chan World Micro.

#[local] Open Scope js_scope.
#[local] Existing Instance ideal.

(** The heap of a world. *)
Definition store_ {V} : lens (world V) (heap (value V)) :=
  Lens store (λ h w, World (closures w) h).

#[export] Instance store_laws {V} : LensLaws (store_ (V:=V)).
Proof. by split; [| intros [] |]. Qed.

#[export] Instance world_has_heap {V} : HasHeap (world V) (value V) :=
  {| heap_lens := store_ |}.

(** The resolving functions that the channels of a world hold. *)
Definition wwaiting {V} (w : world V) : list promise :=
  mjoin (c_resolveQueue <$> closures w).

(** A call in a world puts only a promise that exists. *)
Definition wknown {V} {T : Thenable (value V)} (k : wcall V) (w : world V) : bool :=
  match k with
  | On c k' => known k' (enter (Closure false [] []) (store w))
  | New => true
  end.

#[export] Instance world_client {V} {T : Thenable (value V)} :
    Client (world V) (wcall V) (value V) := {
  run k w := after (wexec k) w;
  waiting := wwaiting;
  known := wknown
}.

(** The producer hands the promise [q] to the channel [a]. *)
Definition hand {V} (a : handle) (q : promise) : event (wcall (item V)) :=
  Call (On a (Put (payload (Ref q)))).

(** ** The world is a client *)

Section client.
Context {V : Type} {T : Thenable (value V)} {L : Lawful T}.
Implicit Types (w : world V) (k : wcall V) (b : call V) (c : handle) (x : closure V)
  (h : heap (value V)) (p q : promise).

Lemma elem_of_wwaiting w c x p :
  closures w !! c = Some x → p ∈ c_resolveQueue x → p ∈ wwaiting w.
Proof.
  intros Hx Hp. apply list_elem_of_join. exists (c_resolveQueue x). split; [done|].
  apply list_elem_of_fmap. exists x. split; [done|]. by eapply list_elem_of_lookup_2.
Qed.

(** A call in a world is a call of one channel on the shared heap, or
    leaves the heap as it is. *)
Lemma store_wexec k w :
  store (after (wexec k) w) = store w
  ∨ ∃ c b x, k = On c b ∧ closures w !! c = Some x
              ∧ store (after (wexec k) w) = promises (after (exec b) (enter x (store w))).
Proof.
  destruct k as [|c b]; [by left|]. destruct (closures w !! c) as [x|] eqn:Hx.
  - right. exists c, b, x. by rewrite (after_wexec_on _ _ _ x).
  - left. by rewrite after_wexec_undefined.
Qed.

Lemma wexec_heap_le k w : heap_le (store w) (store (after (wexec k) w)).
Proof.
  destruct (store_wexec k w) as [->|(c & b & x & -> & Hx & ->)]; [done|].
  apply (exec_heap_le b (enter x (store w))).
Qed.

Lemma wexec_changes k w p st :
  store w !! p = Some st →
  store (after (wexec k) w) !! p = Some st ∨ (st = Pending ∧ p ∈ wwaiting w).
Proof.
  intros Hp. destruct (store_wexec k w) as [->|(c & b & x & -> & Hx & ->)]; [by left|].
  destruct (exec_changes b (enter x (store w)) p st Hp) as [Hp'|[-> Hin]]; [by left|].
  right. eauto using elem_of_wwaiting.
Qed.

Lemma wexec_follows k w p q :
  wknown k w = true → store (after (wexec k) w) !! p = Some (Following q) →
  store w !! p = Some (Following q)
  ∨ (store w !! p = Some Pending ∧ p ∈ wwaiting w ∧ q < length (store w)).
Proof.
  intros Hk Hp. destruct (store_wexec k w) as [He|(c & b & x & -> & Hx & He)];
    rewrite He in Hp; [by left|].
  destruct (exec_follows b (enter x (store w)) p q) as [Hq|(Hq & Hin & Hlt)];
    [by destruct b|done|by left|].
  right. split_and!; [done|by eapply elem_of_wwaiting|done].
Qed.

Lemma wexec_ahead k w h :
  ahead (store w) h →
  ∃ h', after (wexec k) (set_heap h w) = set_heap h' (after (wexec k) w)
        ∧ ahead (store (after (wexec k) w)) h'.
Proof.
  intros Ha. destruct k as [|c b]; [by exists h|].
  destruct (closures w !! c) as [x|] eqn:Hx; cycle 1.
  { exists h. by rewrite !after_wexec_undefined. }
  destruct (exec_ahead b (enter x (store w)) h Ha) as (h' & He & Ha').
  exists h'. rewrite !(after_wexec_on _ _ _ x) by done. split; [|done].
  change (enter x (store (set_heap h w))) with (set_heap h (enter x (store w))).
  by rewrite He.
Qed.

(** The heap after a method call in a world. *)
Lemma heap_perform_on (m : host (world V)) c b x :
  closures (body m) !! c = Some x →
  heap_of_host (perform (On c b) m) = promises (after (exec b) (enter x (store (body m)))).
Proof.
  intros Hx. unfold heap_of_host. rewrite body_perform.
  change (store (after (wexec (On c b)) (body m))
          = promises (after (exec b) (enter x (store (body m))))).
  by rewrite (after_wexec_on _ _ _ x).
Qed.

(** The world after a method call. *)
Lemma body_perform_on (m : host (world V)) c b x :
  closures (body m) !! c = Some x →
  body (perform (On c b) m)
  = World (<[c := leave (after (exec b) (enter x (store (body m))))]> (closures (body m)))
      (promises (after (exec b) (enter x (store (body m))))).
Proof. intros Hx. rewrite body_perform. by apply after_wexec_on. Qed.

#[export] Instance world_laws : ClientLaws (H0 := world_client).
Proof.
  split.
  - apply wexec_heap_le.
  - apply wexec_changes.
  - apply wexec_follows.
  - apply wexec_ahead.
Qed.

End client.

(** ** What the consumer at the end of a pipeline gets *)

#[local] Existing Instance native.

Section pipeline.
Context {V : Type}.
Implicit Types (m : host (world (item V))) (w : world (item V)) (a : handle)
  (x : closure (item V)) (p q r : promise) (es : list (event (wcall (item V)))).

(** The promise of the oldest consumer of a channel follows the promise
    that is put on the channel. *)
Lemma hand_follows m a x r rq q :
  closures (body m) !! a = Some x → c_isClosed x = false → c_resolveQueue x = r :: rq →
  store (body m) !! r = Some Pending → q ≠ r →
  follower r q (play1 (hand a q) m).
Proof.
  intros Hx Hc Hrq Hr Hne. left. unfold hand, play1.
  rewrite (heap_perform_on _ _ _ x), after_exec by done.
  unfold after. rewrite put_any. simpl. rewrite Hc, Hrq. simpl.
  unfold resolution. simpl. rewrite decide_False by done. by apply settle_pending.
Qed.

(** C31: A consumer of one channel that is handed the promise of a [take] on
    another gets what that channel delivers: whatever the program does on
    any channel after the promise was put, once that promise is settled
    and the jobs have run, the promise of the consumer holds the same
    state. *)
Theorem pipeline_delivers m a x r rq q es st :
  ok [] m → closures (body m) !! a = Some x →
  c_isClosed x = false → c_resolveQueue x = r :: rq →
  store (body m) !! r = Some Pending → q ≠ r →
  scoped (hand a q :: es) m = true →
  heap_of_host (settle_down (play (hand a q :: es) m)) !! q = Some st → settled st = true →
  heap_of_host (settle_down (play (hand a q :: es) m)) !! r = Some st.
Proof.
  intros Hok Hx Hc Hrq Hr Hne [Hk Hsc]%andb_true_iff.
  apply (follower_settles es (play1 (hand a q) m)); [|done|].
  - by apply perform_ok.
  - by eapply hand_follows.
Qed.

(** C21: The value that is put on the second channel reaches the consumer of
    the first: a consumer waits on each of two channels, the first is
    handed the promise of the second, and a datum is put on the second.
    Whatever the program does next, the first consumer holds the datum once
    the jobs have run. *)
Theorem pipeline_put m a b x y r rq q rq' (v : V) es :
  ok [] m → a ≠ b →
  closures (body m) !! a = Some x → c_isClosed x = false → c_resolveQueue x = r :: rq →
  closures (body m) !! b = Some y → c_isClosed y = false → c_resolveQueue y = q :: rq' →
  store (body m) !! r = Some Pending → store (body m) !! q = Some Pending → q ≠ r →
  scoped (hand a q :: Call (On b (Put (payload (Datum v)))) :: es) m = true →
  heap_of_host (settle_down
    (play (hand a q :: Call (On b (Put (payload (Datum v)))) :: es) m)) !! r
  = Some (Fulfilled (payload (Datum v))).
Proof.
  intros Hok Hab Hx Hcx Hrx Hy Hcy Hry Hr Hq Hne [Hk1 [Hk2 Hsc]%andb_true_iff]%andb_true_iff.
  pose proof (hand_follows m a x r rq q Hx Hcx Hrx Hr Hne) as Hf.
  set (m1 := play1 (hand a q) m) in *.
  assert (closures (body m1) !! b = Some y ∧ store (body m1) !! q = Some Pending)
    as [Hy1 Hq1].
  { unfold m1, hand, play1. rewrite (body_perform_on _ _ _ x) by done. cbn [closures store].
    rewrite list_lookup_insert_ne by done. split; [done|].
    rewrite after_exec. unfold after. rewrite put_any. simpl. rewrite Hcx, Hrx. simpl.
    by rewrite settle_other. }
  apply (follower_settles es (play1 (Call (On b (Put (payload (Datum v))))) m1) r q).
  - apply perform_ok; [by apply perform_ok|done].
  - done.
  - by apply perform_follower.
  - apply drain_settled; [|done]. apply play_settled; [|done]. unfold play1.
    rewrite (heap_perform_on _ _ _ y), after_exec by done.
    unfold after. rewrite put_any. simpl. rewrite Hcy, Hry. simpl.
    by apply settle_pending.
  - done.
Qed.

End pipeline.

(** ** A pipeline of two channels *)

(** Two channels are made and a consumer takes on each; the consumer of the
    first is handed the promise of the second, and a datum is put on the
    second. *)
Lemma pipeline_delivers_witness :
  heap_of_host (settle_down (play
    [hand 0 1; Tick; Call (On 1 (Put (payload (Datum 5))))]
    (Host (World (V:=item nat) [Closure false [] [0]; Closure false [] [1]] [Pending; Pending])
       [] []))) !! 0
  = Some (Fulfilled (payload (Datum 5))).
Proof.
  apply (pipeline_delivers
           (Host (World (V:=item nat) [Closure false [] [0]; Closure false [] [1]]
                    [Pending; Pending]) [] [])
           0 (Closure false [] [0]) 0 [] 1 [Tick; Call (On 1 (Put (payload (Datum 5))))]
           (Fulfilled (payload (Datum 5)))); try reflexivity; [|lia].
  assert (ok [] (play [Call New; Call New; Call (On 0 Take); Call (On 1 Take)]
                   (Host (World (V:=item nat) [] []) [] []))) as Hok; [|exact Hok].
  apply play_ok; [|reflexivity]. apply (start_ok (World [] [])). intros p q.
  unfold heap_of. simpl. by rewrite lookup_nil.
Defined.

(** The same program from the start, with the jobs run at other points:
    the promises are settled as [fate] says of the heap that the calls
    alone leave. *)
Example pipeline_fate :
  heap_of_host (settle_down (play
    [Call New; Call New; Call (On 0 Take); Call (On 1 Take); hand 0 1;
     Call (On 1 (Put (payload (Datum 5)))); Tick]
    (Host (World (V:=item nat) [] []) [] []))) !! 0 = Some (Fulfilled (payload (Datum 5)))
  ∧ fate (store (wfinal
      [New; New; On 0 Take; On 1 Take; On 0 (Put (payload (Ref 1)));
       On 1 (Put (payload (Datum 5)))] (World (V:=item nat) [] []))) 0
    = Fulfilled (payload (Datum 5)).
Proof. by vm_compute. Qed.

(** The pipeline of two channels, from the handing over on. *)
Lemma pipeline_put_witness :
  heap_of_host (settle_down (play
    [hand 0 1; Call (On 1 (Put (payload (Datum 5)))); Call (On 0 Close); Tick]
    (Host (World (V:=item nat) [Closure false [] [0]; Closure false [] [1]] [Pending; Pending])
       [] []))) !! 0
  = Some (Fulfilled (payload (Datum 5))).
Proof.
  apply (pipeline_put
           (Host (World (V:=item nat) [Closure false [] [0]; Closure false [] [1]]
                    [Pending; Pending]) [] [])
           0 1 (Closure false [] [0]) (Closure false [] [1]) 0 [] 1 [] 5
           [Call (On 0 Close); Tick]); try reflexivity; [|lia..].
  assert (ok [] (play [Call New; Call New; Call (On 0 Take); Call (On 1 Take)]
                   (Host (World (V:=item nat) [] []) [] []))) as Hok; [|exact Hok].
  apply play_ok; [|reflexivity]. apply (start_ok (World [] [])). intros p q.
  unfold heap_of. simpl. by rewrite lookup_nil.
Defined.
