(* ===== verification/Delivery.v ===== *)
(** * Delivery: what each channel of a world delivers

    [Properties] says what the takes of one channel get when the channel is
    alone; [World] says that the channels of a program share one heap of
    promises and do not disturb each other's variables.  This file puts the
    two together: in a world of several channels, used in any order, the
    [i]-th [take] on a channel gets the [i]-th value accepted by that
    channel, and [CLOSED] or nothing as for a channel that is alone.

    The promises of a channel are no longer consecutive cells of the heap,
    since the takes of the other channels allocate in between; [taken_on]
    collects those that the takes on one channel returned.  The [ledger] of
    [History] is made for that: every call of the channel keeps its ledger,
    and a call of another channel keeps it as well, since it settles only
    promises of its own [resolveQueue] ([wexec_ledger]).  Along any
    sequence of calls in a world the ledger of a channel records the calls
    made on that channel ([wfinal_ledger]), and [world_delivers] reads the
    state of its promises from it. *)

From S2P Require Import Prelude JsMonad JsArray Promise Channel Invariant Trace.
From S2P Require Import History Properties World.
Import Chan World.

#[local] Existing Instance ideal.
#[local] Existing Instance inert.

(** The promise that a call in a world returned from a [take] on the
    channel [c]. *)
Definition took {V} (c : handle) (k : wcall V) (w : world V) : list promise :=
  match k, result (wexec k) w with
  | On d _, Ret (RCall r) => if decide (d = c) then promise_of r else []
  | _, _ => []
  end.

(** The promises that the takes on the channel [c] returned along a sequence
    of calls, in order. *)
Fixpoint taken_on {V} (c : handle) (ks : list (wcall V)) (w : world V) : list promise :=
  match ks with
  | [] => []
  | k :: ks' => took c k w ++ taken_on c ks' (after (wexec k) w)
  end.

(** ** The channels of a world *)

Section world.
Context {V : Type}.
Implicit Types (a : hist V) (w : world V) (k : wcall V) (ks : list (wcall V))
  (c d : handle) (x y : closure V) (own : list promise).

(** A call on a handle answers as the operation does on the closure. *)
Lemma result_wexec_on c (k : call V) w x :
  closures w !! c = Some x →
  result (wexec (On c k)) w = Ret (RCall (answer k (enter x (store w)))).
Proof.
  intros Hx. unfold result. simpl. js_unfold. rewrite (on_run _ _ _ x) by done.
  unfold result. by rewrite (proj2 (exec_step k _)).
Qed.

Lemma took_on c d (k : call V) w x :
  closures w !! d = Some x →
  took c (On d k) w = if decide (d = c) then promise_of (answer k (enter x (store w))) else [].
Proof. intros Hx. unfold took. by rewrite (result_wexec_on _ _ _ x). Qed.

Lemma took_undefined c d (k : call V) w : closures w !! d = None → took c (On d k) w = [].
Proof.
  intros Hd. unfold took, result. simpl. js_unfold. by rewrite on_undefined.
Qed.

Lemma calls_on_cons c k ks : calls_on c (k :: ks) = calls_on c [k] ++ calls_on c ks.
Proof. unfold calls_on. simpl. by destruct k as [|d k']; [|case_decide]. Qed.

(** One call in a world keeps the ledger of every channel: the call is
    recorded in the ledger of the channel it is made on, and changes no
    other. *)
Lemma wexec_ledger k w c own a x :
  wwf w → closures w !! c = Some x → ledger own a (enter x (store w)) →
  ∃ y, closures (after (wexec k) w) !! c = Some y
       ∧ ledger (own ++ took c k w) (history (calls_on c [k]) a)
           (enter y (store (after (wexec k) w))).
Proof.
  intros Hw Hx Hl. destruct k as [|d k].
  { exists x. split; [by apply lookup_app_l_Some|]. by rewrite app_nil_r. }
  destruct (closures w !! d) as [z|] eqn:Hz; cycle 1.
  { rewrite after_wexec_undefined, took_undefined, calls_on_other, app_nil_r by congruence.
    by exists x. }
  rewrite (after_wexec_on _ _ _ z), (took_on _ _ _ _ z) by done.
  destruct (decide (d = c)) as [->|Hne]; simplify_eq.
  - eexists. split; [apply list_lookup_insert_eq; by eapply lookup_lt_Some|].
    simpl store. rewrite calls_on_same, enter_leave. by apply exec_ledger.
  - exists x. split; [simpl; by rewrite list_lookup_insert_ne|].
    simpl store. rewrite calls_on_other, app_nil_r by done.
    apply (ledger_heap own a (enter x (store w))); [done|apply (exec_heap_le k (enter z (store w)))|].
    intros p Hp. by eapply on_other.
Qed.

(** The ledger of a channel along any sequence of calls in a world: it
    records the calls made on the channel, and the promises its takes
    returned. *)
Lemma wfinal_ledger ks w c own a x :
  wwf w → closures w !! c = Some x → ledger own a (enter x (store w)) →
  ∃ y, closures (wfinal ks w) !! c = Some y
       ∧ ledger (own ++ taken_on c ks w) (history (calls_on c ks) a)
           (enter y (store (wfinal ks w))).
Proof.
  revert w own a x; induction ks as [|k ks IH]; intros w own a x Hw Hx Hl.
  { exists x. by rewrite app_nil_r. }
  destruct (wexec_ledger k w c own a x Hw Hx Hl) as (y & Hy & Hl').
  destruct (IH _ _ _ y (wexec_wwf k w Hw) Hy Hl') as (z & Hz & Hl'').
  exists z. rewrite wfinal_cons, calls_on_cons, history_app. simpl taken_on.
  by rewrite app_assoc.
Qed.

(** A new channel has an empty ledger. *)
Lemma new_ledger w :
  ledger [] hist0 (enter (Closure false [] []) (store (after (wexec New) w))).
Proof. apply createChannel_ledger. Qed.

(** The takes on a channel return as many promises as there were takes. *)
Theorem taken_on_length ks w :
  wwf w →
  length (taken_on (length (closures w)) ks (after (wexec New) w))
  = ntakes (calls_on (length (closures w)) ks).
Proof.
  intros Hw.
  destruct (wfinal_ledger ks (after (wexec New) w) (length (closures w)) [] hist0
              (Closure false [] [])) as (y & _ & Hl);
    [by apply wexec_wwf|apply lookup_snoc_length|apply new_ledger|].
  apply ledger_length in Hl. by rewrite taken_history in Hl.
Qed.

(** C19: Delivery in a world: a channel is created, and then any calls are made
    on it and on any other channels, old and new, in any order.  The
    promise that the [i]-th [take] on the channel returned holds what the
    channel delivers to its [i]-th take in the sequence of the calls made
    on it: the [i]-th value it accepted, or [CLOSED] if it was closed, and
    nothing yet if not. *)
Theorem world_delivers ks w i p :
  wwf w →
  taken_on (length (closures w)) ks (after (wexec New) w) !! i = Some p →
  store (wfinal (New :: ks) w) !! p
  = Some (delivered (calls_on (length (closures w)) ks) i).
Proof.
  intros Hw Hp.
  destruct (wfinal_ledger ks (after (wexec New) w) (length (closures w)) [] hist0
              (Closure false [] [])) as (y & _ & Hl);
    [by apply wexec_wwf|apply lookup_snoc_length|apply new_ledger|].
  rewrite <- outcome_delivered. by apply (ledger_takes _ _ _ Hl).
Qed.

End world.

(** ** The theorems at a concrete world *)

(** Two channels used in turn; the second take on the first channel comes
    after its [close]. *)
Lemma world_delivers_witness :
  store (wfinal (New :: [New; On 0 Take; On 1 Take; On 1 (Put (payload 5));
                         On 0 (Put (payload 7)); On 0 Close; On 0 Take])
           (World (V:=nat) [] [])) !! 2
  = Some (delivered (calls_on 0 [New; On 0 Take; On 1 Take; On 1 (Put (payload 5));
                                 On 0 (Put (payload 7)); On 0 Close; On 0 Take]) 1).
Proof.
  apply (world_delivers (V:=nat)
           [New; On 0 Take; On 1 Take; On 1 (Put (payload 5));
            On 0 (Put (payload 7)); On 0 Close; On 0 Take]
           (World [] []) 1 2 (empty_wwf [])).
  reflexivity.
Defined.

Lemma taken_on_length_witness :
  length (taken_on 0 [New; On 0 Take; On 1 Take; On 0 (Put (payload 7)); On 0 Take]
            (after (wexec New) (World (V:=nat) [] [])))
  = ntakes (calls_on 0 [New; On 0 Take; On 1 Take; On 0 (Put (payload 7)); On 0 Take]).
Proof.
  exact (taken_on_length (V:=nat)
           [New; On 0 Take; On 1 Take; On 0 (Put (payload 7)); On 0 Take]
           (World [] []) (empty_wwf [])).
Defined.
