(* ===== verification/Limits.v ===== *)
(** * Limits: the channel on an engine that bounds the length of arrays

    The source describes the buffer of a channel as unbounded.  An array of
    the language has at most [2^32 - 1] elements, and an engine gives up
    earlier when memory runs out: [push] on an array that cannot grow throws
    a [RangeError].  The class [Engine] of [JsArray] has the limit as a
    parameter; the other files reason about the engine without a limit.

    This file relates the two.  Below the limit the operations are those of
    the engine without a limit, so a program that makes fewer calls than the
    limit never meets it ([run_below]).  At the limit [put] throws
    ([put_on_engine]) and [take] returns a promise that is rejected and on
    which no value will ever be delivered ([take_on_engine]); the state stays well
    formed and the channel keeps working once a queue has shrunk. *)

From S2P Require Import Prelude JsMonad JsArray Promise Channel Invariant Trace World.
Import Chan.

(** The values of this file are not promises. *)
#[local] Existing Instance inert.

#[local] Open Scope js_scope.

(** The state in which each queue has [n] elements more: if its queues can
    still grow, so can those of every state [n] calls away. *)
Definition room {V} {E : Engine} (n : nat) (s : state V) : bool :=
  Arr.fits (n + length (messageQueue s)) && Arr.fits (n + length (resolveQueue s)).

(** The states in which [put] meets the limit: the channel is open, no
    consumer waits, and [messageQueue] cannot grow. *)
Definition put_throws {V} {E : Engine} (s : state V) : bool :=
  negb (isClosed s) && negb (Arr.truthy (length (resolveQueue s)))
  && negb (Arr.fits (length (messageQueue s))).

(** The states in which [take] meets the limit: the channel is open, nothing
    is buffered, and [resolveQueue] cannot grow. *)
Definition take_rejects {V} {E : Engine} (s : state V) : bool :=
  negb (isClosed s) && negb (Arr.truthy (length (messageQueue s)))
  && negb (Arr.fits (length (resolveQueue s))).

(** ** The limit *)

Section fits.
Context {E : Engine}.
Implicit Types (n m : nat).

Lemma fits_le n m : n ≤ m → Arr.fits m = true → Arr.fits n = true.
Proof.
  unfold Arr.fits. destruct max_length as [k|]; [|done].
  rewrite !N.ltb_lt. lia.
Qed.

Lemma fits_ideal n : Arr.fits (E:=ideal) n = true.
Proof. done. Qed.

Lemma fits_limited (k : N) n : Arr.fits (E:=limited k) n = bool_decide (N.of_nat n < k)%N.
Proof.
  unfold Arr.fits. simpl. case_bool_decide; [by apply N.ltb_lt | by apply N.ltb_nlt].
Qed.

(** Below the limit [push] appends, as without a limit; at the limit it
    throws and leaves the array alone. *)
Lemma push_fits {A} (x : A) a :
  Arr.fits (length a) = true → Arr.push x a = (Ret (length (a ++ [x])), a ++ [x]).
Proof. intros H. unfold Arr.push. by rewrite H. Qed.

Lemma push_full {A} (x : A) a :
  Arr.fits (length a) = false → Arr.push x a = (Throw RangeError, a).
Proof. intros H. unfold Arr.push. by rewrite H. Qed.

End fits.

(** Settling the promise that was allocated last. *)
Lemma settle_last {X} (h : heap X) (st : pstate X) :
  settle (length h) st (h ++ [Pending]) = h ++ [st].
Proof. unfold settle. by rewrite lookup_snoc_length, insert_snoc_length. Qed.

(** ** The operations on an engine with a limit *)

Section ops.
Context {V : Type} {E : Engine}.
Implicit Types (s : state V) (v : value V) (c : call V).

(** [put] pushes only on an open channel on which no consumer waits. *)
Lemma put_below v s :
  isClosed s = true ∨ resolveQueue s ≠ [] ∨ Arr.fits (length (messageQueue s)) = true →
  put v s = put (E:=ideal) v s.
Proof.
  destruct s as [[] mq [|r rq] h]; try reflexivity.
  intros [[=]|[[]|Hf]]; [done|]. simpl in Hf.
  unfold put. js_unfold. cbn. by rewrite !push_fits.
Qed.

(** [put] on an open channel whose buffer cannot grow, with no consumer
    waiting: the call throws a [RangeError] and changes nothing. *)
Lemma put_full_run v s :
  isClosed s = false → resolveQueue s = [] →
  Arr.fits (length (messageQueue s)) = false →
  put v s = (Throw RangeError, s).
Proof.
  destruct s as [c mq rq h]. simpl. intros -> -> Hf.
  unfold put. js_unfold. cbn. by rewrite push_full.
Qed.

(** [take] on an open, empty channel whose queue of consumers can grow. *)
Lemma take_pending_fits s :
  isClosed s = false → messageQueue s = [] →
  Arr.fits (length (resolveQueue s)) = true →
  take s = (Ret (length (promises s)),
            State false [] (resolveQueue s ++ [length (promises s)])
              (promises s ++ [Pending])).
Proof.
  destruct s as [c mq rq h]. simpl. intros -> -> Hf.
  unfold take. js_unfold. cbn. erewrite new_run_ret; [reflexivity|].
  js_unfold. cbn. by rewrite push_fits.
Qed.

(** [take] pushes only on an open channel with nothing buffered. *)
Lemma take_below s :
  isClosed s = true ∨ messageQueue s ≠ [] ∨ Arr.fits (length (resolveQueue s)) = true →
  take s = take (E:=ideal) s.
Proof.
  destruct (isClosed s) eqn:Hc; [by destruct s as [[] [|v mq] rq h]|].
  destruct (messageQueue s) as [|v mq] eqn:Hm; [|by destruct s as [[] [|v' mq'] rq h]].
  intros [[=]|[[]|Hf]]; [done|].
  by rewrite take_pending_fits, take_pending.
Qed.

(** [take] on an open, empty channel whose queue of consumers cannot grow:
    the executor throws, so the promise that [take] returns is rejected;
    its resolving function is not kept, so nothing will be delivered on it. *)
Lemma take_full_run s :
  isClosed s = false → messageQueue s = [] →
  Arr.fits (length (resolveQueue s)) = false →
  take s = (Ret (length (promises s)),
            State false [] (resolveQueue s) (promises s ++ [Rejected RangeError])).
Proof.
  destruct s as [c mq rq h]. simpl. intros -> -> Hf.
  unfold take. js_unfold. cbn. erewrite new_run_throw; cycle 1.
  { js_unfold. cbn. rewrite push_full by done. reflexivity. }
  cbn. by rewrite settle_last.
Qed.

End ops.

(** ** Runs below the limit *)

Section runs.
Context {V : Type} {E : Engine}.
Implicit Types (s : state V) (v : value V) (c : call V) (cs : list (call V)).

Lemma room_fits n s :
  room n s = true →
  Arr.fits (length (messageQueue s)) = true ∧ Arr.fits (length (resolveQueue s)) = true.
Proof.
  unfold room. intros [Hm Hr]%andb_true_iff.
  split; eapply fits_le; [|exact Hm| |exact Hr]; lia.
Qed.

(** A call whose queues can grow is the call of the engine without a limit. *)
Lemma exec_below c s : room 0 s = true → exec c s = exec (E:=ideal) c s.
Proof.
  intros [Hm Hr]%room_fits. destruct c as [v| |]; [| |done]; unfold exec; js_unfold.
  - rewrite put_below; auto.
  - rewrite take_below; auto.
Qed.

(** A call adds at most one element to each queue. *)
Lemma exec_grows c s :
  length (messageQueue (after (exec (E:=ideal) c) s)) ≤ S (length (messageQueue s))
  ∧ length (resolveQueue (after (exec (E:=ideal) c) s)) ≤ S (length (resolveQueue s)).
Proof.
  pose proof (World.shape_exec c s) as H. unfold World.shape in H.
  generalize dependent (after (exec (E:=ideal) c) s). intros s' H.
  destruct c, (isClosed s), (messageQueue s), (resolveQueue s);
    simpl in H; injection H as _ -> ->; simpl; rewrite ?length_app; simpl; lia.
Qed.

Lemma room_exec n c s :
  room (S n) s = true → room n (after (exec (E:=ideal) c) s) = true.
Proof.
  unfold room. destruct (exec_grows c s) as [Hm Hr].
  intros [Hfm Hfr]%andb_true_iff. apply andb_true_iff.
  split; eapply fits_le; [|exact Hfm| |exact Hfr]; lia.
Qed.

Lemma room_S n s : room (S n) s = true → room 0 s = true.
Proof.
  unfold room. intros [Hm Hr]%andb_true_iff. apply andb_true_iff.
  split; eapply fits_le; [|exact Hm| |exact Hr]; lia.
Qed.

Lemma after_exec_below c s :
  room 0 s = true → after (exec c) s = after (exec (E:=ideal) c) s.
Proof. intros Hr. unfold after. by rewrite exec_below. Qed.

Lemma final_below cs s :
  room (length cs) s = true → final cs s = final (E:=ideal) cs s.
Proof.
  revert s; induction cs as [|c cs IH]; intros s Hr; [done|]. simpl in *.
  rewrite after_exec_below by by eapply room_S.
  apply IH. by apply room_exec.
Qed.

(** The state stays well formed on every engine: a call either is the call
    of the engine without a limit, or throws and changes nothing, or adds a
    rejected promise. *)
Lemma exec_cases c s :
  exec c s = exec (E:=ideal) c s
  ∨ exec c s = (Throw RangeError, s)
  ∨ (isClosed s = false ∧
     exec c s = (Ret (RPromise (length (promises s))),
                 State false [] (resolveQueue s) (promises s ++ [Rejected RangeError]))).
Proof.
  destruct c as [v| |]; [| |by left]; unfold exec; js_unfold.
  - destruct (isClosed s) eqn:Hc; [rewrite put_below; auto|].
    destruct (resolveQueue s) as [|r rq] eqn:Hrq; [|rewrite put_below; rewrite ?Hrq; auto].
    destruct (Arr.fits (length (messageQueue s))) eqn:Hf; [rewrite put_below; auto|].
    right; left. by rewrite put_full_run.
  - destruct (isClosed s) eqn:Hc; [rewrite take_below; auto|].
    destruct (messageQueue s) as [|v mq] eqn:Hmq; [|rewrite take_below; rewrite ?Hmq; auto].
    destruct (Arr.fits (length (resolveQueue s))) eqn:Hf; [rewrite take_below; auto|].
    right; right. split; [done|]. by rewrite take_full_run.
Qed.

Lemma exec_wf_any c s : wf s = true → wf (after (exec c) s) = true.
Proof.
  intros Hwf. unfold after.
  destruct (exec_cases c s) as [->|[->|[Hc ->]]]; [by apply exec_wf|done|].
  apply wf_spec in Hwf as (Hex & Hall & Hnd). rewrite Hc in Hall.
  apply wf_spec; simpl. split_all; [by left| |done].
  intros r Hr. by apply pending_in_snoc, Hall.
Qed.

Lemma exec_heap_le_any c s : heap_le (promises s) (promises (after (exec c) s)).
Proof.
  unfold after. destruct (exec_cases c s) as [->|[->|[Hc ->]]]; [|done|].
  - apply (exec_heap_le c s).
  - apply heap_le_snoc.
Qed.

(** On every engine a call leaves alone the promises that [resolveQueue]
    does not hold. *)
Lemma exec_frame_any c s p :
  p ∉ resolveQueue s → p < length (promises s) →
  promises (after (exec c) s) !! p = promises s !! p.
Proof.
  intros Hp Hlt. unfold after. destruct (exec_cases c s) as [->|[->|[Hc ->]]]; [|done|].
  - by apply (exec_frame c s).
  - by apply lookup_snoc_lt.
Qed.

(** On every engine a pending promise is pending after a call, or settled. *)
Lemma exec_settles_any c s p :
  pending_in (promises s) p = true →
  pending_in (promises (after (exec c) s)) p
  || settled_in (promises (after (exec c) s)) p = true.
Proof.
  intros Hp. unfold after. destruct (exec_cases c s) as [->|[->|[Hc ->]]].
  - by apply (exec_settles c s).
  - simpl. by rewrite Hp.
  - simpl. by rewrite pending_in_snoc.
Qed.

Lemma final_heap_le_any cs s : heap_le (promises s) (promises (final cs s)).
Proof.
  revert s; induction cs as [|c cs IH]; intros s; simpl; [done|].
  etrans; [apply (exec_heap_le_any c)|apply IH].
Qed.

(** A run whose queues have room for one element per call is the run of the
    engine without a limit. *)
Lemma run_room cs s :
  room (length cs) s = true → run cs s = run (E:=ideal) cs s.
Proof.
  revert s; induction cs as [|c cs IH]; intros s Hr; [done|]. simpl in *.
  js_unfold. rewrite exec_below by by eapply room_S.
  rewrite (proj2 (exec_step c s)). rewrite IH; [done|]. by apply room_exec.
Qed.

(** C28: The limit is out of reach of a run that makes fewer calls than the
    engine allows elements: from a state whose queues have room for one
    element per call, the run does not throw, and it answers and ends as on
    the engine without a limit. *)
Theorem run_below cs s :
  room (length cs) s = true →
  run cs s = (Ret (answers (E:=ideal) cs s), final (E:=ideal) cs s)
  ∧ final cs s = final (E:=ideal) cs s.
Proof.
  intros Hr. split; [|by apply final_below]. by rewrite run_room, run_spec.
Qed.

(** C29: [put] on any engine, in full: on an open channel with no consumer waiting
    and a buffer that cannot grow it throws a [RangeError] and changes
    nothing; in every other state it is the [put] of the engine without a
    limit. *)
Theorem put_on_engine v s :
  put v s = if put_throws s then (Throw RangeError, s) else put (E:=ideal) v s.
Proof.
  unfold put_throws.
  destruct (isClosed s) eqn:Hc; [rewrite put_below; auto|].
  destruct (resolveQueue s) as [|r rq] eqn:Hrq; [|rewrite put_below; rewrite ?Hrq; auto].
  destruct (Arr.fits (length (messageQueue s))) eqn:Hf; [rewrite put_below; auto|].
  by rewrite put_full_run.
Qed.

(** C30: [take] on any engine, in full: it never throws; on an open channel with
    nothing buffered and a queue of consumers that cannot grow, the promise
    it returns is rejected with a [RangeError] and its resolving function is
    not kept; in every other state it is the [take] of the engine without a
    limit. *)
Theorem take_on_engine s :
  take s =
  if take_rejects s
  then (Ret (length (promises s)),
        State false [] (resolveQueue s) (promises s ++ [Rejected RangeError]))
  else take (E:=ideal) s.
Proof.
  unfold take_rejects.
  destruct (isClosed s) eqn:Hc; [rewrite take_below; auto|].
  destruct (messageQueue s) as [|v mq] eqn:Hmq; [|rewrite take_below; rewrite ?Hmq; auto].
  destruct (Arr.fits (length (resolveQueue s))) eqn:Hf; [rewrite take_below; auto|].
  by rewrite take_full_run.
Qed.

(** Well-formedness is kept by every sequence of calls on every engine, also
    by the calls that meet the limit. *)
Theorem final_wf_any cs s : wf s = true → wf (final cs s) = true.
Proof.
  revert s; induction cs as [|c cs IH]; intros s Hwf; [done|].
  simpl. by apply IH, exec_wf_any.
Qed.

(** A promise that [take] returned rejected stays rejected: no later [put]
    or [close] delivers on it. *)
Theorem rejected_forever cs s :
  take_rejects s = true →
  promises (final cs (after take s)) !! length (promises s) = Some (Rejected RangeError).
Proof.
  unfold take_rejects. rewrite !andb_true_iff, !negb_true_iff.
  intros [[Hc Hm%Arr.truthy_length_false] Hf].
  eapply heap_le_settled; [apply final_heap_le_any| |done].
  unfold after. rewrite take_full_run by done. apply lookup_snoc_length.
Qed.

End runs.

(** On the engine of the language, a run of fewer than [2^32 - 1] calls on a
    new channel never meets the limit. *)
Theorem run_ecma {V} (cs : list (call V)) (h0 : heap (value V)) :
  (N.of_nat (length cs) < 2 ^ 32 - 1)%N →
  room (E:=ecma) (length cs) (createChannel h0) = true
  ∧ run (E:=ecma) cs (createChannel h0) = run (E:=ideal) cs (createChannel h0).
Proof.
  intros Hn. assert (room (E:=ecma) (length cs) (createChannel h0) = true) as Hr.
  { unfold room, Arr.fits. cbn [max_length ecma]. simpl length.
    rewrite Nat.add_0_r, andb_diag. by apply N.ltb_lt. }
  split; [done|]. by apply run_room.
Qed.

(** ** The theorems at concrete states *)

Lemma run_below_witness :
  room (E:=limited 3) (length [Put (payload 1); Take (V:=nat)]) (createChannel (V:=nat) []) = true
  ∧ run (E:=limited 3) [Put (payload 1); Take] (createChannel [])
    = (Ret [RBool true; RPromise 0], State false [] [] [Fulfilled (payload 1)]).
Proof.
  split; [reflexivity|].
  exact (proj1 (run_below (E:=limited 3) [Put (payload 1); Take] (createChannel [])
                  eq_refl)).
Defined.

Lemma final_wf_any_witness :
  wf (createChannel (V:=nat) []) = true
  ∧ wf (final (E:=limited 1) [Put (payload 1); Put (payload 2); Take; Take; Take]
          (createChannel [])) = true.
Proof.
  split; [reflexivity|].
  exact (final_wf_any (E:=limited 1) [Put (payload 1); Put (payload 2); Take; Take; Take]
           (createChannel []) eq_refl).
Defined.

Lemma rejected_forever_witness :
  take_rejects (E:=limited 1) (State (V:=nat) false [] [0] [Pending]) = true
  ∧ promises (final (E:=limited 1) [Put (payload 7); Close]
                (after (take (E:=limited 1)) (State (V:=nat) false [] [0] [Pending]))) !! 1
    = Some (Rejected RangeError).
Proof.
  split; [reflexivity|].
  exact (rejected_forever (E:=limited 1) [Put (payload 7); Close]
           (State false [] [0] [Pending]) eq_refl).
Defined.

Lemma run_ecma_witness :
  N.lt (N.of_nat (length [Take (V:=nat); Put (payload 1); Close])) (2 ^ 32 - 1)%N
  ∧ run (E:=ecma) [Take; Put (payload 1); Close] (createChannel [])
    = (Ret [RPromise 0; RBool true; RBool true],
       State (V:=nat) true [] [] [Fulfilled (payload 1)]).
Proof.
  split; [reflexivity|].
  exact (proj2 (run_ecma [Take; Put (payload 1); Close] [] eq_refl)).
Defined.

(** At the limit, on an engine that allows one element: the second [put]
    throws, and a [take] makes room again. *)
Example put_at_limit :
  run (E:=limited 1) [Put (payload 1); Put (payload 2)] (createChannel (V:=nat) [])
    = (Throw RangeError, State false [payload 1] [] [])
  ∧ run (E:=limited 1) [Put (payload 1); Take; Put (payload 2)] (createChannel (V:=nat) [])
    = (Ret [RBool true; RPromise 0; RBool true],
       State false [payload 2] [] [Fulfilled (payload 1)]).
Proof. split; reflexivity. Qed.
