(* ===== verification/Handle.v ===== *)
(** * Handle: the frozen object that [createChannel] returns

    [createChannel] returns [Object.freeze({put, take, close})]: an object
    with three data properties that hold the three closures, frozen.  Module
    [Obj] models what of the language's objects this needs: data properties
    with their [writable] and [configurable] attributes, the [extensible]
    flag, the object literal, [Object.freeze], property read, assignment,
    [delete] and [Object.defineProperty].  An assignment or [delete] that is
    refused throws a [TypeError] in strict code and is ignored in sloppy
    code; [Object.defineProperty] throws in both.

    A program that holds the handle can call a method by name and can try to
    change the handle ([hop]).  Because the handle is frozen, no attempt
    changes it, so what reaches the channel is exactly the sequence of calls
    of [put], [take] and [close] the program makes ([handle_tamper_proof]):
    this is why a channel can be described by sequences of [call]s alone.
    Without [Object.freeze] a method can be replaced and a later [put] no
    longer reaches the channel ([unfrozen_hijack]). *)

From stdpp Require Import gmap strings.
From S2P Require Import Prelude JsMonad JsArray Promise Channel Invariant Trace.
Import Chan.

#[local] Existing Instance ideal.
#[local] Existing Instance inert.
#[local] Open Scope js_scope.
#[local] Open Scope string_scope.

Module Obj.

(** A data property and an object. *)
Record prop (M : Type) : Type := Data {
  p_value : M;
  p_writable : bool;
  p_configurable : bool;
}.
Arguments Data {M} _ _ _.
Arguments p_value {M} _.
Arguments p_writable {M} _.
Arguments p_configurable {M} _.

Record object (M : Type) : Type := Object {
  props : gmap string (prop M);
  extensible : bool;
}.
Arguments Object {M} _ _.
Arguments props {M} _.
Arguments extensible {M} _.

Section object.
Context {M : Type} `{EqDecision M}.
Implicit Types (o : object M) (k : string) (m : M) (p : prop M).

(** [{k1: m1, ..., kn: mn}]: every property writable and configurable, the
    object extensible; a later key wins. *)
Definition literal (kvs : list (string * M)) : object M :=
  Object (foldl (λ ps '(k, m), <[k := Data m true true]> ps) ∅ kvs) true.

(** [Object.freeze(o)] *)
Definition freeze o : object M :=
  Object ((λ p, Data (p_value p) false false) <$> props o) false.

Definition frozen_prop p : bool := negb (p_writable p) && negb (p_configurable p).

(** [Object.isFrozen(o)] *)
Definition isFrozen o : bool :=
  negb (extensible o)
  && bool_decide (map_Forall (λ _ p, frozen_prop p = true) (props o)).

(** [o[k]], or [undefined]. *)
Definition get k o : option M := p_value <$> props o !! k.

(** What a refused write does: it throws in strict code and is ignored in
    sloppy code, where the expression has the value [quiet]. *)
Definition refuse {A} (strict : bool) (quiet : A) : js (object M) A := λ o,
  if strict then (Throw TypeError, o) else (Ret quiet, o).

(** [o[k] = m] *)
Definition assign (strict : bool) k m : js (object M) unit := λ o,
  match props o !! k with
  | Some p =>
      if p_writable p
      then (Ret tt, Object (<[k := Data m true (p_configurable p)]> (props o)) (extensible o))
      else refuse strict tt o
  | None =>
      if extensible o
      then (Ret tt, Object (<[k := Data m true true]> (props o)) true)
      else refuse strict tt o
  end.

(** [delete o[k]] *)
Definition delete_prop (strict : bool) k : js (object M) bool := λ o,
  match props o !! k with
  | Some p =>
      if p_configurable p
      then (Ret true, Object (delete k (props o)) (extensible o))
      else refuse strict false o
  | None => (Ret true, o)
  end.

(** [Object.defineProperty(o, k, {value: m})]: on a property that is neither
    configurable nor writable only the value it has is accepted. *)
Definition defineProperty k m : js (object M) unit := λ o,
  match props o !! k with
  | Some p =>
      if p_configurable p || p_writable p
      then (Ret tt, Object (<[k := Data m (p_writable p) (p_configurable p)]> (props o))
                      (extensible o))
      else if decide (m = p_value p) then (Ret tt, o) else (Throw TypeError, o)
  | None =>
      if extensible o
      then (Ret tt, Object (<[k := Data m false false]> (props o)) true)
      else (Throw TypeError, o)
  end.

End object.
End Obj.

(** ** The handle of a channel *)

(** What a property of the handle can hold: one of the three closures of the
    channel, or a function that knows nothing of the channel. *)
Inductive method : Type :=
| MPut
| MTake
| MClose
| Foreign (f : nat).

#[export] Instance method_eq_dec : EqDecision method.
Proof. solve_decision. Defined.

(** [Object.freeze({put, take, close})] *)
Definition createHandle : Obj.object method :=
  Obj.freeze (Obj.literal [("put", MPut); ("take", MTake); ("close", MClose)]).

(** What a program does with a handle [h]: [h[k](arg)], [h[k] = m],
    [delete h[k]], [Object.defineProperty(h, k, {value: m})]. *)
Inductive hop (V : Type) : Type :=
| HCall (k : string) (arg : value V)
| HAssign (strict : bool) (k : string) (m : method)
| HDelete (strict : bool) (k : string)
| HDefine (k : string) (m : method).
Arguments HCall {V} k arg.
Arguments HAssign {V} strict k m.
Arguments HDelete {V} strict k.
Arguments HDefine {V} k m.

Inductive hret : Type :=
| HRet (r : ret)
| HBool (b : bool)
| HUndefined.

Section handle.
Context {V : Type}.

Definition object_ : lens (Obj.object method * state V) (Obj.object method) :=
  Lens fst (λ o w, (o, w.2)).

Definition channel_ : lens (Obj.object method * state V) (state V) :=
  Lens snd (λ s w, (w.1, s)).

(** The call of what a property holds. *)
Definition call_method (m : method) (arg : value V) : js (state V) hret :=
  match m with
  | MPut => r ← exec (Put arg); mret (HRet r)
  | MTake => r ← exec Take; mret (HRet r)
  | MClose => r ← exec Close; mret (HRet r)
  | Foreign _ => mret HUndefined
  end.

(** One operation on the handle.  Calling a property that is [undefined]
    is a [TypeError]. *)
Definition hexec (h : hop V) : js (Obj.object method * state V) hret :=
  match h with
  | HCall k arg =>
      f ← gets (λ w, Obj.get k w.1);
      match f with
      | Some m => zoom channel_ (call_method m arg)
      | None => mthrow TypeError
      end
  | HAssign strict k m => zoom object_ (Obj.assign strict k m);; mret HUndefined
  | HDelete strict k => b ← zoom object_ (Obj.delete_prop strict k); mret (HBool b)
  | HDefine k m => zoom object_ (Obj.defineProperty k m);; mret HUndefined
  end.

(** A sequence of operations on the handle.  It goes on after an operation
    that threw, as a program that catches the exception does.  A program
    that does not catch stops there: it performs a prefix of its operations,
    which is a sequence too, so what holds of every sequence holds of it. *)
Definition hfinal (hs : list (hop V)) (w : Obj.object method * state V)
    : Obj.object method * state V :=
  foldl (λ w' h, after (hexec h) w') w hs.

(** The calls of the channel's operations among the operations on a handle. *)
Definition call_of (h : hop V) : option (call V) :=
  match h with
  | HCall k arg =>
      if decide (k = "put") then Some (Put arg)
      else if decide (k = "take") then Some Take
      else if decide (k = "close") then Some Close
      else None
  | _ => None
  end.

Definition calls_of (hs : list (hop V)) : list (call V) := omap call_of hs.

End handle.

(** ** Frozen objects *)

Section frozen.
Context {M : Type} `{EqDecision M}.
Implicit Types (o : Obj.object M) (k : string) (m : M) (p : Obj.prop M).

Lemma isFrozen_spec o :
  Obj.isFrozen o = true ↔
  Obj.extensible o = false
  ∧ ∀ k p, Obj.props o !! k = Some p →
      Obj.p_writable p = false ∧ Obj.p_configurable p = false.
Proof.
  unfold Obj.isFrozen, Obj.frozen_prop.
  rewrite andb_true_iff, negb_true_iff, bool_decide_eq_true, map_Forall_lookup.
  setoid_rewrite andb_true_iff. by setoid_rewrite negb_true_iff.
Qed.

(** [Object.freeze] freezes, and keeps what the properties hold. *)
Lemma freeze_isFrozen o : Obj.isFrozen (Obj.freeze o) = true.
Proof.
  apply isFrozen_spec. split; [done|]. intros k p. simpl. rewrite lookup_fmap.
  by intros (p' & _ & ->)%fmap_Some.
Qed.

Lemma freeze_get k o : Obj.get k (Obj.freeze o) = Obj.get k o.
Proof.
  unfold Obj.get. simpl. rewrite lookup_fmap. by destruct (Obj.props o !! k).
Qed.

(** On a frozen object every write is refused. *)
Lemma assign_frozen strict k m o :
  Obj.isFrozen o = true → Obj.assign strict k m o = Obj.refuse strict tt o.
Proof.
  intros [He Hp]%isFrozen_spec. unfold Obj.assign. rewrite He.
  destruct (Obj.props o !! k) as [p|] eqn:Hk; [|done].
  by destruct (Hp k p Hk) as [-> _].
Qed.

Lemma delete_frozen strict k o :
  Obj.isFrozen o = true → after (Obj.delete_prop strict k) o = o.
Proof.
  intros [He Hp]%isFrozen_spec. unfold after, Obj.delete_prop.
  destruct (Obj.props o !! k) as [p|] eqn:Hk; [|done].
  destruct (Hp k p Hk) as [_ ->]. unfold Obj.refuse. by destruct strict.
Qed.

Lemma define_frozen k m o :
  Obj.isFrozen o = true → after (Obj.defineProperty k m) o = o.
Proof.
  intros [He Hp]%isFrozen_spec. unfold after, Obj.defineProperty. rewrite He.
  destruct (Obj.props o !! k) as [p|] eqn:Hk; [|done].
  destruct (Hp k p Hk) as [-> ->]. simpl. by case_decide.
Qed.

Lemma refuse_after {A} strict (a : A) o : after (Obj.refuse strict a) o = o.
Proof. unfold after, Obj.refuse. by destruct strict. Qed.

End frozen.

(** ** The handle cannot be changed *)

Section tamper.
Context {V : Type}.
Implicit Types (s : state V) (h : hop V) (hs : list (hop V)) (k : string).

Lemma createHandle_frozen : Obj.isFrozen createHandle = true.
Proof. apply freeze_isFrozen. Qed.

(** The handle has the three methods and nothing else. *)
Lemma createHandle_get k :
  Obj.get k createHandle =
  if decide (k = "put") then Some MPut
  else if decide (k = "take") then Some MTake
  else if decide (k = "close") then Some MClose
  else None.
Proof.
  unfold createHandle. rewrite freeze_get. unfold Obj.get, Obj.literal. simpl.
  rewrite !lookup_insert, lookup_empty. by repeat case_decide; simplify_eq.
Qed.

(** One operation on the handle: the handle is as before, and the channel
    has made the call that the operation is, if it is one. *)
Lemma hexec_handle h s :
  after (hexec h) (createHandle, s) =
  (createHandle, from_option (λ c, after (exec c) s) s (call_of h)).
Proof.
  destruct h as [k arg|strict k m|strict k|k m]; unfold after, hexec; js_unfold; simpl.
  - rewrite createHandle_get.
    repeat case_decide; simpl; js_unfold; try done;
      [destruct (put arg s) as [[]?]|destruct (take s) as [[]?]
      |destruct (close s) as [[]?]]; done.
  - rewrite assign_frozen by apply createHandle_frozen.
    unfold Obj.refuse. by destruct strict.
  - pose proof (delete_frozen strict k createHandle createHandle_frozen) as Hd.
    unfold after in Hd. by destruct (Obj.delete_prop _ _ _) as [[]?]; simplify_eq/=.
  - pose proof (define_frozen k m createHandle createHandle_frozen) as Hd.
    unfold after in Hd. by destruct (Obj.defineProperty _ _ _) as [[]?]; simplify_eq/=.
Qed.

(** C32: Whatever a program does with the handle, the handle stays what
    [createChannel] returned and the channel sees exactly the calls of
    [put], [take] and [close] that the program made, in order. *)
Theorem handle_tamper_proof hs s :
  hfinal hs (createHandle, s) = (createHandle, final (calls_of hs) s).
Proof.
  revert s; induction hs as [|h hs IH]; intros s; [done|].
  simpl. rewrite hexec_handle. unfold calls_of. simpl.
  destruct (call_of h) as [c|]; simpl; apply IH.
Qed.

(** In strict code an attempt to replace a method throws. *)
Theorem assign_throws k m s :
  hexec (HAssign true k m) (createHandle, s) = (Throw TypeError, (createHandle, s)).
Proof.
  unfold hexec. js_unfold. simpl. by rewrite assign_frozen by apply createHandle_frozen.
Qed.

(** Without [Object.freeze] the handle can be changed: after [h.put = f] a
    call of [h.put] runs [f] and the value never reaches the channel. *)
Theorem unfrozen_hijack (v : value V) f s :
  (hfinal [HAssign true "put" (Foreign f); HCall "put" v]
     (Obj.literal [("put", MPut); ("take", MTake); ("close", MClose)], s)).2 = s
  ∧ (hfinal [HAssign true "put" (Foreign f); HCall "put" v] (createHandle, s)).2
    = after (put v) s.
Proof.
  split; [done|]. unfold hfinal. cbn [foldl]. rewrite !hexec_handle.
  cbn [call_of from_option snd]. rewrite decide_True by done.
  apply (after_exec (Put v)).
Qed.

End tamper.
