(* ===== verification/Types.v ===== *)
(** * Types: the results have the types the interface documents

    The interface gives each function a return type: [put] and [close]
    return a [Boolean], [take] a [Promise] "that resolves with the next
    available value from the channel, or with [CLOSED]".  This file states
    those types as predicates on the heap of promises and shows that each
    call returns a value of its type: the promise that [take] returns is a
    promise of the heap, and it is pending or holds a value.

    The scope is the engine without a limit on arrays and values that are
    not promises.  There no operation of the channel makes a promise that is
    rejected or that follows another, so [heap_typed] is an invariant of the
    channel; [Program] takes it as the well-formedness of what a task holds.
    Outside that scope the type fails: [Limits.take_on_engine] shows the
    rejected promise that [take] returns when its queue cannot grow, and
    [Adoption.own_promise_rejected] the one a channel of promises makes. *)

From S2P Require Import Prelude JsMonad JsArray Promise Channel Invariant Trace.
Import Chan.

#[local] Existing Instance ideal.
#[local] Existing Instance inert.

(** The types the interface names. *)
Inductive jstype : Type :=
| TBoolean
| TPromise.

#[export] Instance jstype_eq_dec : EqDecision jstype.
Proof. solve_decision. Defined.

(** [@return {Boolean} True if the value was put onto the channel. If the
    channel is closed no value is put onto the channel, and false is
    returned.] *)
Definition put_returns : jstype := TBoolean.

(** [@return {Promise<a>} Promise that resolves with the next available value
    from the channel, or with CLOSED] *)
Definition take_returns : jstype := TPromise.

(** [@return {Boolean} True if the the channel was closed, false if the
    cannel was already closed.] *)
Definition close_returns : jstype := TBoolean.

Definition documented {V} (c : call V) : jstype :=
  match c with
  | Put _ => put_returns
  | Take => take_returns
  | Close => close_returns
  end.

(** A promise of the documented type [Promise<a>]: it is pending or holds a
    value; it is not rejected, and it follows no promise, which might be. *)
Definition resolves {X} (st : pstate X) : bool :=
  match st with
  | Pending | Fulfilled _ => true
  | Following _ | Rejected _ => false
  end.

(** A heap in which every promise is of that type. *)
Definition heap_typed {X} (h : heap X) : bool := forallb resolves h.

(** [has_type h r t]: in the heap [h] the value [r] has the type [t]. *)
Definition has_type {X} (h : heap X) (r : ret) (t : jstype) : bool :=
  match r, t with
  | RBool _, TBoolean => true
  | RPromise p, TPromise => from_option resolves false (h !! p)
  | _, _ => false
  end.

(** ** Typed heaps *)

Section heap.
Context {X : Type}.
Implicit Types (h : heap X) (st : pstate X) (p : promise).

Lemma heap_typed_spec h : heap_typed h = true ↔ ∀ p st, h !! p = Some st → resolves st = true.
Proof.
  unfold heap_typed. rewrite forallb_elem_of. split.
  - intros H p st Hp. by eapply H, list_elem_of_lookup_2.
  - intros H st [p Hp]%list_elem_of_lookup_1. eauto.
Qed.

Lemma heap_typed_snoc h st :
  heap_typed h = true → resolves st = true → heap_typed (h ++ [st]) = true.
Proof.
  unfold heap_typed. rewrite forallb_app. simpl. intros -> ->. done.
Qed.

Lemma heap_typed_settle p st h :
  heap_typed h = true → resolves st = true → heap_typed (settle p st h) = true.
Proof.
  rewrite !heap_typed_spec. intros Hh Hst q st'. rewrite lookup_settle.
  destruct (h !! p) as [[]|] eqn:Hp; eauto. case_decide; [|eauto]. by intros [= <-].
Qed.

Lemma heap_typed_settle_all (ps : list promise) st h :
  heap_typed h = true → resolves st = true → heap_typed (settle_all ps st h) = true.
Proof.
  revert h; induction ps as [|p ps IH]; intros h Hh Hst; simpl; [done|].
  by apply IH; [apply heap_typed_settle|].
Qed.

(** A typed value stays typed as the heap evolves within typed heaps. *)
Lemma has_type_le h h' r t :
  heap_le h h' → heap_typed h' = true →
  has_type h r t = true → has_type h' r t = true.
Proof.
  intros Hle Hh'. destruct r as [b|p], t; simpl; try done.
  destruct (h !! p) as [st|] eqn:Hp; simpl; [|done]. intros _.
  destruct (heap_le_is_Some h h' p Hle) as [st' Hp']; [by eexists|].
  rewrite Hp'. simpl. by eapply heap_typed_spec.
Qed.

End heap.

(** ** The operations are typed *)

Section typed.
Context {V : Type}.
Implicit Types (s : state V) (c : call V) (cs : list (call V)).

(** No operation rejects a promise. *)
Lemma exec_heap_typed c s :
  heap_typed (promises s) = true → heap_typed (promises (after (exec c) s)) = true.
Proof.
  intros Hh. rewrite after_exec. unfold after. destruct c as [v| |].
  - destruct (isClosed s) eqn:Hc; [by rewrite put_closed|].
    destruct (resolveQueue s) as [|r rq] eqn:Hrq; [by rewrite put_buffer|].
    rewrite (put_handoff _ _ r rq) by done. by apply heap_typed_settle.
  - destruct (messageQueue s) as [|v mq] eqn:Hmq; [destruct (isClosed s) eqn:Hc|].
    + rewrite take_closed_drained by done. by apply heap_typed_snoc.
    + rewrite take_pending by done. by apply heap_typed_snoc.
    + rewrite (take_buffered _ v mq) by done. by apply heap_typed_snoc.
  - destruct (isClosed s) eqn:Hc; [by rewrite close_closed|].
    rewrite close_open by done. by apply heap_typed_settle_all.
Qed.

Lemma final_heap_typed cs s :
  heap_typed (promises s) = true → heap_typed (promises (final cs s)) = true.
Proof.
  apply (final_ind (λ s', heap_typed (promises s') = true)).
  intros c s'. apply exec_heap_typed.
Qed.

(** The promise that [take] returns is the one it has just allocated. *)
Lemma take_allocates s :
  length (promises (after take s)) = S (length (promises s)).
Proof.
  unfold after.
  destruct (messageQueue s) as [|v mq] eqn:Hmq; [destruct (isClosed s) eqn:Hc|].
  - rewrite take_closed_drained by done. simpl. rewrite length_app. simpl. lia.
  - rewrite take_pending by done. simpl. rewrite length_app. simpl. lia.
  - rewrite (take_buffered _ v mq) by done. simpl. rewrite length_app. simpl. lia.
Qed.

(** Each call returns a value of the type the interface gives, in a heap
    whose promises are all of type [Promise<a>]. *)
Theorem exec_typed c s :
  heap_typed (promises s) = true →
  has_type (promises (after (exec c) s)) (answer c s) (documented c) = true
  ∧ heap_typed (promises (after (exec c) s)) = true.
Proof.
  intros Hh. pose proof (exec_heap_typed c s Hh) as Hh'. split; [|done].
  destruct c as [v| |]; [done| |done].
  unfold has_type, answer, documented, take_returns.
  destruct (promises (after (exec Take) s) !! length (promises s)) as [st|] eqn:Hp.
  - simpl. by eapply heap_typed_spec.
  - apply lookup_ge_None in Hp. rewrite (after_exec Take), take_allocates in Hp. lia.
Qed.

End typed.

(** ** The theorems at concrete states *)

Lemma exec_typed_witness :
  heap_typed (promises (createChannel (V:=nat) [])) = true
  ∧ has_type (promises (after (exec Take) (createChannel (V:=nat) []))) (RPromise 0) TPromise
    = true.
Proof.
  split; [reflexivity|].
  exact (proj1 (exec_typed Take (createChannel []) eq_refl)).
Defined.
