(* ===== verification/Loop.v ===== *)
(** * Loop: tasks that await promises, and the job queue that resumes them

    The source never calls [then]; its users do, mostly through [await].  A
    task here is what an [async] function of the tests is: a straight line
    of calls on the channel, of [await]s of values it got earlier, and of
    expectations.  A task runs until it awaits; it is resumed by a job, and
    jobs run one at a time, first in first out, each to completion, when
    nothing else runs.  The job of an [await] is queued when the awaited
    promise is settled: at once if it is settled already, and otherwise by
    the call of [put] or [close] that settles it, in the order in which the
    promises are settled and the reactions were registered.

    [run_code] runs a task until it awaits or ends, [resume] is the job that
    completes an [await], [drain] runs the job queue.  An [await] takes one
    job; the engine's extra turns for an [await] and the promise that
    [Promise.all] makes are not modelled, so the order in which two tasks
    are resumed is that of the settlements, not a count of turns.

    The loop runs on any engine (Class [Engine]): where a call throws, the
    task fails with what was thrown; where an awaited promise is rejected,
    it fails with the reason.  The values the tasks put are not promises;
    what the channel does with a promise is in [Adoption].

    Theorems: the channel of a program is the end of the run of the calls
    the tasks made, in the order of the log ([log_is_run]); each task makes
    its calls in the order of its code ([program_order]); what an [await]
    received is what its promise holds ([await_receives]).  [Sched] has the
    scheduling invariant, termination and progress, [Program] what the
    tasks get from the channel, [Faults] the programs that meet the limit
    of an engine. *)

From S2P Require Import Prelude JsMonad JsArray Promise Channel Invariant Trace.
From S2P Require Import World Limits.
Import Chan.

(** The values of this file are not promises. *)
#[local] Existing Instance inert.

#[local] Open Scope js_scope.

(** The values a task holds. *)
Inductive jsval (V : Type) : Type :=
| JBool (b : bool)
| JPromise (p : promise)
| JValue (v : value V).
Arguments JBool {V} b.
Arguments JPromise {V} p.
Arguments JValue {V} v.

#[export] Instance jsval_eq_dec `{EqDecision V} : EqDecision (jsval V).
Proof. solve_decision. Defined.

(** The statements of a task; [i] names the value that the [i]-th [Do] or
    [Await] of the task produced. *)
Inductive instr (V : Type) : Type :=
| Do (c : call V)
| Await (i : nat)
| Expect (i : nat) (x : jsval V)
| ExpectPromise (i : nat).
Arguments Do {V} c.
Arguments Await {V} i.
Arguments Expect {V} i x.
Arguments ExpectPromise {V} i.

(** Why a task stopped before its end. *)
Inductive failure : Type :=
| Thrown (e : error)
| RejectedWith (e : error)
| ExpectationFailed
| NotDefined.

Inductive status : Type :=
| Ready
| Waiting
| Finished
| Failed (f : failure).

#[export] Instance failure_eq_dec : EqDecision failure.
Proof. solve_decision. Defined.

#[export] Instance status_eq_dec : EqDecision status.
Proof. solve_decision. Defined.

(** A task: the code left to run (for a task that failed on an expectation,
    from that expectation on), the values it holds, what its [await]s
    received (the promise and the value), and its status. *)
Record task (V : Type) : Type := Task {
  code : list (instr V);
  results : list (jsval V);
  received : list (promise * value V);
  status_of : status;
}.
Arguments Task {V} _ _ _ _.
Arguments code {V} _.
Arguments results {V} _.
Arguments received {V} _.
Arguments status_of {V} _.

(** The channel, the tasks, the reactions registered on pending promises (the
    promise and the task to resume), the job queue, and the calls made so
    far with the task that made each. *)
Record loop (V : Type) : Type := Loop {
  chan : state V;
  tasks : list (task V);
  reactions : list (promise * nat);
  jobs : list nat;
  log : list (nat * call V);
}.
Arguments Loop {V} _ _ _ _ _.
Arguments chan {V} _.
Arguments tasks {V} _.
Arguments reactions {V} _.
Arguments jobs {V} _.
Arguments log {V} _.

Section loop.
Context {V : Type} `{EqDecision V} {E : Engine}.
Implicit Types (w : loop V) (t : task V) (s : state V) (c : call V) (p : promise)
  (tid i : nat).

Definition of_ret (r : ret) : jsval V :=
  match r with
  | RBool b => JBool b
  | RPromise p => JPromise p
  end.

Definition set_task tid t w : loop V :=
  Loop (chan w) (<[tid := t]> (tasks w)) (reactions w) (jobs w) (log w).

Definition enqueue (tids : list nat) w : loop V :=
  Loop (chan w) (tasks w) (reactions w) (jobs w ++ tids) (log w).

Definition react p tid w : loop V :=
  Loop (chan w) (tasks w) (reactions w ++ [(p, tid)]) (jobs w) (log w).

(** The promises a call settles, in the order it settles them: those of
    [resolveQueue] that were pending before it and are settled after it. *)
Definition settled_by s s' : list promise :=
  filter (λ p, pending_in (promises s) p = true ∧ settled_in (promises s') p = true)
    (resolveQueue s).

(** The tasks that react to the promises [ps], in the order of [ps] and, for
    one promise, in the order they registered. *)
Definition woken (ps : list promise) (rs : list (promise * nat)) : list nat :=
  mbind (λ p, snd <$> filter (λ r, r.1 = p) rs) ps.

(** Settling [ps]: their reactions become jobs. *)
Definition wake (ps : list promise) w : loop V :=
  Loop (chan w) (tasks w) (filter (λ r, r.1 ∉ ps) (reactions w))
    (jobs w ++ woken ps (reactions w)) (log w).

(** A call on the channel by the task [tid]. *)
Definition do_call tid c w : outcome ret * loop V :=
  let '(out, s') := exec c (chan w) in
  (out, wake (settled_by (chan w) s')
          (Loop s' (tasks w) (reactions w) (jobs w) (log w ++ [(tid, c)]))).

(** The loop after a call by a task: the channel after the call, the call
    logged, and the jobs of the reactions on the promises it settled. *)
Definition called tid c w : loop V :=
  wake (settled_by (chan w) (after (exec c) (chan w)))
    (Loop (after (exec c) (chan w)) (tasks w) (reactions w) (jobs w)
       (log w ++ [(tid, c)])).

(** [await x]: the task stops with the [await] at the head of its code.  On
    a pending promise it registers a reaction; on a settled promise, or on a
    value that is not a promise, its job is queued at once.  (A task holds
    only promises that exist; [NotDefined] is there for totality.) *)
Definition suspend tid i (rest : list (instr V)) (rs : list (jsval V))
    (got : list (promise * value V)) w : loop V :=
  match rs !! i with
  | Some (JPromise p) =>
      let w' := set_task tid (Task (Await i :: rest) rs got Waiting) w in
      match promises (chan w) !! p with
      | Some Pending | Some (Following _) => react p tid w'
      | Some (Fulfilled _) | Some (Rejected _) => enqueue [tid] w'
      | None => set_task tid (Task rest rs got (Failed NotDefined)) w
      end
  | Some _ => enqueue [tid] (set_task tid (Task (Await i :: rest) rs got Waiting) w)
  | None => set_task tid (Task rest rs got (Failed NotDefined)) w
  end.

(** Run the task [tid] from [code] until it awaits, fails or ends. *)
Fixpoint run_code tid (code : list (instr V)) (rs : list (jsval V))
    (got : list (promise * value V)) w : loop V :=
  match code with
  | [] => set_task tid (Task [] rs got Finished) w
  | Do c :: rest =>
      match do_call tid c w with
      | (Ret r, w') => run_code tid rest (rs ++ [of_ret r]) got w'
      | (Throw e, w') => set_task tid (Task rest rs got (Failed (Thrown e))) w'
      end
  | Await i :: rest => suspend tid i rest rs got w
  | Expect i x :: rest =>
      if decide (rs !! i = Some x) then run_code tid rest rs got w
      else set_task tid (Task (Expect i x :: rest) rs got (Failed ExpectationFailed)) w
  | ExpectPromise i :: rest =>
      match rs !! i with
      | Some (JPromise _) => run_code tid rest rs got w
      | _ => set_task tid (Task (ExpectPromise i :: rest) rs got (Failed ExpectationFailed)) w
      end
  end.

(** The call of an [async] function: it runs until its first [await]. *)
Definition start tid w : loop V :=
  match tasks w !! tid with
  | Some (Task code rs got Ready) => run_code tid code rs got w
  | _ => w
  end.

(** What a task awaits, if it does. *)
Definition awaited t : option (jsval V) :=
  match code t, status_of t with
  | Await i :: _, Waiting => results t !! i
  | _, _ => None
  end.

(** The job that completes an [await]: the task goes on with the value of
    the promise, or fails with the reason of its rejection.  (A job is
    queued only for a settled promise; were the promise pending the task
    would wait again.) *)
Definition resume tid w : loop V :=
  match tasks w !! tid with
  | Some (Task (Await i :: rest) rs got Waiting) =>
      match rs !! i with
      | Some (JPromise p) =>
          match promises (chan w) !! p with
          | Some (Fulfilled v) => run_code tid rest (rs ++ [JValue v]) (got ++ [(p, v)]) w
          | Some (Rejected e) => set_task tid (Task rest rs got (Failed (RejectedWith e))) w
          | Some Pending | Some (Following _) => react p tid w
          | None => set_task tid (Task rest rs got (Failed NotDefined)) w
          end
      | Some x => run_code tid rest (rs ++ [x]) got w
      | None => set_task tid (Task rest rs got (Failed NotDefined)) w
      end
  | _ => w
  end.

Definition pop_job w : loop V :=
  Loop (chan w) (tasks w) (reactions w) (tail (jobs w)) (log w).

(** The job queue, run for at most [fuel] jobs. *)
Fixpoint drain (fuel : nat) w : loop V :=
  match fuel, jobs w with
  | S fuel', tid :: _ => drain fuel' (resume tid (pop_job w))
  | _, _ => w
  end.

(** The instructions left in all the tasks, and a bound on the jobs that can
    still run.  A job is there already, or will come from a reaction that is
    there already, or from an [await] that is still in the code; an [await]
    counts twice, once for the job it will queue and once for the step that
    resumes it. *)
Definition work w : nat := sum_list_with (λ t, length (code t)) (tasks w).

Definition budget w : nat := 2 * work w + length (jobs w) + length (reactions w).

(** A program: the code of its tasks.  The tasks are started one after the
    other, then the job queue runs until it is empty. *)
Definition boot (s : state V) (codes : list (list (instr V))) : loop V :=
  Loop s ((λ code, Task code [] [] Ready) <$> codes) [] [] [].

Definition start_all w : loop V :=
  foldl (λ w' tid, start tid w') w (seq 0 (length (tasks w))).

Definition run_tasks (s : state V) (codes : list (list (instr V))) : loop V :=
  let w := start_all (boot s codes) in drain (budget w) w.

(** The calls in a piece of code, and the calls of a task in a log. *)
Definition calls_in (code : list (instr V)) : list (call V) :=
  omap (λ x, match x with Do c => Some c | _ => None end) code.

Definition calls_by tid (l : list (nat * call V)) : list (call V) :=
  snd <$> filter (λ e, e.1 = tid) l.

(** [await Promise.all([x_i1, ..., x_in])], as the [await]s of the elements
    one after the other. *)
Definition await_all (ixs : list nat) : list (instr V) := Await <$> ixs.

(** The loop runs the program [codes] from the channel [s0]: the channel is
    the end of the run of the calls logged, the calls are logged under the
    tasks of the program, and the calls a task has logged followed by the
    calls left in its code are the calls of its code. *)
Definition trace_ok (s0 : state V) (codes : list (list (instr V))) w : Prop :=
  chan w = final (snd <$> log w) s0
  ∧ length (tasks w) = length codes
  ∧ Forall (λ e, e.1 < length codes) (log w)
  ∧ ∀ tid body t, codes !! tid = Some body → tasks w !! tid = Some t →
      code t `suffix_of` body
      ∧ calls_by tid (log w) ++ calls_in (code t) = calls_in body.

(** The statements that can fail an expectation. *)
Definition expects (x : instr V) : bool :=
  match x with
  | Expect _ _ | ExpectPromise _ => true
  | _ => false
  end.

(** A task as a run leaves it: started; with no code left if it has
    finished; at an [await] if it waits; at an expectation if it failed
    one. *)
Definition stopped t : bool :=
  match status_of t, code t with
  | Ready, _ => false
  | Finished, body => bool_decide (body = [])
  | Waiting, Await _ :: _ => true
  | Waiting, _ => false
  | Failed ExpectationFailed, x :: _ => expects x
  | Failed ExpectationFailed, [] => false
  | Failed _, _ => true
  end.

(** [Q] holds of every task, by its number. *)
Definition tasks_inv (Q : nat → task V → Prop) w : Prop :=
  ∀ tid t, tasks w !! tid = Some t → Q tid t.

(** From [w] to [w'] the tasks are the same, or the task [tid] has run. *)
Definition ran tid w w' : Prop :=
  tasks w' = tasks w ∨ ∃ t, tasks w' = <[tid := t]> (tasks w) ∧ stopped t = true.

(** What the [await]s of a task received is what the promises hold. *)
Definition holds (h : heap (value V)) (got : list (promise * value V)) : Prop :=
  ∀ p v, (p, v) ∈ got → h !! p = Some (Fulfilled v).

Definition received_ok w : Prop :=
  ∀ tid t, tasks w !! tid = Some t → holds (promises (chan w)) (received t).

End loop.

(** ** What a task does to the channel *)

Section trace.
Context {V : Type} `{EqDecision V} {E : Engine}.
Implicit Types (w : loop V) (t : task V) (s : state V) (c : call V) (p : promise)
  (tid i : nat) (cs : list (call V)) (h : heap (value V))
  (got : list (promise * value V)).

(** A call by a task: its result, and the loop after it. *)
Lemma do_call_run tid c w : do_call tid c w = (result (exec c) (chan w), called tid c w).
Proof. unfold do_call, called, result, after. by destruct (exec c (chan w)). Qed.

Lemma calls_by_app tid (l1 l2 : list (nat * call V)) :
  calls_by tid (l1 ++ l2) = calls_by tid l1 ++ calls_by tid l2.
Proof. unfold calls_by. by rewrite filter_app, fmap_app. Qed.

Lemma calls_by_own tid cs : calls_by tid (pair tid <$> cs) = cs.
Proof.
  unfold calls_by. induction cs as [|c cs IH]; simpl; [done|].
  rewrite filter_cons_True by done. simpl. by f_equal.
Qed.

Lemma calls_by_other tid tid' cs : tid ≠ tid' → calls_by tid (pair tid' <$> cs) = [].
Proof.
  intros Hne. unfold calls_by. induction cs as [|c cs IH]; simpl; [done|].
  by rewrite filter_cons_False by (simpl; congruence).
Qed.

Lemma calls_by_cons tid tid' c (l : list (nat * call V)) :
  calls_by tid ((tid', c) :: l)
  = if decide (tid' = tid) then c :: calls_by tid l else calls_by tid l.
Proof.
  unfold calls_by. rewrite filter_cons. simpl. by destruct (decide (tid' = tid)).
Qed.

(** What a run of a task's body comes to: some calls [cs] of the channel,
    made in the order of the body and logged under the task; the task is
    left with the rest of the body. *)
Lemma run_code_calls tid body rs got w :
  ∃ cs t,
    chan (run_code tid body rs got w) = final cs (chan w)
    ∧ log (run_code tid body rs got w) = log w ++ (pair tid <$> cs)
    ∧ tasks (run_code tid body rs got w) = <[tid := t]> (tasks w)
    ∧ code t `suffix_of` body
    ∧ cs ++ calls_in (code t) = calls_in body.
Proof.
  revert rs got w; induction body as [|[c|i|i x|i] rest IH]; intros rs got w; simpl.
  - by exists [], (Task [] rs got Finished); rewrite app_nil_r.
  - rewrite do_call_run. destruct (result (exec c) (chan w)) as [r|e].
    + destruct (IH (rs ++ [of_ret r]) got (called tid c w))
        as (cs & t & Hc & Hl & Ht & Hs & Hp).
      exists (c :: cs), t; rewrite Hc, Hl, Ht; simpl.
      split_all; [done| |done|by apply suffix_cons_r|by f_equal]. by rewrite <- app_assoc.
    + exists [c], (Task rest rs got (Failed (Thrown e))). split_all; try done.
      by apply suffix_cons_r.
  - unfold suspend. exists [].
    destruct (rs !! i) as [[b|p|v]|]; [|destruct (_ !! p) as [[]|]|..];
      eexists; simpl; rewrite app_nil_r; split_all; try done; by apply suffix_cons_r.
  - destruct (decide _).
    + destruct (IH rs got w) as (cs & t & ? & ? & ? & ? & ?).
      exists cs, t. split_all; try done. by apply suffix_cons_r.
    + by exists [], (Task (Expect i x :: rest) rs got (Failed ExpectationFailed));
        rewrite app_nil_r.
  - destruct (rs !! i) as [[b|p|v]|];
      try (by exists [], (Task (ExpectPromise i :: rest) rs got (Failed ExpectationFailed));
             rewrite app_nil_r).
    destruct (IH rs got w) as (cs & t & ? & ? & ? & ? & ?).
    exists cs, t. split_all; try done. by apply suffix_cons_r.
Qed.

Lemma stopped_started t : stopped t = true → status_of t ≠ Ready.
Proof. unfold stopped. by destruct (status_of t). Qed.

Lemma stopped_finished t : stopped t = true → status_of t = Finished → code t = [].
Proof. unfold stopped. intros Hs Hf. rewrite Hf in Hs. by apply bool_decide_eq_true in Hs. Qed.

Lemma stopped_waiting t :
  stopped t = true → status_of t = Waiting → ∃ i rest, code t = Await i :: rest.
Proof.
  unfold stopped. intros Hs Hw. rewrite Hw in Hs. destruct (code t) as [|[]]; try done; eauto.
Qed.

Lemma stopped_expects t :
  stopped t = true → status_of t = Failed ExpectationFailed →
  ∃ x rest, code t = x :: rest ∧ expects x = true.
Proof.
  unfold stopped. intros Hs Hf. rewrite Hf in Hs. destruct (code t); try done; eauto.
Qed.

(** A run of a task's body changes the record of that task only, and leaves
    it stopped. *)
Lemma run_code_tasks tid body rs got w :
  ∃ t, tasks (run_code tid body rs got w) = <[tid := t]> (tasks w) ∧ stopped t = true.
Proof.
  revert rs got w; induction body as [|[c|i|i x|i] rest IH]; intros rs got w; simpl.
  - by eexists.
  - rewrite do_call_run. destruct (result (exec c) (chan w)) as [r|e]; [|by eexists].
    by destruct (IH (rs ++ [of_ret r]) got (called tid c w)) as (t & -> & ?); eexists.
  - unfold suspend.
    destruct (rs !! i) as [[b|p|v]|]; [|destruct (_ !! p) as [[]|]|..]; by eexists.
  - destruct (decide _); [apply IH|by eexists].
  - destruct (rs !! i) as [[b|p|v]|]; [|apply IH|..]; by eexists.
Qed.

Lemma start_ran tid w : ran tid w (start tid w).
Proof.
  unfold start. destruct (tasks w !! tid) as [[body rs got []]|]; try by left.
  right. apply run_code_tasks.
Qed.

Lemma resume_ran tid w : ran tid w (resume tid (pop_job w)).
Proof.
  unfold resume. simpl.
  destruct (tasks w !! tid) as [[[|[c|i|i x|i] rest] rs got []]|]; try by left.
  destruct (rs !! i) as [[b|p|v]|]; [|destruct (promises (chan w) !! p) as [[| | |]|]|..];
    try (by left); try (by right; eexists);
    right; apply (run_code_tasks _ _ _ _ (pop_job w)).
Qed.

(** What holds of every stopped task is kept when a task runs. *)
Lemma tasks_inv_ran Q tid w w' :
  (∀ tid' t, stopped t = true → Q tid' t) → ran tid w w' → tasks_inv Q w → tasks_inv Q w'.
Proof.
  intros HQ [Hw'|(t & Hw' & Ht)] Hw tid' t'; rewrite Hw'; [apply Hw|].
  intros [(_ & <- & _)|[_ ?]]%list_lookup_insert_Some; [by apply HQ|by apply Hw].
Qed.

(** *** The log *)

Lemma trace_set s0 codes tid t t' w :
  trace_ok s0 codes w → tasks w !! tid = Some t →
  code t' `suffix_of` code t → calls_in (code t') = calls_in (code t) →
  trace_ok s0 codes (set_task tid t' w).
Proof.
  intros (Hc & Hn & Hl & Ho) Ht Hsuf Hcode. unfold trace_ok.
  split_all; simpl; [done|by rewrite length_insert|done|].
  intros tid' body' t'' Hcodes [(-> & -> & _)|[? Ht'']]%list_lookup_insert_Some; [|eauto].
  destruct (Ho _ _ _ Hcodes Ht) as [Hs Hcs]. rewrite Hcode. split; [by etrans|done].
Qed.

Lemma trace_run s0 codes tid t body rs got w :
  trace_ok s0 codes w → tasks w !! tid = Some t →
  body `suffix_of` code t → calls_in body = calls_in (code t) →
  trace_ok s0 codes (run_code tid body rs got w).
Proof.
  intros (Hc & Hn & Hl & Ho) Ht Hsuf Hcode. unfold trace_ok.
  destruct (run_code_calls tid body rs got w) as (cs & t' & -> & -> & -> & Hs' & Hcs).
  assert (Hsnd : snd <$> (pair tid <$> cs) = cs).
  { rewrite <- list_fmap_compose. apply list_fmap_id. }
  split_all.
  - by rewrite fmap_app, final_app, Hsnd, Hc.
  - by rewrite length_insert.
  - apply Forall_app. split; [done|]. apply Forall_fmap, Forall_true. simpl. intros _.
    rewrite <- Hn. by eapply lookup_lt_Some.
  - intros tid' body' t'' Hcodes [(-> & -> & _)|[? Ht'']]%list_lookup_insert_Some;
      rewrite calls_by_app.
    + destruct (Ho _ _ _ Hcodes Ht) as [Hs Ho']. split; [by repeat (etrans; [done|])|].
      by rewrite calls_by_own, <- app_assoc, Hcs, Hcode.
    + rewrite calls_by_other, app_nil_r by done. eauto.
Qed.

(** *** What the tasks received *)

Lemma holds_le h h' got : heap_le h h' → holds h got → holds h' got.
Proof. intros [_ Hle] Hg p v Hin. by apply Hle; [apply Hg|]. Qed.

Lemma holds_snoc h got p v :
  holds h got → h !! p = Some (Fulfilled v) → holds h (got ++ [(p, v)]).
Proof.
  intros Hg Hp q u [?|Hin%list_elem_of_singleton]%elem_of_app; [by apply Hg|].
  by simplify_eq.
Qed.

Lemma received_set tid body rs got st w :
  received_ok w → holds (promises (chan w)) got →
  received_ok (set_task tid (Task body rs got st) w).
Proof.
  intros Hw Hg tid' t [(_ & <- & _)|[_ Ht]]%list_lookup_insert_Some; [done|].
  by apply (Hw tid').
Qed.

Lemma received_call tid c w : received_ok w → received_ok (called tid c w).
Proof.
  intros Hw tid' t Ht. eapply holds_le; [apply exec_heap_le_any|by apply (Hw tid')].
Qed.

Lemma run_code_received tid body rs got w :
  received_ok w → holds (promises (chan w)) got →
  received_ok (run_code tid body rs got w).
Proof.
  revert rs got w; induction body as [|[c|i|i x|i] rest IH]; intros rs got w Hw Hg; simpl.
  - by apply received_set.
  - pose proof (received_call tid c w Hw) as Hw'. rewrite do_call_run.
    assert (holds (promises (chan (called tid c w))) got)
      by (eapply holds_le; [apply exec_heap_le_any|done]).
    destruct (result (exec c) (chan w)); [by apply IH|by apply received_set].
  - pose proof (received_set tid) as Hset. unfold suspend.
    destruct (rs !! i) as [[b|p|v]|]; [|destruct (_ !! p) as [[]|]|..]; by apply Hset.
  - destruct (decide _); [by apply IH|by apply received_set].
  - destruct (rs !! i) as [[b|p|v]|]; [|by apply IH|..]; by apply received_set.
Qed.

(** *** Induction on the steps of the loop *)

Lemma start_all_ind (P : loop V → Prop) w :
  (∀ tid w', P w' → P (start tid w')) → P w → P (start_all w).
Proof.
  intros Hstart. unfold start_all. generalize (seq 0 (length (tasks w))).
  intros tids; revert w. induction tids as [|tid tids IH]; simpl; auto.
Qed.

Lemma drain_ind (P : loop V → Prop) n w :
  (∀ tid js w', jobs w' = tid :: js → P w' → P (resume tid (pop_job w'))) →
  P w → P (drain n w).
Proof.
  intros Hstep. revert w. induction n as [|n IH]; intros w Hw; simpl; [done|].
  destruct (jobs w) as [|tid js] eqn:Hj; [done|]. eauto.
Qed.

Lemma run_tasks_ind (P : loop V → Prop) s codes :
  P (boot s codes) →
  (∀ tid w, P w → P (start tid w)) →
  (∀ tid js w, jobs w = tid :: js → P w → P (resume tid (pop_job w))) →
  P (run_tasks s codes).
Proof. intros ???. unfold run_tasks. cbv zeta. by apply drain_ind, start_all_ind. Qed.

Lemma start_trace s0 codes tid w : trace_ok s0 codes w → trace_ok s0 codes (start tid w).
Proof.
  intros Hw. unfold start. destruct (tasks w !! tid) as [[c rs got []]|] eqn:Ht; try done.
  by eapply trace_run.
Qed.

Lemma resume_trace s0 codes tid w :
  trace_ok s0 codes w → trace_ok s0 codes (resume tid (pop_job w)).
Proof.
  intros Hw. unfold resume. simpl.
  destruct (tasks w !! tid) as [[[|[c|i|i x|i] rest] rs got []]|] eqn:Ht; try done.
  destruct (rs !! i) as [[b|p|v]|]; [|destruct (promises (chan w) !! p) as [[| | |]|]|..];
    try done;
    solve [ eapply (trace_run _ _ _ _ _ _ _ (pop_job w));
              [done|exact Ht|by apply suffix_cons_r|done]
          | eapply (trace_set _ _ _ _ _ (pop_job w));
              [done|exact Ht|by apply suffix_cons_r|done] ].
Qed.

Lemma start_received tid w : received_ok w → received_ok (start tid w).
Proof.
  intros Hw. unfold start. destruct (tasks w !! tid) as [[c rs got []]|] eqn:Ht; try done.
  apply run_code_received; [done|]. apply (Hw _ _ Ht).
Qed.

Lemma resume_received tid w : received_ok w → received_ok (resume tid (pop_job w)).
Proof.
  intros Hw. unfold resume. simpl.
  destruct (tasks w !! tid) as [[[|[c|i|i x|i] rest] rs got []]|] eqn:Ht; try done.
  pose proof (Hw _ _ Ht) as Hg. simpl in Hg.
  destruct (rs !! i) as [[b|p|v]|]; [|destruct (promises (chan w) !! p) as [[| | |]|] eqn:Hp|..];
    try done; try (by apply (run_code_received _ _ _ _ (pop_job w)));
    try (by apply (received_set _ _ _ _ _ (pop_job w))).
  apply (run_code_received _ _ _ _ (pop_job w)); [done|]. by apply holds_snoc.
Qed.

Lemma boot_trace s codes : trace_ok s codes (boot s codes).
Proof.
  unfold trace_ok. split_all; simpl; [done|by rewrite length_fmap|done|].
  intros tid body t Hc Ht. rewrite list_lookup_fmap, Hc in Ht. by simplify_eq/=.
Qed.

Lemma run_tasks_inv Q s codes :
  (∀ tid t, stopped t = true → Q tid t) → tasks_inv Q (boot s codes) →
  tasks_inv Q (run_tasks s codes).
Proof.
  intros HQ Hboot. apply run_tasks_ind; eauto using tasks_inv_ran, start_ran, resume_ran.
Qed.

(** At the end of a program a task that was started is stopped. *)
Lemma run_tasks_stopped s codes tid t :
  tasks (run_tasks s codes) !! tid = Some t → status_of t ≠ Ready → stopped t = true.
Proof.
  apply (run_tasks_inv (λ _ t, status_of t ≠ Ready → stopped t = true)); [done|].
  intros tid' t' Ht'. simpl in Ht'. rewrite list_lookup_fmap in Ht'.
  by destruct (codes !! tid'); simplify_eq/=.
Qed.

Lemma run_tasks_trace s codes : trace_ok s codes (run_tasks s codes).
Proof. apply run_tasks_ind; auto using boot_trace, start_trace, resume_trace. Qed.

Lemma run_tasks_received s codes : received_ok (run_tasks s codes).
Proof.
  apply run_tasks_ind; auto using start_received, resume_received.
  intros tid t Ht. simpl in Ht. rewrite list_lookup_fmap in Ht.
  destruct (codes !! tid); simplify_eq/=. by intros ? ? ?%elem_of_nil.
Qed.

(** ** The theorems *)

(** The channel at the end of a program is the end of the run of the calls
    the tasks made, in the order of the log: the tasks interleave, the calls
    do not. *)
Theorem log_is_run s codes :
  chan (run_tasks s codes) = final (snd <$> log (run_tasks s codes)) s.
Proof. apply run_tasks_trace. Qed.

(** A task makes its calls in the order of its body: the calls it has logged,
    then the calls left in its body, are the calls of its body. *)
Theorem program_order s codes tid body :
  codes !! tid = Some body →
  ∃ t, tasks (run_tasks s codes) !! tid = Some t
       ∧ calls_by tid (log (run_tasks s codes)) ++ calls_in (code t) = calls_in body.
Proof.
  intros Hc. destruct (run_tasks_trace s codes) as (_ & Hn & _ & Ho).
  destruct (lookup_lt_is_Some_2 (tasks (run_tasks s codes)) tid) as [t Ht].
  { rewrite Hn. by eapply lookup_lt_Some. }
  exists t. split; [done|]. by apply Ho.
Qed.

(** What an [await] received is the value the promise is fulfilled with. *)
Theorem await_receives s codes tid t p v :
  tasks (run_tasks s codes) !! tid = Some t → (p, v) ∈ received t →
  promises (chan (run_tasks s codes)) !! p = Some (Fulfilled v).
Proof. intros Ht Hin. by apply (run_tasks_received s codes _ _ Ht). Qed.

End trace.

(** ** The theorems at concrete programs *)

#[local] Existing Instance ideal.

Lemma program_order_witness :
  [[Do (Take (V:=nat)); Await 0; Do Close]; [Do (Put (payload 7))]] !! 0
  = Some [Do Take; Await 0; Do Close]
  ∧ ∃ t, tasks (run_tasks (createChannel (V:=nat) [])
                  [[Do Take; Await 0; Do Close]; [Do (Put (payload 7))]]) !! 0 = Some t
       ∧ calls_by 0 (log (run_tasks (createChannel (V:=nat) [])
                            [[Do Take; Await 0; Do Close]; [Do (Put (payload 7))]]))
         ++ calls_in (code t) = calls_in [Do Take; Await 0; Do Close].
Proof.
  split; [reflexivity|].
  exact (program_order (createChannel (V:=nat) [])
    [[Do Take; Await 0; Do Close]; [Do (Put (payload 7))]] 0 _ eq_refl).
Defined.

Lemma await_receives_witness :
  tasks (run_tasks (createChannel (V:=nat) []) [[Do Take; Await 0]; [Do (Put (payload 7))]])
    !! 0 = Some (Task [] [JPromise 0; JValue (payload 7)] [(0, payload 7)] Finished)
  ∧ promises (chan (run_tasks (createChannel (V:=nat) [])
                      [[Do Take; Await 0]; [Do (Put (payload 7))]])) !! 0
    = Some (Fulfilled (payload 7)).
Proof.
  split; [reflexivity|].
  exact (await_receives (createChannel (V:=nat) [])
    [[Do Take; Await 0]; [Do (Put (payload 7))]] 0 _ 0 (payload 7) eq_refl
    (list_elem_of_here _ _)).
Defined.
