(* ===== verification/Sched.v ===== *)
(** * Sched: the scheduling invariant of the loop, its termination and progress

    [sched_ok] is what the job queue and the reactions of a loop satisfy at
    every step: a task that waits has exactly one job or one reaction, a
    reaction is on a pending promise and a job for a settled one, and both
    belong to a task that waits at an [await] of that promise.  It holds of a
    program at its start and is kept by every call, [await] and job, on
    every engine.

    Theorems: the job queue of a program empties within [budget] jobs and
    more fuel changes nothing; at that point every task has finished, has
    failed, or is blocked: it waits at an [await] of a promise that is still
    pending, with a reaction registered, so that the call that settles the
    promise will resume it. *)

From S2P Require Import Prelude JsMonad JsArray Promise Channel Invariant Trace World.
From S2P Require Import Limits Loop.
Import Chan.

(** The values of this file are not promises. *)
#[local] Existing Instance inert.

Section sched.
Context {V : Type} `{EqDecision V} {E : Engine}.
Implicit Types (w : loop V) (t : task V) (s : state V) (c : call V) (p : promise)
  (tid i : nat) (h : heap (value V)) (x : jsval V) (ps : list promise)
  (rs : list (promise * nat)).

(** What the task [tid] awaits, if it does. *)
Definition awaits w tid : option (jsval V) := tasks w !! tid ≫= awaited.

(** An [await] of [x] can go on: [x] is a settled promise, or no promise. *)
Definition ready_for h x : bool :=
  match x with
  | JPromise p => settled_in h p
  | _ => true
  end.

(** The tasks that have a job or a reaction. *)
Definition waiters w : list nat := jobs w ++ (snd <$> reactions w).

(** The scheduling invariant; [running] is the task that runs, which has no
    job and no reaction while it does. *)
Record sched_ok (running : option nat) w : Prop := SchedOk {
  so_wf : wf (chan w) = true;
  so_nodup : NoDup (waiters w);
  so_running : ∀ tid, running = Some tid → tid ∉ waiters w;
  so_reaction : ∀ p tid, (p, tid) ∈ reactions w →
    awaits w tid = Some (JPromise p) ∧ unsettled_in (promises (chan w)) p = true;
  so_job : ∀ tid, tid ∈ jobs w →
    ∃ x, awaits w tid = Some x ∧ ready_for (promises (chan w)) x = true;
  so_waiting : ∀ tid t, tasks w !! tid = Some t → status_of t = Waiting →
    running ≠ Some tid → tid ∈ waiters w;
}.

(** No job is left. *)
Definition quiescent w : bool := bool_decide (jobs w = []).

(** The task [tid] waits for the promise [p], which is not settled, and
    will be resumed when it is. *)
Definition blocked_on w tid p : Prop :=
  awaits w tid = Some (JPromise p)
  ∧ unsettled_in (promises (chan w)) p = true
  ∧ (p, tid) ∈ reactions w.

(** The first [k] tasks have been started. *)
Definition started (k : nat) w : Prop :=
  tasks_inv (λ tid t, tid < k → status_of t ≠ Ready) w.

(** ** Waking *)

Lemma elem_of_woken tid ps rs : tid ∈ woken ps rs ↔ ∃ p, p ∈ ps ∧ (p, tid) ∈ rs.
Proof.
  unfold woken. rewrite list_elem_of_bind. split.
  - intros (p & ([q tid'] & -> & [Hq Hin]%list_elem_of_filter)%list_elem_of_fmap & Hp).
    simpl in *; subst. eauto.
  - intros (p & Hp & Hin). exists p. split; [|done].
    apply list_elem_of_fmap. exists (p, tid). by rewrite list_elem_of_filter.
Qed.

Lemma woken_filter p ps rs :
  p ∉ ps → woken ps (filter (λ r, r.1 ≠ p) rs) = woken ps rs.
Proof.
  intros Hp. unfold woken. induction ps as [|q ps IH]; [done|].
  apply not_elem_of_cons in Hp as [Hne Hp]. rewrite !bind_cons, IH by done.
  do 2 f_equal. rewrite list_filter_filter. apply list_filter_iff.
  intros [q' tid]; simpl. split; [tauto|intros ->; auto].
Qed.

(** The reactions on [ps] and the others are all the reactions. *)
Lemma woken_perm ps rs :
  NoDup ps → woken ps rs ++ (snd <$> filter (λ r, r.1 ∉ ps) rs) ≡ₚ snd <$> rs.
Proof.
  revert rs. induction ps as [|p ps IH]; intros rs Hnd.
  - simpl. by rewrite filter_all by (intros ?; apply not_elem_of_nil).
  - apply NoDup_cons in Hnd as [Hp Hnd]. unfold woken. rewrite bind_cons. fold (woken ps rs).
    rewrite <- (woken_filter p) by done.
    rewrite (list_filter_iff (λ r, r.1 ∉ (p :: ps)) (λ r, (r.1 ∉ ps) ∧ (r.1 ≠ p)));
      [|by intros ?; rewrite not_elem_of_cons; tauto].
    rewrite <- list_filter_filter, <- app_assoc, IH by done.
    by rewrite <- fmap_app, filter_app_complement.
Qed.

Lemma waiters_wake ps w : NoDup ps → waiters (wake ps w) ≡ₚ waiters w.
Proof.
  intros Hnd. unfold waiters. simpl. by rewrite <- app_assoc, woken_perm.
Qed.

(** ** The invariant, step by step *)

Lemma awaits_set_ne tid tid' t w : tid ≠ tid' → awaits (set_task tid t w) tid' = awaits w tid'.
Proof. intros Hne. unfold awaits. simpl. by rewrite list_lookup_insert_ne. Qed.

Lemma awaits_set_eq tid t w :
  tid < length (tasks w) → awaits (set_task tid t w) tid = awaited t.
Proof. intros Hlt. unfold awaits. simpl. by rewrite list_lookup_insert_eq. Qed.

Lemma awaits_enqueue tids tid w : awaits (enqueue tids w) tid = awaits w tid.
Proof. done. Qed.

Lemma awaits_react p tid' tid w : awaits (react p tid' w) tid = awaits w tid.
Proof. done. Qed.

(** A task that awaits is stopped at an [await] of a value it holds. *)
Lemma awaits_Some w tid x :
  awaits w tid = Some x →
  ∃ i rest res got,
    tasks w !! tid = Some (Task (Await i :: rest) res got Waiting) ∧ res !! i = Some x.
Proof.
  unfold awaits, awaited. destruct (tasks w !! tid) as [[[|[] rest] res got []]|];
    simpl; try done. eauto 6.
Qed.

Lemma ready_for_le h h' x : heap_le h h' → ready_for h x = true → ready_for h' x = true.
Proof. destruct x; simpl; eauto using settled_in_le. Qed.

Lemma waiters_job w tid : tid ∈ jobs w → tid ∈ waiters w.
Proof. intros ?. apply elem_of_app. by left. Qed.

Lemma waiters_reaction w p tid : (p, tid) ∈ reactions w → tid ∈ waiters w.
Proof. intros ?. apply elem_of_app. right. by apply (list_elem_of_fmap_2 snd _ (p, tid)). Qed.

Lemma sched_not_running tid w :
  sched_ok (Some tid) w → ∀ tid', tid' ∈ waiters w → tid ≠ tid'.
Proof. intros Hok tid' Hin ->. by eapply so_running. Qed.

(** A call settles only promises of [resolveQueue]; the others stay as they
    are. *)
Lemma unsettled_kept c s p :
  wf s = true → unsettled_in (promises s) p = true →
  p ∉ settled_by s (after (exec c) s) →
  unsettled_in (promises (after (exec c) s)) p = true.
Proof.
  intros Hwf Hp Hnot. destruct (decide (p ∈ resolveQueue s)) as [Hin|Hout].
  - apply wf_spec in Hwf as (_ & Hall & _). specialize (Hall p Hin).
    destruct (isClosed s); [by rewrite (unsettled_not_settled _ _ Hp) in Hall|].
    pose proof (exec_settles_any c s p Hall) as [H|H]%orb_true_iff.
    + by apply pending_unsettled.
    + destruct Hnot. by apply list_elem_of_filter.
  - unfold unsettled_in. rewrite exec_frame_any; [done..|by apply unsettled_in_lt].
Qed.

Lemma settled_by_settled c s p :
  p ∈ settled_by s (after (exec c) s) → settled_in (promises (after (exec c) s)) p = true.
Proof. by intros [[_ ?] _]%list_elem_of_filter. Qed.

(** [settled_by] reads the promises a call settled off [resolveQueue]; it
    misses none: they are exactly the promises that were not settled before
    the call and are settled after it. *)
Lemma settled_by_spec c s p :
  wf s = true →
  p ∈ settled_by s (after (exec c) s)
  ↔ unsettled_in (promises s) p = true
    ∧ settled_in (promises (after (exec c) s)) p = true.
Proof.
  intros Hwf. split.
  - intros [[Hp Hs] _]%list_elem_of_filter. split; [by apply pending_unsettled|done].
  - intros [Hp Hs]. destruct (decide (p ∈ settled_by s (after (exec c) s))) as [|Hn]; [done|].
    by rewrite (unsettled_not_settled _ _ (unsettled_kept c s p Hwf Hp Hn)) in Hs.
Qed.

Lemma settled_by_nodup s s' : wf s = true → NoDup (settled_by s s').
Proof. intros (_ & _ & Hnd)%wf_spec. by apply NoDup_filter. Qed.

(** A call keeps the invariant: the reactions on the promises it settles
    become jobs. *)
Lemma sched_call running tid c w : sched_ok running w → sched_ok running (called tid c w).
Proof.
  intros [Hwf Hnd Hrun Hr Hj Hw].
  pose proof (waiters_wake (settled_by (chan w) (after (exec c) (chan w)))
    (Loop (after (exec c) (chan w)) (tasks w) (reactions w) (jobs w) (log w ++ [(tid, c)]))
    (settled_by_nodup _ _ Hwf)) as Hperm.
  split.
  - by apply exec_wf_any.
  - by rewrite Hperm.
  - intros tid' ?. rewrite Hperm. by apply Hrun.
  - simpl. intros p tid' [Hnot Hin]%list_elem_of_filter.
    destruct (Hr _ _ Hin) as [Ha Hp]. split; [done|]. by apply unsettled_kept.
  - simpl. intros tid' [Hin|(p & Hp & Hin)%elem_of_woken]%elem_of_app.
    + destruct (Hj _ Hin) as (x & Hx & Hready). exists x. split; [done|].
      eapply ready_for_le; [apply exec_heap_le_any|done].
    + destruct (Hr _ _ Hin) as [Ha _]. exists (JPromise p). split; [done|].
      by apply settled_by_settled.
  - intros tid' t Ht Hs Hne. rewrite Hperm. by eapply Hw.
Qed.

(** Taking the next job. *)
Lemma sched_pop tid js w :
  sched_ok None w → jobs w = tid :: js → sched_ok (Some tid) (pop_job w).
Proof.
  intros [Hwf Hnd _ Hr Hj Hw] Hjobs. unfold waiters in *.
  rewrite Hjobs in Hnd, Hw. simpl in Hnd, Hw. apply NoDup_cons in Hnd as [Hnot Hnd].
  split; unfold waiters; simpl; rewrite ?Hjobs; simpl; try done.
  - by intros ? [= <-].
  - intros tid' Hin. apply Hj. rewrite Hjobs. by right.
  - intros tid' t Ht Hs Hne. pose proof (Hw _ _ Ht Hs ltac:(done)) as [->|?]%elem_of_cons; done.
Qed.

(** The task that runs stops without waiting. *)
Lemma sched_set tid t w :
  sched_ok (Some tid) w → status_of t ≠ Waiting → sched_ok None (set_task tid t w).
Proof.
  intros Hok Hst. pose proof (sched_not_running _ _ Hok) as Hne.
  destruct Hok as [Hwf Hnd Hrun Hr Hj Hw]. split; try done.
  - intros p tid' Hin. rewrite awaits_set_ne by eauto using waiters_reaction. by apply Hr.
  - intros tid' Hin. rewrite awaits_set_ne by eauto using waiters_job. by apply Hj.
  - intros tid' t' [(-> & -> & _)|[? Ht']]%list_lookup_insert_Some Hs _; [done|].
    eapply Hw; [done..|congruence].
Qed.

(** The task that runs stops at an [await] of a value that is ready: its job
    is queued. *)
Lemma sched_enqueue tid t x w :
  sched_ok (Some tid) w → tid < length (tasks w) →
  awaited t = Some x → ready_for (promises (chan w)) x = true →
  sched_ok None (enqueue [tid] (set_task tid t w)).
Proof.
  intros Hok Hlt Hx Hready. pose proof (sched_not_running _ _ Hok) as Hne.
  destruct Hok as [Hwf Hnd Hrun Hr Hj Hw].
  assert (Hperm : waiters (enqueue [tid] (set_task tid t w)) ≡ₚ tid :: waiters w).
  { unfold waiters. simpl. rewrite <- app_assoc. simpl. by rewrite <- Permutation_middle. }
  split; try done.
  - rewrite Hperm. apply NoDup_cons. auto.
  - intros p tid' Hin. rewrite awaits_enqueue, awaits_set_ne by eauto using waiters_reaction. by apply Hr.
  - simpl. intros tid' [Hin|Hin%list_elem_of_singleton]%elem_of_app; subst.
    + rewrite awaits_enqueue, awaits_set_ne by eauto using waiters_job. by apply Hj.
    + rewrite awaits_enqueue, awaits_set_eq by done. eauto.
  - intros tid' t' [(-> & -> & _)|[? Ht']]%list_lookup_insert_Some Hs _; rewrite Hperm.
    + by left.
    + right. eapply Hw; [done..|congruence].
Qed.

(** The task that runs stops at an [await] of a pending promise: it
    registers a reaction. *)
Lemma sched_react tid t p w :
  sched_ok (Some tid) w → tid < length (tasks w) →
  awaited t = Some (JPromise p) → unsettled_in (promises (chan w)) p = true →
  sched_ok None (react p tid (set_task tid t w)).
Proof.
  intros Hok Hlt Hx Hp. pose proof (sched_not_running _ _ Hok) as Hne.
  destruct Hok as [Hwf Hnd Hrun Hr Hj Hw].
  assert (Hperm : waiters (react p tid (set_task tid t w)) ≡ₚ tid :: waiters w).
  { unfold waiters. simpl. rewrite fmap_app, app_assoc. simpl. by rewrite <- Permutation_cons_append. }
  split; try done.
  - rewrite Hperm. apply NoDup_cons. auto.
  - simpl. intros q tid' [Hin|Hin%list_elem_of_singleton]%elem_of_app; simplify_eq.
    + rewrite awaits_react, awaits_set_ne by eauto using waiters_reaction. by apply Hr.
    + by rewrite awaits_react, awaits_set_eq.
  - intros tid' Hin. rewrite awaits_react, awaits_set_ne by eauto using waiters_job. by apply Hj.
  - intros tid' t' [(-> & -> & _)|[? Ht']]%list_lookup_insert_Some Hs _; rewrite Hperm.
    + by left.
    + right. eapply Hw; [done..|congruence].
Qed.

(** ** The invariant along a task *)

Lemma sched_suspend tid i rest res got w :
  sched_ok (Some tid) w → tid < length (tasks w) →
  sched_ok None (suspend tid i rest res got w).
Proof.
  intros Hok Hlt. unfold suspend.
  destruct (res !! i) as [[b|p|v]|] eqn:Hi; [|destruct (promises (chan w) !! p) as [[]|] eqn:Hp|..].
  - by eapply sched_enqueue.
  - apply sched_react; [done..|]. unfold unsettled_in. by rewrite Hp.
  - apply sched_react; [done..|]. unfold unsettled_in. by rewrite Hp.
  - eapply sched_enqueue; [done..|]. simpl. unfold settled_in. by rewrite Hp.
  - eapply sched_enqueue; [done..|]. simpl. unfold settled_in. by rewrite Hp.
  - by apply sched_set.
  - by eapply sched_enqueue.
  - by apply sched_set.
Qed.

Lemma run_code_sched tid body res got w :
  sched_ok (Some tid) w → tid < length (tasks w) →
  sched_ok None (run_code tid body res got w).
Proof.
  revert res got w; induction body as [|[c|i|i x|i] rest IH]; intros res got w Hok Hlt; simpl.
  - by apply sched_set.
  - pose proof (sched_call _ tid c w Hok) as Hok'. rewrite do_call_run.
    destruct (result (exec c) (chan w)); [by apply IH|by apply sched_set].
  - by apply sched_suspend.
  - destruct (decide _); [by apply IH|by apply sched_set].
  - destruct (res !! i) as [[b|p|v]|]; [|by apply IH|..]; by apply sched_set.
Qed.

(** A task that does not wait can run. *)
Lemma sched_enter tid w : sched_ok None w → awaits w tid = None → sched_ok (Some tid) w.
Proof.
  intros [Hwf Hnd _ Hr Hj Hw] Hnone. split; try done.
  - intros ? [= <-] [Hin|([p tid'] & -> & Hin)%list_elem_of_fmap]%elem_of_app.
    + destruct (Hj _ Hin) as (x & Hx & _). congruence.
    + destruct (Hr _ _ Hin) as [Hx _]. simpl in *. congruence.
  - intros tid' t Ht Hs _. by eapply Hw.
Qed.

Lemma start_sched tid w : sched_ok None w → sched_ok None (start tid w).
Proof.
  intros Hok. unfold start.
  destruct (tasks w !! tid) as [[body res got []]|] eqn:Ht; try done.
  apply run_code_sched; [|by eapply lookup_lt_Some].
  apply sched_enter; [done|]. unfold awaits, awaited. rewrite Ht. simpl. by destruct body as [|[]].
Qed.

(** The job of a task whose [await] is ready: the task goes on, or fails. *)
Lemma resume_ready tid i rest res got x w :
  tasks w !! tid = Some (Task (Await i :: rest) res got Waiting) → res !! i = Some x →
  ready_for (promises (chan w)) x = true →
  (∃ res' got', resume tid w = run_code tid rest res' got' w)
  ∨ (∃ f, resume tid w = set_task tid (Task rest res got (Failed f)) w).
Proof.
  intros Ht Hi Hready. unfold resume. rewrite Ht, Hi.
  destruct x as [b|p|v]; simpl in *; [by eauto| |by eauto].
  unfold settled_in in Hready.
  destruct (promises (chan w) !! p) as [[| | |]|]; try done; eauto.
Qed.

Lemma resume_sched tid js w :
  sched_ok None w → jobs w = tid :: js → sched_ok None (resume tid (pop_job w)).
Proof.
  intros Hok Hjobs. pose proof (sched_pop _ _ _ Hok Hjobs) as Hpop.
  destruct (so_job _ _ Hok tid) as (x & (i & rest & res & got & Ht & Hi)%awaits_Some & Hready).
  { rewrite Hjobs. by left. }
  destruct (resume_ready tid i rest res got x (pop_job w)) as [(res' & got' & ->)|[f ->]];
    [done..| |by apply sched_set].
  apply run_code_sched; [done|]. by eapply lookup_lt_Some.
Qed.

Lemma boot_sched s codes : wf s = true → sched_ok None (boot s codes).
Proof.
  intros Hwf. split; simpl; try done.
  - constructor.
  - by intros ? ? ?%elem_of_nil.
  - by intros ? ?%elem_of_nil.
  - intros tid t Ht Hs. rewrite list_lookup_fmap in Ht.
    destruct (codes !! tid); by simplify_eq/=.
Qed.

Lemma run_tasks_sched s codes : wf s = true → sched_ok None (run_tasks s codes).
Proof.
  intros Hwf. apply run_tasks_ind; eauto using boot_sched, start_sched, resume_sched.
Qed.

(** ** Every task is started *)

Lemma started_ran k tid w w' : ran tid w w' → started k w → started k w'.
Proof. apply tasks_inv_ran. by intros ? ? ?%stopped_started _. Qed.

(** Starting the task [k] when the tasks before it are started. *)
Lemma start_next k w : started k w → started (S k) (start k w).
Proof.
  intros Hw tid t Ht Hlt. destruct (decide (tid = k)) as [->|Hne].
  - destruct (start_ran k w) as [Hsame|(t' & Hset & ?%stopped_started)].
    + rewrite Hsame in Ht. unfold start in Hsame. rewrite Ht in Hsame.
      destruct t as [body res got []]; try done.
      destruct (run_code_tasks k body res got w) as (t' & Ht' & ?%stopped_started).
      assert (Hk : <[k := t']> (tasks w) !! k = Some t').
      { apply list_lookup_insert_eq. by eapply lookup_lt_Some. }
      rewrite <- Ht', Hsame, Ht in Hk. by simplify_eq/=.
    + rewrite Hset in Ht. by apply list_lookup_insert_Some in Ht as [(_ & <- & _)|[? _]].
  - apply (started_ran k k w _ (start_ran k w) Hw tid t Ht). lia.
Qed.

Lemma start_all_started w : started (length (tasks w)) (start_all w).
Proof.
  unfold start_all. generalize (length (tasks w)). intros n.
  induction n as [|n IH]; [by intros ? ? ? ?; lia|].
  rewrite seq_S, foldl_app. simpl. by apply start_next.
Qed.

(** ** The budget *)

Lemma budget_waiters w : budget w = 2 * work w + length (waiters w).
Proof. unfold budget, waiters. rewrite length_app, length_fmap. lia. Qed.

Lemma budget_set tid t t' w :
  tasks w !! tid = Some t →
  budget (set_task tid t' w) + 2 * length (code t) = budget w + 2 * length (code t').
Proof.
  intros Ht. unfold budget, work. simpl.
  pose proof (sum_list_with_insert (λ t, length (code t)) (tasks w) tid t t' Ht). lia.
Qed.

Lemma budget_enqueue tids w : budget (enqueue tids w) = budget w + length tids.
Proof. unfold budget, work. simpl. rewrite length_app. lia. Qed.

Lemma budget_react p tid w : budget (react p tid w) = S (budget w).
Proof. unfold budget, work. simpl. rewrite length_app. simpl. lia. Qed.

Lemma budget_call tid c w : wf (chan w) = true → budget (called tid c w) = budget w.
Proof.
  intros Hwf. rewrite !budget_waiters. unfold called.
  by rewrite waiters_wake by by apply settled_by_nodup.
Qed.

(** A task that runs uses its instructions, and one more job when it stops
    at an [await]. *)
Lemma budget_run_code tid t body res got w :
  wf (chan w) = true → tasks w !! tid = Some t →
  budget (run_code tid body res got w) + 2 * length (code t)
  ≤ budget w + 2 * length body + 1.
Proof.
  revert res got w; induction body as [|[c|i|i x|i] rest IH]; intros res got w Hwf Ht; simpl.
  - pose proof (budget_set tid t (Task [] res got Finished) w Ht). simpl in *. lia.
  - pose proof (budget_call tid c w Hwf) as Hb. rewrite do_call_run.
    destruct (result (exec c) (chan w)).
    + etrans; [apply (IH _ _ (called tid c w)); [by apply exec_wf_any|done]|]. simpl in *. lia.
    + pose proof (budget_set tid t (Task rest res got (Failed (Thrown e))) (called tid c w) Ht).
      simpl in *. lia.
  - unfold suspend.
    pose proof (budget_set tid t (Task (Await i :: rest) res got Waiting) w Ht) as Hb.
    pose proof (budget_set tid t (Task rest res got (Failed NotDefined)) w Ht) as Hb'.
    destruct (res !! i) as [[b|p|v]|]; [|destruct (_ !! p) as [[]|]|..];
      rewrite ?budget_enqueue, ?budget_react; simpl in *; lia.
  - pose proof (budget_set tid t (Task (Expect i x :: rest) res got (Failed ExpectationFailed))
      w Ht).
    destruct (decide _); [etrans; [by apply IH|]|]; simpl in *; lia.
  - pose proof (budget_set tid t (Task (ExpectPromise i :: rest) res got
      (Failed ExpectationFailed)) w Ht).
    destruct (res !! i) as [[b|p|v]|]; [|etrans; [by apply IH|]|..]; simpl in *; lia.
Qed.

(** Every job uses some of the budget. *)
Lemma budget_resume tid js w :
  sched_ok None w → jobs w = tid :: js → budget (resume tid (pop_job w)) < budget w.
Proof.
  intros Hok Hjobs.
  destruct (so_job _ _ Hok tid) as (x & (i & rest & res & got & Ht & Hi)%awaits_Some & Hready).
  { rewrite Hjobs. by left. }
  assert (Hpop : budget w = S (budget (pop_job w))).
  { unfold budget, work. simpl. rewrite Hjobs. simpl. lia. }
  destruct (resume_ready tid i rest res got x (pop_job w)) as [(res' & got' & ->)|[f ->]];
    [done..| |].
  - pose proof (budget_run_code tid _ rest res' got' (pop_job w) (so_wf _ _ Hok) Ht).
    simpl in *. lia.
  - pose proof (budget_set tid _ (Task rest res got (Failed f)) (pop_job w) Ht).
    simpl in *. lia.
Qed.

Lemma drain_quiescent n w : sched_ok None w → budget w ≤ n → jobs (drain n w) = [].
Proof.
  revert w; induction n as [|n IH]; intros w Hok Hn; simpl.
  - unfold budget in Hn. destruct (jobs w); [done|simpl in *; lia].
  - destruct (jobs w) as [|tid js] eqn:Hjobs; [done|].
    apply IH; [by eapply resume_sched|].
    pose proof (budget_resume tid js w Hok Hjobs). lia.
Qed.

(** Once the queue is empty more fuel changes nothing. *)
Lemma drain_stable n k w : jobs (drain n w) = [] → drain (n + k) w = drain n w.
Proof.
  revert w; induction n as [|n IH]; intros w; simpl.
  - intros Hj. destruct k; simpl; by rewrite ?Hj.
  - destruct (jobs w); [done|]. apply IH.
Qed.

Lemma run_tasks_started s codes : started (length codes) (run_tasks s codes).
Proof.
  unfold run_tasks. cbv zeta. apply drain_ind; [by eauto using started_ran, resume_ran|].
  pose proof (start_all_started (boot s codes)) as Hs. simpl in Hs.
  by rewrite length_fmap in Hs.
Qed.

Lemma run_tasks_jobs s codes : wf s = true → jobs (run_tasks s codes) = [].
Proof.
  intros Hwf. apply drain_quiescent; [|done].
  apply start_all_ind; eauto using boot_sched, start_sched.
Qed.

(** A task that waits when no job is left is blocked. *)
Lemma waiting_blocked tid t w :
  sched_ok None w → jobs w = [] → tasks w !! tid = Some t → status_of t = Waiting →
  ∃ p, blocked_on w tid p.
Proof.
  intros Hok Hjobs Ht Hs.
  pose proof (so_waiting _ _ Hok tid t Ht Hs ltac:(done)) as Hin.
  unfold waiters in Hin. rewrite Hjobs in Hin.
  apply list_elem_of_fmap in Hin as ([p tid'] & -> & Hin).
  destruct (so_reaction _ _ Hok _ _ Hin) as [Ha Hp]. by exists p.
Qed.

(** At the end of a program every task is started, and one that waits is
    blocked. *)
Lemma run_tasks_status s codes tid t :
  wf s = true → tasks (run_tasks s codes) !! tid = Some t →
  status_of t ≠ Ready
  ∧ (status_of t = Waiting → ∃ p, blocked_on (run_tasks s codes) tid p).
Proof.
  intros Hwf Ht. split.
  - apply (run_tasks_started s codes tid t); [done|].
    apply lookup_lt_Some in Ht. by destruct (run_tasks_trace s codes) as (_ & <- & _).
  - eauto using waiting_blocked, run_tasks_sched, run_tasks_jobs.
Qed.

(** ** The theorems *)

(** C16: The scheduling invariant holds of a program after any number of jobs. *)
Theorem sched_always s codes n :
  wf s = true → sched_ok None (drain n (start_all (boot s codes))).
Proof.
  intros Hwf. apply drain_ind; [by eauto using resume_sched|].
  apply start_all_ind; eauto using boot_sched, start_sched.
Qed.

(** C13: A program ends: within [budget] jobs the queue is empty, and more fuel
    gives the same loop. *)
Theorem terminates s codes :
  wf s = true →
  quiescent (run_tasks s codes) = true
  ∧ ∀ k, drain (budget (start_all (boot s codes)) + k) (start_all (boot s codes))
         = run_tasks s codes.
Proof.
  intros Hwf. pose proof (run_tasks_jobs s codes Hwf) as Hj. split.
  - by apply bool_decide_eq_true.
  - intros k. by apply drain_stable.
Qed.

(** C17: At the end of a program every task has finished, has failed, or is
    blocked on a promise that is still pending, with its reaction in
    place. *)
Theorem progress s codes tid t :
  wf s = true → tasks (run_tasks s codes) !! tid = Some t →
  status_of t = Finished ∨ (∃ f, status_of t = Failed f)
  ∨ ∃ p, blocked_on (run_tasks s codes) tid p.
Proof.
  intros Hwf Ht. destruct (run_tasks_status s codes tid t Hwf Ht) as [Hr Hw].
  destruct (status_of t) as [| | |f]; [done|auto|auto|eauto].
Qed.

End sched.

(** ** The theorems at concrete programs *)

#[local] Existing Instance ideal.

Lemma sched_always_witness :
  wf (createChannel (V:=nat) []) = true
  ∧ sched_ok None
      (drain 1 (start_all (boot (createChannel (V:=nat) [])
                             [[Do Take; Await 0]; [Do (Put (payload 7))]]))).
Proof.
  split; [reflexivity|].
  exact (sched_always (createChannel (V:=nat) [])
    [[Do Take; Await 0]; [Do (Put (payload 7))]] 1 eq_refl).
Defined.

Lemma terminates_witness :
  wf (createChannel (V:=nat) []) = true
  ∧ quiescent (run_tasks (createChannel (V:=nat) [])
                 [[Do Take; Await 0]; [Do (Put (payload 7))]]) = true.
Proof.
  split; [reflexivity|].
  exact (proj1 (terminates (createChannel (V:=nat) [])
                  [[Do Take; Await 0]; [Do (Put (payload 7))]] eq_refl)).
Defined.

Lemma progress_witness :
  wf (createChannel (V:=nat) []) = true
  ∧ tasks (run_tasks (createChannel (V:=nat) []) [[Do Take; Await 0]]) !! 0
    = Some (Task [Await 0] [JPromise 0] [] Waiting)
  ∧ (Waiting = Finished ∨ (∃ f, Waiting = Failed f)
     ∨ ∃ p, blocked_on (run_tasks (createChannel (V:=nat) []) [[Do Take; Await 0]]) 0 p).
Proof.
  split_all; [reflexivity..|].
  exact (progress (createChannel (V:=nat) []) [[Do Take; Await 0]] 0
    (Task [Await 0] [JPromise 0] [] Waiting) eq_refl eq_refl).
Defined.
