(* ===== verification/Program.v ===== *)
(** * Program: what the tasks of a program get from the channel

    The channel, the promises and the loop together.  A program is safe when
    each [await] names a value the task already holds ([scoped]); then a
    task fails only because an expectation does not hold: it never awaits
    something that is not there, and it never gets an exception out of a
    promise of the channel, since no operation of the channel rejects one.

    For a program on a new channel, with no other promise around, what a
    task receives from the promise of the [p]-th [take] is what the channel
    delivers to that [take] in the sequence of calls that the tasks made
    ([delivered]): the [p]-th accepted value, or [CLOSED].  And once the
    channel is closed no task hangs.  With consumers that only take and
    producers that put values enough, every task finishes
    ([handoff_completes]). *)

From S2P Require Import Prelude JsMonad JsArray Promise Channel Invariant Trace History.
From S2P Require Import Properties Tasks World Types Loop Sched.
Import Chan.

#[local] Existing Instance ideal.
#[local] Existing Instance inert.

Section program.
Context {V : Type} `{EqDecision V}.
Implicit Types (w : loop V) (t : task V) (s : state V) (c : call V) (p : promise)
  (tid i n : nat) (h : heap (value V)) (x : jsval V) (body : list (instr V))
  (res : list (jsval V)) (got : list (promise * value V)) (vs : list (value V)).

(** Each [await] of [body] names a value that the task holds by then, when
    it holds [n] values at the start. *)
Fixpoint scoped n body : bool :=
  match body with
  | [] => true
  | Do _ :: rest => scoped (S n) rest
  | Await i :: rest => bool_decide (i < n) && scoped (S n) rest
  | _ :: rest => scoped n rest
  end.

(** A value that a task may hold: a promise is one of the heap, of the type
    that [take] documents. *)
Definition val_ok h x : bool :=
  match x with
  | JPromise p => has_type h (RPromise p) take_returns
  | _ => true
  end.

(** A task stopped for a reason that a safe program allows. *)
Definition status_ok (st : status) : bool :=
  match st with
  | Failed ExpectationFailed => true
  | Failed _ => false
  | _ => true
  end.

Definition task_ok h t : bool :=
  scoped (length (results t)) (code t) && forallb (val_ok h) (results t)
  && status_ok (status_of t).

(** The safety invariant of a loop. *)
Definition safe w : bool :=
  heap_typed (promises (chan w)) && forallb (task_ok (promises (chan w))) (tasks w).

(** What a task has received, the calls made so far, and whether a task
    waits. *)
Definition received_by w tid : list (promise * value V) :=
  from_option received [] (tasks w !! tid).

Definition calls_made w : list (call V) := snd <$> log w.

Definition hangs w tid : bool :=
  bool_decide (status_of <$> tasks w !! tid = Some Waiting).

(** A body without expectations, and the task that puts the values [vs]. *)
Definition plain body : bool := forallb (λ e, negb (expects e)) body.

Definition puts_task vs : list (instr V) := (λ v, Do (Put v)) <$> vs.

(** Every task has run to its end. *)
Definition finished w : bool :=
  forallb (λ t, bool_decide (status_of t = Finished)) (tasks w).

(** ** Safety, step by step *)

Lemma val_ok_le h h' x :
  heap_le h h' → heap_typed h' = true → val_ok h x = true → val_ok h' x = true.
Proof. destruct x; [done|apply has_type_le|done]. Qed.

Lemma vals_ok_le h h' res :
  heap_le h h' → heap_typed h' = true →
  forallb (val_ok h) res = true → forallb (val_ok h') res = true.
Proof. rewrite !forallb_elem_of. eauto using val_ok_le. Qed.

Lemma task_ok_le h h' t :
  heap_le h h' → heap_typed h' = true → task_ok h t = true → task_ok h' t = true.
Proof.
  unfold task_ok. rewrite !andb_true_iff. intros ? ? [[? ?] ?]. eauto using vals_ok_le.
Qed.

Lemma safe_spec w :
  safe w = true ↔
  heap_typed (promises (chan w)) = true
  ∧ ∀ tid t, tasks w !! tid = Some t → task_ok (promises (chan w)) t = true.
Proof.
  unfold safe. rewrite andb_true_iff, forallb_elem_of. split; intros [Hh Ht]; (split; [done|]).
  - intros tid t Hin. by eapply Ht, list_elem_of_lookup_2.
  - intros t [tid Hin]%list_elem_of_lookup_1. eauto.
Qed.

Lemma safe_set tid t w :
  safe w = true → task_ok (promises (chan w)) t = true → safe (set_task tid t w) = true.
Proof.
  rewrite !safe_spec. intros [Hh Hw] Ht. split; [done|]. simpl.
  intros tid' t' [(_ & <- & _)|[_ Ht']]%list_lookup_insert_Some; eauto.
Qed.

(** On the engine without a limit a call returns its answer. *)
Lemma do_call_ideal tid c w : do_call tid c w = (Ret (answer c (chan w)), called tid c w).
Proof. rewrite do_call_run. unfold result. by rewrite (proj2 (exec_step c (chan w))). Qed.

(** A call keeps the loop safe, and its answer is a value a task may hold. *)
Lemma safe_call tid c w :
  safe w = true →
  safe (called tid c w) = true
  ∧ val_ok (promises (chan (called tid c w))) (of_ret (answer c (chan w))) = true.
Proof.
  rewrite !safe_spec. intros [Hh Hw]. simpl.
  destruct (exec_typed c (chan w) Hh) as [Ha Hh']. split_all; [done| |].
  - intros tid' t Ht. eapply task_ok_le; [apply exec_heap_le|done|eauto].
  - by destruct c.
Qed.

Lemma task_ok_waiting h i rest res got x :
  scoped (length res) (Await i :: rest) = true → forallb (val_ok h) res = true →
  task_ok h (Task (Await i :: rest) res got Waiting) = true.
Proof. unfold task_ok. simpl. by intros -> ->. Qed.

Lemma task_ok_stop h rest res got st :
  scoped (length res) rest = true → forallb (val_ok h) res = true → status_ok st = true →
  task_ok h (Task rest res got st) = true.
Proof. unfold task_ok. simpl. by intros -> -> ->. Qed.

(** In a safe task an [await] finds its value, and a promise it holds is in
    the heap and not rejected. *)
Lemma scoped_await i n rest res :
  scoped (length res) (Await i :: rest) = true →
  ∃ x, res !! i = Some x ∧ scoped (S (length res)) rest = true.
Proof.
  simpl. intros [Hi%bool_decide_eq_true Hrest]%andb_true_iff.
  destruct (lookup_lt_is_Some_2 res i Hi) as [x Hx]. eauto.
Qed.

Lemma val_ok_promise h res i p :
  forallb (val_ok h) res = true → res !! i = Some (JPromise p) →
  ∃ st, h !! p = Some st ∧ resolves st = true.
Proof.
  rewrite forallb_elem_of. intros Hres Hi%list_elem_of_lookup_2.
  specialize (Hres _ Hi). simpl in Hres. destruct (h !! p) as [st|]; [eauto|done].
Qed.

Lemma suspend_safe tid i rest res got w :
  safe w = true → scoped (length res) (Await i :: rest) = true →
  forallb (val_ok (promises (chan w))) res = true →
  safe (suspend tid i rest res got w) = true.
Proof.
  intros Hw Hsc Hres. destruct (scoped_await i (length res) rest res Hsc) as (x & Hx & _).
  pose proof (safe_set tid (Task (Await i :: rest) res got Waiting) w Hw
    (task_ok_waiting _ _ _ _ _ x Hsc Hres)) as Hset.
  unfold suspend. rewrite Hx. destruct x as [b|p|v]; [done| |done].
  by destruct (val_ok_promise _ _ _ _ Hres Hx) as ([] & -> & ?).
Qed.

Lemma run_code_safe tid body res got w :
  safe w = true → scoped (length res) body = true →
  forallb (val_ok (promises (chan w))) res = true →
  safe (run_code tid body res got w) = true.
Proof.
  revert res got w; induction body as [|[c|i|i x|i] rest IH]; intros res got w Hw Hsc Hres;
    simpl.
  - by apply safe_set, task_ok_stop.
  - destruct (safe_call tid c w Hw) as [Hw' Ha]. rewrite do_call_ideal.
    apply IH; [done|by rewrite length_app, Nat.add_1_r|].
    rewrite forallb_app. simpl in *. rewrite Ha, andb_true_r.
    apply safe_spec in Hw' as [Hh' _].
    eapply vals_ok_le; [apply exec_heap_le|done..].
  - by apply suspend_safe.
  - destruct (decide _); [by apply IH|by apply safe_set, task_ok_stop].
  - destruct (res !! i) as [[b|p|v]|]; [|by apply IH|..]; by apply safe_set, task_ok_stop.
Qed.

Lemma start_safe tid w : safe w = true → safe (start tid w) = true.
Proof.
  intros Hw. unfold start.
  destruct (tasks w !! tid) as [[body res got []]|] eqn:Ht; try done.
  apply safe_spec in Hw as Hw'. destruct Hw' as [_ Hts].
  specialize (Hts _ _ Ht). unfold task_ok in Hts. simpl in Hts.
  apply andb_true_iff in Hts as [[? ?]%andb_true_iff _]. by apply run_code_safe.
Qed.

Lemma resume_safe tid w : safe w = true → safe (resume tid (pop_job w)) = true.
Proof.
  intros Hw. unfold resume. simpl.
  destruct (tasks w !! tid) as [[[|[c|i|i x|i] rest] res got []]|] eqn:Ht; try done.
  apply safe_spec in Hw as Hw'. destruct Hw' as [_ Hts].
  specialize (Hts _ _ Ht). unfold task_ok in Hts. simpl code in Hts. simpl results in Hts.
  apply andb_true_iff in Hts as [[Hsc Hres]%andb_true_iff _].
  destruct (scoped_await i (length res) rest res Hsc) as (x & Hx & Hrest). rewrite Hx.
  assert (Hgo : ∀ y got', val_ok (promises (chan w)) y = true →
    safe (run_code tid rest (res ++ [y]) got' (pop_job w)) = true).
  { intros y got' Hy. apply run_code_safe; [done|by rewrite length_app, Nat.add_1_r|].
    rewrite forallb_app. simpl. by rewrite Hres, Hy. }
  destruct x as [b|p|v]; [by apply Hgo| |by apply Hgo].
  destruct (val_ok_promise _ _ _ _ Hres Hx) as ([| | |] & -> & ?); try done. by apply Hgo.
Qed.

Lemma boot_safe s codes :
  heap_typed (promises s) = true → forallb (scoped 0) codes = true →
  safe (boot s codes) = true.
Proof.
  intros Hh Hcodes. apply safe_spec. split; [done|]. simpl.
  intros tid t Ht. rewrite list_lookup_fmap in Ht.
  destruct (codes !! tid) as [body|] eqn:Hb; simplify_eq/=.
  unfold task_ok. simpl. rewrite andb_true_r, andb_true_r.
  by eapply forallb_elem_of, list_elem_of_lookup_2.
Qed.

Lemma run_tasks_safe s codes :
  heap_typed (promises s) = true → forallb (scoped 0) codes = true →
  safe (run_tasks s codes) = true.
Proof.
  intros Hh Hcodes. apply (run_tasks_ind (λ w, safe w = true));
    auto using boot_safe, start_safe, resume_safe.
Qed.

(** ** On a new channel *)

(** The channel of a program on a new channel represents the history of the
    calls made. *)
Lemma run_tasks_repr h0 codes :
  repr h0 (Hist (closes (calls_made (run_tasks (createChannel h0) codes)))
             (accepted (calls_made (run_tasks (createChannel h0) codes)))
             (ntakes (calls_made (run_tasks (createChannel h0) codes))))
    (chan (run_tasks (createChannel h0) codes)).
Proof.
  destruct (run_tasks_trace (createChannel h0) codes) as (-> & _).
  rewrite <- history_spec. by apply run_repr, createChannel_repr.
Qed.

(** When the channel of such a program is closed, every promise made since
    is settled. *)
Lemma closed_settled h0 codes p st :
  isClosed (chan (run_tasks (createChannel h0) codes)) = true →
  length h0 ≤ p → promises (chan (run_tasks (createChannel h0) codes)) !! p = Some st →
  settled st = true.
Proof.
  intros Hc Hp Hst. pose proof (run_tasks_repr h0 codes) as Hr.
  rewrite (repr_closed _ _ _ Hr) in Hc. simpl in Hc.
  pose proof (lookup_lt_Some _ _ _ Hst) as Hlt. rewrite (repr_length _ _ _ Hr) in Hlt.
  simpl in Hlt. pose proof (repr_takes _ _ _ Hr (p - length h0)) as Ht. simpl in Ht.
  replace (length h0 + (p - length h0)) with p in Ht by lia.
  rewrite Ht in Hst by lia. simplify_eq. by apply outcome_closed_settled.
Qed.

(** ** Several tasks *)

(** The calls logged by [n] tasks are an interleaving of the calls of
    each. *)
Lemma calls_by_interleaving n (l : list (nat * call V)) :
  Forall (λ e, e.1 < n) l →
  interleaving ((λ tid, calls_by tid l) <$> seq 0 n) (snd <$> l).
Proof.
  induction 1 as [|[tid c] l Htid _ IH]; simpl in *.
  { constructor. apply Forall_fmap, Forall_true. by intros ?. }
  apply (interleaving_cons tid c (calls_by tid l)).
  { rewrite list_lookup_fmap, lookup_seq_lt by done. simpl.
    by rewrite calls_by_cons, decide_True. }
  replace (<[tid:=_]> _) with ((λ tid, calls_by tid l) <$> seq 0 n); [done|].
  apply list_eq. intros j.
  destruct (decide (tid = j)) as [<-|Hne].
  - rewrite list_lookup_insert_eq by by rewrite length_fmap, length_seq.
    by rewrite list_lookup_fmap, lookup_seq_lt.
  - rewrite list_lookup_insert_ne, !list_lookup_fmap by done.
    destruct (seq 0 n !! j) as [tid'|] eqn:Hj; simpl; [|done].
    apply lookup_seq in Hj as [-> _]. by rewrite calls_by_cons, decide_False.
Qed.

Lemma calls_by_merge (l : list (nat * call V)) :
  Forall (λ e, e.1 < 2) l → merge (calls_by 0 l) (calls_by 1 l) (snd <$> l).
Proof. intros Hl. by apply interleaving_merge, (calls_by_interleaving 2). Qed.

Lemma finished_status w tid t :
  finished w = true → tasks w !! tid = Some t → status_of t = Finished.
Proof.
  unfold finished. rewrite forallb_elem_of. intros Hw Ht%list_elem_of_lookup_2.
  by eapply bool_decide_eq_true_1, Hw.
Qed.

(** A task that has finished has made all the calls of its code. *)
Lemma finished_calls s codes tid body t :
  codes !! tid = Some body → tasks (run_tasks s codes) !! tid = Some t →
  status_of t = Finished → calls_by tid (log (run_tasks s codes)) = calls_in body.
Proof.
  intros Hb Ht Hs. destruct (run_tasks_trace s codes) as (_ & _ & _ & Ho).
  rewrite <- (proj2 (Ho _ _ _ Hb Ht)).
  rewrite (run_tasks_inv (λ _ t, status_of t = Finished → code t = []) s codes) with tid t;
    [by rewrite app_nil_r|intros ? ? ?; by apply stopped_finished| |done..].
  intros tid' t' Ht'. simpl in Ht'. rewrite list_lookup_fmap in Ht'.
  by destruct (codes !! tid'); simplify_eq/=.
Qed.

(** ** A consumer and a producer *)

Lemma calls_in_puts_task vs : calls_in (puts_task vs) = puts vs.
Proof. unfold calls_in, puts_task, puts. induction vs; simpl; by f_equal. Qed.

Lemma scoped_puts_task n vs : scoped n (puts_task vs) = true.
Proof. revert n; induction vs; intros n; simpl; auto. Qed.

Lemma elem_of_puts_task (e : instr V) vs : e ∈ puts_task vs → ∃ v, e = Do (Put v).
Proof. intros (v & -> & _)%list_elem_of_fmap. eauto. Qed.

(** At the end of a safe program, a task that has not finished waits at an
    [await] of its code, blocked on a pending promise, or has failed at an
    expectation of its code. *)
Lemma unfinished s codes tid body t :
  wf s = true → heap_typed (promises s) = true → forallb (scoped 0) codes = true →
  codes !! tid = Some body → tasks (run_tasks s codes) !! tid = Some t →
  status_of t = Finished
  ∨ (∃ i p, Await i ∈ body ∧ blocked_on (run_tasks s codes) tid p)
  ∨ (∃ e : instr V, e ∈ body ∧ expects e = true).
Proof.
  intros Hwf Hh Hsc Hb Ht.
  destruct (run_tasks_status s codes tid t Hwf Ht) as [Hr Hw].
  pose proof (run_tasks_stopped s codes tid t Ht Hr) as Hstop.
  destruct (run_tasks_trace s codes) as (_ & _ & _ & Ho).
  destruct (Ho _ _ _ Hb Ht) as [[pre ->] _].
  destruct (status_of t) as [| | |f] eqn:Hs; [done| |by left|].
  - right; left. destruct (Hw eq_refl) as [p Hp].
    destruct (stopped_waiting t Hstop Hs) as (i & rest & Hc).
    exists i, p. split; [|done]. rewrite Hc. apply elem_of_app. right. by left.
  - right; right.
    pose proof (run_tasks_safe s codes Hh Hsc) as [_ Hts]%safe_spec.
    specialize (Hts _ _ Ht). unfold task_ok in Hts. rewrite Hs in Hts.
    apply andb_true_iff in Hts as [_ Hf]. destruct f; try done.
    destruct (stopped_expects t Hstop Hs) as (e & rest & Hc & He).
    exists e. split; [|done]. rewrite Hc. apply elem_of_app. right. by left.
Qed.

(** The task that only puts finishes. *)
Lemma puts_task_finishes s codes tid vs t :
  wf s = true → heap_typed (promises s) = true → forallb (scoped 0) codes = true →
  codes !! tid = Some (puts_task vs) → tasks (run_tasks s codes) !! tid = Some t →
  status_of t = Finished.
Proof.
  intros Hwf Hh Hsc Hb Ht.
  destruct (unfinished s codes tid _ t Hwf Hh Hsc Hb Ht)
    as [?|[(i & p & [v ?]%elem_of_puts_task & _)|(e & [v ->]%elem_of_puts_task & ?)]]; done.
Qed.

(** What each task of a safe program has called at the end: the first
    calls of its code, and all of them when it only puts. *)
Lemma calls_of_program s codes :
  wf s = true → heap_typed (promises s) = true → forallb (scoped 0) codes = true →
  Forall2 (λ cs body, cs `prefix_of` calls_in body
                      ∧ ((∃ vs, body = puts_task vs) → cs = calls_in body))
    ((λ tid, calls_by tid (log (run_tasks s codes))) <$> seq 0 (length codes)) codes.
Proof.
  intros Hwf Hh Hsc. apply Forall2_same_length_lookup_2; [by rewrite length_fmap, length_seq|].
  intros tid cs body Hcs Hb. pose proof (lookup_lt_Some _ _ _ Hb) as Hlt.
  rewrite list_lookup_fmap, lookup_seq_lt in Hcs by done. simplify_eq/=.
  destruct (run_tasks_trace s codes) as (_ & Hn & _ & Ho).
  destruct (lookup_lt_is_Some_2 (tasks (run_tasks s codes)) tid) as [t Ht]; [by rewrite Hn|].
  split.
  - exists (calls_in (code t)). symmetry. by apply Ho.
  - intros [vs ->]. eapply finished_calls; [done..|]. by eapply puts_task_finishes.
Qed.

(** With consumers that take [ns] times and producers that put the values
    [vss], at least as many as the takes: every promise of the channel
    holds the value at its place in an interleaving of [vss]. *)
Lemma handoff_served consumers ns vss :
  Forall2 (λ a n, calls_in a = takes n) consumers ns →
  sum_list ns ≤ sum_list_with length vss →
  forallb (scoped 0) (consumers ++ (puts_task <$> vss)) = true →
  ∃ ws, interleaving vss ws
    ∧ ∀ p st,
        promises (chan (run_tasks (createChannel []) (consumers ++ (puts_task <$> vss)))) !! p
        = Some st →
        ∃ v, ws !! p = Some v ∧ st = Fulfilled v.
Proof.
  intros Hns Hsum Hsc.
  pose proof (calls_of_program (createChannel []) _ (createChannel_wf []) eq_refl Hsc) as Hcs.
  apply Forall2_app_inv_r in Hcs as (css & pss & Hcss & Hpss & Heq).
  assert (pss = puts <$> vss) as ->.
  { apply list_eq_Forall2, Forall2_fmap_r. apply Forall2_fmap_r in Hpss.
    eapply Forall2_impl; [exact Hpss|]. simpl. intros cs vs [_ ->]; [|by eexists].
    apply calls_in_puts_task. }
  assert (Forall2 (λ cs n, cs `prefix_of` takes n) css ns) as Hpre.
  { eapply Forall2_trans; [|exact Hcss|exact Hns]. simpl. by intros cs a n [? _] <-. }
  destruct (run_tasks_trace (createChannel []) (consumers ++ (puts_task <$> vss)))
    as (Hchan & _ & Hlog & _).
  pose proof (calls_by_interleaving _ _ Hlog) as Hi. rewrite Heq in Hi.
  destruct (consumers_served [] css ns vss _ Hpre Hsum Hi) as [Hws Hserved].
  eexists. split; [exact Hws|]. intros p st Hp.
  pose proof (lookup_lt_Some _ _ _ Hp) as Hlt.
  rewrite (repr_length _ _ _ (run_tasks_repr [] _)) in Hlt.
  destruct (Hserved p Hlt) as (v & Hv & Hpv). exists v. split; [done|].
  rewrite Hchan in Hp. simpl in Hpv. congruence.
Qed.

(** ** The theorems *)

(** A task of a safe program fails only on an expectation: no [await] of
    something undefined, no exception out of a promise. *)
Theorem only_expectations_fail s codes tid t f :
  heap_typed (promises s) = true → forallb (scoped 0) codes = true →
  tasks (run_tasks s codes) !! tid = Some t → status_of t = Failed f →
  f = ExpectationFailed.
Proof.
  intros Hh Hcodes Ht Hs.
  pose proof (run_tasks_safe s codes Hh Hcodes) as [_ Hts]%safe_spec.
  specialize (Hts _ _ Ht). unfold task_ok in Hts. rewrite Hs in Hts.
  apply andb_true_iff in Hts as [_ Hf]. by destruct f.
Qed.

(** C15: What a task received from the promise of a [take] is what the channel
    delivers to that [take] in the sequence of the calls made. *)
Theorem await_delivers h0 codes tid p v :
  (p, v) ∈ received_by (run_tasks (createChannel h0) codes) tid → length h0 ≤ p →
  delivered (calls_made (run_tasks (createChannel h0) codes)) (p - length h0) = Fulfilled v.
Proof.
  unfold received_by. intros Hin Hp.
  destruct (tasks _ !! tid) as [t|] eqn:Ht; simpl in Hin; [|by apply elem_of_nil in Hin].
  pose proof (run_tasks_received _ _ _ _ Ht _ _ Hin) as Hv.
  pose proof (run_tasks_repr h0 codes) as Hr.
  pose proof (lookup_lt_Some _ _ _ Hv) as Hlt. rewrite (repr_length _ _ _ Hr) in Hlt.
  simpl in Hlt. pose proof (repr_takes _ _ _ Hr (p - length h0)) as Hd. simpl in Hd.
  replace (length h0 + (p - length h0)) with p in Hd by lia.
  rewrite Hd in Hv by lia. by simplify_eq.
Qed.

(** C18: Once the channel is closed no task hangs: on a new channel, with no
    other promise around, every [await] of a program goes on. *)
Theorem close_releases codes tid :
  isClosed (chan (run_tasks (createChannel []) codes)) = true →
  hangs (run_tasks (createChannel []) codes) tid = false.
Proof.
  intros Hc. apply bool_decide_eq_false. intros Hh.
  destruct (tasks _ !! tid) as [t|] eqn:Ht; simplify_eq/=.
  destruct (run_tasks_status (createChannel []) codes tid t) as [_ [p Hb]]; [done..|].
  destruct Hb as (_ & (st & Hp & Hs)%unsettled_in_spec & _).
  pose proof (closed_settled [] codes p _ Hc ltac:(simpl; lia) Hp). congruence.
Qed.

(** A safe program on a new channel, with no other promise around, that
    closes the channel: every task finishes, or stops at an expectation. *)
Theorem closed_program_ends codes tid t :
  forallb (scoped 0) codes = true →
  isClosed (chan (run_tasks (createChannel []) codes)) = true →
  tasks (run_tasks (createChannel []) codes) !! tid = Some t →
  status_of t = Finished ∨ status_of t = Failed ExpectationFailed.
Proof.
  intros Hcodes Hc Ht.
  destruct (run_tasks_status (createChannel []) codes tid t) as [Hr Hw]; [done..|].
  pose proof (run_tasks_safe (createChannel []) codes eq_refl Hcodes) as [_ Hts]%safe_spec.
  specialize (Hts _ _ Ht). unfold task_ok in Hts. apply andb_true_iff in Hts as [_ Hf].
  destruct (status_of t) as [| | |[]]; try done; auto.
  destruct Hw as (p & _ & (st & Hp & Hs)%unsettled_in_spec & _); [done|].
  pose proof (closed_settled [] codes p _ Hc ltac:(simpl; lia) Hp). congruence.
Qed.

(** The channel sees the calls of the tasks of a program interleaved: each
    task's calls in the order it made them, whatever the [await]s made of
    the rest. *)
Theorem tasks_interleave s codes :
  interleaving ((λ tid, calls_by tid (log (run_tasks s codes))) <$> seq 0 (length codes))
    (calls_made (run_tasks s codes)).
Proof.
  apply calls_by_interleaving. by destruct (run_tasks_trace s codes) as (_ & _ & ? & _).
Qed.

(** For two tasks that is [merge]. *)
Corollary two_tasks_interleave s a b :
  merge (calls_by 0 (log (run_tasks s [a; b]))) (calls_by 1 (log (run_tasks s [a; b])))
    (calls_made (run_tasks s [a; b])).
Proof. apply calls_by_merge. by destruct (run_tasks_trace s [a; b]) as (_ & _ & ? & _). Qed.

(** A consumer task that takes [n] times and a producer task that puts the
    values [vs], with any [await]s and expectations in between: when both
    have finished, the [i]-th [take] of the consumer holds the [i]-th value
    of the producer, and is pending if there is none. *)
Theorem producer_consumer h0 a b vs n i :
  calls_in a = takes n → calls_in b = puts vs →
  finished (run_tasks (createChannel h0) [a; b]) = true →
  i < n →
  promises (chan (run_tasks (createChannel h0) [a; b])) !! (length h0 + i)
  = Some (served vs i).
Proof.
  intros Ha Hb Hfin Hi.
  pose proof (calls_by_merge (log (run_tasks (createChannel h0) [a; b]))) as Hm.
  destruct (run_tasks_trace (createChannel h0) [a; b]) as (-> & Hn & Hl & _).
  specialize (Hm Hl).
  destruct (lookup_lt_is_Some_2 (tasks (run_tasks (createChannel h0) [a; b])) 0) as [ta Hta];
    [rewrite Hn; simpl; lia|].
  destruct (lookup_lt_is_Some_2 (tasks (run_tasks (createChannel h0) [a; b])) 1) as [tb Htb];
    [rewrite Hn; simpl; lia|].
  rewrite (finished_calls _ [a; b] 0 a ta), (finished_calls _ [a; b] 1 b tb), Ha, Hb in Hm
    by eauto using finished_status.
  apply merge_sym in Hm. pose proof (ntakes_merge _ _ _ Hm) as Hnt.
  pose proof (closes_merge _ _ _ Hm) as Hc.
  pose proof (accepted_merge_takes _ _ _ (closes_puts vs) Hm) as Hacc.
  autorewrite with queue in Hnt, Hc, Hacc. simpl in Hc.
  rewrite take_gets by lia. by rewrite served_delivered, Hacc.
Qed.

(** C14: Any number of consumers that take, awaiting as they like, and of
    producers that put at least as many values as are taken: every task
    finishes, and what any consumer received from the [p]-th take of the
    program is the [p]-th value of one interleaving of the values of the
    producers.  No consumer is left waiting when enough values are put,
    and each producer's values are received in its order. *)
Theorem handoff_completes consumers ns vss :
  forallb plain consumers = true → forallb (scoped 0) consumers = true →
  Forall2 (λ a n, calls_in a = takes n) consumers ns →
  sum_list ns ≤ sum_list_with length vss →
  finished (run_tasks (createChannel []) (consumers ++ (puts_task <$> vss))) = true
  ∧ ∃ ws, interleaving vss ws
      ∧ ∀ tid p v,
          (p, v) ∈ received_by
                     (run_tasks (createChannel []) (consumers ++ (puts_task <$> vss))) tid →
          ws !! p = Some v.
Proof.
  intros Hplain Hsc Hns Hsum.
  assert (Hcodes : forallb (scoped 0) (consumers ++ (puts_task <$> vss)) = true).
  { rewrite forallb_app, Hsc. apply forallb_elem_of.
    intros b (vs & -> & _)%list_elem_of_fmap. apply scoped_puts_task. }
  destruct (handoff_served consumers ns vss Hns Hsum Hcodes) as (ws & Hws & Hserved).
  split; cycle 1.
  { exists ws. split; [done|]. unfold received_by. intros tid p v Hin.
    destruct (tasks _ !! tid) as [t|] eqn:Ht; simpl in Hin; [|by apply elem_of_nil in Hin].
    destruct (Hserved p _ (run_tasks_received _ _ _ _ Ht _ _ Hin)) as (v' & Hv' & ?).
    by simplify_eq. }
  unfold finished. apply forallb_elem_of. intros t [tid Ht]%list_elem_of_lookup_1.
  apply bool_decide_eq_true.
  destruct (run_tasks_trace (createChannel []) (consumers ++ (puts_task <$> vss)))
    as (_ & Hlen & _).
  pose proof (lookup_lt_Some _ _ _ Ht) as Hlt. rewrite Hlen in Hlt.
  destruct (lookup_lt_is_Some_2 _ _ Hlt) as [body Hb].
  destruct (unfinished (createChannel []) _ tid body t (createChannel_wf []) eq_refl Hcodes Hb Ht)
    as [?|[(i & p & _ & Hp)|(e & He & Hx)]]; [done| |].
  - destruct Hp as (_ & (st & Hp & Hs)%unsettled_in_spec & _).
    by destruct (Hserved p st Hp) as (? & _ & ->).
  - apply lookup_app_Some in Hb as [Hb|[_ Hb]].
    + rewrite forallb_elem_of in Hplain.
      specialize (Hplain body (list_elem_of_lookup_2 _ _ _ Hb)). unfold plain in Hplain.
      rewrite forallb_elem_of in Hplain. specialize (Hplain _ He). by rewrite Hx in Hplain.
    + rewrite list_lookup_fmap in Hb. destruct (vss !! _); simplify_eq/=.
      by apply elem_of_puts_task in He as [v ->].
Qed.

End program.

(** ** The theorems at concrete programs *)

Lemma only_expectations_fail_witness :
  heap_typed (promises (createChannel (V:=nat) [])) = true
  ∧ forallb (scoped 0) [[Do (Close (V:=nat)); Expect 0 (JBool false)]] = true
  ∧ tasks (run_tasks (createChannel (V:=nat) []) [[Do Close; Expect 0 (JBool false)]]) !! 0
    = Some (Task [Expect 0 (JBool false)] [JBool true] [] (Failed ExpectationFailed))
  ∧ ExpectationFailed = ExpectationFailed.
Proof.
  split_all; [reflexivity..|].
  exact (only_expectations_fail (createChannel (V:=nat) [])
    [[Do Close; Expect 0 (JBool false)]] 0 _ ExpectationFailed eq_refl eq_refl eq_refl eq_refl).
Defined.

Lemma await_delivers_witness :
  (0, payload 7) ∈ received_by
     (run_tasks (createChannel (V:=nat) []) [[Do Take; Await 0]; [Do (Put (payload 7))]]) 0
  ∧ delivered (calls_made
       (run_tasks (createChannel (V:=nat) []) [[Do Take; Await 0]; [Do (Put (payload 7))]]))
      (0 - 0) = Fulfilled (payload 7).
Proof.
  assert (H : (0, payload 7) ∈ received_by
     (run_tasks (createChannel (V:=nat) []) [[Do Take; Await 0]; [Do (Put (payload 7))]]) 0)
    by apply list_elem_of_here.
  split; [exact H|].
  exact (await_delivers (V:=nat) [] [[Do Take; Await 0]; [Do (Put (payload 7))]] 0 0
    (payload 7) H (le_n 0)).
Defined.

Lemma close_releases_witness :
  isClosed (chan (run_tasks (createChannel (V:=nat) []) [[Do Take; Await 0]; [Do Close]]))
  = true
  ∧ hangs (run_tasks (createChannel (V:=nat) []) [[Do Take; Await 0]; [Do Close]]) 0 = false.
Proof.
  split; [reflexivity|].
  exact (close_releases (V:=nat) [[Do Take; Await 0]; [Do Close]] 0 eq_refl).
Defined.

Lemma closed_program_ends_witness :
  forallb (scoped 0) [[Do (Take (V:=nat)); Await 0]; [Do Close]] = true
  ∧ isClosed (chan (run_tasks (createChannel (V:=nat) []) [[Do Take; Await 0]; [Do Close]]))
    = true
  ∧ (Finished = Finished ∨ Finished = Failed ExpectationFailed).
Proof.
  split_all; [reflexivity..|].
  exact (closed_program_ends (V:=nat) [[Do Take; Await 0]; [Do Close]] 0
    (Task [] [JPromise 0; JValue CLOSED] [(0, CLOSED)] Finished) eq_refl eq_refl eq_refl).
Defined.

Example two_tasks_interleave_example :
  merge [Take (V:=nat)] [Put (payload 7)]
    (calls_made (run_tasks (createChannel (V:=nat) []) [[Do Take; Await 0]; [Do (Put (payload 7))]])).
Proof.
  exact (two_tasks_interleave (createChannel (V:=nat) [])
    [Do Take; Await 0] [Do (Put (payload 7))]).
Qed.

Lemma producer_consumer_witness :
  finished (run_tasks (createChannel (V:=nat) [])
              [[Do Take; Await 0; Do Take; Await 2]; [Do (Put (payload 7)); Do (Put (payload 8))]])
  = true
  ∧ promises (chan (run_tasks (createChannel (V:=nat) [])
              [[Do Take; Await 0; Do Take; Await 2]; [Do (Put (payload 7)); Do (Put (payload 8))]]))
      !! (0 + 1) = Some (served [payload 7; payload 8] 1).
Proof.
  split; [reflexivity|].
  exact (producer_consumer (V:=nat) [] [Do Take; Await 0; Do Take; Await 2]
    [Do (Put (payload 7)); Do (Put (payload 8))] [payload 7; payload 8] 2 1
    eq_refl eq_refl eq_refl (le_n 2)).
Defined.

Lemma handoff_completes_witness :
  finished (run_tasks (createChannel (V:=nat) [])
              ([[Do Take; Do Take; Await 1; Await 0]; [Do Take; Await 0]]
               ++ (puts_task <$> [[payload 7; payload 8]; [payload 9]])))
  = true
  ∧ ∃ ws, interleaving [[payload 7; payload 8]; [payload 9]] ws
      ∧ ∀ tid p v, (p, v) ∈ received_by
          (run_tasks (createChannel (V:=nat) [])
             ([[Do Take; Do Take; Await 1; Await 0]; [Do Take; Await 0]]
              ++ (puts_task <$> [[payload 7; payload 8]; [payload 9]]))) tid →
        ws !! p = Some v.
Proof.
  apply (handoff_completes (V:=nat) [[Do Take; Do Take; Await 1; Await 0]; [Do Take; Await 0]]
    [2; 1] [[payload 7; payload 8]; [payload 9]] eq_refl eq_refl).
  - by repeat constructor.
  - simpl. lia.
Defined.
