(* ===== verification/Faults.v ===== *)
(** * Faults: programs on an engine that bounds the length of arrays

    [Loop] runs tasks on any engine.  Where [push] can throw, a call of
    [put] can throw in the middle of a task and [take] can return a promise
    that is rejected; the task then stops as an [async] function does, with
    the exception thrown or with the reason of the rejection.

    A program that makes no more calls than the queues have room for never
    sees any of this: it runs exactly as on the engine without a limit
    ([tasks_below]).  A producer that puts more values than the engine lets
    an array hold, with no consumer, fails at the first [put] that does not
    fit and the values before it stay in the buffer ([flood_overflows]); a
    consumer that takes once more than [resolveQueue] can hold gets a
    rejected promise and fails when it awaits it ([starve_rejected]). *)

From S2P Require Import Prelude JsMonad JsArray Promise Channel Invariant Trace World.
From S2P Require Import Limits Loop Sched.
Import Chan.

(** The values of this file are not promises. *)
#[local] Existing Instance inert.

(** The calls left in the code of the tasks of a loop, and in a program. *)
Definition calls_left {V} (w : loop V) : nat :=
  sum_list_with (λ t, length (calls_in (code t))) (tasks w).

Definition calls_of {V} (codes : list (list (instr V))) : nat :=
  sum_list_with (λ body, length (calls_in body)) codes.

(** A producer that puts [v] [n] times, and a consumer that takes [n] times
    and then awaits its last take. *)
Definition flood {V} (n : nat) (v : value V) : list (instr V) := replicate n (Do (Put v)).

Definition starve {V} (n : nat) : list (instr V) :=
  replicate n (Do (Take (V:=V))) ++ [Await (pred n)].

(** ** Below the limit *)

Section below.
Context {V : Type} `{EqDecision V} {E : Engine}.
Implicit Types (w : loop V) (t : task V) (s : state V) (c : call V) (tid n : nat)
  (cs : list (call V)) (body : list (instr V)).

Lemma room_le n m s : n ≤ m → room m s = true → room n s = true.
Proof.
  unfold room. intros Hle [Hm Hr]%andb_true_iff. apply andb_true_iff.
  split; eapply fits_le; [|exact Hm| |exact Hr]; lia.
Qed.

Lemma room_final cs n s :
  room (length cs + n) s = true → room n (final (E:=ideal) cs s) = true.
Proof.
  revert s; induction cs as [|c cs IH]; intros s Hr; [done|].
  simpl. apply IH. by apply room_exec.
Qed.

(** A task whose calls have room runs as on the engine without a limit. *)
Lemma run_code_below tid body rs got w :
  room (length (calls_in body)) (chan w) = true →
  run_code tid body rs got w = run_code (E:=ideal) tid body rs got w.
Proof.
  revert rs got w; induction body as [|[c|i|i x|i] rest IH]; intros rs got w Hr; simpl in *;
    [done| |done|by destruct (decide _); auto|by destruct (rs !! i) as [[]|]; auto].
  rewrite !do_call_run. unfold called, result, after.
  rewrite exec_below by by eapply room_S.
  destruct (exec (E:=ideal) c (chan w)) as [[r|e] s'] eqn:Hex; [|done].
  apply IH. simpl. pose proof (room_exec _ c _ Hr) as Hr'. unfold after in Hr'.
  by rewrite Hex in Hr'.
Qed.

Lemma calls_left_ge tid t w :
  tasks w !! tid = Some t → length (calls_in (code t)) ≤ calls_left w.
Proof.
  intros Ht%list_elem_of_lookup_2.
  by apply (sum_list_with_in _ (λ t, length (calls_in (code t)))).
Qed.

Lemma set_left tid t t' w :
  tasks w !! tid = Some t → calls_in (code t') = calls_in (code t) →
  calls_left (set_task tid t' w) = calls_left w.
Proof.
  intros Ht Hc. unfold calls_left. simpl.
  pose proof (sum_list_with_insert (λ t, length (calls_in (code t))) _ _ _ t' Ht) as Hs.
  simpl in Hs. rewrite Hc in Hs. lia.
Qed.

(** The calls a task makes when it runs are no longer left. *)
Lemma run_code_left tid t body rs got w :
  tasks w !! tid = Some t → calls_in body = calls_in (code t) →
  ∃ cs, chan (run_code (E:=ideal) tid body rs got w) = final (E:=ideal) cs (chan w)
        ∧ calls_left (run_code (E:=ideal) tid body rs got w) + length cs = calls_left w.
Proof.
  intros Ht Hb.
  destruct (run_code_calls (E:=ideal) tid body rs got w) as (cs & t' & Hc & _ & Hts & _ & Hcs).
  exists cs. split; [done|]. unfold calls_left. rewrite Hts.
  pose proof (sum_list_with_insert (λ t, length (calls_in (code t))) _ _ _ t' Ht) as Hs.
  simpl in Hs. rewrite <- Hb, <- Hcs, length_app in Hs. lia.
Qed.

Lemma start_left tid w :
  ∃ cs, chan (start (E:=ideal) tid w) = final (E:=ideal) cs (chan w)
        ∧ calls_left (start (E:=ideal) tid w) + length cs = calls_left w.
Proof.
  unfold start. destruct (tasks w !! tid) as [[body rs got []]|] eqn:Ht;
    try (by exists []; simpl; rewrite Nat.add_0_r).
  by eapply run_code_left.
Qed.

Lemma resume_left tid w :
  ∃ cs, chan (resume (E:=ideal) tid (pop_job w)) = final (E:=ideal) cs (chan w)
        ∧ calls_left (resume (E:=ideal) tid (pop_job w)) + length cs = calls_left w.
Proof.
  unfold resume. simpl.
  destruct (tasks w !! tid) as [[[|[c|i|i x|i] rest] rs got []]|] eqn:Ht;
    try (by exists []; simpl; rewrite Nat.add_0_r).
  assert (Hset : ∀ st, ∃ cs,
    chan (set_task tid (Task rest rs got st) (pop_job w)) = final (E:=ideal) cs (chan w)
    ∧ calls_left (set_task tid (Task rest rs got st) (pop_job w)) + length cs = calls_left w).
  { intros st. exists []. split; [done|]. rewrite (set_left _ _ _ (pop_job w) Ht) by done.
    simpl. by rewrite Nat.add_0_r. }
  destruct (rs !! i) as [[b|p|v]|]; [|destruct (promises (chan w) !! p) as [[| | |]|]|..];
    try apply Hset; try (by eapply (run_code_left _ _ _ _ _ (pop_job w)));
    by exists []; simpl; rewrite Nat.add_0_r.
Qed.

(** While the calls left have room, each step of the loop is the step of the
    engine without a limit, and leaves room for the calls still left. *)
Lemma room_left cs w w' :
  room (calls_left w) (chan w) = true →
  chan w' = final (E:=ideal) cs (chan w) → calls_left w' + length cs = calls_left w →
  room (calls_left w') (chan w') = true.
Proof.
  intros Hr -> Hl. apply room_final. by rewrite Nat.add_comm, Hl.
Qed.

Lemma start_below tid w :
  room (calls_left w) (chan w) = true →
  start tid w = start (E:=ideal) tid w
  ∧ room (calls_left (start (E:=ideal) tid w)) (chan (start (E:=ideal) tid w)) = true.
Proof.
  intros Hr. split.
  - unfold start. destruct (tasks w !! tid) as [[body rs got []]|] eqn:Ht; try done.
    apply run_code_below. eapply room_le; [|done]. apply (calls_left_ge _ _ _ Ht).
  - destruct (start_left tid w) as (cs & Hc & Hl). by eapply room_left.
Qed.

Lemma resume_below tid w :
  room (calls_left w) (chan w) = true →
  resume tid (pop_job w) = resume (E:=ideal) tid (pop_job w)
  ∧ room (calls_left (resume (E:=ideal) tid (pop_job w)))
      (chan (resume (E:=ideal) tid (pop_job w))) = true.
Proof.
  intros Hr. split.
  - unfold resume. simpl.
    destruct (tasks w !! tid) as [[[|[c|i|i x|i] rest] rs got []]|] eqn:Ht; try done.
    assert (room (length (calls_in rest)) (chan (pop_job w)) = true).
    { eapply room_le; [|done]. apply (calls_left_ge _ _ _ Ht). }
    destruct (rs !! i) as [[b|p|v]|]; [|destruct (promises (chan w) !! p) as [[| | |]|]|..];
      try done; by apply run_code_below.
  - destruct (resume_left tid w) as (cs & Hc & Hl). by eapply room_left.
Qed.

Lemma drain_below n w :
  room (calls_left w) (chan w) = true → drain n w = drain (E:=ideal) n w.
Proof.
  revert w; induction n as [|n IH]; intros w Hr; simpl; [done|].
  destruct (jobs w) as [|tid js]; [done|].
  destruct (resume_below tid w Hr) as [-> Hr']. by apply IH.
Qed.

Lemma start_all_below w :
  room (calls_left w) (chan w) = true →
  start_all w = start_all (E:=ideal) w
  ∧ room (calls_left (start_all (E:=ideal) w)) (chan (start_all (E:=ideal) w)) = true.
Proof.
  unfold start_all. generalize (seq 0 (length (tasks w))). intros tids.
  revert w; induction tids as [|tid tids IH]; intros w Hr; simpl; [done|].
  destruct (start_below tid w Hr) as [-> Hr']. by apply IH.
Qed.

Lemma calls_left_boot s codes : calls_left (boot s codes) = calls_of codes.
Proof.
  unfold calls_left, calls_of. simpl. induction codes as [|body codes IH]; simpl; [done|].
  by f_equal.
Qed.

(** ** The theorems *)

(** A program whose calls all have room in the queues runs on any engine
    exactly as on the engine without a limit: same tasks, same channel, same
    log. *)
Theorem tasks_below s codes :
  room (calls_of codes) s = true → run_tasks s codes = run_tasks (E:=ideal) s codes.
Proof.
  intros Hr. unfold run_tasks. cbv zeta.
  destruct (start_all_below (boot s codes)) as [-> Hr']; [by rewrite calls_left_boot|].
  by apply drain_below.
Qed.

End below.

(** ** At the limit *)

Section limit.
Context {V : Type} `{EqDecision V} {E : Engine}.
Implicit Types (w : loop V) (s : state V) (v : value V) (tid j m : nat)
  (rs : list (jsval V)) (got : list (promise * value V)).

Lemma wake_nil w : wake [] w = w.
Proof.
  destruct w. unfold wake. simpl.
  by rewrite filter_all, app_nil_r by (intros ?; apply not_elem_of_nil).
Qed.

(** A call that leaves every promise of [resolveQueue] as it was settles
    nothing. *)
Lemma settled_by_kept s s' :
  (∀ p, p ∈ resolveQueue s → pending_in (promises s) p = true →
        pending_in (promises s') p = true) →
  settled_by s s' = [].
Proof.
  intros Hk. apply filter_none. intros p Hp [Hb Ha].
  specialize (Hk p Hp Hb). apply pending_unsettled, unsettled_not_settled in Hk. congruence.
Qed.

Lemma drain_idle n w : jobs w = [] → drain n w = w.
Proof. intros Hj. destruct n; simpl; by rewrite ?Hj. Qed.

(** A program of one task: the task runs to its first [await], then the
    jobs run; with one job, the task is resumed once. *)
Lemma run_tasks_one s body :
  run_tasks s [body]
  = drain (budget (run_code 0 body [] [] (boot s [body])))
      (run_code 0 body [] [] (boot s [body])).
Proof. done. Qed.

Lemma drain_one tid w :
  jobs w = [tid] → jobs (resume tid (pop_job w)) = [] →
  drain (budget w) w = resume tid (pop_job w).
Proof.
  intros Hj Hj'. unfold budget. rewrite Hj. simpl length.
  replace (2 * work w + 1 + length (reactions w)) with (S (2 * work w + length (reactions w)))
    by lia.
  simpl. rewrite Hj. by apply drain_idle.
Qed.

(** A task that awaits a rejected promise, when no other job is there: its
    job runs and the task fails with the reason of the rejection. *)
Lemma await_rejected tid i rest rs got p e w :
  rs !! i = Some (JPromise p) → promises (chan w) !! p = Some (Rejected e) →
  tid < length (tasks w) → jobs w = [] →
  drain (budget (suspend tid i rest rs got w)) (suspend tid i rest rs got w)
  = set_task tid (Task rest rs got (Failed (RejectedWith e))) w.
Proof.
  intros Hi Hp Hlt Hj. unfold suspend. rewrite Hi, Hp.
  assert (Hres : resume tid (pop_job
      (enqueue [tid] (set_task tid (Task (Await i :: rest) rs got Waiting) w)))
    = set_task tid (Task rest rs got (Failed (RejectedWith e))) w).
  { unfold resume, pop_job, enqueue, set_task. cbn [tasks chan jobs reactions log].
    rewrite list_lookup_insert_eq, Hi, Hp by done. cbn [tasks chan jobs reactions log].
    by rewrite list_insert_insert_eq, Hj. }
  rewrite (drain_one tid); [done|by simpl; rewrite Hj|by rewrite Hres].
Qed.

(** [put] by a task, with room in the buffer and without. *)
Lemma do_call_put_buffer tid v w :
  isClosed (chan w) = false → resolveQueue (chan w) = [] →
  Arr.fits (length (messageQueue (chan w))) = true →
  do_call tid (Put v) w =
  (Ret (RBool true),
   Loop (State false (messageQueue (chan w) ++ [v]) [] (promises (chan w)))
     (tasks w) (reactions w) (jobs w) (log w ++ [(tid, Put v)])).
Proof.
  intros Hc Hrq Hf. unfold do_call, exec. js_unfold.
  rewrite put_below, put_buffer by auto.
  by rewrite settled_by_kept, wake_nil by (rewrite Hrq; by intros ? ?%elem_of_nil).
Qed.

Lemma do_call_put_full tid v w :
  isClosed (chan w) = false → resolveQueue (chan w) = [] →
  Arr.fits (length (messageQueue (chan w))) = false →
  do_call tid (Put v) w =
  (Throw RangeError,
   Loop (chan w) (tasks w) (reactions w) (jobs w) (log w ++ [(tid, Put v)])).
Proof.
  intros Hc Hrq Hf. unfold do_call, exec. js_unfold. rewrite put_full_run by done.
  by rewrite settled_by_kept, wake_nil by auto.
Qed.

(** [take] by a task on an open, empty channel, with room for one more
    consumer and without. *)
Lemma do_call_take_pending tid w :
  isClosed (chan w) = false → messageQueue (chan w) = [] →
  Arr.fits (length (resolveQueue (chan w))) = true →
  do_call tid Take w =
  (Ret (RPromise (length (promises (chan w)))),
   Loop (State false [] (resolveQueue (chan w) ++ [length (promises (chan w))])
           (promises (chan w) ++ [Pending]))
     (tasks w) (reactions w) (jobs w) (log w ++ [(tid, Take)])).
Proof.
  intros Hc Hmq Hf. unfold do_call, exec. js_unfold. rewrite take_pending_fits by done.
  by rewrite settled_by_kept, wake_nil by (intros; by apply pending_in_snoc).
Qed.

Lemma do_call_take_full tid w :
  isClosed (chan w) = false → messageQueue (chan w) = [] →
  Arr.fits (length (resolveQueue (chan w))) = false →
  do_call tid Take w =
  (Ret (RPromise (length (promises (chan w)))),
   Loop (State false [] (resolveQueue (chan w))
           (promises (chan w) ++ [Rejected RangeError]))
     (tasks w) (reactions w) (jobs w) (log w ++ [(tid, Take)])).
Proof.
  intros Hc Hmq Hf. unfold do_call, exec. js_unfold. rewrite take_full_run by done.
  by rewrite settled_by_kept, wake_nil by (intros; by apply pending_in_snoc).
Qed.

(** A producer with no consumer: the values that fit are buffered, the
    first [put] that does not fit throws. *)
Lemma run_flood tid j m v rs got w :
  isClosed (chan w) = false → resolveQueue (chan w) = [] →
  (∀ i, i < j → Arr.fits (length (messageQueue (chan w)) + i) = true) →
  Arr.fits (length (messageQueue (chan w)) + j) = false →
  run_code tid (flood (j + S m) v) rs got w =
  set_task tid (Task (flood m v) (rs ++ replicate j (JBool true)) got (Failed (Thrown RangeError)))
    (Loop (State false (messageQueue (chan w) ++ replicate j v) [] (promises (chan w)))
       (tasks w) (reactions w) (jobs w) (log w ++ replicate (S j) (tid, Put v))).
Proof.
  revert rs w; induction j as [|j IH]; intros rs w Hc Hrq Hfit Hfull; simpl.
  - rewrite Nat.add_0_r in Hfull. rewrite do_call_put_full by done.
    rewrite !app_nil_r. by destruct w as [[]]; simplify_eq/=.
  - rewrite do_call_put_buffer; [|done..|by rewrite <- (Hfit 0), Nat.add_0_r by lia].
    rewrite IH; simpl; [|done..| |].
    + by rewrite <- !app_assoc.
    + intros i Hi. rewrite length_app. simpl.
      rewrite <- (Hfit (S i)) by lia. f_equal. lia.
    + rewrite length_app. simpl. rewrite <- Hfull. f_equal. lia.
Qed.

(** A consumer on an open, empty channel: each [take] that fits waits. *)
Lemma run_takes tid j rest rs got w :
  isClosed (chan w) = false → messageQueue (chan w) = [] →
  (∀ i, i < j → Arr.fits (length (resolveQueue (chan w)) + i) = true) →
  run_code tid (replicate j (Do Take) ++ rest) rs got w =
  run_code tid rest (rs ++ (JPromise <$> seq (length (promises (chan w))) j)) got
    (Loop (State false [] (resolveQueue (chan w) ++ seq (length (promises (chan w))) j)
             (promises (chan w) ++ replicate j Pending))
       (tasks w) (reactions w) (jobs w) (log w ++ replicate j (tid, Take))).
Proof.
  revert rs w; induction j as [|j IH]; intros rs w Hc Hmq Hfit; simpl.
  - rewrite !app_nil_r. by destruct w as [[]]; simplify_eq/=.
  - rewrite do_call_take_pending; [|done..|by rewrite <- (Hfit 0), Nat.add_0_r by lia].
    rewrite IH; simpl; [|done..|].
    + rewrite !length_app. simpl. rewrite Nat.add_1_r. by rewrite <- !app_assoc.
    + intros i Hi. rewrite length_app. simpl.
      rewrite <- (Hfit (S i)) by lia. f_equal. lia.
Qed.

End limit.

(** ** Programs that meet the limit *)

Section programs.
Context {V : Type} `{EqDecision V}.
Implicit Types (v : value V) (k n : nat).

Lemma fits_below k i : i < k → Arr.fits (E:=limited (N.of_nat k)) i = true.
Proof. intros Hi. rewrite fits_limited. apply bool_decide_eq_true. lia. Qed.

Lemma fits_at k : Arr.fits (E:=limited (N.of_nat k)) k = false.
Proof. rewrite fits_limited. apply bool_decide_eq_false. lia. Qed.

(** On an engine whose arrays hold [k] elements, a producer of [n > k]
    values with no consumer: [k] puts return [true] and their values are
    buffered, the next one throws a [RangeError] and the task stops there,
    with the rest of its puts not made. *)
Theorem flood_overflows k n v (h0 : heap (value V)) :
  k < n →
  run_tasks (E:=limited (N.of_nat k)) (createChannel h0) [flood n v]
  = Loop (State false (replicate k v) [] h0)
      [Task (flood (n - S k) v) (replicate k (JBool true)) [] (Failed (Thrown RangeError))]
      [] [] (replicate (S k) (0, Put v)).
Proof.
  intros Hk. assert (∃ m, n = k + S m) as [m ->] by (exists (n - S k); lia).
  replace (k + S m - S k) with m by lia. rewrite run_tasks_one.
  rewrite run_flood; [|done|done|by intros; apply fits_below|by apply fits_at].
  by rewrite drain_idle.
Qed.

(** On the same engine, a consumer that takes [k + 1] times from an empty
    channel: [k] takes wait, the last one returns a promise that is rejected
    with a [RangeError], and the task fails with that reason when it awaits
    it.  The other [k] promises stay pending. *)
Theorem starve_rejected k (h0 : heap (value V)) :
  run_tasks (E:=limited (N.of_nat k)) (createChannel h0) [starve (S k)]
  = Loop (State false [] (seq (length h0) k) (h0 ++ replicate k Pending ++ [Rejected RangeError]))
      [Task [] (JPromise <$> seq (length h0) (S k)) [] (Failed (RejectedWith RangeError))]
      [] [] (replicate (S k) (0, Take)).
Proof.
  rewrite run_tasks_one. unfold starve. rewrite replicate_S_end, <- app_assoc.
  rewrite run_takes; [|done|done|by intros; apply fits_below].
  simpl run_code. rewrite do_call_take_full; [|done|done|].
  2:{ simpl. rewrite length_seq. apply fits_at. }
  cbn [chan promises resolveQueue tasks reactions jobs log createChannel boot fmap list_fmap].
  rewrite (await_rejected 0 k [] _ [] (length h0 + k) RangeError); [|..|done].
  - unfold set_task. cbn -[seq replicate]. rewrite seq_S, fmap_app, length_app, length_replicate.
    by rewrite <- app_assoc, <- replicate_S_end.
  - rewrite lookup_app_r, length_fmap, length_seq, Nat.sub_diag by by rewrite length_fmap, length_seq.
    simpl. by rewrite length_app, length_replicate.
  - cbn [chan promises]. rewrite <- (length_replicate k (Pending (X:=value V))) at 1.
    rewrite <- length_app. apply lookup_snoc_length.
  - simpl. lia.
Qed.

End programs.

(** ** The theorems at concrete programs *)

Lemma tasks_below_witness :
  room (E:=limited 4) (calls_of [[Do (Take (V:=nat)); Await 0]; [Do (Put (payload 7)); Do Close]])
    (createChannel (V:=nat) []) = true
  ∧ run_tasks (E:=limited 4) (createChannel (V:=nat) [])
      [[Do Take; Await 0]; [Do (Put (payload 7)); Do Close]]
    = run_tasks (E:=ideal) (createChannel (V:=nat) [])
        [[Do Take; Await 0]; [Do (Put (payload 7)); Do Close]].
Proof.
  split; [reflexivity|].
  exact (tasks_below (E:=limited 4) (createChannel (V:=nat) [])
    [[Do Take; Await 0]; [Do (Put (payload 7)); Do Close]] eq_refl).
Defined.

Lemma flood_overflows_witness :
  run_tasks (E:=limited (N.of_nat 2)) (createChannel (V:=nat) []) [flood 4 (payload 7)]
  = Loop (State false [payload 7; payload 7] [] [])
      [Task [Do (Put (payload 7))] [JBool true; JBool true] [] (Failed (Thrown RangeError))]
      [] [] [(0, Put (payload 7)); (0, Put (payload 7)); (0, Put (payload 7))].
Proof. exact (flood_overflows (V:=nat) 2 4 (payload 7) [] (le_n_S _ _ (le_S _ _ (le_n 2)))). Defined.
