(* ===== verification/Spec.v ===== *)
(** * Spec: the channel as its specification describes it

    The specification describes a channel by three attributes, [closed],
    [messageQueue] and [waiterQueue], and says of [close] that it settles
    every waiting consumer and empties [waiterQueue].  Module [Spec] is that
    machine, one case per sentence of the specification, on the same Record
    as the code (with [resolveQueue] in the role of [waiterQueue]).

    The code does not empty [resolveQueue] in [close]: the resolving
    functions it has called stay in the array ([close_keeps_resolveQueue]).
    They are never called again, because after [close] no [put] reaches them
    and no [take] adds to them.  [abs] forgets them; [exec_refines] shows that
    through [abs] every call of the code is the call of the specification's
    machine, for every state.

    Two states with the same [abs] are equivalent ([≡]): every call answers
    the same in both and leads to equivalent states, so [answer], [exec] and
    [final] are [Proper] and [≡] can be rewritten under them. *)

From S2P Require Import Prelude JsMonad JsArray Promise Channel Invariant Trace.
Import Chan.

#[local] Existing Instance ideal.
#[local] Existing Instance inert.

Module Spec.

Section machine.
Context {V : Type}.
Implicit Types (s : state V) (v : value V).

(** [put]: refused when closed; otherwise handed to the oldest waiting
    consumer if there is one, else appended to [messageQueue]. *)
Definition put v s : bool * state V :=
  if isClosed s then (false, s)
  else match resolveQueue s with
       | r :: rq =>
           (true, State false (messageQueue s) rq (settle r (Fulfilled v) (promises s)))
       | [] => (true, State false (messageQueue s ++ [v]) [] (promises s))
       end.

(** [take]: in strict priority order, closed and empty gives the sentinel;
    a buffered value is removed and returned; otherwise a continuation is
    registered at the tail of [waiterQueue]. *)
Definition take s : promise * state V :=
  let p := length (promises s) in
  match isClosed s, messageQueue s with
  | true, [] =>
      (p, State true [] (resolveQueue s) (promises s ++ [Fulfilled CLOSED]))
  | c, v :: mq =>
      (p, State c mq (resolveQueue s) (promises s ++ [Fulfilled v]))
  | false, [] =>
      (p, State false [] (resolveQueue s ++ [p]) (promises s ++ [Pending]))
  end.

(** [close]: a no-op when closed; otherwise sets [closed], settles every
    continuation in [waiterQueue] with the sentinel, in order, and empties
    [waiterQueue]. *)
Definition close s : bool * state V :=
  if isClosed s then (false, s)
  else (true, State true (messageQueue s) []
                (settle_all (resolveQueue s) (Fulfilled CLOSED) (promises s))).

Definition perform (c : call V) s : ret * state V :=
  match c with
  | Put v => let '(b, s') := put v s in (RBool b, s')
  | Take => let '(p, s') := take s in (RPromise p, s')
  | Close => let '(b, s') := close s in (RBool b, s')
  end.

(** A sequence of calls on the specification's machine. *)
Fixpoint perform_all (cs : list (call V)) s : list ret * state V :=
  match cs with
  | [] => ([], s)
  | c :: cs' =>
      let '(r, s') := perform c s in
      let '(rs, s'') := perform_all cs' s' in
      (r :: rs, s'')
  end.

End machine.

End Spec.

(** What of a state of the code the specification's machine sees: once the
    channel is closed, nothing of [resolveQueue]. *)
Definition abs {V} (s : state V) : state V :=
  if isClosed s then State true (messageQueue s) [] (promises s) else s.

(** States that differ only in what [abs] forgets. *)
#[export] Instance state_equiv {V} : Equiv (state V) := λ s1 s2, abs s1 = abs s2.

(** ** The code against the specification's machine *)

Section refines.
Context {V : Type}.
Implicit Types (s : state V) (v : value V) (c : call V).

Lemma abs_open s : isClosed s = false → abs s = s.
Proof. intros H. unfold abs. by rewrite H. Qed.

Lemma abs_closed s :
  isClosed s = true → abs s = State true (messageQueue s) [] (promises s).
Proof. intros H. unfold abs. by rewrite H. Qed.

Lemma abs_idemp s : abs (abs s) = abs s.
Proof. unfold abs. by destruct (isClosed s) eqn:E; simpl; rewrite ?E. Qed.

(** [abs] keeps what a caller can see. *)
Lemma isClosed_abs s : isClosed (abs s) = isClosed s.
Proof. unfold abs. by destruct (isClosed s) eqn:E. Qed.

Lemma messageQueue_abs s : messageQueue (abs s) = messageQueue s.
Proof. unfold abs. by destruct (isClosed s). Qed.

Lemma promises_abs s : promises (abs s) = promises s.
Proof. unfold abs. by destruct (isClosed s). Qed.

(** C38: [close] calls the resolving functions of [resolveQueue] and leaves them
    in the array. *)
Lemma close_keeps_resolveQueue s :
  isClosed s = false → resolveQueue (after close s) = resolveQueue s.
Proof. intros H. unfold after. by rewrite close_open. Qed.

Lemma put_refines v s :
  (Spec.put v (abs s)).1 = negb (isClosed s)
  ∧ (Spec.put v (abs s)).2 = abs (after (put v) s).
Proof.
  unfold after, Spec.put. rewrite isClosed_abs.
  destruct (isClosed s) eqn:Hc; simpl.
  { by rewrite put_closed. }
  rewrite abs_open by done. destruct (resolveQueue s) as [|r rq] eqn:Hrq.
  - by rewrite put_buffer.
  - by rewrite (put_handoff _ _ r rq).
Qed.

Lemma take_refines s :
  (Spec.take (abs s)).1 = length (promises s)
  ∧ (Spec.take (abs s)).2 = abs (after take s).
Proof.
  unfold after, Spec.take. rewrite isClosed_abs, messageQueue_abs, promises_abs.
  destruct (messageQueue s) as [|v mq] eqn:Hmq; [destruct (isClosed s) eqn:Hc|].
  - rewrite take_closed_drained by done. by rewrite abs_closed.
  - rewrite take_pending by done. by rewrite abs_open.
  - rewrite (take_buffered _ v mq) by done.
    unfold abs; simpl. by destruct (isClosed s).
Qed.

Lemma close_refines s :
  (Spec.close (abs s)).1 = negb (isClosed s)
  ∧ (Spec.close (abs s)).2 = abs (after close s).
Proof.
  unfold after, Spec.close. rewrite isClosed_abs.
  destruct (isClosed s) eqn:Hc; simpl.
  { by rewrite close_closed. }
  rewrite abs_open by done. by rewrite close_open.
Qed.

(** Through [abs], a call of the code is the call of the specification's
    machine: same answer, same state. *)
Theorem exec_refines c s :
  Spec.perform c (abs s) = (answer c s, abs (after (exec c) s)).
Proof.
  rewrite after_exec. destruct c as [v| |]; simpl.
  - destruct (put_refines v s) as [H1 H2]. destruct (Spec.put v (abs s)). simpl in *.
    by subst.
  - destruct (take_refines s) as [H1 H2]. destruct (Spec.take (abs s)). simpl in *.
    by subst.
  - destruct (close_refines s) as [H1 H2]. destruct (Spec.close (abs s)). simpl in *.
    by subst.
Qed.

(** The same along a sequence of calls. *)
Lemma perform_all_spec (cs : list (call V)) s :
  Spec.perform_all cs (abs s) = (answers cs s, abs (final cs s)).
Proof.
  revert s; induction cs as [|c cs IH]; intros s; [done|].
  simpl. by rewrite exec_refines, IH.
Qed.

(** C36: The code simulates the specification's machine step for step: a
    sequence of calls of the code returns the answers that the machine gives
    from the abstraction of the state, and it leaves a state whose
    abstraction is the state the machine is left in. *)
Theorem run_refines (cs : list (call V)) s :
  result (run cs) s = Ret (Spec.perform_all cs (abs s)).1
  ∧ abs (after (run cs) s) = (Spec.perform_all cs (abs s)).2.
Proof. unfold result, after. by rewrite run_spec, perform_all_spec. Qed.

(** ** Equivalent states *)

#[global] Instance state_equiv_equivalence : Equivalence (≡@{state V}).
Proof.
  unfold equiv, state_equiv. split.
  - by intros s.
  - by intros s1 s2.
  - intros s1 s2 s3 H1 H2. by rewrite H1.
Qed.

Lemma abs_equiv s : abs s ≡ s.
Proof. apply abs_idemp. Qed.

#[global] Instance answer_proper c : Proper ((≡) ==> (=)) (answer c).
Proof.
  intros s1 s2 Hs. pose proof (exec_refines c s1) as H1.
  pose proof (exec_refines c s2) as H2. rewrite Hs in H1. rewrite H1 in H2.
  by simplify_eq.
Qed.

#[global] Instance after_exec_proper c : Proper ((≡) ==> (≡)) (after (exec c)).
Proof.
  intros s1 s2 Hs. pose proof (exec_refines c s1) as H1.
  pose proof (exec_refines c s2) as H2. rewrite Hs in H1. rewrite H1 in H2.
  unfold equiv, state_equiv. by simplify_eq.
Qed.

#[global] Instance final_proper (cs : list (call V)) :
  Proper ((≡) ==> (≡)) (final cs).
Proof.
  induction cs as [|c cs IH]; intros s1 s2 Hs; [done|].
  simpl. apply IH. by rewrite Hs.
Qed.

#[global] Instance answers_proper (cs : list (call V)) :
  Proper ((≡) ==> (=)) (answers cs).
Proof.
  induction cs as [|c cs IH]; intros s1 s2 Hs; [done|].
  simpl. f_equal; [by rewrite Hs|]. apply IH. by rewrite Hs.
Qed.

#[global] Instance promises_proper : Proper ((≡) ==> (=)) (@promises V).
Proof. intros s1 s2 Hs. by rewrite <- (promises_abs s1), Hs, promises_abs. Qed.


(** What [abs] forgets cannot be observed: a state and its abstraction, which
    once the channel is closed is the state with [resolveQueue] emptied,
    answer every sequence of calls alike and settle the same promises. *)
Theorem leftover_unobservable (cs : list (call V)) s :
  answers cs s = answers cs (abs s)
  ∧ promises (final cs s) = promises (final cs (abs s)).
Proof. by rewrite abs_equiv. Qed.

End refines.

(** ** The theorems at concrete states *)

Lemma close_keeps_resolveQueue_witness :
  isClosed (State (V:=nat) false [] [0; 1] [Pending; Pending]) = false
  ∧ resolveQueue (after close (State (V:=nat) false [] [0; 1] [Pending; Pending]))
    = [0; 1].
Proof.
  split; [reflexivity|].
  exact (close_keeps_resolveQueue (State false [] [0; 1] [Pending; Pending]) eq_refl).
Defined.
