(* ===== verification/Scenarios.v ===== *)
(** * Scenarios: the test suite, run on the model

    Each test of [src/__tests__/tests.js] is a task of the loop: the calls it
    makes on the channel that [beforeEach] created, its [await]s and its
    expectations, in the order of the test.  [run_test] is what the harness
    does with a test: it runs it on a new channel until no job is left, and
    the test passes when its function has returned, fails when it threw or
    an expectation did not hold, and times out when it still waits (the
    [async] helper of the tests calls [done] or [done.fail] when the promise
    of the test function settles).  The messages are strings, as in the
    tests.

    After the tests come the end-to-end walk of the specification and two
    programs of two tasks, a consumer and a producer. *)

From stdpp Require Import strings.
From S2P Require Import Prelude JsMonad JsArray Promise Channel Invariant Trace.
From S2P Require Import Loop Sched Program.
Import Chan.

#[local] Existing Instance ideal.
#[local] Existing Instance inert.

#[local] Open Scope string_scope.

Abbreviation test := (list (instr string)).
Abbreviation msg s := (payload (V:=string) s).

(** What the harness reports of a test. *)
Inductive verdict : Type :=
| Pass
| Fail (f : failure)
| Timeout.

#[export] Instance verdict_eq_dec : EqDecision verdict.
Proof. solve_decision. Defined.

Definition verdict_of (st : status) : verdict :=
  match st with
  | Finished => Pass
  | Failed f => Fail f
  | _ => Timeout
  end.

(** [beforeEach(() => chan = createChannel())], then the test, then the jobs
    until none is left. *)
Definition run_test (body : test) : verdict :=
  from_option (verdict_of ∘ status_of) Timeout
    (tasks (run_tasks (createChannel []) [body]) !! 0).

(** put(): "returns true when a message is put on a channel with an empty
    message queue" *)
Definition test_put_empty : test :=
  [Do (Put (msg "msg")); Expect 0 (JBool true)].

(** "returns true when a message is put on a channel with an NONempty message
    queue" *)
Definition test_put_nonempty : test :=
  [Do (Put (msg "msg1")); Do (Put (msg "msg2")); Expect 1 (JBool true)].

(** "returns true when a message is put on a channel with NONempty resolve
    queue" *)
Definition test_put_waiting : test :=
  [Do Take; Do (Put (msg "msg")); Expect 1 (JBool true)].

(** "returns false when the channel is closed" *)
Definition test_put_closed : test :=
  [Do Close; Do (Put (msg "msg")); Expect 1 (JBool false)].

(** take: "returns a promise when take()ing from a channel" *)
Definition test_take_promise : test := [Do Take; ExpectPromise 0].

(** "returns a resolved promise when there is an untaken message" *)
Definition test_take_buffered : test := [Do (Put (msg "msg")); Do Take; Await 1].

(** "returns a resolved promise when there is untaken message and the channel
    is CLOSED" *)
Definition test_take_buffered_closed : test :=
  [Do (Put (msg "msg")); Do Close; Do Take; Await 2].

(** "returns a promise resolved with CLOSED when the channel is CLOSED, and
    there are no untaken messages" *)
Definition test_take_closed : test :=
  [Do Close; Do Take; Await 1; Expect 2 (JValue CLOSED)].

(** close: "returns true when closing an open channel" *)
Definition test_close_open : test := [Do Close; Expect 0 (JBool true)].

(** "returns false when closing a closed channel" *)
Definition test_close_closed : test := [Do Close; Do Close; Expect 1 (JBool false)].

(** "resolves all currently queued resolves" *)
Definition test_close_resolves : test :=
  [Do Take; Do Take; Do Take; Do Close; Expect 3 (JBool true)] ++ await_all [0; 1; 2].

Definition suite : list test :=
  [test_put_empty; test_put_nonempty; test_put_waiting; test_put_closed;
   test_take_promise; test_take_buffered; test_take_buffered_closed; test_take_closed;
   test_close_open; test_close_closed; test_close_resolves].

(** The end-to-end scenario of the specification: a pending take, a put that
    serves it, close, a take that gets the sentinel, a put that is refused. *)
Definition scenario_end_to_end : test :=
  [Do Take; Do (Put (msg "x")); Await 0; Expect 2 (JValue (msg "x"));
   Do Close; Expect 3 (JBool true);
   Do Take; Await 4; Expect 5 (JValue CLOSED);
   Do (Put (msg "y")); Expect 6 (JBool false)].

(** A consumer that takes twice and a producer that puts once and closes. *)
Definition consumer : test :=
  [Do Take; Await 0; Expect 1 (JValue (msg "x"));
   Do Take; Await 2; Expect 3 (JValue CLOSED)].

Definition producer : test := [Do (Put (msg "x")); Do Close].

(** A test that waits for a value nobody puts. *)
Definition test_hangs : test := [Do Take; Await 0].

(** ** The tests pass *)

Example test_put_empty_passes : run_test test_put_empty = Pass.
Proof. reflexivity. Qed.

Example test_put_nonempty_passes : run_test test_put_nonempty = Pass.
Proof. reflexivity. Qed.

Example test_put_waiting_passes : run_test test_put_waiting = Pass.
Proof. reflexivity. Qed.

Example test_put_closed_passes : run_test test_put_closed = Pass.
Proof. reflexivity. Qed.

Example test_take_promise_passes : run_test test_take_promise = Pass.
Proof. reflexivity. Qed.

Example test_take_buffered_passes : run_test test_take_buffered = Pass.
Proof. reflexivity. Qed.

Example test_take_buffered_closed_passes : run_test test_take_buffered_closed = Pass.
Proof. reflexivity. Qed.

Example test_take_closed_passes : run_test test_take_closed = Pass.
Proof. reflexivity. Qed.

Example test_close_open_passes : run_test test_close_open = Pass.
Proof. reflexivity. Qed.

Example test_close_closed_passes : run_test test_close_closed = Pass.
Proof. reflexivity. Qed.

Example test_close_resolves_passes : run_test test_close_resolves = Pass.
Proof. reflexivity. Qed.

(** The whole suite passes, and every test of it is safe. *)
Example suite_passes : Forall (λ t, run_test t = Pass) suite.
Proof. repeat constructor. Qed.

Example suite_scoped : forallb (scoped 0) suite = true.
Proof. reflexivity. Qed.

(** What the tests that await received: the message, and [CLOSED]. *)
Example test_take_buffered_receives :
  received_by (run_tasks (createChannel []) [test_take_buffered]) 0 = [(0, msg "msg")].
Proof. reflexivity. Qed.

Example test_close_resolves_receives :
  received_by (run_tasks (createChannel []) [test_close_resolves]) 0
  = [(0, CLOSED); (1, CLOSED); (2, CLOSED)].
Proof. reflexivity. Qed.

(** The harness tells a wrong expectation and a test that hangs. *)
Example wrong_expectation_fails :
  run_test [Do Close; Do (Put (msg "msg")); Expect 1 (JBool true)] = Fail ExpectationFailed.
Proof. reflexivity. Qed.

Example test_hangs_times_out : run_test test_hangs = Timeout.
Proof. reflexivity. Qed.

(** ** The scenarios *)

Example scenario_end_to_end_passes : run_test scenario_end_to_end = Pass.
Proof. reflexivity. Qed.

(** The calls of the scenario, as the channel saw them, and their answers. *)
Example scenario_end_to_end_calls :
  calls_made (run_tasks (createChannel []) [scenario_end_to_end])
  = [Take; Put (msg "x"); Close; Take; Put (msg "y")]
  ∧ answers (calls_made (run_tasks (createChannel []) [scenario_end_to_end]))
      (createChannel (V:=string) [])
    = [RPromise 0; RBool true; RBool true; RPromise 1; RBool false].
Proof. by split. Qed.

(** The consumer started first waits for the producer; the producer started
    first fills the buffer.  Either way both finish, and the calls interleave
    as the [await]s allow. *)
Example consumer_first :
  status_of <$> tasks (run_tasks (createChannel []) [consumer; producer])
  = [Finished; Finished]
  ∧ log (run_tasks (createChannel []) [consumer; producer])
    = [(0, Take); (1, Put (msg "x")); (1, Close); (0, Take)].
Proof. by split. Qed.

Example producer_first :
  status_of <$> tasks (run_tasks (createChannel []) [producer; consumer])
  = [Finished; Finished]
  ∧ log (run_tasks (createChannel []) [producer; consumer])
    = [(0, Put (msg "x")); (0, Close); (1, Take); (1, Take)].
Proof. by split. Qed.
